(** * Page-enhancement script of massagechaircanada.github.io

    A shallow embedding of [assets/js/site.js] (first version, module [V1])
    and of its revision "v2" (module [V2]) over a small model of the
    browser platform the script talks to: strings, the element tree,
    selectors, the window, timers and intersection observers. *)

From Stdlib Require Import ZArith QArith Qround Ascii String List Lia.
From stdpp Require Import base option list gmap strings pretty.

Set Warnings "-register-all".
Local Open Scope Z_scope.

(** ** JavaScript strings and arrays

    A string is a sequence of code units; the model covers the code units
    U+0000..U+00FF, one [ascii] each.  On that range [toLowerCase] and the
    regular-expression class [\s] are exactly the functions below. *)

Module JS.

Definition code (c : ascii) : N := N_of_ascii c.

(** [\s] on U+0000..U+00FF: TAB, LF, VT, FF, CR, SPACE and NBSP. *)
Definition is_ws (c : ascii) : bool :=
  let n := code c in
  ((9 <=? n) && (n <=? 13) || (n =? 32) || (n =? 160))%N.

(** [String.prototype.toLowerCase], one code unit: A-Z and the Latin-1
    capitals U+00C0..U+00DE (U+00D7, the multiplication sign, apart). *)
Definition lower_char (c : ascii) : ascii :=
  let n := code c in
  if ((65 <=? n) && (n <=? 90)
      || (192 <=? n) && (n <=? 222) && negb (n =? 215))%N
  then ascii_of_N (n + 32) else c.

Fixpoint toLowerCase (s : string) : string :=
  match s with
  | EmptyString => EmptyString
  | String c s' => String (lower_char c) (toLowerCase s')
  end.

(** [s.slice(1)] *)
Definition slice1 (s : string) : string :=
  match s with
  | EmptyString => EmptyString
  | String _ s' => s'
  end.

(** [s.split(/\s+/)]: the pieces between maximal runs of white space;
    [in_ws] tells that the previous code unit was white space, [cur] is
    the piece being read. *)
Fixpoint split_go (in_ws : bool) (cur : string) (s : string) : list string :=
  match s with
  | EmptyString => [cur]
  | String c s' =>
      if is_ws c
      then (if in_ws then split_go true cur s'
            else cur :: split_go true EmptyString s')
      else split_go false (cur +:+ String c EmptyString) s'
  end.

Definition split_ws (s : string) : list string := split_go false EmptyString s.

(** [Boolean(s)] for a string: the empty string is falsy. *)
Definition truthy (s : string) : bool :=
  match s with EmptyString => false | _ => true end.

(** [s.split(/\s+/).filter(Boolean)] *)
Definition tokens (s : string) : list string := List.filter truthy (split_ws s).

(** No white space in [s]. *)
Fixpoint ws_free (s : string) : bool :=
  match s with
  | EmptyString => true
  | String c s' => negb (is_ws c) && ws_free s'
  end.

(** A token: not empty, no white space. *)
Definition clean (s : string) : Prop := truthy s = true ∧ ws_free s = true.

(** [arr.join(sep)] *)
Fixpoint join (sep : string) (l : list string) : string :=
  match l with
  | [] => EmptyString
  | [x] => x
  | x :: l' => x +:+ sep +:+ join sep l'
  end.

(** [a || b] on strings. *)
Definition or_str (a b : string) : string := if truthy a then a else b.

(** [a || b] on numbers. *)
Definition or_num (a b : Z) : Z := if a =? 0 then b else a.

(** A [Set] keeps its members in insertion order. *)
Definition set_add (x : string) (s : list string) : list string :=
  if bool_decide (x ∈ s) then s else s ++ [x].

(** [new Set(arr)] *)
Definition set_of (l : list string) : list string :=
  foldl (fun s x => set_add x s) [] l.

(** [arr.sort(cmp)]: a stable sort; [x] goes before [y] when [cmp x y <= 0]
    and [x] was first. *)
Section Sort.
Context {A : Type} (cmp : A → A → Q).

Fixpoint sort_insert (x : A) (l : list A) : list A :=
  match l with
  | [] => [x]
  | y :: l' => if Qle_bool (cmp x y) 0 then x :: y :: l' else y :: sort_insert x l'
  end.

Fixpoint sort (l : list A) : list A :=
  match l with
  | [] => []
  | x :: l' => sort_insert x (sort l')
  end.
End Sort.

(** [a || b] on numbers that are ratios. *)
Definition or_ratio (a b : Q) : Q := if Qeq_bool a 0 then b else a.

End JS.

Example split_ws_ex1 : JS.split_ws " a  b " = [""; "a"; "b"; ""].
Proof. reflexivity. Qed.
Example split_ws_ex2 : JS.split_ws "" = [""].
Proof. reflexivity. Qed.
Example tokens_ex1 : JS.tokens " NoFollow  UGC " = ["NoFollow"; "UGC"].
Proof. reflexivity. Qed.
Example lower_ex1 : JS.toLowerCase "NoFollow UGC" = "nofollow ugc".
Proof. vm_compute. reflexivity. Qed.

(** ** The element tree *)

Module Dom.

(** A handle: the identity of an element object. *)
Definition nid := nat.
Bind Scope nat_scope with nid.

(** Listeners the script attaches to elements it creates. *)
Inductive listener :=
  | CopyLinkClick (h : nid).

Record element := Element {
  el_id : nid;
  tagName : string;                (* local name, lower case *)
  attrs : gmap string string;      (* content attributes; [dataset.x] is [data-x] *)
  classList : list string;         (* the [class] attribute as a token list *)
  style : gmap string string;      (* inline style declarations *)
  textContent : string;
  rect_top : Z;                    (* [getBoundingClientRect().top] *)
  rect_height : Q;                 (* [getBoundingClientRect().height] *)
  rendered : bool;                 (* [offsetParent !== null] *)
  displayed : bool;                (* being rendered and visible, neither inert nor
                                      in a disabled [fieldset] *)
  listeners : list listener
}.

Inductive node := Node (e : element) (kids : list node).

Definition elem (n : node) : element := let 'Node e _ := n in e.
Definition children (n : node) : list node := let 'Node _ kids := n in kids.
Definition nid_of (n : node) : nid := el_id (elem n).

(** *** Element properties *)

Definition getAttribute (a : string) (e : element) : option string := attrs e !! a.
Definition hasAttribute (a : string) (e : element) : bool := bool_decide (is_Some (attrs e !! a)).

Definition with_attrs (f : gmap string string → gmap string string) (e : element) : element :=
  Element (el_id e) (tagName e) (f (attrs e)) (classList e) (style e)
          (textContent e) (rect_top e) (rect_height e) (rendered e) (displayed e)
          (listeners e).
Definition with_classList (f : list string → list string) (e : element) : element :=
  Element (el_id e) (tagName e) (attrs e) (f (classList e)) (style e)
          (textContent e) (rect_top e) (rect_height e) (rendered e) (displayed e)
          (listeners e).
Definition with_style (f : gmap string string → gmap string string) (e : element) : element :=
  Element (el_id e) (tagName e) (attrs e) (classList e) (f (style e))
          (textContent e) (rect_top e) (rect_height e) (rendered e) (displayed e)
          (listeners e).
Definition with_textContent (t : string) (e : element) : element :=
  Element (el_id e) (tagName e) (attrs e) (classList e) (style e)
          t (rect_top e) (rect_height e) (rendered e) (displayed e)
          (listeners e).
Definition with_listener (l : listener) (e : element) : element :=
  Element (el_id e) (tagName e) (attrs e) (classList e) (style e)
          (textContent e) (rect_top e) (rect_height e) (rendered e) (displayed e)
          (listeners e ++ [l]).

Definition setAttribute (a v : string) : element → element := with_attrs (insert a v).

(** [el.id]: the [id] attribute, or the empty string. *)
Definition id_of (e : element) : string := default "" (getAttribute "id" e).

Definition classList_contains (c : string) (e : element) : bool := bool_decide (c ∈ classList e).
Definition classList_add (c : string) : element → element :=
  with_classList (fun l => if bool_decide (c ∈ l) then l else l ++ [c]).
Definition classList_remove (c : string) : element → element :=
  with_classList (filter (fun x => x ≠ c)).
(** [el.className = "c"] for a single class name [c]. *)
Definition set_className (c : string) : element → element := with_classList (fun _ => [c]).

(** Assigning the empty string to a style property removes the declaration. *)
Definition set_style (prop v : string) (m : gmap string string) : gmap string string :=
  if JS.truthy v then <[prop := v]> m else delete prop m.
Definition get_style (prop : string) (m : gmap string string) : string := default "" (m !! prop).

(** [document.createElement(tag)] with the handle [x]: no attribute, no
    class, no child, not laid out. *)
Definition createElement (x : nid) (tag : string) : element :=
  Element x tag ∅ [] ∅ "" 0 0%Q false false [].

(** *** Selectors *)

Inductive simple :=
  | STag (t : string)              (* [t] *)
  | SId (i : string)               (* [#i] *)
  | SClass (c : string)            (* [.c] *)
  | SHas (a : string)              (* [[a]] *)
  | SEq (a v : string)             (* [[a="v"]] *)
  | SPrefix (a v : string)         (* [[a^="v"]] *)
  | SNot (s : simple).             (* [:not(s)] *)

(** A compound selector, optionally under a descendant combinator. *)
Record complex := Complex { under : option (list simple); subject : list simple }.

Definition selector := list complex.

Fixpoint matches_simple (e : element) (s : simple) : bool :=
  match s with
  | STag t => bool_decide (tagName e = t)
  | SId i => bool_decide (getAttribute "id" e = Some i)
  | SClass c => classList_contains c e
  | SHas a => hasAttribute a e
  | SEq a v => bool_decide (getAttribute a e = Some v)
  | SPrefix a v =>
      match getAttribute a e with
      | Some x => if v is EmptyString then false else String.prefix v x
      | None => false
      end
  | SNot s' => negb (matches_simple e s')
  end.

Definition matches_compound (e : element) (c : list simple) : bool :=
  forallb (matches_simple e) c.

(** [anc]: the ancestors of [e], nearest first. *)
Definition matches_complex (e : element) (anc : list element) (c : complex) : bool :=
  matches_compound e (subject c)
  && match under c with
     | None => true
     | Some u => existsb (fun a => matches_compound a u) anc
     end.

Definition matches (sel : selector) (e : element) (anc : list element) : bool :=
  existsb (matches_complex e anc) sel.

(** *** Tree queries *)

(** The elements of a subtree in document order, each with its ancestors
    (nearest first). *)
Fixpoint entries (anc : list element) (n : node) : list (element * list element) :=
  let 'Node e kids := n in
  (e, anc) :: flat_map (entries (e :: anc)) kids.

Definition all_entries (d : node) : list (element * list element) := entries [] d.

Definition elements (d : node) : list element := map fst (all_entries d).
Definition ids (d : node) : list nid := map el_id (elements d).

Definition entry_of (x : nid) (d : node) : option (element * list element) :=
  List.find (fun en => Nat.eqb (el_id (fst en)) x) (all_entries d).

(** The element behind a handle. *)
Definition get (x : nid) (d : node) : option element := fst <$> entry_of x d.

(** [document.querySelectorAll(sel)], as handles. *)
Definition querySelectorAll (sel : selector) (d : node) : list nid :=
  map (fun en => el_id (fst en))
      (List.filter (fun en => matches sel (fst en) (snd en)) (all_entries d)).

(** [root.querySelectorAll(sel)]: only descendants of [root] are listed. *)
Definition querySelectorAll_in (sel : selector) (root : nid) (d : node) : list nid :=
  map (fun en => el_id (fst en))
      (List.filter (fun en => matches sel (fst en) (snd en)
                              && existsb (fun a => Nat.eqb (el_id a) root) (snd en))
                   (all_entries d)).

Definition querySelector (sel : selector) (d : node) : option nid :=
  head (querySelectorAll sel d).
Definition querySelector_in (sel : selector) (root : nid) (d : node) : option nid :=
  head (querySelectorAll_in sel root d).

(** [document.getElementById(i)] *)
Definition getElementById (i : string) (d : node) : option nid :=
  if JS.truthy i
  then el_id <$> List.find (fun e => bool_decide (getAttribute "id" e = Some i)) (elements d)
  else None.

(** [el.parentElement] *)
Definition parentElement (x : nid) (d : node) : option element :=
  en ← entry_of x d; head (snd en).

(** [el.closest(sel)]: the element itself or its nearest ancestor matching. *)
Fixpoint closest_in (sel : selector) (chain : list element) : option element :=
  match chain with
  | [] => None
  | e :: anc => if matches sel e anc then Some e else closest_in sel anc
  end.
Definition closest (sel : selector) (x : nid) (d : node) : option element :=
  en ← entry_of x d; closest_in sel (fst en :: snd en).

(** *** Tree updates *)

(** Apply [f] to the element behind the handle [x]. *)
Fixpoint update (x : nid) (f : element → element) (n : node) : node :=
  let 'Node e kids := n in
  Node (if Nat.eqb (el_id e) x then f e else e) (map (update x f) kids).

(** The subtree rooted at the handle [x]. *)
Fixpoint subtrees (n : node) : list node :=
  let 'Node _ kids := n in n :: flat_map subtrees kids.
Definition subtree (x : nid) (d : node) : option node :=
  List.find (fun n => Nat.eqb (nid_of n) x) (subtrees d).

(** Detach the node [x] from its parent. *)
Fixpoint remove (x : nid) (n : node) : node :=
  let 'Node e kids := n in
  Node e (flat_map (fun k => if Nat.eqb (nid_of k) x then [] else [remove x k]) kids).

(** Make [c] the last child of [p]. *)
Fixpoint append_under (p : nid) (c : node) (n : node) : node :=
  let 'Node e kids := n in
  let kids' := map (append_under p c) kids in
  Node e (if Nat.eqb (el_id e) p then kids' ++ [c] else kids').

(** [p.appendChild(c)]: [c] leaves its former parent, if it has one. *)
Definition appendChild (p : nid) (c : node) (d : node) : node :=
  append_under p c (remove (nid_of c) d).

Fixpoint insert_before (new : node) (ref : nid) (kids : list node) : list node :=
  match kids with
  | [] => []
  | k :: kids' =>
      if Nat.eqb (nid_of k) ref then new :: k :: kids'
      else k :: insert_before new ref kids'
  end.

(** [p.insertBefore(new, ref)] for a detached [new] and a child [ref] of [p]. *)
Fixpoint insertBefore (p : nid) (new : node) (ref : nid) (n : node) : node :=
  let 'Node e kids := n in
  let kids' := map (insertBefore p new ref) kids in
  Node e (if Nat.eqb (el_id e) p then insert_before new ref kids' else kids').

(** Handles are unique in the tree and older than [next]. *)
Definition wf (next : nid) (d : node) : Prop :=
  NoDup (ids d) ∧ Forall (fun x => (x < next)%nat) (ids d).

End Dom.

(** ** The page: document, window and the script's own variables *)

Module Page.

Import Dom.

(** [ScrollBehavior] *)
Inductive behavior := Auto | Smooth.

(** What [document.activeElement] can be: the body when nothing has the
    focus, or an element of the tree. *)
Inductive active := Body | El (x : nid).

#[global] Instance active_eq_dec : EqDecision active.
Proof. solve_decision. Defined.

(** What a pending timer does when it fires. *)
Inductive timer_action :=
  | ResetIgnoreClick               (* [ignoreClick = false] (v2) *)
  | RestoreLabel (b : nid).        (* the copy-link button shows its link glyph again *)

(** Capabilities and facts of the hosting browser, fixed for a page view. *)
Record env := Env {
  has_IntersectionObserver : bool;   (* ["IntersectionObserver" in window] *)
  has_clipboard : bool;              (* [navigator.clipboard] is defined *)
  clipboard_rejects : bool;          (* [writeText] rejects *)
  reduced_motion : option bool;      (* [matchMedia(...).matches]; [None]: no [matchMedia] *)
  pushState_throws : bool;           (* [history.pushState] throws *)
  origin : string;                   (* [location.origin] *)
  pathname : string                  (* [location.pathname] *)
}.

(** The variables the listeners of [initMobileMenu] close over. *)
Record menu_vars := Menu {
  btn : nid;
  drawer : nid;
  scrim : nid;
  lastFocus : option active;         (* [null] at first *)
  ignoreClick : bool                 (* v2 only *)
}.

(** The variables the observer callback of [initActiveNav] closes over. *)
Record nav_vars := Nav {
  navLinks : list nid;
  mapIdToLinks : gmap string (list nid);
  observed : list nid
}.

(** An [IntersectionObserverEntry]. *)
Record entry := Entry {
  en_target : nid;
  isIntersecting : bool;
  intersectionRatio : Q
}.

(** An event object as the listeners use it. *)
Record event := Event {
  target : nid;
  key : string;
  shiftKey : bool;
  defaultPrevented : bool;
  propagationStopped : bool
}.

Definition preventDefault (e : event) : event :=
  Event (target e) (key e) (shiftKey e) true (propagationStopped e).
Definition stopPropagation (e : event) : event :=
  Event (target e) (key e) (shiftKey e) (defaultPrevented e) true.

Definition click_on (x : nid) : event := Event x "" false false false.
Definition key_down (k : string) (shift : bool) : event := Event 0%nat k shift false false.

Record page := Page {
  tree : Dom.node;                               (* the document's element tree *)
  next_id : Dom.nid;                             (* the handle of the next element created *)
  html_style : gmap string string;               (* [document.documentElement.style] *)
  body_style : gmap string string;               (* [document.body.style] *)
  scroll_x : Z;                                  (* viewport scroll offset, horizontal *)
  scroll_y : Z;                                  (* viewport scroll offset, vertical: [scrollY], [pageYOffset] *)
  scroll_behavior : behavior;                    (* behaviour asked for by the last scroll call *)
  location_hash : string;                        (* [location.hash] *)
  history_length : nat;                          (* [history.length] *)
  activeElement : active;                        (* [document.activeElement] *)
  clipboard : string;                            (* system clipboard *)
  now : Z;                                       (* current time, ms *)
  timers : list (Z * timer_action);              (* pending [setTimeout] callbacks with their due times *)
  platform : env;                                (* what the browser offers *)
  lock_y : Z;                                    (* [scrollLock._y] *)
  menu : option menu_vars;                       (* variables of [initMobileMenu], once wired *)
  nav : option nav_vars;                         (* variables of [initActiveNav], once observing *)
  lazy : option (list Dom.nid)                   (* iframes the observer of [initLazyIframes] watches *)
}.

Definition set_tree (v : Dom.node) (p : page) : page :=
  Page v (next_id p) (html_style p) (body_style p) (scroll_x p) (scroll_y p)
      (scroll_behavior p) (location_hash p) (history_length p) (activeElement p)
      (clipboard p) (now p) (timers p) (platform p) (lock_y p) (menu p) (nav p)
      (lazy p).
Definition set_next_id (v : Dom.nid) (p : page) : page :=
  Page (tree p) v (html_style p) (body_style p) (scroll_x p) (scroll_y p)
      (scroll_behavior p) (location_hash p) (history_length p) (activeElement p)
      (clipboard p) (now p) (timers p) (platform p) (lock_y p) (menu p) (nav p)
      (lazy p).
Definition set_html_style (v : gmap string string) (p : page) : page :=
  Page (tree p) (next_id p) v (body_style p) (scroll_x p) (scroll_y p)
      (scroll_behavior p) (location_hash p) (history_length p) (activeElement p)
      (clipboard p) (now p) (timers p) (platform p) (lock_y p) (menu p) (nav p)
      (lazy p).
Definition set_body_style (v : gmap string string) (p : page) : page :=
  Page (tree p) (next_id p) (html_style p) v (scroll_x p) (scroll_y p)
      (scroll_behavior p) (location_hash p) (history_length p) (activeElement p)
      (clipboard p) (now p) (timers p) (platform p) (lock_y p) (menu p) (nav p)
      (lazy p).
Definition set_scroll_x (v : Z) (p : page) : page :=
  Page (tree p) (next_id p) (html_style p) (body_style p) v (scroll_y p)
      (scroll_behavior p) (location_hash p) (history_length p) (activeElement p)
      (clipboard p) (now p) (timers p) (platform p) (lock_y p) (menu p) (nav p)
      (lazy p).
Definition set_scroll_y (v : Z) (p : page) : page :=
  Page (tree p) (next_id p) (html_style p) (body_style p) (scroll_x p) v
      (scroll_behavior p) (location_hash p) (history_length p) (activeElement p)
      (clipboard p) (now p) (timers p) (platform p) (lock_y p) (menu p) (nav p)
      (lazy p).
Definition set_scroll_behavior (v : behavior) (p : page) : page :=
  Page (tree p) (next_id p) (html_style p) (body_style p) (scroll_x p) (scroll_y p) v
      (location_hash p) (history_length p) (activeElement p) (clipboard p) (now p)
      (timers p) (platform p) (lock_y p) (menu p) (nav p) (lazy p).
Definition set_location_hash (v : string) (p : page) : page :=
  Page (tree p) (next_id p) (html_style p) (body_style p) (scroll_x p) (scroll_y p)
      (scroll_behavior p) v (history_length p) (activeElement p) (clipboard p) (now p)
      (timers p) (platform p) (lock_y p) (menu p) (nav p) (lazy p).
Definition set_history_length (v : nat) (p : page) : page :=
  Page (tree p) (next_id p) (html_style p) (body_style p) (scroll_x p) (scroll_y p)
      (scroll_behavior p) (location_hash p) v (activeElement p) (clipboard p) (now p)
      (timers p) (platform p) (lock_y p) (menu p) (nav p) (lazy p).
Definition set_activeElement (v : active) (p : page) : page :=
  Page (tree p) (next_id p) (html_style p) (body_style p) (scroll_x p) (scroll_y p)
      (scroll_behavior p) (location_hash p) (history_length p) v (clipboard p) (now p)
      (timers p) (platform p) (lock_y p) (menu p) (nav p) (lazy p).
Definition set_clipboard (v : string) (p : page) : page :=
  Page (tree p) (next_id p) (html_style p) (body_style p) (scroll_x p) (scroll_y p)
      (scroll_behavior p) (location_hash p) (history_length p) (activeElement p) v
      (now p) (timers p) (platform p) (lock_y p) (menu p) (nav p) (lazy p).
Definition set_now (v : Z) (p : page) : page :=
  Page (tree p) (next_id p) (html_style p) (body_style p) (scroll_x p) (scroll_y p)
      (scroll_behavior p) (location_hash p) (history_length p) (activeElement p)
      (clipboard p) v (timers p) (platform p) (lock_y p) (menu p) (nav p) (lazy p).
Definition set_timers (v : list (Z * timer_action)) (p : page) : page :=
  Page (tree p) (next_id p) (html_style p) (body_style p) (scroll_x p) (scroll_y p)
      (scroll_behavior p) (location_hash p) (history_length p) (activeElement p)
      (clipboard p) (now p) v (platform p) (lock_y p) (menu p) (nav p) (lazy p).
Definition set_lock_y (v : Z) (p : page) : page :=
  Page (tree p) (next_id p) (html_style p) (body_style p) (scroll_x p) (scroll_y p)
      (scroll_behavior p) (location_hash p) (history_length p) (activeElement p)
      (clipboard p) (now p) (timers p) (platform p) v (menu p) (nav p) (lazy p).
Definition set_menu (v : option menu_vars) (p : page) : page :=
  Page (tree p) (next_id p) (html_style p) (body_style p) (scroll_x p) (scroll_y p)
      (scroll_behavior p) (location_hash p) (history_length p) (activeElement p)
      (clipboard p) (now p) (timers p) (platform p) (lock_y p) v (nav p) (lazy p).
Definition set_nav (v : option nav_vars) (p : page) : page :=
  Page (tree p) (next_id p) (html_style p) (body_style p) (scroll_x p) (scroll_y p)
      (scroll_behavior p) (location_hash p) (history_length p) (activeElement p)
      (clipboard p) (now p) (timers p) (platform p) (lock_y p) (menu p) v (lazy p).
Definition set_lazy (v : option (list Dom.nid)) (p : page) : page :=
  Page (tree p) (next_id p) (html_style p) (body_style p) (scroll_x p) (scroll_y p)
      (scroll_behavior p) (location_hash p) (history_length p) (activeElement p)
      (clipboard p) (now p) (timers p) (platform p) (lock_y p) (menu p) (nav p) v.

Definition set_lastFocus (v : option active) (m : menu_vars) : menu_vars :=
  Menu (btn m) (drawer m) (scrim m) v (ignoreClick m).
Definition set_ignoreClick (v : bool) (m : menu_vars) : menu_vars :=
  Menu (btn m) (drawer m) (scrim m) (lastFocus m) v.

(** *** Document access *)

Definition el (x : nid) (p : page) : option element := get x (tree p).

(** Run [f] on the element behind [x]. *)
Definition on_el (x : nid) (f : element → element) (p : page) : page :=
  set_tree (update x f (tree p)) p.

(** [$(sel)] and [$$(sel)] of the script, on the document. *)
Definition query (sel : selector) (p : page) : option nid := querySelector sel (tree p).
Definition queryAll (sel : selector) (p : page) : list nid := querySelectorAll sel (tree p).

(** *** Window *)

Definition window_scrollY (p : page) : Z := scroll_y p.
Definition window_pageYOffset (p : page) : Z := scroll_y p.
Definition documentElement_scrollTop (p : page) : Z := scroll_y p.

(** [window.scrollTo(x, y)] *)
Definition scrollTo_xy (x y : Z) (p : page) : page :=
  set_scroll_behavior Auto (set_scroll_y y (set_scroll_x x p)).

(** [window.scrollTo({ top, behavior })] *)
Definition scrollTo_opts (top : Z) (b : behavior) (p : page) : page :=
  set_scroll_behavior b (set_scroll_y top p).

(** [history.pushState(null, "", url)] for a fragment-only [url]; [None]
    when the call throws. *)
Definition pushState (url : string) (p : page) : option page :=
  if pushState_throws (platform p) then None
  else Some (set_history_length (S (history_length p)) (set_location_hash url p)).

(** The rules for parsing integers of HTML, as far as they decide whether a
    value is one: leading ASCII whitespace, an optional sign, then at least
    one digit; what follows the digits is ignored. *)
Definition is_space (c : ascii) : bool :=
  let n := JS.code c in
  ((n =? 9) || (n =? 10) || (n =? 12) || (n =? 13) || (n =? 32))%N.
Definition is_digit (c : ascii) : bool :=
  let n := JS.code c in ((48 <=? n) && (n <=? 57))%N.
Fixpoint skip_spaces (s : string) : string :=
  match s with
  | String c rest => if is_space c then skip_spaces rest else s
  | EmptyString => s
  end.
Definition parses_integer (s : string) : bool :=
  match skip_spaces s with
  | String c rest =>
      if is_digit c then true
      else if bool_decide (c = "-"%char) || bool_decide (c = "+"%char)
      then match rest with String d _ => is_digit d | EmptyString => false end
      else false
  | EmptyString => false
  end.

(** A [tabindex] attribute counts when its value is an integer; any other
    value is ignored. *)
Definition tabindex_valid (e : element) : bool :=
  match getAttribute "tabindex" e with
  | Some v => parses_integer v
  | None => false
  end.

(** Elements [focus()] can move the focus to: displayed, and either carrying
    an integer [tabindex], or a link with [href], or a form control that is
    not disabled.  Having an offset parent is another matter: a fixed
    element has none and takes the focus, a [visibility: hidden] one has one
    and does not. *)
Definition focusable (e : element) : bool :=
  displayed e
  && (tabindex_valid e
      || bool_decide (tagName e = "a") && hasAttribute "href" e
      || bool_decide (tagName e ∈ ["button"; "input"; "select"; "textarea"])
         && negb (hasAttribute "disabled" e)).

(** [el.focus({ preventScroll: true })]: nothing happens on an element that
    cannot take the focus. *)
Definition focus (x : nid) (p : page) : page :=
  match el x p with
  | Some e => if focusable e then set_activeElement (El x) p else p
  | None => p
  end.

(** [setTimeout(action, delay)] *)
Definition setTimeout (a : timer_action) (delay : Z) (p : page) : page :=
  set_timers (timers p ++ [(now p + delay, a)]) p.

Definition link_glyph : string := "🔗".
Definition ok_glyph : string := "✅".
Definition fail_glyph : string := "❌".

Definition fire (a : timer_action) (p : page) : page :=
  match a with
  | ResetIgnoreClick => set_menu (set_ignoreClick false <$> menu p) p
  | RestoreLabel b => on_el b (with_textContent link_glyph) p
  end.

(** Time passes until [t]: the timers due by then fire, earliest first. *)
Definition advance (t : Z) (p : page) : page :=
  let due := List.filter (fun ta => fst ta <=? t) (timers p) in
  let rest := List.filter (fun ta => negb (fst ta <=? t)) (timers p) in
  let due := JS.sort (fun a b => inject_Z (fst a - fst b)) due in
  set_now t (foldl (fun q ta => fire (snd ta) q) (set_timers rest p) due).

(** *** Events *)

(** What reaches the page. *)
Inductive input :=
  | Click (x : nid)
  | TouchEnd (x : nid)
  | KeyDown (k : string) (shift : bool)
  | Resize (innerWidth : Z)
  | NavIntersect (entries : list entry)
  | LazyIntersect (entries : list entry).

Definition run_listeners (ls : list (event → page → event * page))
    (e : event) (p : page) : event * page :=
  foldl (fun ep l => l (fst ep) (snd ep)) (e, p) ls.

(** The event climbs from its target to the root, then to the document,
    unless a listener stops it. *)
Fixpoint bubble (at_node : nid → page → list (event → page → event * page))
    (path : list nid) (e : event) (p : page) : event * page :=
  match path with
  | [] => (e, p)
  | y :: path' =>
      if propagationStopped e then (e, p)
      else let ep := run_listeners (at_node y p) e p in
           bubble at_node path' (fst ep) (snd ep)
  end.

Definition path_of (x : nid) (p : page) : list nid :=
  match entry_of x (tree p) with
  | Some en => x :: map el_id (snd en)
  | None => []
  end.

End Page.

(** ** First version: [assets/js/site.js] *)

Module V1.

Import Dom Page.

(** *** Helpers *)

Definition prefersReducedMotion (p : page) : bool :=
  match reduced_motion (platform p) with
  | Some m => m
  | None => false
  end.

Definition safeFocus (t : option active) (p : page) : page :=
  match t with
  | Some (El x) => focus x p
  | Some Body => p
  | None => p
  end.

Module scrollLock.

Definition lock (p : page) : page :=
  let y := JS.or_num (window_scrollY p) (JS.or_num (documentElement_scrollTop p) 0) in
  let p := set_lock_y y p in
  let p := set_html_style (set_style "scroll-behavior" "auto" (html_style p)) p in
  let p := set_body_style (set_style "position" "fixed" (body_style p)) p in
  let p := set_body_style (set_style "top" ("-" +:+ pretty (lock_y p) +:+ "px") (body_style p)) p in
  let p := set_body_style (set_style "left" "0" (body_style p)) p in
  let p := set_body_style (set_style "right" "0" (body_style p)) p in
  set_body_style (set_style "width" "100%" (body_style p)) p.

Definition unlock (p : page) : page :=
  let y := JS.or_num (lock_y p) 0 in
  let p := set_body_style (set_style "position" "" (body_style p)) p in
  let p := set_body_style (set_style "top" "" (body_style p)) p in
  let p := set_body_style (set_style "left" "" (body_style p)) p in
  let p := set_body_style (set_style "right" "" (body_style p)) p in
  let p := set_body_style (set_style "width" "" (body_style p)) p in
  let p := scrollTo_xy 0 y p in
  let p := set_lock_y 0 p in
  set_html_style (set_style "scroll-behavior" "" (html_style p)) p.

End scrollLock.

Definition sel_topbar : selector := [Complex None [SClass "topbar"]].

Definition headerOffset (p : page) : Z :=
  let topbar := query sel_topbar p in
  let h := match topbar ≫= (fun x => el x p) with
           | Some t => Qceiling (rect_height t)
           | None => 0
           end in
  Z.max 0 (h + 10).

(** *** 1) Mobile menu drawer *)

Definition sel_id (i : string) : selector := [Complex None [SId i]].
Definition sel_class (c : string) : selector := [Complex None [SClass c]].
Definition sel_a : selector := [Complex None [STag "a"]].

(** ['a[href], button:not([disabled]), [tabindex]:not([tabindex="-1"])'] *)
Definition sel_focusables : selector :=
  [ Complex None [STag "a"; SHas "href"];
    Complex None [STag "button"; SNot (SHas "disabled")];
    Complex None [SHas "tabindex"; SNot (SEq "tabindex" "-1")] ].

(** [a || b] on element handles. *)
Definition or_el (a b : option nid) : option nid :=
  match a with Some _ => a | None => b end.

Definition isOpen (m : menu_vars) (p : page) : bool :=
  bool_decide ((el (drawer m) p ≫= getAttribute "data-open") = Some "true").

Definition setOpen (open : bool) (p : page) : page :=
  match menu p with
  | None => p
  | Some m =>
      let v := if open then "true" else "false" in
      let p := on_el (drawer m) (setAttribute "data-open" v) p in
      let p := on_el (scrim m) (setAttribute "data-open" v) p in
      let p := on_el (btn m) (setAttribute "aria-expanded" v) p in
      if open then
        let p := set_menu (Some (set_lastFocus (Some (activeElement p)) m)) p in
        let p := scrollLock.lock p in
        safeFocus (Some (El (drawer m))) p
      else
        let p := scrollLock.unlock p in
        safeFocus (match lastFocus m with
                   | Some f => Some f
                   | None => Some (El (btn m))
                   end) p
  end.

Definition toggle (p : page) : page :=
  match menu p with
  | None => p
  | Some m => setOpen (negb (isOpen m p)) p
  end.

Definition initMobileMenu (p : page) : page :=
  let btn := or_el (query (sel_id "navToggle") p) (query (sel_class "nav-toggle") p) in
  let drawer := or_el (query (sel_id "mobile-nav") p) (query (sel_class "mobile-nav") p) in
  let scrim := or_el (query (sel_id "navScrim") p) (query (sel_class "nav-scrim") p) in
  match btn, drawer, scrim with
  | Some btn, Some drawer, Some scrim =>
      let p := match el drawer p with
               | Some d => if hasAttribute "tabindex" d then p
                           else on_el drawer (setAttribute "tabindex" "-1") p
               | None => p
               end in
      set_menu (Some (Menu btn drawer scrim None false)) p
  | _, _, _ => p
  end.

(** Close on nav click: the [click] listener of the drawer. *)
Definition drawer_onClick (e : event) (p : page) : event * page :=
  match closest sel_a (target e) (tree p) with
  | Some _ => (e, setOpen false p)
  | None => (e, p)
  end.

(** The [click] listeners of the toggle button and of the scrim. *)
Definition btn_onClick (e : event) (p : page) : event * page := (e, toggle p).
Definition scrim_onClick (e : event) (p : page) : event * page := (e, setOpen false p).

(** Escape closes: first [keydown] listener of the document. *)
Definition escape_onKeydown (e : event) (p : page) : event * page :=
  match menu p with
  | None => (e, p)
  | Some m =>
      if bool_decide (key e = "Escape") && isOpen m p then (e, setOpen false p) else (e, p)
  end.

(** Focus trap: second [keydown] listener of the document. *)
Definition trap_onKeydown (e : event) (p : page) : event * page :=
  match menu p with
  | None => (e, p)
  | Some m =>
      if negb (isOpen m p) || negb (bool_decide (key e = "Tab")) then (e, p) else
      let focusables :=
        List.filter (fun x => match el x p with Some f => rendered f | None => false end)
                    (querySelectorAll_in sel_focusables (drawer m) (tree p)) in
      match head focusables, last focusables with
      | Some first, Some last =>
          if shiftKey e && bool_decide (activeElement p = El first)
          then (preventDefault e, safeFocus (Some (El last)) p)
          else if negb (shiftKey e) && bool_decide (activeElement p = El last)
          then (preventDefault e, safeFocus (Some (El first)) p)
          else (e, p)
      | _, _ => (e, p)
      end
  end.

(** The [resize] listener of the window; [innerWidth] is the new width. *)
Definition onResize (innerWidth : Z) (p : page) : page :=
  match menu p with
  | None => p
  | Some m => if (760 <? innerWidth) && isOpen m p then setOpen false p else p
  end.

(** *** 2) Smooth anchor scrolling with offset *)

(** ['a[href^="#"]'] *)
Definition sel_hash_link : selector := [Complex None [STag "a"; SPrefix "href" "#"]].

(** The [click] listener of the document. *)
Definition anchors_onClick (e : event) (p : page) : event * page :=
  match closest sel_hash_link (target e) (tree p) with
  | None => (e, p)
  | Some a =>
      match getAttribute "href" a with
      | None => (e, p)
      | Some href =>
          if negb (JS.truthy href) || bool_decide (href = "#") then (e, p) else
          let id := JS.slice1 href in
          match getElementById id (tree p) with
          | None => (e, p)
          | Some target =>
              let e := preventDefault e in
              let top := match el target p with Some t => rect_top t | None => 0 end in
              let y := top + window_pageYOffset p - headerOffset p in
              let p := scrollTo_opts (Z.max 0 y)
                         (if prefersReducedMotion p then Auto else Smooth) p in
              let p := match pushState ("#" +:+ id) p with
                       | Some p' => p'
                       | None => p
                       end in
              let p := match el target p with
                       | Some t => if hasAttribute "tabindex" t then p
                                   else on_el target (setAttribute "tabindex" "-1") p
                       | None => p
                       end in
              (e, safeFocus (Some (El target)) p)
          end
      end
  end.

(** The listener is wired whatever the document holds. *)
Definition initAnchors (p : page) : page := p.

(** *** 3) Active nav link highlighting *)

(** ['nav a[href^="#"], .nav a[href^="#"], .mobile-nav a[href^="#"]'] *)
Definition sel_nav_links : selector :=
  [ Complex (Some [STag "nav"]) [STag "a"; SPrefix "href" "#"];
    Complex (Some [SClass "nav"]) [STag "a"; SPrefix "href" "#"];
    Complex (Some [SClass "mobile-nav"]) [STag "a"; SPrefix "href" "#"] ].

(** [a.getAttribute("href").slice(1)] *)
Definition href_id (a : nid) (p : page) : string :=
  JS.slice1 (default "" (el a p ≫= getAttribute "href")).

Definition initActiveNav (p : page) : page :=
  let navLinks := queryAll sel_nav_links p in
  if bool_decide (navLinks = []) || negb (has_IntersectionObserver (platform p)) then p else
  let targets := omap (fun a => getElementById (href_id a p) (tree p)) navLinks in
  if bool_decide (targets = []) then p else
  let mapIdToLinks :=
    foldl (fun (m : gmap string (list nid)) a =>
             let id := href_id a p in
             let m := match m !! id with Some _ => m | None => <[id := []]> m end in
             <[id := default [] (m !! id) ++ [a]]> m)
          ∅ navLinks in
  set_nav (Some (Nav navLinks mapIdToLinks (remove_dups targets))) p.

Definition clear (n : nav_vars) (p : page) : page :=
  foldl (fun p a => on_el a (classList_remove "is-active") p) p (navLinks n).

(** The comparator of the source: [(b.ratio || 0) - (a.ratio || 0)]. *)
Definition by_ratio (a b : entry) : Q :=
  (JS.or_ratio (intersectionRatio b) 0 - JS.or_ratio (intersectionRatio a) 0)%Q.

(** The observer callback. *)
Definition nav_onIntersect (entries : list entry) (p : page) : page :=
  match nav p with
  | None => p
  | Some n =>
      let visible := head (JS.sort by_ratio (List.filter isIntersecting entries)) in
      match visible with
      | None => p
      | Some visible =>
          let id := match el (en_target visible) p with Some t => id_of t | None => "" end in
          let p := clear n p in
          let links := default [] (mapIdToLinks n !! id) in
          foldl (fun p a => on_el a (classList_add "is-active") p) p links
      end
  end.

(** *** 4) Auto wrap tables inside [.table-wrap] *)

Definition sel_table : selector := [Complex None [STag "table"]].
(** ["pre, code"] *)
Definition sel_pre_code : selector := [Complex None [STag "pre"]; Complex None [STag "code"]].

Definition wrap_table (p : page) (table : nid) : page :=
  match parentElement table (tree p) with
  | None => p
  | Some parent =>
      if classList_contains "table-wrap" parent then p else
      match closest sel_pre_code table (tree p) with
      | Some _ => p
      | None =>
          let w := next_id p in
          let p := set_next_id (S w) p in
          let wrap := createElement w "div" in
          let wrap := set_className "table-wrap" wrap in
          let p := set_tree (insertBefore (el_id parent) (Node wrap []) table (tree p)) p in
          match subtree table (tree p) with
          | Some t => set_tree (appendChild w t (tree p)) p
          | None => p
          end
      end
  end.

Definition initTableWrap (p : page) : page :=
  foldl wrap_table p (queryAll sel_table p).

(** *** 5) Copy-link buttons for headings *)

(** ["h2[id], h3[id]"] *)
Definition sel_heads : selector :=
  [Complex None [STag "h2"; SHas "id"]; Complex None [STag "h3"; SHas "id"]].

Definition add_copylink (p : page) (h : nid) : page :=
  match el h p with
  | None => p
  | Some he =>
      if bool_decide (getAttribute "data-copylink" he = Some "done") then p else
      let p := on_el h (setAttribute "data-copylink" "done") p in
      let b := next_id p in
      let p := set_next_id (S b) p in
      let btn := createElement b "button" in
      let btn := setAttribute "type" "button" btn in
      let btn := set_className "copylink-btn" btn in
      let btn := setAttribute "aria-label" "Copy section link" btn in
      let btn := with_textContent link_glyph btn in
      let btn := with_style (set_style "margin-left" "10px") btn in
      let btn := with_listener (CopyLinkClick h) btn in
      set_tree (appendChild h (Node btn []) (tree p)) p
  end.

Definition initCopyLinks (p : page) : page :=
  if negb (has_clipboard (platform p)) then p else
  let heads := queryAll sel_heads p in
  if bool_decide (heads = []) then p else
  foldl add_copylink p heads.

(** The [click] listener of a copy-link button [b] made for the heading
    [h]; the clipboard write settles at once. *)
Definition copylink_onClick (b h : nid) (p : page) : page :=
  let url := origin (platform p) +:+ pathname (platform p) +:+ "#"
             +:+ match el h p with Some he => id_of he | None => "" end in
  if clipboard_rejects (platform p)
  then
    let p := on_el b (with_textContent fail_glyph) p in
    setTimeout (RestoreLabel b) 900 p
  else
    let p := set_clipboard url p in
    let p := on_el b (with_textContent ok_glyph) p in
    setTimeout (RestoreLabel b) 900 p.

(** *** 6) Lazy-load iframes *)

Definition sel_lazy : selector := [Complex None [STag "iframe"; SHas "data-src"]].

Definition load (p : page) (x : nid) : page :=
  match el x p with
  | None => p
  | Some f =>
      if bool_decide (getAttribute "data-loaded" f = Some "true") then p else
      let p := on_el x (setAttribute "src" (default "undefined" (getAttribute "data-src" f))) p in
      on_el x (setAttribute "data-loaded" "true") p
  end.

Definition initLazyIframes (p : page) : page :=
  let iframes := queryAll sel_lazy p in
  if bool_decide (iframes = []) then p else
  if negb (has_IntersectionObserver (platform p)) then foldl load p iframes
  else set_lazy (Some iframes) p.

(** [io.unobserve(x)] *)
Definition unobserve (x : nid) (p : page) : page :=
  set_lazy (List.filter (fun y => negb (Nat.eqb y x)) <$> lazy p) p.

(** The observer callback. *)
Definition lazy_onIntersect (entries : list entry) (p : page) : page :=
  foldl (fun p e =>
           if isIntersecting e then unobserve (en_target e) (load p (en_target e)) else p)
        p entries.

(** *** 7) External links safety polish *)

(** ['a[target="_blank"]'] *)
Definition sel_blank : selector := [Complex None [STag "a"; SEq "target" "_blank"]].

Definition need : list string := ["noopener"; "noreferrer"].

(** The new value of [rel], from the old one ([None]: no attribute). *)
Definition hardened_rel (old : option string) : string :=
  let rel := JS.toLowerCase (JS.or_str (default "" old) "") in
  let relSet := JS.set_of (JS.tokens rel) in
  let relSet := foldl (fun s x => JS.set_add x s) relSet need in
  JS.join " " relSet.

Definition harden (a : element) : element :=
  setAttribute "rel" (hardened_rel (getAttribute "rel" a)) a.

Definition initExternalLinks (p : page) : page :=
  foldl (fun p a => on_el a harden p) p (queryAll sel_blank p).

(** *** 8) Amazon CTA chip *)

(** [".btn.btn--amazon"] *)
Definition sel_amazon : selector := [Complex None [SClass "btn"; SClass "btn--amazon"]].

Definition add_chip (p : page) (btn : nid) : page :=
  match querySelector_in (sel_class "btn-meta") btn (tree p) with
  | Some _ => p
  | None =>
      let c := next_id p in
      let p := set_next_id (S c) p in
      let chip := createElement c "span" in
      let chip := set_className "btn-meta" chip in
      let chip := with_textContent "Amazon.ca" chip in
      set_tree (appendChild btn (Node chip []) (tree p)) p
  end.

Definition initAmazonMetaChip (p : page) : page :=
  foldl add_chip p (queryAll sel_amazon p).

(** *** Boot *)

Definition boot (p : page) : page :=
  let p := initMobileMenu p in
  let p := initAnchors p in
  let p := initActiveNav p in
  let p := initTableWrap p in
  let p := initCopyLinks p in
  let p := initLazyIframes p in
  let p := initExternalLinks p in
  initAmazonMetaChip p.

(** *** Event delivery *)

Definition copylink_listeners (y : nid) (p : page) : list (event → page → event * page) :=
  match el y p with
  | Some b => map (fun l e q => let 'CopyLinkClick h := l in (e, copylink_onClick y h q))
                  (listeners b)
  | None => []
  end.

(** [click] listeners on elements, in the order they were added. *)
Definition click_listeners (y : nid) (p : page) : list (event → page → event * page) :=
  match menu p with
  | Some m =>
      (if Nat.eqb y (drawer m) then [drawer_onClick] else [])
      ++ (if Nat.eqb y (btn m) then [btn_onClick] else [])
      ++ (if Nat.eqb y (scrim m) then [scrim_onClick] else [])
  | None => []
  end ++ copylink_listeners y p.

Definition dispatch_click (x : nid) (p : page) : event * page :=
  let ep := bubble click_listeners (path_of x p) (click_on x) p in
  if propagationStopped (fst ep) then ep else anchors_onClick (fst ep) (snd ep).

Definition dispatch_keydown (k : string) (shift : bool) (p : page) : event * page :=
  run_listeners [escape_onKeydown; trap_onKeydown] (key_down k shift) p.

(** The input [i] arrives at time [t]. *)
Definition step (t : Z) (i : input) (p : page) : page :=
  let p := advance t p in
  match i with
  | Click x => snd (dispatch_click x p)
  | TouchEnd _ => p
  | KeyDown k shift => snd (dispatch_keydown k shift p)
  | Resize w => onResize w p
  | NavIntersect es => nav_onIntersect es p
  | LazyIntersect es => lazy_onIntersect es p
  end.

End V1.

(** ** Second version: the script headed "v2" *)

Module V2.

Import Dom Page.

(** *** Helpers *)

Definition prefersReducedMotion (p : page) : bool :=
  match reduced_motion (platform p) with
  | Some m => m
  | None => false
  end.

Definition safeFocus (t : option active) (p : page) : page :=
  match t with
  | Some (El x) => focus x p
  | Some Body => p
  | None => p
  end.

Module scrollLock.

Definition lock (p : page) : page :=
  let y := JS.or_num (window_scrollY p) (JS.or_num (documentElement_scrollTop p) 0) in
  let p := set_lock_y y p in
  let p := set_html_style (set_style "scroll-behavior" "auto" (html_style p)) p in
  let p := set_body_style (set_style "position" "fixed" (body_style p)) p in
  let p := set_body_style (set_style "top" ("-" +:+ pretty (lock_y p) +:+ "px") (body_style p)) p in
  let p := set_body_style (set_style "left" "0" (body_style p)) p in
  let p := set_body_style (set_style "right" "0" (body_style p)) p in
  set_body_style (set_style "width" "100%" (body_style p)) p.

Definition unlock (p : page) : page :=
  let y := JS.or_num (lock_y p) 0 in
  let p := set_body_style (set_style "position" "" (body_style p)) p in
  let p := set_body_style (set_style "top" "" (body_style p)) p in
  let p := set_body_style (set_style "left" "" (body_style p)) p in
  let p := set_body_style (set_style "right" "" (body_style p)) p in
  let p := set_body_style (set_style "width" "" (body_style p)) p in
  let p := scrollTo_xy 0 y p in
  let p := set_lock_y 0 p in
  set_html_style (set_style "scroll-behavior" "" (html_style p)) p.

End scrollLock.

Definition sel_topbar : selector := [Complex None [SClass "topbar"]].

Definition headerOffset (p : page) : Z :=
  let topbar := query sel_topbar p in
  let h := match topbar ≫= (fun x => el x p) with
           | Some t => Qceiling (rect_height t)
           | None => 0
           end in
  Z.max 0 (h + 10).

(** *** 1) Mobile menu drawer *)

Definition sel_id (i : string) : selector := [Complex None [SId i]].
Definition sel_class (c : string) : selector := [Complex None [SClass c]].
Definition sel_a : selector := [Complex None [STag "a"]].

(** ['a[href], button:not([disabled]), [tabindex]:not([tabindex="-1"])'] *)
Definition sel_focusables : selector :=
  [ Complex None [STag "a"; SHas "href"];
    Complex None [STag "button"; SNot (SHas "disabled")];
    Complex None [SHas "tabindex"; SNot (SEq "tabindex" "-1")] ].

(** [a || b] on element handles. *)
Definition or_el (a b : option nid) : option nid :=
  match a with Some _ => a | None => b end.

Definition isOpen (m : menu_vars) (p : page) : bool :=
  bool_decide ((el (drawer m) p ≫= getAttribute "data-open") = Some "true").

Definition setOpen (open : bool) (p : page) : page :=
  match menu p with
  | None => p
  | Some m =>
      let v := if open then "true" else "false" in
      let p := on_el (drawer m) (setAttribute "data-open" v) p in
      let p := on_el (scrim m) (setAttribute "data-open" v) p in
      let p := on_el (btn m) (setAttribute "aria-expanded" v) p in
      if open then
        let p := set_menu (Some (set_lastFocus (Some (activeElement p)) m)) p in
        let p := scrollLock.lock p in
        safeFocus (Some (El (drawer m))) p
      else
        let p := scrollLock.unlock p in
        safeFocus (match lastFocus m with
                   | Some f => Some f
                   | None => Some (El (btn m))
                   end) p
  end.

Definition toggle (p : page) : page :=
  match menu p with
  | None => p
  | Some m => setOpen (negb (isOpen m p)) p
  end.

Definition initMobileMenu (p : page) : page :=
  let btn := or_el (query (sel_id "navToggle") p) (query (sel_class "nav-toggle") p) in
  let drawer := or_el (query (sel_id "mobile-nav") p) (query (sel_class "mobile-nav") p) in
  let scrim := or_el (query (sel_id "navScrim") p) (query (sel_class "nav-scrim") p) in
  match btn, drawer, scrim with
  | Some btn, Some drawer, Some scrim =>
      let p := match el drawer p with
               | Some d => if hasAttribute "tabindex" d then p
                           else on_el drawer (setAttribute "tabindex" "-1") p
               | None => p
               end in
      set_menu (Some (Menu btn drawer scrim None false)) p
  | _, _, _ => p
  end.

(** Close on nav click (any link): the [click] listener of the drawer. *)
Definition drawer_onClick (e : event) (p : page) : event * page :=
  match closest sel_a (target e) (tree p) with
  | Some _ => (e, setOpen false p)
  | None => (e, p)
  end.

(** iOS reliable toggle + prevent double fire. *)

Definition get_ignoreClick (p : page) : bool :=
  match menu p with
  | Some m => ignoreClick m
  | None => false
  end.
Definition put_ignoreClick (v : bool) (p : page) : page :=
  set_menu (set_ignoreClick v <$> menu p) p.

Definition onToggle (e : event) (p : page) : event * page :=
  let e := preventDefault e in
  let e := stopPropagation e in
  (e, toggle p).

Definition onClose (e : event) (p : page) : event * page :=
  let e := preventDefault e in
  let e := stopPropagation e in
  (e, setOpen false p).

(** The [touchend] and [click] listeners of the toggle button. *)
Definition btn_onTouchend (e : event) (p : page) : event * page :=
  let p := put_ignoreClick true p in
  let '(e, p) := onToggle e p in
  (e, setTimeout ResetIgnoreClick 450 p).

Definition btn_onClick (e : event) (p : page) : event * page :=
  if get_ignoreClick p then (e, p) else onToggle e p.

(** The [touchend] and [click] listeners of the scrim. *)
Definition scrim_onTouchend (e : event) (p : page) : event * page :=
  let p := put_ignoreClick true p in
  let '(e, p) := onClose e p in
  (e, setTimeout ResetIgnoreClick 450 p).

Definition scrim_onClick (e : event) (p : page) : event * page :=
  if get_ignoreClick p then (e, p) else onClose e p.

(** Escape closes: first [keydown] listener of the document. *)
Definition escape_onKeydown (e : event) (p : page) : event * page :=
  match menu p with
  | None => (e, p)
  | Some m =>
      if bool_decide (key e = "Escape") && isOpen m p then (e, setOpen false p) else (e, p)
  end.

(** Focus trap: second [keydown] listener of the document. *)
Definition trap_onKeydown (e : event) (p : page) : event * page :=
  match menu p with
  | None => (e, p)
  | Some m =>
      if negb (isOpen m p) || negb (bool_decide (key e = "Tab")) then (e, p) else
      let focusables :=
        List.filter (fun x => match el x p with Some f => rendered f | None => false end)
                    (querySelectorAll_in sel_focusables (drawer m) (tree p)) in
      match head focusables, last focusables with
      | Some first, Some last =>
          if shiftKey e && bool_decide (activeElement p = El first)
          then (preventDefault e, safeFocus (Some (El last)) p)
          else if negb (shiftKey e) && bool_decide (activeElement p = El last)
          then (preventDefault e, safeFocus (Some (El first)) p)
          else (e, p)
      | _, _ => (e, p)
      end
  end.

(** The [resize] listener of the window; [innerWidth] is the new width. *)
Definition onResize (innerWidth : Z) (p : page) : page :=
  match menu p with
  | None => p
  | Some m => if (760 <? innerWidth) && isOpen m p then setOpen false p else p
  end.

(** *** 2) Smooth anchor scrolling with offset *)

(** ['a[href^="#"]'] *)
Definition sel_hash_link : selector := [Complex None [STag "a"; SPrefix "href" "#"]].

(** The [click] listener of the document. *)
Definition anchors_onClick (e : event) (p : page) : event * page :=
  match closest sel_hash_link (target e) (tree p) with
  | None => (e, p)
  | Some a =>
      match getAttribute "href" a with
      | None => (e, p)
      | Some href =>
          if negb (JS.truthy href) || bool_decide (href = "#") then (e, p) else
          let id := JS.slice1 href in
          match getElementById id (tree p) with
          | None => (e, p)
          | Some target =>
              let e := preventDefault e in
              let top := match el target p with Some t => rect_top t | None => 0 end in
              let y := top + window_pageYOffset p - headerOffset p in
              let p := scrollTo_opts (Z.max 0 y)
                         (if prefersReducedMotion p then Auto else Smooth) p in
              let p := match pushState ("#" +:+ id) p with
                       | Some p' => p'
                       | None => p
                       end in
              let p := match el target p with
                       | Some t => if hasAttribute "tabindex" t then p
                                   else on_el target (setAttribute "tabindex" "-1") p
                       | None => p
                       end in
              (e, safeFocus (Some (El target)) p)
          end
      end
  end.

(** The listener is wired whatever the document holds. *)
Definition initAnchors (p : page) : page := p.

(** *** 3) Active nav link highlighting *)

(** ['nav a[href^="#"], .nav a[href^="#"], .mobile-nav a[href^="#"]'] *)
Definition sel_nav_links : selector :=
  [ Complex (Some [STag "nav"]) [STag "a"; SPrefix "href" "#"];
    Complex (Some [SClass "nav"]) [STag "a"; SPrefix "href" "#"];
    Complex (Some [SClass "mobile-nav"]) [STag "a"; SPrefix "href" "#"] ].

(** [a.getAttribute("href").slice(1)] *)
Definition href_id (a : nid) (p : page) : string :=
  JS.slice1 (default "" (el a p ≫= getAttribute "href")).

Definition initActiveNav (p : page) : page :=
  let navLinks := queryAll sel_nav_links p in
  if bool_decide (navLinks = []) || negb (has_IntersectionObserver (platform p)) then p else
  let targets := omap (fun a => getElementById (href_id a p) (tree p)) navLinks in
  if bool_decide (targets = []) then p else
  let mapIdToLinks :=
    foldl (fun (m : gmap string (list nid)) a =>
             let id := href_id a p in
             let m := match m !! id with Some _ => m | None => <[id := []]> m end in
             <[id := default [] (m !! id) ++ [a]]> m)
          ∅ navLinks in
  set_nav (Some (Nav navLinks mapIdToLinks (remove_dups targets))) p.

Definition clear (n : nav_vars) (p : page) : page :=
  foldl (fun p a => on_el a (classList_remove "is-active") p) p (navLinks n).

(** The comparator of the source: [(b.ratio || 0) - (a.ratio || 0)]. *)
Definition by_ratio (a b : entry) : Q :=
  (JS.or_ratio (intersectionRatio b) 0 - JS.or_ratio (intersectionRatio a) 0)%Q.

(** The observer callback. *)
Definition nav_onIntersect (entries : list entry) (p : page) : page :=
  match nav p with
  | None => p
  | Some n =>
      let visible := head (JS.sort by_ratio (List.filter isIntersecting entries)) in
      match visible with
      | None => p
      | Some visible =>
          let id := match el (en_target visible) p with Some t => id_of t | None => "" end in
          let p := clear n p in
          let links := default [] (mapIdToLinks n !! id) in
          foldl (fun p a => on_el a (classList_add "is-active") p) p links
      end
  end.

(** *** 4) Auto wrap tables inside [.table-wrap] *)

Definition sel_table : selector := [Complex None [STag "table"]].
(** ["pre, code"] *)
Definition sel_pre_code : selector := [Complex None [STag "pre"]; Complex None [STag "code"]].

Definition wrap_table (p : page) (table : nid) : page :=
  match parentElement table (tree p) with
  | None => p
  | Some parent =>
      if classList_contains "table-wrap" parent then p else
      match closest sel_pre_code table (tree p) with
      | Some _ => p
      | None =>
          let w := next_id p in
          let p := set_next_id (S w) p in
          let wrap := createElement w "div" in
          let wrap := set_className "table-wrap" wrap in
          let p := set_tree (insertBefore (el_id parent) (Node wrap []) table (tree p)) p in
          match subtree table (tree p) with
          | Some t => set_tree (appendChild w t (tree p)) p
          | None => p
          end
      end
  end.

Definition initTableWrap (p : page) : page :=
  foldl wrap_table p (queryAll sel_table p).

(** *** 5) Copy-link buttons for headings *)

(** ["h2[id], h3[id]"] *)
Definition sel_heads : selector :=
  [Complex None [STag "h2"; SHas "id"]; Complex None [STag "h3"; SHas "id"]].

Definition add_copylink (p : page) (h : nid) : page :=
  match el h p with
  | None => p
  | Some he =>
      if bool_decide (getAttribute "data-copylink" he = Some "done") then p else
      let p := on_el h (setAttribute "data-copylink" "done") p in
      let b := next_id p in
      let p := set_next_id (S b) p in
      let btn := createElement b "button" in
      let btn := setAttribute "type" "button" btn in
      let btn := set_className "copylink-btn" btn in
      let btn := setAttribute "aria-label" "Copy section link" btn in
      let btn := with_textContent link_glyph btn in
      let btn := with_style (set_style "margin-left" "10px") btn in
      let btn := with_listener (CopyLinkClick h) btn in
      set_tree (appendChild h (Node btn []) (tree p)) p
  end.

Definition initCopyLinks (p : page) : page :=
  if negb (has_clipboard (platform p)) then p else
  let heads := queryAll sel_heads p in
  if bool_decide (heads = []) then p else
  foldl add_copylink p heads.

(** The [click] listener of a copy-link button [b] made for the heading
    [h]; the clipboard write settles at once. *)
Definition copylink_onClick (b h : nid) (p : page) : page :=
  let url := origin (platform p) +:+ pathname (platform p) +:+ "#"
             +:+ match el h p with Some he => id_of he | None => "" end in
  if clipboard_rejects (platform p)
  then
    let p := on_el b (with_textContent fail_glyph) p in
    setTimeout (RestoreLabel b) 900 p
  else
    let p := set_clipboard url p in
    let p := on_el b (with_textContent ok_glyph) p in
    setTimeout (RestoreLabel b) 900 p.

(** *** 6) Lazy-load iframes *)

Definition sel_lazy : selector := [Complex None [STag "iframe"; SHas "data-src"]].

Definition load (p : page) (x : nid) : page :=
  match el x p with
  | None => p
  | Some f =>
      if bool_decide (getAttribute "data-loaded" f = Some "true") then p else
      let p := on_el x (setAttribute "src" (default "undefined" (getAttribute "data-src" f))) p in
      on_el x (setAttribute "data-loaded" "true") p
  end.

Definition initLazyIframes (p : page) : page :=
  let iframes := queryAll sel_lazy p in
  if bool_decide (iframes = []) then p else
  if negb (has_IntersectionObserver (platform p)) then foldl load p iframes
  else set_lazy (Some iframes) p.

(** [io.unobserve(x)] *)
Definition unobserve (x : nid) (p : page) : page :=
  set_lazy (List.filter (fun y => negb (Nat.eqb y x)) <$> lazy p) p.

(** The observer callback. *)
Definition lazy_onIntersect (entries : list entry) (p : page) : page :=
  foldl (fun p e =>
           if isIntersecting e then unobserve (en_target e) (load p (en_target e)) else p)
        p entries.

(** *** 7) External links safety polish *)

(** ['a[target="_blank"]'] *)
Definition sel_blank : selector := [Complex None [STag "a"; SEq "target" "_blank"]].

Definition need : list string := ["noopener"; "noreferrer"].

(** The new value of [rel], from the old one ([None]: no attribute). *)
Definition hardened_rel (old : option string) : string :=
  let rel := JS.toLowerCase (JS.or_str (default "" old) "") in
  let relSet := JS.set_of (JS.tokens rel) in
  let relSet := foldl (fun s x => JS.set_add x s) relSet need in
  JS.join " " relSet.

Definition harden (a : element) : element :=
  setAttribute "rel" (hardened_rel (getAttribute "rel" a)) a.

Definition initExternalLinks (p : page) : page :=
  foldl (fun p a => on_el a harden p) p (queryAll sel_blank p).

(** *** 8) Amazon CTA chip *)

(** [".btn.btn--amazon"] *)
Definition sel_amazon : selector := [Complex None [SClass "btn"; SClass "btn--amazon"]].

Definition add_chip (p : page) (btn : nid) : page :=
  match querySelector_in (sel_class "btn-meta") btn (tree p) with
  | Some _ => p
  | None =>
      let c := next_id p in
      let p := set_next_id (S c) p in
      let chip := createElement c "span" in
      let chip := set_className "btn-meta" chip in
      let chip := with_textContent "Amazon.ca" chip in
      set_tree (appendChild btn (Node chip []) (tree p)) p
  end.

Definition initAmazonMetaChip (p : page) : page :=
  foldl add_chip p (queryAll sel_amazon p).

(** *** Boot *)

Definition boot (p : page) : page :=
  let p := initMobileMenu p in
  let p := initAnchors p in
  let p := initActiveNav p in
  let p := initTableWrap p in
  let p := initCopyLinks p in
  let p := initLazyIframes p in
  let p := initExternalLinks p in
  initAmazonMetaChip p.

(** *** Event delivery *)

Definition copylink_listeners (y : nid) (p : page) : list (event → page → event * page) :=
  match el y p with
  | Some b => map (fun l e q => let 'CopyLinkClick h := l in (e, copylink_onClick y h q))
                  (listeners b)
  | None => []
  end.

(** [click] and [touchend] listeners on elements, in the order they were
    added. *)
Definition click_listeners (y : nid) (p : page) : list (event → page → event * page) :=
  match menu p with
  | Some m =>
      (if Nat.eqb y (drawer m) then [drawer_onClick] else [])
      ++ (if Nat.eqb y (btn m) then [btn_onClick] else [])
      ++ (if Nat.eqb y (scrim m) then [scrim_onClick] else [])
  | None => []
  end ++ copylink_listeners y p.

Definition touchend_listeners (y : nid) (p : page) : list (event → page → event * page) :=
  match menu p with
  | Some m =>
      (if Nat.eqb y (btn m) then [btn_onTouchend] else [])
      ++ (if Nat.eqb y (scrim m) then [scrim_onTouchend] else [])
  | None => []
  end.

Definition dispatch_click (x : nid) (p : page) : event * page :=
  let ep := bubble click_listeners (path_of x p) (click_on x) p in
  if propagationStopped (fst ep) then ep else anchors_onClick (fst ep) (snd ep).

Definition dispatch_touchend (x : nid) (p : page) : event * page :=
  bubble touchend_listeners (path_of x p) (click_on x) p.

Definition dispatch_keydown (k : string) (shift : bool) (p : page) : event * page :=
  run_listeners [escape_onKeydown; trap_onKeydown] (key_down k shift) p.

(** The input [i] arrives at time [t]. *)
Definition step (t : Z) (i : input) (p : page) : page :=
  let p := advance t p in
  match i with
  | Click x => snd (dispatch_click x p)
  | TouchEnd x => snd (dispatch_touchend x p)
  | KeyDown k shift => snd (dispatch_keydown k shift p)
  | Resize w => onResize w p
  | NavIntersect es => nav_onIntersect es p
  | LazyIntersect es => lazy_onIntersect es p
  end.

End V2.

(** ** A sample page *)

Module Sample.

Import Dom Page.

Definition mk (x : nid) (tag : string) (a : list (string * string)) (cls : list string)
    (top : Z) (kids : list node) : node :=
  Node (Element x tag (list_to_map a) cls ∅ "" top 0%Q true true []) kids.

Definition topbar : node :=
  Node (Element 2 "header" ∅ ["topbar"] ∅ "" 0 (111 # 2) true true [])
       [mk 3 "button" [("id", "navToggle")] ["nav-toggle"] 10 []].

Definition document : node :=
  mk 0 "html" [] [] 0
    [mk 1 "body" [] [] 0
       [topbar;
        mk 4 "nav" [("id", "mobile-nav")] ["mobile-nav"] 0
          [mk 5 "a" [("href", "#sec1")] [] 60 [];
           mk 6 "a" [("href", "#sec2")] [] 80 [];
           mk 23 "a" [("href", "#intro")] [] 100 [mk 24 "span" [] [] 100 []];
           mk 25 "a" [("href", "#")] [] 120 [];
           mk 26 "a" [("href", "#gone")] [] 140 []];
        mk 7 "div" [("id", "navScrim")] ["nav-scrim"] 0 [];
        mk 8 "main" [] [] 56
          [mk 9 "h2" [("id", "sec1")] [] 300 [];
           mk 10 "table" [] [] 340
             [mk 11 "td" [] [] 340 [mk 12 "table" [] [] 341 []]];
           mk 13 "pre" [] [] 500 [mk 14 "table" [] [] 500 []];
           mk 15 "div" [] ["table-wrap"] 600 [mk 16 "table" [] [] 600 []];
           mk 17 "h3" [("id", "sec2")] [] 900 [];
           mk 18 "a" [("target", "_blank"); ("rel", "NoFollow  UGC")] [] 940 [];
           mk 19 "a" [("target", "_blank")] [] 960 [];
           mk 20 "iframe" [("data-src", "https://www.youtube.com/embed/x")] [] 1000 [];
           mk 21 "a" [("href", "https://www.amazon.ca/")] ["btn"; "btn--amazon"] 1200 [];
           mk 22 "h2" [("id", "intro")] [] 4 []]]].

Definition browser : env :=
  Env true true false (Some false) false "https://massagechaircanada.github.io" "/".

(** The page as served, scrolled down by 120 pixels. *)
Definition page0 : page :=
  Page document 27 ∅ ∅ 0 120 Auto "" 1 Body "" 0 [] browser 0 None None None.

(** The same page at the top. *)
Definition page_top : page := set_scroll_y 0 page0.

(** The same page served over plain HTTP: no clipboard API. *)
Definition browser_http : env :=
  Env true false false (Some false) false "http://massagechaircanada.github.io" "/".
Definition page_http : page :=
  Page document 27 ∅ ∅ 0 120 Auto "" 1 Body "" 0 [] browser_http 0 None None None.

(** The same page served with two navigation links marked active. *)
Definition page_marked : page :=
  on_el 5 (classList_add "is-active") (on_el 6 (classList_add "is-active") page0).

(** The same page in a browser without [IntersectionObserver]. *)
Definition browser_plain : env :=
  Env false true false (Some false) false "https://massagechaircanada.github.io" "/".
Definition page_plain : page :=
  Page document 27 ∅ ∅ 0 120 Auto "" 1 Body "" 0 [] browser_plain 0 None None None.

(** Both pages served with the iframe marked as loaded already. *)
Definition page_plain_loaded : page :=
  on_el 20 (setAttribute "data-loaded" "true") page_plain.
Definition page_loaded : page := on_el 20 (setAttribute "data-loaded" "true") page0.

(** A page whose only headings with an identifier are an [h1] and an [h4]. *)
Definition document_notes : node :=
  mk 0 "html" [] [] 0
    [mk 1 "body" [] [] 0
       [mk 2 "h1" [("id", "top")] [] 10 [];
        mk 3 "h4" [("id", "notes")] [] 50 []]].
Definition page_notes : page :=
  Page document_notes 4 ∅ ∅ 0 0 Auto "" 1 Body "" 0 [] browser 0 None None None.

End Sample.

(** * Properties *)

(** ** Strings, token lists and sets *)

Module JSFacts.

Import JS.

Lemma is_ws_lower_char c : is_ws (lower_char c) = is_ws c.
Proof. destruct c as [[] [] [] [] [] [] [] []]; reflexivity. Qed.

Lemma lower_char_idem c : lower_char (lower_char c) = lower_char c.
Proof. destruct c as [[] [] [] [] [] [] [] []]; reflexivity. Qed.

Lemma toLowerCase_idem s : toLowerCase (toLowerCase s) = toLowerCase s.
Proof. induction s as [|c s IH]; simpl; [done|]. by rewrite lower_char_idem, IH. Qed.

Lemma app_String c (s t : string) : String c s +:+ t = String c (s +:+ t).
Proof. reflexivity. Qed.

Lemma toLowerCase_app s t : toLowerCase (s +:+ t) = toLowerCase s +:+ toLowerCase t.
Proof. induction s as [|c s IH]; [done|]. rewrite app_String. simpl. by rewrite IH. Qed.

Lemma truthy_toLowerCase s : truthy (toLowerCase s) = truthy s.
Proof. by destruct s. Qed.

Lemma or_str_empty s : or_str s "" = s.
Proof. by destruct s. Qed.

Lemma str_app_empty_r (s : string) : s +:+ "" = s.
Proof. induction s as [|c s IH]; [done|]. by rewrite app_String, IH. Qed.

Lemma str_app_assoc (s t u : string) : (s +:+ t) +:+ u = s +:+ t +:+ u.
Proof. induction s as [|c s IH]; [done|]. by rewrite !app_String, IH. Qed.

Lemma ws_free_app s t : ws_free (s +:+ t) = ws_free s && ws_free t.
Proof.
  induction s as [|c s IH]; [done|]. rewrite app_String. simpl.
  by rewrite IH, andb_assoc.
Qed.

Lemma ws_free_toLowerCase s : ws_free (toLowerCase s) = ws_free s.
Proof. induction s as [|c s IH]; simpl; [done|]. by rewrite is_ws_lower_char, IH. Qed.

Lemma clean_toLowerCase s : clean s → clean (toLowerCase s).
Proof. intros [??]. split; by rewrite ?truthy_toLowerCase, ?ws_free_toLowerCase. Qed.

(** *** [split] and [toLowerCase] commute *)

Lemma split_go_lower b cur s :
  split_go b (toLowerCase cur) (toLowerCase s) = map toLowerCase (split_go b cur s).
Proof.
  revert b cur. induction s as [|c s IH]; intros b cur; simpl; [done|].
  rewrite is_ws_lower_char. destruct (is_ws c).
  - destruct b; [apply IH|]. simpl. f_equal. apply (IH true ""%string).
  - rewrite <- IH. by rewrite toLowerCase_app.
Qed.

Lemma filter_truthy_lower l :
  List.filter truthy (map toLowerCase l) = map toLowerCase (List.filter truthy l).
Proof.
  induction l as [|x l IH]; simpl; [done|].
  rewrite truthy_toLowerCase. destruct (truthy x); simpl; by rewrite IH.
Qed.

Lemma tokens_toLowerCase s : tokens (toLowerCase s) = map toLowerCase (tokens s).
Proof.
  unfold tokens, split_ws. rewrite <- filter_truthy_lower. f_equal.
  apply (split_go_lower false ""%string).
Qed.

(** *** Tokens are clean *)

Lemma split_go_ws_free b cur s :
  ws_free cur = true → Forall (fun t => ws_free t = true) (split_go b cur s).
Proof.
  revert b cur. induction s as [|c s IH]; intros b cur Hcur; simpl.
  - by constructor.
  - destruct (is_ws c) eqn:Hc.
    + destruct b; [by apply IH|]. constructor; [done|]. by apply IH.
    + apply IH. rewrite ws_free_app, Hcur. simpl. by rewrite Hc.
Qed.

Lemma tokens_clean s : Forall clean (tokens s).
Proof.
  unfold tokens, split_ws.
  pose proof (split_go_ws_free false ""%string s eq_refl) as H.
  induction H as [|x l Hx Hl IH]; simpl; [constructor|].
  destruct (truthy x) eqn:Hx'; [|done]. constructor; [by split|done].
Qed.

(** *** Splitting a joined token list gives the list back *)

Lemma split_go_token b cur t s :
  ws_free t = true → truthy t = true →
  split_go b cur (t +:+ s) = split_go false (cur +:+ t) s.
Proof.
  revert b cur. induction t as [|c t IH]; intros b cur Hfree Hne; [done|].
  simpl in *. apply andb_prop in Hfree as [Hc Ht].
  apply negb_true_iff in Hc. rewrite Hc.
  destruct t as [|c' t'].
  - simpl. done.
  - rewrite IH by done. by rewrite str_app_assoc.
Qed.

Lemma split_go_join b l :
  Forall clean l → l ≠ [] → split_go b "" (join " " l) = l.
Proof.
  intros Hl. revert b. induction Hl as [|x l [Hx1 Hx2] Hl IH]; intros b Hne; [done|].
  destruct l as [|y l].
  - simpl. rewrite <- (str_app_empty_r x) at 1.
    rewrite split_go_token by done. simpl. done.
  - change (join " " (x :: y :: l)) with (x +:+ " " +:+ join " " (y :: l)).
    rewrite split_go_token by done. simpl. f_equal. by apply IH.
Qed.

Lemma filter_truthy_clean l : Forall clean l → List.filter truthy l = l.
Proof.
  induction 1 as [|x l [Hx _] _ IH]; simpl; [done|]. by rewrite Hx, IH.
Qed.

Lemma tokens_join l : Forall clean l → tokens (join " " l) = l.
Proof.
  intros Hl. unfold tokens, split_ws. destruct l as [|x l]; [done|].
  rewrite split_go_join by done. by apply filter_truthy_clean.
Qed.

Lemma toLowerCase_join l :
  toLowerCase (join " " l) = join " " (map toLowerCase l).
Proof.
  induction l as [|x l IH]; [done|]. destruct l as [|y l]; [done|].
  change (join " " (x :: y :: l)) with (x +:+ " " +:+ join " " (y :: l)).
  rewrite !toLowerCase_app, IH. done.
Qed.

(** *** Sets *)

Lemma elem_of_set_add x y s : x ∈ set_add y s ↔ x ∈ s ∨ x = y.
Proof.
  unfold set_add. case_bool_decide.
  - split; [by left|]. intros [?| ->]; done.
  - rewrite elem_of_app, list_elem_of_singleton. done.
Qed.

Lemma NoDup_set_add y s : NoDup s → NoDup (set_add y s).
Proof.
  intros Hs. unfold set_add. case_bool_decide; [done|].
  apply NoDup_app. split_and!; [done| |apply NoDup_singleton].
  intros x Hx ->%list_elem_of_singleton. done.
Qed.

Lemma set_add_elem y s : y ∈ s → set_add y s = s.
Proof. intros. unfold set_add. by rewrite bool_decide_eq_true_2. Qed.

Lemma elem_of_fold_add x l acc :
  x ∈ foldl (fun s y => set_add y s) acc l ↔ x ∈ acc ∨ x ∈ l.
Proof.
  revert acc. induction l as [|y l IH]; intros acc; simpl.
  - rewrite elem_of_nil. tauto.
  - rewrite IH, elem_of_set_add, elem_of_cons. tauto.
Qed.

Lemma NoDup_fold_add l acc : NoDup acc → NoDup (foldl (fun s y => set_add y s) acc l).
Proof.
  revert acc. induction l as [|y l IH]; intros acc H; simpl; [done|].
  by apply IH, NoDup_set_add.
Qed.

Lemma fold_add_subset l acc :
  (∀ x, x ∈ l → x ∈ acc) → foldl (fun s y => set_add y s) acc l = acc.
Proof.
  revert acc. induction l as [|y l IH]; intros acc H; simpl; [done|].
  rewrite set_add_elem by (apply H; left). apply IH. intros x Hx. apply H. by right.
Qed.

Lemma fold_add_nodup l acc :
  NoDup (acc ++ l) → foldl (fun s y => set_add y s) acc l = acc ++ l.
Proof.
  revert acc. induction l as [|y l IH]; intros acc H; simpl.
  - by rewrite app_nil_r.
  - assert (y ∉ acc) as Hy.
    { apply NoDup_app in H as (_ & H & _). intros Hin. apply (H y Hin). left. }
    unfold set_add at 2. rewrite bool_decide_eq_false_2 by done.
    rewrite IH; rewrite <- List.app_assoc; done.
Qed.

Lemma set_of_nodup l : NoDup l → set_of l = l.
Proof. intros. unfold set_of. by rewrite fold_add_nodup. Qed.

Lemma elem_of_set_of x l : x ∈ set_of l ↔ x ∈ l.
Proof. unfold set_of. rewrite elem_of_fold_add, elem_of_nil. tauto. Qed.

Lemma NoDup_set_of l : NoDup (set_of l).
Proof. apply NoDup_fold_add, NoDup_nil_2. Qed.

End JSFacts.

(** ** The element tree *)

Module DomFacts.

Import Dom.

(** Induction on trees: the children of a node satisfy the predicate. *)
Lemma node_induction (P : node → Prop) :
  (∀ e kids, Forall P kids → P (Node e kids)) → ∀ n, P n.
Proof.
  intros H. fix IH 1. intros [e kids]. apply H.
  induction kids as [|k kids IHk]; constructor; [apply IH|apply IHk].
Qed.

(** [f] works on an element without changing its identity. *)
Definition keeps_id (f : element → element) : Prop := ∀ e, el_id (f e) = el_id e.

Lemma keeps_id_with_attrs g : keeps_id (with_attrs g).
Proof. by intros e. Qed.
Lemma keeps_id_setAttribute a v : keeps_id (setAttribute a v).
Proof. by intros e. Qed.
Lemma keeps_id_with_classList g : keeps_id (with_classList g).
Proof. by intros e. Qed.
Lemma keeps_id_classList_add c : keeps_id (classList_add c).
Proof. by intros e. Qed.
Lemma keeps_id_classList_remove c : keeps_id (classList_remove c).
Proof. by intros e. Qed.
Lemma keeps_id_with_textContent t : keeps_id (with_textContent t).
Proof. by intros e. Qed.

Create HintDb dom discriminated.
#[export] Hint Resolve keeps_id_with_attrs keeps_id_setAttribute keeps_id_with_classList
  keeps_id_classList_add keeps_id_classList_remove keeps_id_with_textContent : dom.

(** What [update x f] does to one element. *)
Definition at_id (x : nid) (f : element → element) (e : element) : element :=
  if Nat.eqb (el_id e) x then f e else e.

Lemma at_id_el_id x f e : keeps_id f → el_id (at_id x f e) = el_id e.
Proof. intros Hf. unfold at_id. destruct (Nat.eqb _ _); [apply Hf|done]. Qed.

Lemma flat_map_map {A B C} (f : B → list C) (g : A → B) l :
  flat_map f (map g l) = flat_map (fun x => f (g x)) l.
Proof. induction l as [|x l IH]; simpl; [done|]. by rewrite IH. Qed.

Lemma flat_map_ext_Forall {A B} (f g : A → list B) l :
  Forall (fun x => f x = g x) l → flat_map f l = flat_map g l.
Proof. induction 1 as [|x l Hx _ IH]; simpl; [done|]. by rewrite Hx, IH. Qed.

Lemma map_flat_map {A B C} (f : A → list B) (g : B → C) l :
  map g (flat_map f l) = flat_map (fun x => map g (f x)) l.
Proof. induction l as [|x l IH]; simpl; [done|]. by rewrite map_app, IH. Qed.

Lemma entries_update x f n anc :
  entries (map (at_id x f) anc) (update x f n)
  = map (fun en => (at_id x f (fst en), map (at_id x f) (snd en))) (entries anc n).
Proof.
  revert anc. induction n as [e kids IH] using node_induction. intros anc.
  simpl. f_equal. rewrite flat_map_map, map_flat_map.
  apply flat_map_ext_Forall. eapply Forall_impl; [exact IH|].
  intros k Hk. simpl in Hk. apply (Hk (e :: anc)).
Qed.

Lemma all_entries_update x f d :
  all_entries (update x f d)
  = map (fun en => (at_id x f (fst en), map (at_id x f) (snd en))) (all_entries d).
Proof. apply (entries_update x f d []). Qed.

Lemma elements_update x f d : elements (update x f d) = map (at_id x f) (elements d).
Proof. unfold elements. rewrite all_entries_update, !map_map. done. Qed.

Lemma ids_update x f d : keeps_id f → ids (update x f d) = ids d.
Proof.
  intros Hf. unfold ids. rewrite elements_update, map_map.
  apply map_ext. intros e. by apply at_id_el_id.
Qed.

Lemma find_map {A B} (P : B → bool) (g : A → B) l :
  List.find P (map g l) = g <$> List.find (fun x => P (g x)) l.
Proof. induction l as [|x l IH]; simpl; [done|]. destruct (P (g x)); done. Qed.

Lemma find_pointwise {A} (P Q : A → bool) l :
  (∀ x, P x = Q x) → List.find P l = List.find Q l.
Proof. intros H. induction l as [|x l IH]; simpl; [done|]. by rewrite H, IH. Qed.

Lemma entry_of_update x f y d :
  keeps_id f →
  entry_of y (update x f d)
  = (fun en => (at_id x f (fst en), map (at_id x f) (snd en))) <$> entry_of y d.
Proof.
  intros Hf. unfold entry_of. rewrite all_entries_update, find_map. f_equal.
  apply find_pointwise. intros en. simpl. by rewrite at_id_el_id.
Qed.

Lemma get_update x f y d :
  keeps_id f → get y (update x f d) = at_id x f <$> get y d.
Proof.
  intros Hf. unfold get. rewrite entry_of_update by done.
  by destruct (entry_of y d).
Qed.

Lemma get_el_id x d e : get x d = Some e → el_id e = x.
Proof.
  unfold get, entry_of. destruct (List.find _ _) as [en|] eqn:H; [|done].
  intros [= <-]. apply find_some in H as [_ H]. by apply Nat.eqb_eq in H.
Qed.

Lemma get_update_eq x f d e :
  keeps_id f → get x d = Some e → get x (update x f d) = Some (f e).
Proof.
  intros Hf H. rewrite get_update, H by done. simpl. unfold at_id.
  by rewrite (get_el_id _ _ _ H), Nat.eqb_refl.
Qed.

Lemma get_update_ne x f y d : keeps_id f → x ≠ y → get y (update x f d) = get y d.
Proof.
  intros Hf Hne. rewrite get_update by done.
  destruct (get y d) as [e|] eqn:H; [|done]. simpl. unfold at_id.
  rewrite (get_el_id _ _ _ H).
  destruct (Nat.eqb_spec y x) as [->|_]; [done|done].
Qed.

End DomFacts.

(** ** The page *)

Module PageFacts.

Import Dom Page DomFacts.

Lemma getAttribute_at_id_setAttribute a b v x e :
  getAttribute a (at_id x (setAttribute b v) e)
  = if Nat.eqb (el_id e) x && bool_decide (a = b) then Some v else getAttribute a e.
Proof.
  unfold at_id. destruct (Nat.eqb (el_id e) x); simpl; [|done].
  unfold getAttribute, setAttribute. simpl. case_bool_decide.
  - subst. apply lookup_insert_eq.
  - by apply lookup_insert_ne.
Qed.

Lemma el_on_el x f y p : keeps_id f → el y (on_el x f p) = at_id x f <$> el y p.
Proof. intros. unfold el, on_el. simpl. by apply get_update. Qed.

Lemma el_el_id x p e : el x p = Some e → el_id e = x.
Proof. apply get_el_id. Qed.

Lemma tree_focus x p : tree (focus x p) = tree p.
Proof. unfold focus. destruct (el x p) as [e|]; [|done]. by destruct (focusable e). Qed.

Lemma menu_focus x p : menu (focus x p) = menu p.
Proof. unfold focus. destruct (el x p) as [e|]; [|done]. by destruct (focusable e). Qed.

Lemma scroll_y_focus x p : scroll_y (focus x p) = scroll_y p.
Proof. unfold focus. destruct (el x p) as [e|]; [|done]. by destruct (focusable e). Qed.

Lemma body_style_focus x p : body_style (focus x p) = body_style p.
Proof. unfold focus. destruct (el x p) as [e|]; [|done]. by destruct (focusable e). Qed.

End PageFacts.

(** ** Versions share everything but the menu wiring

    The later script repeats the earlier one outside [initMobileMenu];
    results about a function of the first version carry over along these
    equations. *)

Module Same.

(** Unfold the functions of both versions down to the platform model. *)
Ltac unfold_versions :=
  cbv delta
  [V1.prefersReducedMotion V1.safeFocus V1.scrollLock.lock V1.scrollLock.unlock
    V1.sel_topbar V1.headerOffset V1.sel_id V1.sel_class V1.sel_a V1.sel_focusables
    V1.or_el V1.isOpen V1.setOpen V1.toggle V1.drawer_onClick V1.escape_onKeydown
    V1.trap_onKeydown V1.onResize V1.sel_hash_link V1.anchors_onClick V1.initAnchors
    V1.sel_nav_links V1.href_id V1.initActiveNav V1.clear V1.by_ratio
    V1.nav_onIntersect V1.sel_table V1.sel_pre_code V1.wrap_table V1.initTableWrap
    V1.sel_heads V1.add_copylink V1.initCopyLinks V1.copylink_onClick V1.sel_lazy
    V1.load V1.initLazyIframes V1.unobserve V1.lazy_onIntersect V1.sel_blank V1.need
    V1.hardened_rel V1.harden V1.initExternalLinks V1.sel_amazon V1.add_chip
    V1.initAmazonMetaChip
    V2.prefersReducedMotion V2.safeFocus V2.scrollLock.lock V2.scrollLock.unlock
    V2.sel_topbar V2.headerOffset V2.sel_id V2.sel_class V2.sel_a V2.sel_focusables
    V2.or_el V2.isOpen V2.setOpen V2.toggle V2.drawer_onClick V2.escape_onKeydown
    V2.trap_onKeydown V2.onResize V2.sel_hash_link V2.anchors_onClick V2.initAnchors
    V2.sel_nav_links V2.href_id V2.initActiveNav V2.clear V2.by_ratio
    V2.nav_onIntersect V2.sel_table V2.sel_pre_code V2.wrap_table V2.initTableWrap
    V2.sel_heads V2.add_copylink V2.initCopyLinks V2.copylink_onClick V2.sel_lazy
    V2.load V2.initLazyIframes V2.unobserve V2.lazy_onIntersect V2.sel_blank V2.need
    V2.hardened_rel V2.harden V2.initExternalLinks V2.sel_amazon V2.add_chip
    V2.initAmazonMetaChip].

Lemma setOpen : V2.setOpen = V1.setOpen.
Proof. unfold_versions. reflexivity. Qed.
Lemma lock : V2.scrollLock.lock = V1.scrollLock.lock.
Proof. unfold_versions. reflexivity. Qed.
Lemma unlock : V2.scrollLock.unlock = V1.scrollLock.unlock.
Proof. unfold_versions. reflexivity. Qed.
Lemma headerOffset : V2.headerOffset = V1.headerOffset.
Proof. unfold_versions. reflexivity. Qed.
Lemma anchors_onClick : V2.anchors_onClick = V1.anchors_onClick.
Proof. unfold_versions. reflexivity. Qed.
Lemma initActiveNav : V2.initActiveNav = V1.initActiveNav.
Proof. unfold_versions. reflexivity. Qed.
Lemma nav_onIntersect : V2.nav_onIntersect = V1.nav_onIntersect.
Proof. unfold_versions. reflexivity. Qed.
Lemma initTableWrap : V2.initTableWrap = V1.initTableWrap.
Proof. unfold_versions. reflexivity. Qed.
Lemma initCopyLinks : V2.initCopyLinks = V1.initCopyLinks.
Proof. unfold_versions. reflexivity. Qed.
Lemma initLazyIframes : V2.initLazyIframes = V1.initLazyIframes.
Proof. unfold_versions. reflexivity. Qed.
Lemma load : V2.load = V1.load.
Proof. unfold_versions. reflexivity. Qed.
Lemma lazy_onIntersect : V2.lazy_onIntersect = V1.lazy_onIntersect.
Proof. unfold_versions. reflexivity. Qed.
Lemma hardened_rel : V2.hardened_rel = V1.hardened_rel.
Proof. unfold_versions. reflexivity. Qed.
Lemma initExternalLinks : V2.initExternalLinks = V1.initExternalLinks.
Proof. unfold_versions. reflexivity. Qed.
Lemma initAmazonMetaChip : V2.initAmazonMetaChip = V1.initAmazonMetaChip.
Proof. unfold_versions. reflexivity. Qed.

End Same.

(** ** Mobile menu *)

Module MenuFacts.

Import Dom Page DomFacts PageFacts.

Lemma tree_lock p : tree (V1.scrollLock.lock p) = tree p.
Proof. reflexivity. Qed.
Lemma tree_unlock p : tree (V1.scrollLock.unlock p) = tree p.
Proof. reflexivity. Qed.

Lemma tree_safeFocus t p : tree (V1.safeFocus t p) = tree p.
Proof. destruct t as [[|x]|]; simpl; [done| |done]. apply tree_focus. Qed.

(** The three attribute writes of [setOpen]. *)
Definition written (m : menu_vars) (v : string) (p : page) : page :=
  on_el (btn m) (setAttribute "aria-expanded" v)
    (on_el (scrim m) (setAttribute "data-open" v)
       (on_el (drawer m) (setAttribute "data-open" v) p)).

Lemma tree_setOpen open m p :
  menu p = Some m →
  tree (V1.setOpen open p) = tree (written m (if open then "true" else "false") p).
Proof.
  intros Hm. unfold V1.setOpen. rewrite Hm. destruct open.
  - by rewrite tree_safeFocus, tree_lock.
  - by rewrite tree_safeFocus, tree_unlock.
Qed.

Lemma el_setOpen open m p y :
  menu p = Some m →
  el y (V1.setOpen open p) = el y (written m (if open then "true" else "false") p).
Proof. intros Hm. unfold el. by rewrite (tree_setOpen open m). Qed.

Lemma written_attr a m v p y e :
  el y p = Some e →
  (el y (written m v p) ≫= getAttribute a)
  = if Nat.eqb y (btn m) && bool_decide (a = "aria-expanded") then Some v
    else if (Nat.eqb y (scrim m) || Nat.eqb y (drawer m)) && bool_decide (a = "data-open")
         then Some v
         else getAttribute a e.
Proof.
  intros He. unfold written. rewrite !el_on_el by auto with dom. rewrite He. simpl.
  rewrite !getAttribute_at_id_setAttribute. rewrite !at_id_el_id by auto with dom.
  rewrite (el_el_id _ _ _ He).
  destruct (Nat.eqb y (btn m)), (Nat.eqb y (scrim m)), (Nat.eqb y (drawer m));
    simpl; repeat case_bool_decide; simplify_eq; done.
Qed.

End MenuFacts.

(** C2.  With the toggle button, the drawer and the scrim in the document,
    [setOpen(true)] leaves the drawer's and the scrim's [data-open] and the
    toggle's [aria-expanded] at ["true"], and [setOpen(false)] leaves the
    three at ["false"]; in both versions of the script. *)
Theorem setOpen_sets_state_attributes (p : Page.page) (m : Page.menu_vars) (open : bool) :
  Page.menu p = Some m →
  is_Some (Page.el (Page.drawer m) p) →
  is_Some (Page.el (Page.scrim m) p) →
  is_Some (Page.el (Page.btn m) p) →
  let v := if open then "true" else "false" in
  ∀ setOpen, setOpen = V1.setOpen ∨ setOpen = V2.setOpen →
    (Page.el (Page.drawer m) (setOpen open p) ≫= Dom.getAttribute "data-open") = Some v
    ∧ (Page.el (Page.scrim m) (setOpen open p) ≫= Dom.getAttribute "data-open") = Some v
    ∧ (Page.el (Page.btn m) (setOpen open p) ≫= Dom.getAttribute "aria-expanded") = Some v.
Proof.
  intros Hm [d Hd] [s Hs] [b Hb] v setOpen Hver.
  assert (setOpen = V1.setOpen) as -> by (destruct Hver as [->| ->]; [done|apply Same.setOpen]).
  rewrite !(MenuFacts.el_setOpen open m) by done. fold v.
  rewrite (MenuFacts.written_attr _ _ _ _ _ d), (MenuFacts.written_attr _ _ _ _ _ s),
    (MenuFacts.written_attr _ _ _ _ _ b) by done.
  rewrite !Nat.eqb_refl. simpl. rewrite !orb_true_r. simpl.
  split_and!; [by destruct (Nat.eqb _ _)..|done].
Qed.

Lemma setOpen_sets_state_attributes_witness :
  let p := V2.initMobileMenu Sample.page0 in
  (Page.el 4 (V2.setOpen true p) ≫= Dom.getAttribute "data-open") = Some "true"
  ∧ (Page.el 7 (V2.setOpen true p) ≫= Dom.getAttribute "data-open") = Some "true"
  ∧ (Page.el 3 (V2.setOpen true p) ≫= Dom.getAttribute "aria-expanded") = Some "true".
Proof.
  apply (setOpen_sets_state_attributes (V2.initMobileMenu Sample.page0)
           (Page.Menu 3 4 7 None false) true).
  - vm_compute. reflexivity.
  - eexists. vm_compute. reflexivity.
  - eexists. vm_compute. reflexivity.
  - eexists. vm_compute. reflexivity.
  - right. reflexivity.
Defined.

(** ** Scroll lock *)

Module LockFacts.

Import Dom Page.

Lemma or_num_self y : JS.or_num y (JS.or_num y 0) = y.
Proof. unfold JS.or_num. destruct (Z.eqb_spec y 0); congruence. Qed.

Lemma or_num_0 y : JS.or_num y 0 = y.
Proof. unfold JS.or_num. destruct (Z.eqb_spec y 0); congruence. Qed.

(** The properties of the body's inline style the lock writes. *)
Definition lock_props : list string := ["position"; "top"; "left"; "right"; "width"].

Lemma lock_y_lock p : lock_y (V1.scrollLock.lock p) = scroll_y p.
Proof.
  transitivity (JS.or_num (scroll_y p) (JS.or_num (scroll_y p) 0)); [reflexivity|].
  apply or_num_self.
Qed.

Lemma body_style_lock p :
  body_style (V1.scrollLock.lock p)
  = <["width" := "100%"]> (<["right" := "0"]> (<["left" := "0"]>
      (<["top" := "-" +:+ pretty (scroll_y p) +:+ "px"]>
         (<["position" := "fixed"]> (body_style p))))).
Proof.
  rewrite <- (or_num_self (scroll_y p)) at 1. reflexivity.
Qed.

Lemma body_style_unlock p :
  body_style (V1.scrollLock.unlock p)
  = delete "width" (delete "right" (delete "left" (delete "top"
      (delete "position" (body_style p))))).
Proof. reflexivity. Qed.

Lemma scroll_y_unlock p : scroll_y (V1.scrollLock.unlock p) = lock_y p.
Proof. transitivity (JS.or_num (lock_y p) 0); [reflexivity|]. apply or_num_0. Qed.

End LockFacts.

(** C3.  Whatever the scroll position [scroll_y p] when the drawer opens:
    [scrollLock.lock] records it and gives the body the five declarations
    [position], [top], [left], [right] and [width]; wherever the viewport
    is moved while the body is fixed, [scrollLock.unlock] scrolls back to
    the recorded position and leaves none of the five declarations; in
    both versions of the script. *)
Theorem scrollLock_restores_position (p : Page.page) (moved_to : Z) :
  let run lock unlock := unlock (Page.set_scroll_y moved_to (lock p)) in
  let holds lock unlock :=
    Page.lock_y (lock p) = Page.scroll_y p
    ∧ Page.scroll_y (run lock unlock) = Page.scroll_y p
    ∧ Forall (fun prop => Dom.get_style prop (Page.body_style (lock p)) ≠ ""
                          ∧ Page.body_style (run lock unlock) !! prop = None
                          ∧ Dom.get_style prop (Page.body_style (run lock unlock)) = "")
             LockFacts.lock_props in
  holds V1.scrollLock.lock V1.scrollLock.unlock
  ∧ holds V2.scrollLock.lock V2.scrollLock.unlock.
Proof.
  intros run holds.
  assert (holds V1.scrollLock.lock V1.scrollLock.unlock) as H1.
  { unfold holds, run. split_and!.
    - apply LockFacts.lock_y_lock.
    - rewrite LockFacts.scroll_y_unlock. apply (LockFacts.lock_y_lock p).
    - rewrite LockFacts.body_style_unlock.
      change (Page.body_style (Page.set_scroll_y moved_to (V1.scrollLock.lock p)))
        with (Page.body_style (V1.scrollLock.lock p)).
      rewrite LockFacts.body_style_lock. unfold Dom.get_style.
      repeat constructor; simplify_map_eq; done. }
  split; [exact H1|].
  unfold holds, run in *. by rewrite Same.lock, Same.unlock.
Qed.

(** ** Anchor scrolling *)

Module AnchorFacts.

Import Dom Page DomFacts PageFacts.

Lemma closest_in_matches sel chain e :
  closest_in sel chain = Some e → ∃ anc, matches sel e anc = true.
Proof.
  induction chain as [|c chain IH]; simpl; [done|].
  destruct (matches sel c chain) eqn:Hm; [|done]. intros [= <-]. eauto.
Qed.

Lemma closest_matches sel x d e :
  closest sel x d = Some e → ∃ anc, matches sel e anc = true.
Proof.
  unfold closest. destruct (entry_of x d) as [en|]; [|done].
  apply (closest_in_matches sel (fst en :: snd en)).
Qed.

Lemma hash_link_href a anc :
  matches V1.sel_hash_link a anc = true →
  ∃ href, getAttribute "href" a = Some href ∧ JS.truthy href = true.
Proof.
  unfold matches, V1.sel_hash_link, matches_complex, matches_compound. simpl.
  rewrite orb_false_r, !andb_true_r. intros [_ H]%andb_prop. destruct (getAttribute "href" a) as [href|]; [|done].
  exists href. split; [done|]. by destruct href.
Qed.

(** Under unique handles, the element behind a handle is the only one with it. *)
Lemma find_NoDup_id (l : list element) e :
  NoDup (map el_id l) → e ∈ l →
  List.find (fun e' => Nat.eqb (el_id e') (el_id e)) l = Some e.
Proof.
  induction l as [|e' l IH]; intros Hnd Hin; [by apply elem_of_nil in Hin|].
  simpl in *. apply NoDup_cons in Hnd as [Hnot Hnd].
  destruct (Nat.eqb_spec (el_id e') (el_id e)) as [Heq|Hne].
  - apply elem_of_cons in Hin as [->|Hin]; [done|].
    exfalso. apply Hnot. rewrite Heq. apply list_elem_of_fmap. eauto.
  - apply elem_of_cons in Hin as [->|Hin]; [done|]. by apply IH.
Qed.

Lemma get_elements x d : get x d = List.find (fun e => Nat.eqb (el_id e) x) (elements d).
Proof.
  unfold get, entry_of, elements. rewrite find_map. done.
Qed.

Lemma get_of_elem d e : NoDup (ids d) → e ∈ elements d → get (el_id e) d = Some e.
Proof. intros. rewrite get_elements. by apply find_NoDup_id. Qed.

Lemma getElementById_spec i d x e :
  NoDup (ids d) → getElementById i d = Some x → get x d = Some e →
  getAttribute "id" e = Some i.
Proof.
  intros Hnd. unfold getElementById. destruct (JS.truthy i); [|done].
  destruct (List.find _ _) as [e0|] eqn:Hf; [|done]. simpl. intros [= <-].
  apply find_some in Hf as [Hin Hid]. apply bool_decide_eq_true in Hid.
  rewrite (get_of_elem d e0) by (done || by apply list_elem_of_In). by intros [= <-].
Qed.


(** What the listener does after the scroll call. *)
Definition after_scroll (id : string) (target : nid) (p : page) : page :=
  let p := match pushState ("#" +:+ id) p with
           | Some p' => p'
           | None => p
           end in
  let p := match el target p with
           | Some t => if hasAttribute "tabindex" t then p
                       else on_el target (setAttribute "tabindex" "-1") p
           | None => p
           end in
  V1.safeFocus (Some (El target)) p.

Lemma anchors_onClick_hit e p a href target :
  closest V1.sel_hash_link (Page.target e) (tree p) = Some a →
  getAttribute "href" a = Some href →
  href ≠ "#" →
  getElementById (JS.slice1 href) (tree p) = Some target →
  V1.anchors_onClick e p
  = (preventDefault e,
     after_scroll (JS.slice1 href) target
       (scrollTo_opts
          (Z.max 0 (match el target p with Some t => rect_top t | None => 0 end
                    + window_pageYOffset p - V1.headerOffset p))
          (if V1.prefersReducedMotion p then Auto else Smooth) p)).
Proof.
  intros Ha Hhref Hne Ht. unfold V1.anchors_onClick. rewrite Ha, Hhref.
  destruct (closest_matches _ _ _ _ Ha) as [anc Hm].
  destruct (hash_link_href _ _ Hm) as (href' & Hh & Htruthy).
  rewrite Hhref in Hh. injection Hh as <-. rewrite Htruthy.
  rewrite bool_decide_eq_false_2 by done. simpl negb. cbv iota. simpl orb. cbv iota.
  rewrite Ht. reflexivity.
Qed.

Lemma after_scroll_scroll id target p :
  scroll_y (after_scroll id target p) = scroll_y p
  ∧ scroll_behavior (after_scroll id target p) = scroll_behavior p.
Proof.
  unfold after_scroll, V1.safeFocus, focus, pushState.
  destruct (pushState_throws (platform p));
    repeat match goal with
           | |- context [match ?x with _ => _ end] => destruct x
           end; split; reflexivity.
Qed.

Lemma after_scroll_hash id target p :
  location_hash (after_scroll id target p)
  = if pushState_throws (platform p) then location_hash p else "#" +:+ id.
Proof.
  unfold after_scroll, V1.safeFocus, focus, pushState.
  destruct (pushState_throws (platform p));
    repeat match goal with
           | |- context [match ?x with _ => _ end] => destruct x
           end; reflexivity.
Qed.

End AnchorFacts.


(** C4 (amended).  A click inside a hash link whose fragment names an
    element of the document: the default action is prevented; the scroll
    destination is the target's document-relative top minus the header
    offset, or 0 when that is negative; the behaviour is [auto] when
    reduced motion is requested and [smooth] otherwise; the fragment of the
    URL becomes the target's identifier unless [pushState] throws.  When the
    [href] is ["#"] or names no element the listener changes nothing.  In
    both versions of the script. *)
Theorem anchor_click_scrolls_to_target :
  ∀ onClick, onClick = V1.anchors_onClick ∨ onClick = V2.anchors_onClick →
  (∀ e p a t href target,
     Dom.wf (Page.next_id p) (Page.tree p) →
     Dom.closest V1.sel_hash_link (Page.target e) (Page.tree p) = Some a →
     Dom.getAttribute "href" a = Some href →
     href ≠ "#" →
     Dom.getElementById (JS.slice1 href) (Page.tree p) = Some target →
     Page.el target p = Some t →
     let e' := fst (onClick e p) in
     let p' := snd (onClick e p) in
     Page.defaultPrevented e' = true
     ∧ Page.scroll_y p'
       = Z.max 0 (Dom.rect_top t + Page.scroll_y p - V1.headerOffset p)
     ∧ Page.scroll_behavior p'
       = (if bool_decide (Page.reduced_motion (Page.platform p) = Some true)
          then Page.Auto else Page.Smooth)
     ∧ Dom.id_of t = JS.slice1 href
     ∧ Page.location_hash p'
       = if Page.pushState_throws (Page.platform p) then Page.location_hash p
         else "#" +:+ Dom.id_of t)
  ∧ (∀ e p a href,
       Dom.closest V1.sel_hash_link (Page.target e) (Page.tree p) = Some a →
       Dom.getAttribute "href" a = Some href →
       href = "#" ∨ Dom.getElementById (JS.slice1 href) (Page.tree p) = None →
       onClick e p = (e, p)).
Proof.
  intros onClick Hver.
  assert (onClick = V1.anchors_onClick) as ->
    by (destruct Hver as [->| ->]; [done|apply Same.anchors_onClick]).
  split.
  - intros e p a t href target [Hnd _] Ha Hhref Hne Htarget Ht e' p'.
    subst e' p'. rewrite (AnchorFacts.anchors_onClick_hit e p a href target) by done.
    cbn [fst snd].
    destruct (AnchorFacts.after_scroll_scroll (JS.slice1 href) target
                (Page.scrollTo_opts
                   (Z.max 0 (match Page.el target p with
                             | Some t => Dom.rect_top t
                             | None => 0
                             end + Page.window_pageYOffset p - V1.headerOffset p))
                   (if V1.prefersReducedMotion p then Page.Auto else Page.Smooth) p))
      as [-> ->].
    rewrite AnchorFacts.after_scroll_hash.
    assert (Dom.id_of t = JS.slice1 href) as Hid.
    { unfold Dom.id_of.
      by rewrite (AnchorFacts.getElementById_spec _ _ _ _ Hnd Htarget Ht). }
    rewrite Ht, Hid. split_and!; try reflexivity.
    unfold V1.prefersReducedMotion.
    destruct (Page.reduced_motion (Page.platform p)) as [[]|]; reflexivity.
  - intros e p a href Ha Hhref Hno. unfold V1.anchors_onClick. rewrite Ha, Hhref.
    destruct Hno as [->|Hno]; [reflexivity|].
    destruct (negb (JS.truthy href) || bool_decide (href = "#")); [done|].
    by rewrite Hno.
Qed.

Lemma anchor_click_scrolls_to_target_witness :
  let r := V2.anchors_onClick (Page.click_on 24) Sample.page0 in
  Page.defaultPrevented (fst r) = true
  ∧ Page.scroll_y (snd r) = 58
  ∧ Page.scroll_behavior (snd r) = Page.Smooth
  ∧ Page.location_hash (snd r) = "#intro".
Proof.
  destruct (proj1 (anchor_click_scrolls_to_target V2.anchors_onClick (or_intror eq_refl))
              (Page.click_on 24) Sample.page0
              (Dom.elem (Sample.mk 23 "a" [("href", "#intro")] [] 100 []))
              (Dom.elem (Sample.mk 22 "h2" [("id", "intro")] [] 4 []))
              "#intro" 22%nat) as (H1 & H2 & H3 & _ & H5).
  - unfold Dom.wf. apply (bool_decide_unpack _). vm_compute. reflexivity.
  - vm_compute. reflexivity.
  - vm_compute. reflexivity.
  - discriminate.
  - vm_compute. reflexivity.
  - vm_compute. reflexivity.
  - split_and!; [exact H1|exact H2|exact H3|exact H5].
Defined.

(** The claim as worded takes the destination without the floor at 0: at the
    top of the sample page a click on the link to [#intro] scrolls to 0,
    where the target's top minus the header offset is -62. *)
Lemma anchor_destination_counterexample :
  let p := Sample.page_top in
  let e := Page.click_on 24 in
  ∃ a t,
    Dom.closest V1.sel_hash_link (Page.target e) (Page.tree p) = Some a
    ∧ Dom.getAttribute "href" a = Some "#intro"
    ∧ Dom.getElementById "intro" (Page.tree p) = Some 22%nat
    ∧ Page.el 22 p = Some t
    ∧ Page.scroll_y (snd (V1.anchors_onClick e p)) = 0
    ∧ Page.scroll_y (snd (V2.anchors_onClick e p)) = 0
    ∧ Dom.rect_top t + Page.scroll_y p - V1.headerOffset p = -62.
Proof.
  eexists _, _. split_and!; vm_compute; reflexivity.
Qed.

(** ** Active navigation link *)

Module NavFacts.

Import Dom Page DomFacts PageFacts.

(** The link [a] carries the class [is-active]. *)
Definition is_active (a : nid) (p : page) : bool :=
  match el a p with
  | Some e => classList_contains "is-active" e
  | None => false
  end.

(** [visible.target.id] *)
Definition target_id (v : entry) (p : page) : string :=
  match el (en_target v) p with
  | Some t => id_of t
  | None => ""
  end.

(** The batches the observer has delivered, oldest first. *)
Definition run_batches (bs : list (list entry)) (p : page) : page :=
  foldl (fun q es => V1.nav_onIntersect es q) p bs.

(** The active links all point to one section. *)
Definition at_most_one_active (n : nav_vars) (p : page) : Prop :=
  ∀ a b, a ∈ navLinks n → b ∈ navLinks n →
         is_active a p = true → is_active b p = true →
         V1.href_id a p = V1.href_id b p.

(** *** The most visible entry *)

Lemma or_ratio_0 r : (JS.or_ratio r 0 == r)%Q.
Proof.
  unfold JS.or_ratio. destruct (Qeq_bool r 0) eqn:H; [|reflexivity].
  apply Qeq_bool_iff in H. by rewrite H.
Qed.

Lemma by_ratio_le a b :
  Qle_bool (V1.by_ratio a b) 0 = true ↔ (intersectionRatio b <= intersectionRatio a)%Q.
Proof.
  rewrite Qle_bool_iff. unfold V1.by_ratio. rewrite !or_ratio_0.
  split; intros H.
  - apply Qplus_le_l with (z := (- intersectionRatio a)%Q).
    rewrite Qplus_opp_r. exact H.
  - apply Qplus_le_l with (z := (- intersectionRatio a)%Q) in H.
    rewrite Qplus_opp_r in H. exact H.
Qed.

Lemma sort_insert_not_nil {A} (cmp : A → A → Q) x l : JS.sort_insert cmp x l ≠ [].
Proof. destruct l as [|y l]; simpl; [done|]. by destruct (Qle_bool _ _). Qed.

Lemma sort_nil_inv {A} (cmp : A → A → Q) l : JS.sort cmp l = [] → l = [].
Proof. destruct l as [|x l]; [done|]. simpl. intros H. by apply sort_insert_not_nil in H. Qed.

Lemma head_sort_by_ratio l v :
  head (JS.sort V1.by_ratio l) = Some v →
  v ∈ l ∧ ∀ x, x ∈ l → (intersectionRatio x <= intersectionRatio v)%Q.
Proof.
  revert v. induction l as [|x l IH]; intros v; simpl; [done|].
  destruct (JS.sort V1.by_ratio l) as [|y r] eqn:Hs.
  - apply sort_nil_inv in Hs as ->. simpl. intros [= <-]. split; [left|].
    intros z ->%list_elem_of_singleton. apply Qle_refl.
  - destruct (IH y eq_refl) as [Hy Hmax]. simpl.
    destruct (Qle_bool (V1.by_ratio x y) 0) eqn:Hc; simpl; intros [= <-].
    + apply by_ratio_le in Hc. split; [left|].
      intros z [->|Hz]%elem_of_cons; [apply Qle_refl|].
      eapply Qle_trans; [by apply Hmax|done].
    + split; [by right|]. intros z [->|Hz]%elem_of_cons; [|by apply Hmax].
      apply Qlt_le_weak, Qnot_le_lt. intros Hle. apply by_ratio_le in Hle. congruence.
Qed.

Lemma head_sort_some {A} (cmp : A → A → Q) l : l ≠ [] → is_Some (head (JS.sort cmp l)).
Proof.
  intros Hl. destruct (JS.sort cmp l) as [|v r] eqn:Hs; [|by eexists].
  by apply sort_nil_inv in Hs.
Qed.

(** *** Class updates over a list of links *)

Lemma el_fold_on_el (f : element → element) (l : list nid) p y :
  keeps_id f → (∀ e, f (f e) = f e) →
  el y (foldl (fun q a => on_el a f q) p l)
  = (if bool_decide (y ∈ l) then f else id) <$> el y p.
Proof.
  intros Hf Hidem. revert p. induction l as [|a l IH]; intros p.
  - simpl. by destruct (el y p).
  - simpl. rewrite IH, el_on_el by done.
    destruct (el y p) as [e|] eqn:He; [|done]. simpl. f_equal.
    unfold at_id. rewrite (el_el_id _ _ _ He).
    destruct (Nat.eqb_spec y a) as [->|Hne].
    + rewrite (bool_decide_eq_true_2 (a ∈ a :: l)); [|apply elem_of_cons; by left].
      case_bool_decide; [apply Hidem|done].
    + case_bool_decide as Hin.
      * rewrite bool_decide_eq_true_2 by (by right). done.
      * rewrite bool_decide_eq_false_2; [done|].
        by intros [?|?]%elem_of_cons.
Qed.

Lemma nav_fold_on_el (f : element → element) (l : list nid) p :
  nav (foldl (fun q a => on_el a f q) p l) = nav p.
Proof. revert p. induction l as [|a l IH]; intros p; simpl; [done|]. by rewrite IH. Qed.

Lemma classList_remove_idem c e : classList_remove c (classList_remove c e) = classList_remove c e.
Proof.
  unfold classList_remove, with_classList. simpl. f_equal.
  induction (classList e) as [|x l IH]; [done|].
  rewrite (filter_cons _ x l). case_decide.
  - rewrite (filter_cons _ x). rewrite decide_True by done. by rewrite IH.
  - done.
Qed.

Lemma classList_add_idem c e : classList_add c (classList_add c e) = classList_add c e.
Proof.
  unfold classList_add, with_classList. simpl. f_equal.
  destruct (bool_decide (c ∈ classList e)) eqn:H.
  - by rewrite H.
  - rewrite bool_decide_eq_true_2; [done|].
    apply elem_of_app. right. apply elem_of_cons. by left.
Qed.

Lemma contains_add c e : classList_contains c (classList_add c e) = true.
Proof.
  unfold classList_contains, classList_add. simpl. apply bool_decide_eq_true_2.
  destruct (bool_decide (c ∈ classList e)) eqn:H.
  - by apply bool_decide_eq_true in H.
  - apply elem_of_app. right. apply elem_of_cons. by left.
Qed.

Lemma contains_remove c e : classList_contains c (classList_remove c e) = false.
Proof.
  unfold classList_contains, classList_remove. simpl.
  apply bool_decide_eq_false_2. intros H%list_elem_of_filter. by destruct H.
Qed.

(** *** The table from identifiers to links *)

Definition group_step (p : page) (m : gmap string (list nid)) (a : nid) :
    gmap string (list nid) :=
  let id := V1.href_id a p in
  let m := match m !! id with Some _ => m | None => <[id := []]> m end in
  <[id := default [] (m !! id) ++ [a]]> m.

Lemma group_lookup p l (m : gmap string (list nid)) i :
  default [] (foldl (group_step p) m l !! i)
  = default [] (m !! i) ++ List.filter (fun a => bool_decide (V1.href_id a p = i)) l.
Proof.
  revert m. induction l as [|a l IH]; intros m; simpl.
  - by rewrite app_nil_r.
  - rewrite IH. unfold group_step at 1.
    destruct (decide (V1.href_id a p = i)) as [<-|Hne].
    + rewrite lookup_insert_eq, bool_decide_eq_true_2 by done. simpl.
      destruct (m !! V1.href_id a p) eqn:Hm.
      * rewrite Hm. simpl. by rewrite <- List.app_assoc.
      * rewrite lookup_insert_eq. simpl. done.
    + rewrite lookup_insert_ne, bool_decide_eq_false_2 by done.
      destruct (m !! V1.href_id a p); [done|]. by rewrite lookup_insert_ne.
Qed.

(** *** What a batch does *)

Definition activate (links : list nid) (p : page) : page :=
  foldl (fun q a => on_el a (classList_add "is-active") q) p links.

Definition most_visible (es : list entry) : option entry :=
  head (JS.sort V1.by_ratio (List.filter isIntersecting es)).

Lemma batch_none n es q :
  nav q = Some n → most_visible es = None → V1.nav_onIntersect es q = q.
Proof. unfold most_visible, V1.nav_onIntersect. by intros -> ->. Qed.

Lemma batch_some n es q v :
  nav q = Some n → most_visible es = Some v →
  V1.nav_onIntersect es q
  = activate (default [] (mapIdToLinks n !! target_id v q)) (V1.clear n q).
Proof. unfold most_visible, V1.nav_onIntersect. by intros -> ->. Qed.

Lemma most_visible_none es :
  Forall (fun x => isIntersecting x = false) es → most_visible es = None.
Proof.
  intros H. unfold most_visible.
  replace (List.filter isIntersecting es) with (@nil entry); [done|].
  induction H as [|x l Hx _ IH]; simpl; [done|]. by rewrite Hx.
Qed.

Lemma most_visible_some es :
  Exists (fun x => isIntersecting x = true) es →
  ∃ v, most_visible es = Some v ∧ v ∈ es ∧ isIntersecting v = true
       ∧ ∀ x, x ∈ es → isIntersecting x = true →
              (intersectionRatio x <= intersectionRatio v)%Q.
Proof.
  intros Hex. unfold most_visible.
  assert (List.filter isIntersecting es ≠ []) as Hne.
  { apply Exists_exists in Hex as (x & Hx & Hi). intros Hnil.
    assert (In x (List.filter isIntersecting es)) as Hin
      by (apply filter_In; split; [by apply list_elem_of_In|done]).
    by rewrite Hnil in Hin. }
  destruct (head_sort_some V1.by_ratio _ Hne) as [v Hv]. exists v.
  split; [done|]. apply head_sort_by_ratio in Hv as [Hin Hmax].
  apply list_elem_of_In, filter_In in Hin as [Hin Hi].
  split_and!; [by apply list_elem_of_In|done|].
  intros x Hx Hxi. apply Hmax. apply list_elem_of_In, filter_In.
  split; [by apply list_elem_of_In|done].
Qed.

(** Written from the page [p0] the observer was set up on, a page [q] has
    the same observer variables and the same attributes everywhere. *)
Definition same_links (p0 : page) (n : nav_vars) (q : page) : Prop :=
  nav q = Some n ∧ ∀ x, attrs <$> el x q = attrs <$> el x p0.

Lemma same_links_href p0 n q a : same_links p0 n q → V1.href_id a q = V1.href_id a p0.
Proof.
  intros [_ H]. unfold V1.href_id. specialize (H a).
  destruct (el a q) as [e|], (el a p0) as [e0|]; simpl in *; try done.
  injection H as H. unfold getAttribute. by rewrite H.
Qed.

Lemma same_links_target_id p0 n q v : same_links p0 n q → target_id v q = target_id v p0.
Proof.
  intros [_ H]. unfold target_id. specialize (H (en_target v)).
  destruct (el (en_target v) q) as [e|], (el (en_target v) p0) as [e0|];
    simpl in *; try done.
  injection H as H. unfold id_of, getAttribute. by rewrite H.
Qed.

Lemma el_batch n v q y :
  el y (activate (default [] (mapIdToLinks n !! target_id v q)) (V1.clear n q))
  = (if bool_decide (y ∈ default [] (mapIdToLinks n !! target_id v q))
     then classList_add "is-active" else id)
    <$> ((if bool_decide (y ∈ navLinks n) then classList_remove "is-active" else id)
         <$> el y q).
Proof.
  unfold activate, V1.clear.
  rewrite el_fold_on_el by (auto with dom || apply classList_add_idem).
  rewrite el_fold_on_el by (auto with dom || apply classList_remove_idem).
  done.
Qed.

Lemma same_links_batch p0 n es q :
  same_links p0 n q → same_links p0 n (V1.nav_onIntersect es q).
Proof.
  intros [Hn Hat]. destruct (most_visible es) as [v|] eqn:Hv.
  - rewrite (batch_some n es q v) by done. split.
    + unfold activate, V1.clear. by rewrite !nav_fold_on_el.
    + intros x. rewrite el_batch, <- Hat.
      destruct (el x q) as [e|]; [|done]. simpl.
      by repeat case_bool_decide.
  - by rewrite (batch_none n es q).
Qed.

Lemma same_links_batches p0 n bs q :
  same_links p0 n q → same_links p0 n (run_batches bs q).
Proof.
  revert q. induction bs as [|es bs IH]; intros q H; [done|].
  simpl. by apply IH, same_links_batch.
Qed.

Lemma query_exists sel d x : x ∈ querySelectorAll sel d → is_Some (get x d).
Proof.
  unfold querySelectorAll. intros (en & -> & Hin)%list_elem_of_fmap.
  apply list_elem_of_In, filter_In in Hin as [Hin _].
  unfold get, entry_of. destruct (List.find _ _) as [en'|] eqn:Hf; [by eexists|].
  apply (find_none _ _ Hf) in Hin. by rewrite Nat.eqb_refl in Hin.
Qed.

Lemma init_nav p0 n :
  nav p0 = None → nav (V1.initActiveNav p0) = Some n →
  same_links p0 n (V1.initActiveNav p0)
  ∧ navLinks n = queryAll V1.sel_nav_links p0
  ∧ mapIdToLinks n = foldl (group_step p0) ∅ (navLinks n).
Proof.
  intros Hnone. unfold V1.initActiveNav.
  destruct (_ || _); [by rewrite Hnone|].
  destruct (bool_decide _); [by rewrite Hnone|].
  intros [= <-]. split_and!; done.
Qed.

Lemma links_of n p0 i :
  mapIdToLinks n = foldl (group_step p0) ∅ (navLinks n) →
  ∀ a, a ∈ default [] (mapIdToLinks n !! i) ↔ a ∈ navLinks n ∧ V1.href_id a p0 = i.
Proof.
  intros -> a. rewrite group_lookup, lookup_empty. simpl.
  rewrite list_elem_of_In, filter_In, <- list_elem_of_In, bool_decide_eq_true. done.
Qed.

Lemma is_active_batch n v q a :
  a ∈ navLinks n → is_Some (el a q) →
  is_active a (activate (default [] (mapIdToLinks n !! target_id v q)) (V1.clear n q))
  = bool_decide (a ∈ default [] (mapIdToLinks n !! target_id v q)).
Proof.
  intros Hin [e He]. unfold is_active. rewrite el_batch, He. simpl.
  rewrite (bool_decide_eq_true_2 _ Hin). case_bool_decide.
  - apply contains_add.
  - apply contains_remove.
Qed.

(** The effect of a batch on a page the observer was set up on. *)
Lemma batch_effect p0 n q es :
  same_links p0 n q →
  navLinks n = queryAll V1.sel_nav_links p0 →
  mapIdToLinks n = foldl (group_step p0) ∅ (navLinks n) →
  let q' := V1.nav_onIntersect es q in
  (Forall (fun x => isIntersecting x = false) es → q' = q)
  ∧ (Exists (fun x => isIntersecting x = true) es →
     ∃ v, v ∈ es ∧ isIntersecting v = true
       ∧ (∀ x, x ∈ es → isIntersecting x = true →
               (intersectionRatio x <= intersectionRatio v)%Q)
       ∧ (∀ a, a ∈ navLinks n →
               is_active a q' = true
               ↔ a ∈ default [] (mapIdToLinks n !! target_id v q'))
       ∧ (∀ a, a ∈ navLinks n →
               a ∈ default [] (mapIdToLinks n !! target_id v q')
               ↔ V1.href_id a q' = target_id v q')
       ∧ at_most_one_active n q').
Proof.
  intros Hsame Hlinks Hmap q'.
  pose proof (same_links_batch p0 n es q Hsame) as Hsame'. fold q' in Hsame'.
  split.
  - intros Hnone. unfold q'. apply (batch_none n); [apply Hsame|].
    by apply most_visible_none.
  - intros Hex. destruct (most_visible_some es Hex) as (v & Hv & Hin & Hi & Hmax).
    exists v. split_and!; try done.
    + intros a Ha. unfold q'. rewrite (batch_some n es q v) by (done || apply Hsame).
      fold (V1.nav_onIntersect es q).
      rewrite is_active_batch; [|done|].
      * rewrite bool_decide_eq_true.
        change (activate _ _) with
          (activate (default [] (mapIdToLinks n !! target_id v q)) (V1.clear n q)).
        rewrite <- (batch_some n es q v) by (done || apply Hsame).
        by rewrite (same_links_target_id p0 n q), (same_links_target_id p0 n q').
      * destruct Hsame as [_ Hat]. specialize (Hat a).
        rewrite Hlinks in Ha. apply query_exists in Ha as [e He].
        unfold el in Hat at 2. rewrite He in Hat.
        destruct (el a q); [by eexists|done].
    + intros a Ha. rewrite (links_of n p0) by done.
      rewrite (same_links_href p0 n q') by done.
      split; [by intros [_ ?]|by intros ?; split].
    + intros a b Ha Hb Haa Hab.
      assert (∀ c, c ∈ navLinks n → is_active c q' = true →
                   V1.href_id c q' = target_id v q') as Hkey.
      { intros c Hc Hca. rewrite (same_links_href p0 n q') by done.
        unfold q' in Hca. rewrite (batch_some n es q v) in Hca by (done || apply Hsame).
        rewrite is_active_batch in Hca; [|done|].
        - apply bool_decide_eq_true in Hca.
          apply (links_of n p0) in Hca as [_ Hca]; [|done].
          by rewrite Hca, (same_links_target_id p0 n q), (same_links_target_id p0 n q').
        - destruct Hsame as [_ Hat]. specialize (Hat c).
          rewrite Hlinks in Hc. apply query_exists in Hc as [e He].
          unfold el in Hat at 2. rewrite He in Hat.
          destruct (el c q); [by eexists|done]. }
      by rewrite (Hkey a), (Hkey b).
Qed.

Lemma at_most_one_batch p0 n q es :
  same_links p0 n q →
  navLinks n = queryAll V1.sel_nav_links p0 →
  mapIdToLinks n = foldl (group_step p0) ∅ (navLinks n) →
  at_most_one_active n q → at_most_one_active n (V1.nav_onIntersect es q).
Proof.
  intros Hsame Hlinks Hmap Hone.
  destruct (batch_effect p0 n q es Hsame Hlinks Hmap) as [Hnone Hsome].
  destruct (decide (Exists (fun x => isIntersecting x = true) es)) as [Hex|Hnex].
  - destruct (Hsome Hex) as (v & _ & _ & _ & _ & _ & Hone'). exact Hone'.
  - rewrite Hnone; [done|]. apply Forall_forall. intros x Hx.
    destruct (isIntersecting x) eqn:Hi; [|done].
    exfalso. apply Hnex, Exists_exists. eauto.
Qed.

Lemma at_most_one_batches p0 n q bs :
  same_links p0 n q →
  navLinks n = queryAll V1.sel_nav_links p0 →
  mapIdToLinks n = foldl (group_step p0) ∅ (navLinks n) →
  at_most_one_active n q → at_most_one_active n (run_batches bs q).
Proof.
  intros Hsame Hlinks Hmap. revert q Hsame.
  induction bs as [|es bs IH]; intros q Hsame Hone; [done|].
  simpl. apply IH; [by apply same_links_batch|by apply (at_most_one_batch p0)].
Qed.

End NavFacts.


(** C5 (amended).  The observer of [initActiveNav] set up on a page [p0],
    after any batches [bs]: a batch without intersecting entry changes
    nothing; a batch with one picks an intersecting entry of greatest
    ratio, and afterwards exactly the navigation links mapped to its
    target's identifier carry [is-active], so that at most one identifier
    has active links; hence a batch keeps "at most one identifier has
    active links" whenever it held before.  In both versions. *)
Theorem active_nav_follows_most_visible (p0 : Page.page) (n : Page.nav_vars)
    (bs : list (list Page.entry)) (es : list Page.entry) :
  Page.nav p0 = None →
  ∀ init onIntersect,
    (init = V1.initActiveNav ∧ onIntersect = V1.nav_onIntersect)
    ∨ (init = V2.initActiveNav ∧ onIntersect = V2.nav_onIntersect) →
  Page.nav (init p0) = Some n →
  let q := foldl (fun q es => onIntersect es q) (init p0) bs in
  let q' := onIntersect es q in
  (NavFacts.at_most_one_active n (init p0) → NavFacts.at_most_one_active n q)
  ∧ (NavFacts.at_most_one_active n q → NavFacts.at_most_one_active n q')
  ∧ (Forall (fun x => Page.isIntersecting x = false) es → q' = q)
  ∧ (Exists (fun x => Page.isIntersecting x = true) es →
     ∃ v, v ∈ es ∧ Page.isIntersecting v = true
       ∧ (∀ x, x ∈ es → Page.isIntersecting x = true →
               (Page.intersectionRatio x <= Page.intersectionRatio v)%Q)
       ∧ (∀ a, a ∈ Page.navLinks n →
               NavFacts.is_active a q' = true
               ↔ a ∈ default [] (Page.mapIdToLinks n !! NavFacts.target_id v q'))
       ∧ (∀ a, a ∈ Page.navLinks n →
               a ∈ default [] (Page.mapIdToLinks n !! NavFacts.target_id v q')
               ↔ V1.href_id a q' = NavFacts.target_id v q')
       ∧ NavFacts.at_most_one_active n q').
Proof.
  intros Hnone init onIntersect Hver Hn.
  assert (init = V1.initActiveNav ∧ onIntersect = V1.nav_onIntersect) as [-> ->].
  { destruct Hver as [[-> ->]|[-> ->]]; [done|].
    split; [apply Same.initActiveNav|apply Same.nav_onIntersect]. }
  destruct (NavFacts.init_nav p0 n Hnone Hn) as (Hsame & Hlinks & Hmap).
  intros q q'.
  assert (NavFacts.same_links p0 n q) as Hq
    by (by apply (NavFacts.same_links_batches p0 n bs)).
  split_and!.
  - by apply (NavFacts.at_most_one_batches p0).
  - by apply (NavFacts.at_most_one_batch p0).
  - by apply (NavFacts.batch_effect p0 n q es).
  - by apply (NavFacts.batch_effect p0 n q es).
Qed.

Lemma active_nav_follows_most_visible_witness :
  let es := [Page.Entry 9 true (1 # 4); Page.Entry 17 true (1 # 2)] in
  let q' := V2.nav_onIntersect es (V2.initActiveNav Sample.page0) in
  ∃ n, Page.nav (V2.initActiveNav Sample.page0) = Some n
       ∧ NavFacts.at_most_one_active n q'.
Proof.
  intros es q'. eexists. split; [reflexivity|].
  destruct (active_nav_follows_most_visible Sample.page0 _ [] es eq_refl
              V2.initActiveNav V2.nav_onIntersect (or_intror (conj eq_refl eq_refl))
              eq_refl) as (_ & _ & _ & H).
  destruct H as (v & _ & _ & _ & _ & _ & H).
  - apply Exists_cons_hd. reflexivity.
  - exact H.
Defined.

(** On a page served with [is-active] on the links to two sections, a first
    batch without intersecting entry leaves both links active. *)
Lemma active_nav_counterexample :
  let p := V1.initActiveNav Sample.page_marked in
  let q := V1.nav_onIntersect [Page.Entry 9 false 0; Page.Entry 17 false 0] p in
  ∃ n, Page.nav p = Some n
       ∧ 5%nat ∈ Page.navLinks n ∧ 6%nat ∈ Page.navLinks n
       ∧ NavFacts.is_active 5 q = true ∧ NavFacts.is_active 6 q = true
       ∧ V1.href_id 5 q = "sec1" ∧ V1.href_id 6 q = "sec2"
       ∧ ¬ NavFacts.at_most_one_active n q.
Proof.
  intros p q. eexists. split; [reflexivity|].
  assert (NavFacts.is_active 5 q = true) as H5 by (vm_compute; reflexivity).
  assert (NavFacts.is_active 6 q = true) as H6 by (vm_compute; reflexivity).
  assert (V1.href_id 5 q = "sec1") as Hh5 by (vm_compute; reflexivity).
  assert (V1.href_id 6 q = "sec2") as Hh6 by (vm_compute; reflexivity).
  assert (5%nat ∈ [5; 6; 23; 25; 26]%nat) as Hin5 by (apply elem_of_cons; by left).
  assert (6%nat ∈ [5; 6; 23; 25; 26]%nat) as Hin6
    by (apply elem_of_cons; right; apply elem_of_cons; by left).
  split_and!; try done.
  intros Hone. specialize (Hone 5%nat 6%nat Hin5 Hin6 H5 H6).
  rewrite Hh5, Hh6 in Hone. discriminate.
Qed.

(** ** Lazy iframes *)

Module LazyFacts.

Import Dom Page DomFacts PageFacts.

(** What [load] makes of an iframe. *)
Definition loaded (f : element) : element :=
  if bool_decide (getAttribute "data-loaded" f = Some "true") then f
  else setAttribute "data-loaded" "true"
         (setAttribute "src" (default "undefined" (getAttribute "data-src" f)) f).

(** The targets of the intersecting entries of a batch. *)
Definition near (es : list entry) : list nid :=
  map en_target (List.filter isIntersecting es).

Lemma keeps_id_loaded : keeps_id loaded.
Proof. intros f. unfold loaded. by case_bool_decide. Qed.

Lemma loaded_marked f : getAttribute "data-loaded" (loaded f) = Some "true".
Proof.
  unfold loaded. case_bool_decide as H; [done|].
  unfold getAttribute, setAttribute. simpl. apply lookup_insert_eq.
Qed.

Lemma loaded_src f s :
  getAttribute "data-loaded" f ≠ Some "true" → getAttribute "data-src" f = Some s →
  getAttribute "src" (loaded f) = Some s.
Proof.
  intros Hno Hs. unfold loaded. rewrite bool_decide_eq_false_2 by done.
  unfold getAttribute, setAttribute in *. simpl.
  rewrite lookup_insert_ne by done. rewrite lookup_insert_eq. by rewrite Hs.
Qed.

Lemma loaded_already f : getAttribute "data-loaded" f = Some "true" → loaded f = f.
Proof. intros H. unfold loaded. by rewrite bool_decide_eq_true_2. Qed.

Lemma loaded_idem f : loaded (loaded f) = loaded f.
Proof. apply loaded_already, loaded_marked. Qed.

Lemma el_load p x y : el y (V1.load p x) = at_id x loaded <$> el y p.
Proof.
  unfold V1.load. destruct (el x p) as [f|] eqn:Hf.
  - case_bool_decide as Hl.
    + destruct (el y p) as [e|] eqn:He; [|done]. simpl. f_equal. unfold at_id.
      rewrite (el_el_id _ _ _ He). destruct (Nat.eqb_spec y x) as [->|]; [|done].
      rewrite Hf in He. injection He as <-. by rewrite loaded_already.
    + rewrite !el_on_el by auto with dom.
      destruct (el y p) as [e|] eqn:He; [|done]. simpl. f_equal. unfold at_id.
      simpl. rewrite (el_el_id _ _ _ He).
      destruct (Nat.eqb_spec y x) as [->|Hne].
      * simpl. rewrite (el_el_id _ _ _ He), Nat.eqb_refl.
        rewrite Hf in He. injection He as <-. unfold loaded.
        by rewrite bool_decide_eq_false_2.
      * rewrite (el_el_id _ _ _ He). by destruct (Nat.eqb_spec y x).
  - destruct (el y p) as [e|] eqn:He; [|done]. simpl. f_equal. unfold at_id.
    rewrite (el_el_id _ _ _ He). destruct (Nat.eqb_spec y x) as [->|]; [|done].
    congruence.
Qed.

Lemma lazy_load p x : lazy (V1.load p x) = lazy p.
Proof. unfold V1.load. destruct (el x p); [|done]. by case_bool_decide. Qed.

Lemma load_already p x f :
  el x p = Some f → getAttribute "data-loaded" f = Some "true" → V1.load p x = p.
Proof. intros Hf Hl. unfold V1.load. by rewrite Hf, bool_decide_eq_true_2. Qed.

Lemma load_idem p x : V1.load (V1.load p x) x = V1.load p x.
Proof.
  destruct (el x p) as [f|] eqn:Hf.
  - apply (load_already _ _ (loaded f)); [|apply loaded_marked].
    rewrite el_load, Hf. simpl. unfold at_id.
    by rewrite (el_el_id _ _ _ Hf), Nat.eqb_refl.
  - unfold V1.load at 2. rewrite Hf. unfold V1.load. by rewrite Hf.
Qed.

Lemma at_id_if x y (g : element → element) e :
  el_id e = y → at_id x g e = (if bool_decide (y = x) then g else id) e.
Proof.
  intros <-. unfold at_id. destruct (Nat.eqb_spec (el_id e) x).
  - by rewrite bool_decide_eq_true_2.
  - by rewrite bool_decide_eq_false_2.
Qed.

Lemma el_fold_load l p y :
  el y (foldl V1.load p l) = (if bool_decide (y ∈ l) then loaded else id) <$> el y p.
Proof.
  revert p. induction l as [|x l IH]; intros p.
  - simpl. by destruct (el y p).
  - simpl. rewrite IH, el_load.
    destruct (el y p) as [e|] eqn:He; [|by repeat case_bool_decide].
    simpl. f_equal. rewrite (at_id_if x y) by (by apply (el_el_id _ p)).
    destruct (decide (y = x)) as [->|Hne].
    + rewrite (bool_decide_eq_true_2 (x = x)) by done.
      rewrite (bool_decide_eq_true_2 (x ∈ x :: l)) by (apply elem_of_cons; by left).
      case_bool_decide; [apply loaded_idem|done].
    + rewrite (bool_decide_eq_false_2 (y = x)) by done.
      case_bool_decide as Hin.
      * by rewrite (bool_decide_eq_true_2 (_ ∈ _ :: _)) by (apply elem_of_cons; by right).
      * rewrite (bool_decide_eq_false_2 (_ ∈ _ :: _)); [done|].
        by intros [?|?]%elem_of_cons.
Qed.

(** *** The observer callback *)

Definition on_entry (p : page) (e : entry) : page :=
  if isIntersecting e then V1.unobserve (en_target e) (V1.load p (en_target e)) else p.

Lemma el_unobserve x p y : el y (V1.unobserve x p) = el y p.
Proof. reflexivity. Qed.

Lemma near_cons e es :
  near (e :: es) = if isIntersecting e then en_target e :: near es else near es.
Proof. unfold near. simpl. by destruct (isIntersecting e). Qed.

Lemma el_lazy_batch es p y :
  el y (foldl on_entry p es) = (if bool_decide (y ∈ near es) then loaded else id) <$> el y p.
Proof.
  revert p. induction es as [|e es IH]; intros p.
  - simpl. by destruct (el y p).
  - change (foldl on_entry p (e :: es)) with (foldl on_entry (on_entry p e) es).
    rewrite IH, near_cons. unfold on_entry.
    destruct (isIntersecting e); [|done].
    rewrite el_unobserve, el_load.
    destruct (el y p) as [f|] eqn:He; [|by repeat case_bool_decide].
    simpl. f_equal. rewrite (at_id_if (en_target e) y) by (by apply (el_el_id _ p)).
    destruct (decide (y = en_target e)) as [->|Hne].
    + rewrite (bool_decide_eq_true_2 (_ = _)) by done.
      rewrite (bool_decide_eq_true_2 (_ ∈ _ :: _)) by (apply elem_of_cons; by left).
      case_bool_decide; [apply loaded_idem|done].
    + rewrite (bool_decide_eq_false_2 (y = _)) by done.
      case_bool_decide as Hin.
      * by rewrite (bool_decide_eq_true_2 (_ ∈ _ :: _)) by (apply elem_of_cons; by right).
      * rewrite (bool_decide_eq_false_2 (_ ∈ _ :: _)); [done|].
        by intros [?|?]%elem_of_cons.
Qed.

Lemma lazy_batch es p :
  lazy (foldl on_entry p es)
  = List.filter (fun y => negb (bool_decide (y ∈ near es))) <$> lazy p.
Proof.
  revert p. induction es as [|e es IH]; intros p.
  - simpl. destruct (lazy p) as [obs|]; [|done]. simpl. f_equal.
    induction obs as [|y obs IHo]; [done|]. simpl. by f_equal.
  - change (foldl on_entry p (e :: es)) with (foldl on_entry (on_entry p e) es).
    rewrite IH, near_cons. unfold on_entry.
    destruct (isIntersecting e); [|done].
    change (lazy (V1.unobserve (en_target e) (V1.load p (en_target e))))
      with (List.filter (fun y => negb (Nat.eqb y (en_target e)))
              <$> lazy (V1.load p (en_target e))).
    rewrite lazy_load. destruct (lazy p) as [obs|]; [|done]. simpl. f_equal.
    induction obs as [|y obs IHo]; [done|]. simpl.
    destruct (Nat.eqb_spec y (en_target e)) as [->|Hne]; simpl.
    + rewrite (bool_decide_eq_true_2 (_ ∈ _ :: _)) by (apply elem_of_cons; by left).
      simpl. apply IHo.
    + destruct (bool_decide (y ∈ near es)) eqn:Hin; simpl.
      * apply bool_decide_eq_true in Hin.
        rewrite (bool_decide_eq_true_2 (_ ∈ _ :: _)) by (apply elem_of_cons; by right).
        simpl. apply IHo.
      * apply bool_decide_eq_false in Hin.
        rewrite (bool_decide_eq_false_2 (_ ∈ _ :: _));
          [|by intros [?|?]%elem_of_cons]. simpl. by f_equal.
Qed.

Lemma init_with_observer p x :
  has_IntersectionObserver (platform p) = true →
  x ∈ queryAll V1.sel_lazy p →
  V1.initLazyIframes p = set_lazy (Some (queryAll V1.sel_lazy p)) p.
Proof.
  intros Hio Hx. unfold V1.initLazyIframes. case_bool_decide as Hnil.
  - rewrite Hnil in Hx. by apply elem_of_nil in Hx.
  - by rewrite Hio.
Qed.

(** An iframe that carries [data-src]: what ["iframe[data-src]"] selects. *)
Definition deferred (f : element) : bool :=
  bool_decide (tagName f = "iframe") && hasAttribute "data-src" f.

Lemma matches_lazy e anc : matches V1.sel_lazy e anc = deferred e.
Proof.
  unfold matches, V1.sel_lazy, matches_complex, matches_compound, deferred.
  cbn [existsb forallb under subject matches_simple].
  by rewrite !andb_true_r, orb_false_r.
Qed.

Lemma deferred_selected p x f :
  el x p = Some f → deferred f = true → x ∈ queryAll V1.sel_lazy p.
Proof.
  unfold el, get. destruct (entry_of x (tree p)) as [[e anc]|] eqn:Hen; [|done].
  intros [= ->] Hd. apply find_some in Hen as [Hin Hid]. apply Nat.eqb_eq in Hid.
  unfold queryAll, querySelectorAll. apply list_elem_of_fmap.
  exists (f, anc). split; [done|]. apply list_elem_of_In, filter_In.
  split; [done|]. cbn [fst snd]. by rewrite matches_lazy.
Qed.

Lemma selected_deferred p x f :
  NoDup (ids (tree p)) → x ∈ queryAll V1.sel_lazy p → el x p = Some f →
  deferred f = true.
Proof.
  intros Hnd. unfold queryAll, querySelectorAll.
  intros ([e anc] & -> & Hin)%list_elem_of_fmap.
  apply list_elem_of_In, filter_In in Hin as [Hin Hm]. cbn [fst snd] in *.
  rewrite matches_lazy in Hm. unfold el.
  rewrite (AnchorFacts.get_of_elem (tree p) e Hnd).
  - by intros [= <-].
  - unfold elements. apply list_elem_of_fmap. exists (e, anc).
    split; [done|]. by apply list_elem_of_In.
Qed.

(** Without [IntersectionObserver]: every deferred iframe is loaded, and
    nothing else is touched. *)
Lemma init_plain p x f :
  NoDup (ids (tree p)) → has_IntersectionObserver (platform p) = false →
  el x p = Some f →
  el x (V1.initLazyIframes p) = Some (if deferred f then loaded f else f).
Proof.
  intros Hnd Hio Hf. unfold V1.initLazyIframes. case_bool_decide as Hnil.
  - destruct (deferred f) eqn:Hd; [|done].
    pose proof (deferred_selected p x f Hf Hd) as Hin. rewrite Hnil in Hin.
    by apply elem_of_nil in Hin.
  - rewrite Hio. cbn [negb]. rewrite el_fold_load, Hf. cbn [fmap option_fmap option_map].
    f_equal. case_bool_decide as Hin.
    + by rewrite (selected_deferred p x f Hnd Hin Hf).
    + destruct (deferred f) eqn:Hd; [|done].
      destruct Hin. by apply (deferred_selected p x f).
Qed.

(** With it: the tree is left alone and exactly the deferred iframes are
    observed. *)
Lemma init_observing p x f :
  NoDup (ids (tree p)) → has_IntersectionObserver (platform p) = true →
  el x p = Some f → deferred f = true →
  tree (V1.initLazyIframes p) = tree p
  ∧ ∃ obs, lazy (V1.initLazyIframes p) = Some obs ∧ x ∈ obs
           ∧ ∀ y, y ∈ obs → ∃ e, el y p = Some e ∧ deferred e = true.
Proof.
  intros Hnd Hio Hf Hd. pose proof (deferred_selected p x f Hf Hd) as Hin.
  rewrite (init_with_observer p x Hio Hin). split; [done|].
  exists (queryAll V1.sel_lazy p). split_and!; [done|done|].
  intros y Hy. destruct (NavFacts.query_exists _ _ _ Hy) as [e He].
  exists e. split; [done|]. by apply (selected_deferred p y e).
Qed.

Lemma tree_init_observing p :
  has_IntersectionObserver (platform p) = true → tree (V1.initLazyIframes p) = tree p.
Proof.
  intros Hio. unfold V1.initLazyIframes. case_bool_decide; [done|]. by rewrite Hio.
Qed.

End LazyFacts.

(** C8 (amended).  An iframe with [data-src] (the elements
    ["iframe[data-src]"] selects, and no other).  Without
    [IntersectionObserver] [initLazyIframes] loads every one of them at once
    and touches nothing else; with it the tree is left alone and exactly
    these iframes are observed, and the batch that reports one intersecting
    loads it and removes it from the observed ones, others staying as they
    are.  Loading sets [data-loaded] to ["true"] and, on an iframe not
    marked so before, [src] to the value of [data-src]; an iframe marked so
    before is left as it is, [src] included, so loading twice is loading
    once.  In both versions. *)
Theorem lazy_iframes_load_once :
  ∀ init load onIntersect,
    (init = V1.initLazyIframes ∧ load = V1.load ∧ onIntersect = V1.lazy_onIntersect)
    ∨ (init = V2.initLazyIframes ∧ load = V2.load ∧ onIntersect = V2.lazy_onIntersect) →
  (∀ p x f,
     Dom.wf (Page.next_id p) (Page.tree p) → Page.el x p = Some f →
     if Page.has_IntersectionObserver (Page.platform p)
     then Page.tree (init p) = Page.tree p
          ∧ (LazyFacts.deferred f = true →
             ∃ obs, Page.lazy (init p) = Some obs ∧ x ∈ obs
                    ∧ ∀ y, y ∈ obs → ∃ e, Page.el y p = Some e
                                          ∧ LazyFacts.deferred e = true)
     else Page.el x (init p)
          = Some (if LazyFacts.deferred f then LazyFacts.loaded f else f))
  ∧ (∀ q es x f obs,
       Page.el x q = Some f → Page.lazy q = Some obs →
       ∃ obs', Page.lazy (onIntersect es q) = Some obs'
         ∧ (x ∈ LazyFacts.near es →
            Page.el x (onIntersect es q) = Some (LazyFacts.loaded f) ∧ x ∉ obs')
         ∧ (x ∉ LazyFacts.near es →
            Page.el x (onIntersect es q) = Some f ∧ (x ∈ obs → x ∈ obs')))
  ∧ (∀ f,
       Dom.getAttribute "data-loaded" (LazyFacts.loaded f) = Some "true"
       ∧ (∀ s, Dom.getAttribute "data-loaded" f ≠ Some "true" →
               Dom.getAttribute "data-src" f = Some s →
               Dom.getAttribute "src" (LazyFacts.loaded f) = Some s)
       ∧ (Dom.getAttribute "data-loaded" f = Some "true" → LazyFacts.loaded f = f))
  ∧ (∀ q x f, Page.el x q = Some f → Page.el x (load q x) = Some (LazyFacts.loaded f))
  ∧ (∀ q x, load (load q x) x = load q x)
  ∧ (∀ q x f,
       Page.el x q = Some f → Dom.getAttribute "data-loaded" f = Some "true" →
       load q x = q).
Proof.
  intros init load onIntersect Hver.
  assert (init = V1.initLazyIframes ∧ load = V1.load ∧ onIntersect = V1.lazy_onIntersect)
    as (-> & -> & ->).
  { destruct Hver as [(-> & -> & ->)|(-> & -> & ->)]; [done|].
    split_and!; [apply Same.initLazyIframes|apply Same.load|apply Same.lazy_onIntersect]. }
  split_and!.
  - intros p x f [Hnd _] Hf.
    destruct (Page.has_IntersectionObserver (Page.platform p)) eqn:Hio.
    + split; [by apply LazyFacts.tree_init_observing|]. intros Hd.
      by destruct (LazyFacts.init_observing p x f Hnd Hio Hf Hd) as [_ H].
    + by apply LazyFacts.init_plain.
  - intros q es x f obs Hf Hobs.
    change (V1.lazy_onIntersect es q) with (foldl LazyFacts.on_entry q es).
    rewrite LazyFacts.lazy_batch, LazyFacts.el_lazy_batch, Hobs, Hf. simpl.
    eexists. split; [reflexivity|]. split.
    + intros Hin. rewrite bool_decide_eq_true_2 by done. split; [done|].
      intros [_ Hno]%list_elem_of_In%filter_In.
      by rewrite bool_decide_eq_true_2 in Hno.
    + intros Hnin. rewrite bool_decide_eq_false_2 by done. split; [done|].
      intros Hin. apply list_elem_of_In, filter_In. split; [by apply list_elem_of_In|].
      by rewrite bool_decide_eq_false_2.
  - intros f. split_and!.
    + apply LazyFacts.loaded_marked.
    + intros s. apply LazyFacts.loaded_src.
    + apply LazyFacts.loaded_already.
  - intros q x f Hf. rewrite LazyFacts.el_load, Hf. simpl. unfold DomFacts.at_id.
    by rewrite (PageFacts.el_el_id _ _ _ Hf), Nat.eqb_refl.
  - apply LazyFacts.load_idem.
  - apply LazyFacts.load_already.
Qed.

Lemma lazy_iframes_load_once_witness :
  let p := V2.initLazyIframes Sample.page_plain in
  let q := V2.initLazyIframes Sample.page0 in
  let q' := V2.lazy_onIntersect [Page.Entry 20 true (1 # 50)] q in
  (Page.el 20 p ≫= Dom.getAttribute "src") = Some "https://www.youtube.com/embed/x"
  ∧ (Page.el 20 p ≫= Dom.getAttribute "data-loaded") = Some "true"
  ∧ Page.el 8 p = Page.el 8 Sample.page_plain
  ∧ Page.lazy q = Some [20%nat]
  ∧ (Page.el 20 q' ≫= Dom.getAttribute "src") = Some "https://www.youtube.com/embed/x"
  ∧ (Page.el 20 q' ≫= Dom.getAttribute "data-loaded") = Some "true"
  ∧ Page.lazy q' = Some [].
Proof.
  intros p q q'.
  pose proof (lazy_iframes_load_once V2.initLazyIframes V2.load V2.lazy_onIntersect
                (or_intror (conj eq_refl (conj eq_refl eq_refl))))
    as (Hinit & Hbatch & Hloaded & _).
  set (f := Dom.elem (Sample.mk 20 "iframe"
                        [("data-src", "https://www.youtube.com/embed/x")] [] 1000 [])).
  assert (Dom.wf (Page.next_id Sample.page_plain) (Page.tree Sample.page_plain)) as Hwf
    by (unfold Dom.wf; apply (bool_decide_unpack _); vm_compute; reflexivity).
  assert (Dom.wf (Page.next_id Sample.page0) (Page.tree Sample.page0)) as Hwf0
    by (unfold Dom.wf; apply (bool_decide_unpack _); vm_compute; reflexivity).
  assert (Page.el 20 Sample.page_plain = Some f) as Hf by (vm_compute; reflexivity).
  assert (Page.el 20 Sample.page0 = Some f) as Hf0 by (vm_compute; reflexivity).
  assert (LazyFacts.deferred f = true) as Hd by (vm_compute; reflexivity).
  destruct (Hloaded f) as (Hmark & Hsrc & _).
  assert (Dom.getAttribute "src" (LazyFacts.loaded f)
          = Some "https://www.youtube.com/embed/x") as Hsrc'
    by (apply Hsrc; [discriminate|reflexivity]).
  pose proof (Hinit Sample.page_plain 20%nat f Hwf Hf) as H1.
  change (Page.has_IntersectionObserver (Page.platform Sample.page_plain))
    with false in H1. cbn iota in H1. rewrite Hd in H1. fold p in H1.
  assert (∃ e, Page.el 8 Sample.page_plain = Some e ∧ LazyFacts.deferred e = false)
    as (e8 & He8 & Hd8) by (eexists; split; vm_compute; reflexivity).
  pose proof (Hinit Sample.page_plain 8%nat e8 Hwf He8) as H8.
  change (Page.has_IntersectionObserver (Page.platform Sample.page_plain))
    with false in H8. cbn iota in H8. rewrite Hd8 in H8. fold p in H8.
  pose proof (Hinit Sample.page0 20%nat f Hwf0 Hf0) as H2.
  change (Page.has_IntersectionObserver (Page.platform Sample.page0)) with true in H2.
  cbn iota in H2. destruct H2 as [_ H2]. destruct (H2 Hd) as (obs & _ & _ & _).
  destruct (Hbatch q [Page.Entry 20 true (1 # 50)] 20%nat f [20%nat] eq_refl eq_refl)
    as (obs' & Hobs & Hnear & _).
  destruct Hnear as [Hel Hnot]; [apply elem_of_cons; by left|].
  fold q' in Hobs, Hel.
  split_and!.
  - rewrite H1. exact Hsrc'.
  - rewrite H1. exact Hmark.
  - rewrite H8. by rewrite He8.
  - vm_compute. reflexivity.
  - rewrite Hel. exact Hsrc'.
  - rewrite Hel. exact Hmark.
  - vm_compute. reflexivity.
Defined.

(** An iframe served with [data-src] and already marked [data-loaded="true"]
    never gets its [src]: not at initialization in a browser without
    [IntersectionObserver], and not when it is reported near the viewport in
    a browser with it (it is observed, and unobserved then). *)
Lemma lazy_iframes_counterexample :
  (let p := Sample.page_plain_loaded in
   20%nat ∈ Page.queryAll V1.sel_lazy p
   ∧ (Dom.tagName <$> Page.el 20 p) = Some "iframe"
   ∧ (Page.el 20 p ≫= Dom.getAttribute "data-src") = Some "https://www.youtube.com/embed/x"
   ∧ Page.has_IntersectionObserver (Page.platform p) = false
   ∧ (Page.el 20 (V1.initLazyIframes p) ≫= Dom.getAttribute "src") = None
   ∧ (Page.el 20 (V2.initLazyIframes p) ≫= Dom.getAttribute "src") = None
   ∧ V1.initLazyIframes p = p)
  ∧ (let p := Sample.page_loaded in
     let q := V1.lazy_onIntersect [Page.Entry 20 true 1] (V1.initLazyIframes p) in
     let q2 := V2.lazy_onIntersect [Page.Entry 20 true 1] (V2.initLazyIframes p) in
     Page.has_IntersectionObserver (Page.platform p) = true
     ∧ Page.lazy (V1.initLazyIframes p) = Some [20%nat]
     ∧ (Page.el 20 q ≫= Dom.getAttribute "src") = None
     ∧ (Page.el 20 q2 ≫= Dom.getAttribute "src") = None
     ∧ Page.lazy q = Some []).
Proof.
  split.
  - split_and!; try (vm_compute; reflexivity).
    apply (bool_decide_unpack _). vm_compute. reflexivity.
  - split_and!; vm_compute; reflexivity.
Qed.

(** ** Passes that rewrite elements in place *)

Module MapFacts.

Import Dom Page DomFacts.

(** Apply [g] to every element of the tree. *)
Fixpoint tmap (g : element → element) (n : node) : node :=
  let 'Node e kids := n in Node (g e) (map (tmap g) kids).

(** [f] on the elements whose handle is in [l]. *)
Definition on_ids (l : list nid) (f : element → element) (e : element) : element :=
  if bool_decide (el_id e ∈ l) then f e else e.

Lemma map_ext_Forall {A B} (f g : A → B) l :
  Forall (fun x => f x = g x) l → map f l = map g l.
Proof. induction 1 as [|x l Hx _ IH]; simpl; [done|]. by rewrite Hx, IH. Qed.

Lemma update_tmap x f d : update x f d = tmap (at_id x f) d.
Proof.
  induction d as [e kids IH] using node_induction. simpl. f_equal.
  by apply map_ext_Forall.
Qed.

Lemma tmap_tmap g h d : tmap g (tmap h d) = tmap (fun e => g (h e)) d.
Proof.
  induction d as [e kids IH] using node_induction. simpl. f_equal.
  rewrite map_map. by apply map_ext_Forall.
Qed.

Lemma tmap_ext g h d : (∀ e, g e = h e) → tmap g d = tmap h d.
Proof.
  intros Hgh. induction d as [e kids IH] using node_induction. simpl.
  rewrite Hgh. f_equal. by apply map_ext_Forall.
Qed.

Lemma entries_tmap g n anc :
  entries (map g anc) (tmap g n)
  = map (fun en => (g (fst en), map g (snd en))) (entries anc n).
Proof.
  revert anc. induction n as [e kids IH] using node_induction. intros anc.
  simpl. f_equal. rewrite flat_map_map, map_flat_map.
  apply flat_map_ext_Forall. eapply Forall_impl; [exact IH|].
  intros k Hk. apply (Hk (e :: anc)).
Qed.

Lemma querySelectorAll_tmap sel g d :
  keeps_id g →
  (∀ e anc, matches sel (g e) (map g anc) = matches sel e anc) →
  querySelectorAll sel (tmap g d) = querySelectorAll sel d.
Proof.
  intros Hid Hm. unfold querySelectorAll, all_entries.
  change (entries [] (tmap g d)) with (entries (map g []) (tmap g d)).
  rewrite (entries_tmap g d []).
  induction (entries [] d) as [|en l IH]; [done|]. simpl.
  rewrite Hm. destruct (matches sel (fst en) (snd en)); simpl; by rewrite ?Hid, IH.
Qed.

Lemma fold_update_tmap f l d :
  keeps_id f → (∀ e, f (f e) = f e) →
  foldl (fun d a => update a f d) d l = tmap (on_ids l f) d.
Proof.
  intros Hid Hidem. revert d. induction l as [|a l IH]; intros d.
  - simpl. induction d as [e kids IHd] using node_induction. simpl. f_equal.
    rewrite <- (map_id kids) at 1. by apply map_ext_Forall.
  - simpl. rewrite IH, update_tmap, tmap_tmap. apply tmap_ext. intros e.
    unfold on_ids, at_id. destruct (Nat.eqb_spec (el_id e) a) as [Ha|Ha].
    + rewrite Hid, (bool_decide_eq_true_2 (_ ∈ a :: l)) by (apply elem_of_cons; by left).
      case_bool_decide; [apply Hidem|done].
    + case_bool_decide as Hin.
      * by rewrite bool_decide_eq_true_2 by (apply elem_of_cons; by right).
      * rewrite bool_decide_eq_false_2; [done|]. by intros [?|?]%elem_of_cons.
Qed.

Lemma on_ids_idem l f e :
  keeps_id f → (∀ e, f (f e) = f e) → on_ids l f (on_ids l f e) = on_ids l f e.
Proof.
  intros Hid Hidem. unfold on_ids at 2 3. case_bool_decide as Hin.
  - unfold on_ids. by rewrite Hid, bool_decide_eq_true_2, Hidem.
  - unfold on_ids. by rewrite bool_decide_eq_false_2.
Qed.

Lemma keeps_id_on_ids l f : keeps_id f → keeps_id (on_ids l f).
Proof. intros Hid e. unfold on_ids. by case_bool_decide. Qed.

Lemma fold_on_el f l p :
  foldl (fun q a => on_el a f q) p l
  = set_tree (foldl (fun d a => update a f d) (tree p) l) p.
Proof.
  revert p. induction l as [|a l IH]; intros p; simpl; [by destruct p|].
  by rewrite IH.
Qed.

End MapFacts.

(** ** External links *)

Module LinkFacts.

Import Dom Page DomFacts PageFacts JSFacts.

(** The token set the pass leaves in [rel]. *)
Definition rel_set (old : option string) : list string :=
  foldl (fun s x => JS.set_add x s)
        (JS.set_of (JS.tokens (JS.toLowerCase (JS.or_str (default "" old) ""))))
        V1.need.

Lemma hardened_rel_join old : V1.hardened_rel old = JS.join " " (rel_set old).
Proof. reflexivity. Qed.

Lemma clean_need : Forall JS.clean V1.need.
Proof. repeat constructor. Qed.

Lemma rel_set_clean old : Forall JS.clean (rel_set old).
Proof.
  apply Forall_forall. intros t Ht. unfold rel_set in Ht.
  apply elem_of_fold_add in Ht as [Ht|Ht].
  - rewrite elem_of_set_of in Ht.
    pose proof (tokens_clean (JS.toLowerCase (JS.or_str (default "" old) ""))) as Hc.
    rewrite Forall_forall in Hc. by apply Hc.
  - pose proof clean_need as Hc. rewrite Forall_forall in Hc. by apply Hc.
Qed.

Lemma rel_set_NoDup old : NoDup (rel_set old).
Proof. apply NoDup_fold_add, NoDup_set_of. Qed.

Lemma rel_set_need old t : t ∈ V1.need → t ∈ rel_set old.
Proof. intros. apply elem_of_fold_add. by right. Qed.

Lemma rel_set_old old t :
  t ∈ JS.tokens (default "" old) → JS.toLowerCase t ∈ rel_set old.
Proof.
  intros Ht. apply elem_of_fold_add. left. rewrite elem_of_set_of.
  rewrite or_str_empty, tokens_toLowerCase. by apply list_elem_of_fmap_2.
Qed.

Lemma rel_set_lower old t : t ∈ rel_set old → JS.toLowerCase t = t.
Proof.
  intros Ht. unfold rel_set in Ht. apply elem_of_fold_add in Ht as [Ht|Ht].
  - rewrite elem_of_set_of, or_str_empty, tokens_toLowerCase in Ht.
    apply list_elem_of_fmap in Ht as (t' & -> & _). apply toLowerCase_idem.
  - unfold V1.need in Ht. repeat (apply elem_of_cons in Ht as [->|Ht]; [done|]).
    by apply elem_of_nil in Ht.
Qed.

Lemma tokens_hardened_rel old : JS.tokens (V1.hardened_rel old) = rel_set old.
Proof. rewrite hardened_rel_join. apply tokens_join, rel_set_clean. Qed.

Lemma map_id_on {A} (f : A → A) l : (∀ x, x ∈ l → f x = x) → map f l = l.
Proof.
  induction l as [|x l IH]; intros H; [done|]. simpl.
  rewrite H by (apply elem_of_cons; by left). f_equal. apply IH.
  intros y Hy. apply H. apply elem_of_cons. by right.
Qed.

Lemma rel_set_idem old : rel_set (Some (V1.hardened_rel old)) = rel_set old.
Proof.
  unfold rel_set at 1. simpl default. rewrite or_str_empty.
  rewrite hardened_rel_join, toLowerCase_join.
  rewrite (map_id_on JS.toLowerCase) by apply rel_set_lower.
  rewrite tokens_join by apply rel_set_clean.
  rewrite set_of_nodup by apply rel_set_NoDup.
  apply fold_add_subset, rel_set_need.
Qed.

Lemma hardened_rel_idem old :
  V1.hardened_rel (Some (V1.hardened_rel old)) = V1.hardened_rel old.
Proof. by rewrite (hardened_rel_join (Some _)), rel_set_idem. Qed.

(** *** On elements *)

Lemma keeps_id_harden : keeps_id V1.harden.
Proof. by intros e. Qed.

Lemma rel_harden e :
  getAttribute "rel" (V1.harden e) = Some (V1.hardened_rel (getAttribute "rel" e)).
Proof. unfold V1.harden, getAttribute, setAttribute. simpl. apply lookup_insert_eq. Qed.

Lemma harden_idem e : V1.harden (V1.harden e) = V1.harden e.
Proof.
  unfold V1.harden at 1. rewrite rel_harden, hardened_rel_idem.
  unfold V1.harden, setAttribute, with_attrs. simpl. f_equal.
  apply insert_insert_eq.
Qed.

(** *** On the page *)

Lemma matches_blank_harden l e anc :
  matches V1.sel_blank (MapFacts.on_ids l V1.harden e) (map (MapFacts.on_ids l V1.harden) anc)
  = matches V1.sel_blank e anc.
Proof.
  unfold MapFacts.on_ids. case_bool_decide; [|done].
  unfold matches, V1.sel_blank, matches_complex, matches_compound. simpl.
  unfold getAttribute, V1.harden, setAttribute. simpl.
  by rewrite lookup_insert_ne.
Qed.

Lemma pass_tree p :
  V1.initExternalLinks p
  = set_tree (MapFacts.tmap (MapFacts.on_ids (queryAll V1.sel_blank p) V1.harden) (tree p)) p.
Proof.
  unfold V1.initExternalLinks. rewrite MapFacts.fold_on_el.
  by rewrite MapFacts.fold_update_tmap by (apply keeps_id_harden || apply harden_idem).
Qed.

Lemma pass_idem p : V1.initExternalLinks (V1.initExternalLinks p) = V1.initExternalLinks p.
Proof.
  rewrite (pass_tree (V1.initExternalLinks p)).
  assert (queryAll V1.sel_blank (V1.initExternalLinks p) = queryAll V1.sel_blank p) as ->.
  { rewrite pass_tree. unfold queryAll.
    change (tree (set_tree ?d p)) with d.
    apply MapFacts.querySelectorAll_tmap.
    - apply MapFacts.keeps_id_on_ids, keeps_id_harden.
    - intros e anc. apply matches_blank_harden. }
  rewrite pass_tree. change (tree (set_tree ?d p)) with d.
  rewrite MapFacts.tmap_tmap.
  change (set_tree ?d (set_tree ?d' p)) with (set_tree d p).
  f_equal. apply MapFacts.tmap_ext. intros e.
  apply MapFacts.on_ids_idem; [apply keeps_id_harden|apply harden_idem].
Qed.

Lemma pass_iter n p :
  Nat.iter n V1.initExternalLinks (V1.initExternalLinks p) = V1.initExternalLinks p.
Proof. induction n as [|n IH]; simpl; [done|]. by rewrite IH, pass_idem. Qed.

Lemma el_pass p x e :
  x ∈ queryAll V1.sel_blank p → el x p = Some e →
  el x (V1.initExternalLinks p) = Some (V1.harden e).
Proof.
  intros Hx He. unfold V1.initExternalLinks.
  rewrite NavFacts.el_fold_on_el by (apply keeps_id_harden || apply harden_idem).
  by rewrite He, bool_decide_eq_true_2.
Qed.

End LinkFacts.

(** ** Passes that change the shape of the tree *)

Module ShapeFacts.

Import Dom Page DomFacts.

(** The handles of the children of [x], in order. *)
Definition child_ids (x : nid) (d : node) : option (list nid) :=
  (fun n => map nid_of (children n)) <$> subtree x d.

(** The first hit of [f] in a list. *)
Fixpoint first_some {A B} (f : A → option B) (l : list A) : option B :=
  match l with
  | [] => None
  | x :: l' => match f x with Some y => Some y | None => first_some f l' end
  end.

Lemma find_app {A} (P : A → bool) l1 l2 :
  List.find P (l1 ++ l2)
  = match List.find P l1 with Some x => Some x | None => List.find P l2 end.
Proof. induction l1 as [|x l1 IH]; simpl; [done|]. by destruct (P x). Qed.

Lemma find_flat_map {A B} (P : B → bool) (f : A → list B) l :
  List.find P (flat_map f l) = first_some (fun x => List.find P (f x)) l.
Proof.
  induction l as [|x l IH]; simpl; [done|]. rewrite find_app, IH. done.
Qed.

Lemma first_some_ext_Forall {A B} (f g : A → option B) l :
  Forall (fun x => f x = g x) l → first_some f l = first_some g l.
Proof. induction 1 as [|x l Hx _ IH]; simpl; [done|]. by rewrite Hx, IH. Qed.

Lemma first_some_map {A B C} (f : B → option C) (g : A → B) l :
  first_some f (map g l) = first_some (fun x => f (g x)) l.
Proof. induction l as [|x l IH]; simpl; [done|]. by rewrite IH. Qed.

Lemma first_some_fmap {A B C} (f : A → option B) (g : B → C) l :
  first_some (fun x => g <$> f x) l = g <$> first_some f l.
Proof. induction l as [|x l IH]; simpl; [done|]. destruct (f x); simpl; [done|apply IH]. Qed.

Lemma first_some_None {A B} (f : A → option B) l :
  Forall (fun x => f x = None) l → first_some f l = None.
Proof. induction 1 as [|x l Hx _ IH]; simpl; [done|]. by rewrite Hx. Qed.

Lemma first_some_app {A B} (f : A → option B) l1 l2 :
  first_some f (l1 ++ l2)
  = match first_some f l1 with Some y => Some y | None => first_some f l2 end.
Proof. induction l1 as [|x l1 IH]; simpl; [done|]. by destruct (f x). Qed.

(** *** Handles of a subtree *)

Lemma ids_node e kids : ids (Node e kids) = el_id e :: flat_map ids kids.
Proof.
  unfold ids, elements, all_entries. simpl. f_equal.
  assert (∀ anc n, map el_id (map fst (entries anc n)) = map el_id (map fst (entries [] n)))
    as Hanc.
  { intros anc n. revert anc. induction n as [e' kids' IH] using node_induction.
    intros anc. simpl. f_equal. rewrite !map_flat_map.
    apply flat_map_ext_Forall. eapply Forall_impl; [exact IH|].
    intros k Hk. simpl in Hk. by rewrite (Hk (e' :: anc)), (Hk [e']). }
  rewrite !map_flat_map. apply flat_map_ext_Forall, Forall_forall.
  intros k _. apply Hanc.
Qed.

Lemma subtree_node x e kids :
  subtree x (Node e kids)
  = if Nat.eqb (el_id e) x then Some (Node e kids) else first_some (subtree x) kids.
Proof.
  unfold subtree. simpl. unfold nid_of at 1. simpl.
  destruct (Nat.eqb (el_id e) x); [done|]. apply find_flat_map.
Qed.

Lemma subtree_None x n : x ∉ ids n → subtree x n = None.
Proof.
  induction n as [e kids IH] using node_induction. rewrite ids_node, subtree_node.
  intros Hx. apply not_elem_of_cons in Hx as [Hne Hx].
  destruct (Nat.eqb_spec (el_id e) x); [congruence|].
  apply first_some_None. rewrite Forall_forall in IH. apply Forall_forall.
  intros k Hk. apply IH; [done|]. intros Hin. apply Hx.
  apply list_elem_of_In, in_flat_map. exists k.
  split; by apply list_elem_of_In.
Qed.

Lemma subtree_nid x n m : subtree x n = Some m → nid_of m = x.
Proof.
  unfold subtree. intros H. apply find_some in H as [_ H]. by apply Nat.eqb_eq.
Qed.

Lemma elements_subtrees n : elements n = map elem (subtrees n).
Proof.
  unfold elements, all_entries. generalize (@nil element).
  induction n as [e kids IH] using node_induction. intros anc. simpl. f_equal.
  rewrite !map_flat_map. apply flat_map_ext_Forall.
  eapply Forall_impl; [exact IH|]. intros k Hk. apply Hk.
Qed.

(** The element behind a handle is the root of the subtree behind it. *)
Lemma get_subtree x d : get x d = elem <$> subtree x d.
Proof.
  unfold get, entry_of, subtree.
  transitivity (List.find (fun e => Nat.eqb (el_id e) x) (elements d)).
  - unfold elements. rewrite find_map. by destruct (List.find _ _).
  - rewrite elements_subtrees, find_map. done.
Qed.

Lemma elements_node e kids : elements (Node e kids) = e :: flat_map elements kids.
Proof.
  rewrite elements_subtrees. simpl. f_equal. rewrite map_flat_map.
  apply flat_map_ext_Forall, Forall_forall. intros k _. by rewrite elements_subtrees.
Qed.

Lemma ids_elements n : ids n = map el_id (elements n).
Proof. reflexivity. Qed.

Lemma elem_in_elements n : elem n ∈ elements n.
Proof. destruct n as [e kids]. rewrite elements_node. apply elem_of_cons. by left. Qed.

Lemma nid_in_ids n : nid_of n ∈ ids n.
Proof. destruct n as [e kids]. rewrite ids_node. apply elem_of_cons. by left. Qed.

Lemma ids_kid x k kids : k ∈ kids → x ∈ ids k → x ∈ flat_map ids kids.
Proof.
  intros Hk Hx. apply list_elem_of_In, in_flat_map. exists k.
  split; by apply list_elem_of_In.
Qed.

Lemma NoDup_flat_map_kid {A B} (f : A → list B) k l :
  NoDup (flat_map f l) → k ∈ l → NoDup (f k).
Proof.
  induction l as [|x l IH]; simpl; intros Hnd Hk; [by apply elem_of_nil in Hk|].
  apply NoDup_app in Hnd as (H1 & _ & H2).
  apply elem_of_cons in Hk as [->|Hk]; [done|by apply IH].
Qed.

Lemma NoDup_kids e kids : NoDup (ids (Node e kids)) → Forall (fun k => NoDup (ids k)) kids.
Proof.
  rewrite ids_node. intros [_ Hnd]%NoDup_cons. apply Forall_forall. intros k Hk.
  by apply (NoDup_flat_map_kid ids k kids).
Qed.

(** *** Detaching a node that is not there *)

Lemma remove_fresh x n : x ∉ ids n → remove x n = n.
Proof.
  induction n as [e kids IH] using node_induction. rewrite ids_node.
  intros [_ Hx]%not_elem_of_cons. simpl. f_equal.
  induction kids as [|k kids IHk]; [done|]. simpl.
  apply Forall_cons in IH as [Hk IH]. simpl in Hx.
  apply not_elem_of_app in Hx as [Hxk Hx].
  destruct (Nat.eqb_spec (nid_of k) x) as [<-|_].
  - exfalso. apply Hxk, nid_in_ids.
  - simpl. rewrite Hk by done. f_equal. by apply IHk.
Qed.

(** *** Appending a new last child *)

Lemma append_under_fresh h c n : h ∉ ids n → append_under h c n = n.
Proof.
  induction n as [e kids IH] using node_induction. rewrite ids_node.
  intros [Hne Hx]%not_elem_of_cons. simpl.
  destruct (Nat.eqb_spec (el_id e) h); [congruence|]. f_equal.
  rewrite <- (map_id kids) at 2. apply MapFacts.map_ext_Forall.
  rewrite Forall_forall in IH. apply Forall_forall. intros k Hk.
  apply IH; [done|]. intros Hin. apply Hx. by apply (ids_kid h k).
Qed.

Lemma elem_append_under h c n : elem (append_under h c n) = elem n.
Proof. by destruct n. Qed.

Lemma nid_append_under h c n : nid_of (append_under h c n) = nid_of n.
Proof. by destruct n. Qed.

Lemma subtree_append_under h c y n :
  y ∉ ids c → subtree y (append_under h c n) = append_under h c <$> subtree y n.
Proof.
  intros Hy. induction n as [e kids IH] using node_induction.
  change (append_under h c (Node e kids))
    with (Node e (if Nat.eqb (el_id e) h then map (append_under h c) kids ++ [c]
                  else map (append_under h c) kids)).
  rewrite !subtree_node. destruct (Nat.eqb (el_id e) y); [done|].
  assert (first_some (subtree y) (map (append_under h c) kids)
          = append_under h c <$> first_some (subtree y) kids) as Hkids.
  { rewrite first_some_map, <- first_some_fmap. by apply first_some_ext_Forall. }
  destruct (Nat.eqb (el_id e) h); [|done].
  rewrite first_some_app, Hkids. destruct (first_some (subtree y) kids); [done|].
  simpl. by rewrite subtree_None.
Qed.

Lemma get_append_under h c y n : y ∉ ids c → get y (append_under h c n) = get y n.
Proof.
  intros Hy. rewrite !get_subtree, subtree_append_under by done.
  destruct (subtree y n) as [m|]; [|done]. simpl. by rewrite elem_append_under.
Qed.

Lemma child_ids_append_under h c y n :
  y ∉ ids c →
  child_ids y (append_under h c n)
  = (fun l => if Nat.eqb y h then l ++ [nid_of c] else l) <$> child_ids y n.
Proof.
  intros Hy. unfold child_ids. rewrite subtree_append_under by done.
  destruct (subtree y n) as [[e kids]|] eqn:Hs; [|done]. simpl. f_equal.
  apply subtree_nid in Hs. unfold nid_of in Hs. simpl in Hs. subst y.
  destruct (Nat.eqb (el_id e) h).
  - rewrite map_app, map_map. simpl. f_equal.
    apply map_ext. intros k. apply nid_append_under.
  - rewrite map_map. apply map_ext. intros k. apply nid_append_under.
Qed.

Lemma elements_append_under_kids h c kids :
  Forall (fun k => NoDup (ids k) →
                   elements (append_under h c k)
                   ≡ₚ elements k ++ (if bool_decide (h ∈ ids k) then elements c else []))
         kids →
  NoDup (flat_map ids kids) →
  flat_map elements (map (append_under h c) kids)
  ≡ₚ flat_map elements kids
     ++ (if bool_decide (h ∈ flat_map ids kids) then elements c else []).
Proof.
  induction 1 as [|k kids Hk _ IH]; intros Hnd; simpl; [done|].
  simpl in Hnd. apply NoDup_app in Hnd as (Hndk & Hdisj & Hndr).
  rewrite Hk, IH by done. destruct (decide (h ∈ ids k)) as [Hin|Hnin].
  - rewrite (bool_decide_eq_true_2 _ Hin).
    rewrite (bool_decide_eq_false_2 (h ∈ flat_map ids kids)) by (by apply Hdisj).
    rewrite (bool_decide_eq_true_2 (h ∈ ids k ++ _)) by (apply elem_of_app; by left).
    rewrite app_nil_r, <- !(assoc_L (++)). f_equiv. apply Permutation_app_comm.
  - rewrite (bool_decide_eq_false_2 _ Hnin), app_nil_r.
    rewrite <- (assoc_L (++)). f_equiv. f_equiv.
    rewrite (bool_decide_ext (h ∈ ids k ++ flat_map ids kids) (h ∈ flat_map ids kids));
      [done|]. rewrite elem_of_app. tauto.
Qed.

Lemma elements_append_under h c n :
  NoDup (ids n) →
  elements (append_under h c n)
  ≡ₚ elements n ++ (if bool_decide (h ∈ ids n) then elements c else []).
Proof.
  induction n as [e kids IH] using node_induction. intros Hnd.
  pose proof (elements_append_under_kids h c kids IH) as Hkids.
  rewrite ids_node in Hnd. apply NoDup_cons in Hnd as [Hroot Hnd].
  specialize (Hkids Hnd).
  change (append_under h c (Node e kids))
    with (Node e (if Nat.eqb (el_id e) h then map (append_under h c) kids ++ [c]
                  else map (append_under h c) kids)).
  rewrite !elements_node, ids_node. destruct (Nat.eqb_spec (el_id e) h) as [Heq|Hne].
  - rewrite (bool_decide_eq_true_2 (h ∈ _ :: _)) by (apply elem_of_cons; by left).
    rewrite flat_map_app. simpl. rewrite app_nil_r, Hkids.
    rewrite bool_decide_eq_false_2 by (by rewrite <- Heq). by rewrite app_nil_r.
  - simpl. rewrite Hkids. f_equiv. f_equiv.
    rewrite (bool_decide_ext (h ∈ el_id e :: flat_map ids kids) (h ∈ flat_map ids kids));
      [done|]. rewrite elem_of_cons. split; [by intros [?|?]|by right].
Qed.

Lemma elem_of_append_under h c n e' :
  NoDup (ids n) → e' ∈ elements (append_under h c n) → e' ∈ elements n ∨ e' ∈ elements c.
Proof.
  intros Hnd. rewrite (elements_append_under h c n Hnd), elem_of_app.
  intros [?|Hin]; [by left|]. case_bool_decide; [by right|]. by apply elem_of_nil in Hin.
Qed.

Lemma ids_append_under h c n :
  NoDup (ids n) →
  ids (append_under h c n) ≡ₚ ids n ++ (if bool_decide (h ∈ ids n) then ids c else []).
Proof.
  intros Hnd. rewrite (ids_elements (append_under h c n)).
  rewrite (elements_append_under h c n Hnd), map_app.
  by destruct (bool_decide (h ∈ ids n)).
Qed.

(** A new leaf [c] with the next handle keeps the tree well formed. *)
Lemma wf_append_leaf next h e n :
  wf next n → el_id e = next → wf (S next) (append_under h (Node e []) n).
Proof.
  intros [Hnd Hlt] He.
  assert (ids (Node e []) = [next]) as Hc by (by rewrite ids_node, He).
  assert (next ∉ ids n) as Hfresh.
  { intros Hin. rewrite Forall_forall in Hlt. specialize (Hlt _ Hin). lia. }
  pose proof (ids_append_under h (Node e []) n Hnd) as Hp. rewrite Hc in Hp.
  split.
  - rewrite Hp. case_bool_decide; [|by rewrite app_nil_r].
    apply NoDup_app. split_and!; [done| |apply NoDup_singleton].
    intros x Hx ->%list_elem_of_singleton. done.
  - rewrite Hp. apply Forall_app. split.
    + eapply Forall_impl; [exact Hlt|]. simpl. lia.
    + case_bool_decide; [|constructor]. repeat constructor.
Qed.

Lemma wf_update next x f n : keeps_id f → wf next n → wf next (update x f n).
Proof. intros Hf [??]. split; by rewrite ids_update. Qed.

Lemma wf_fresh next n x : wf next n → (next <= x)%nat → x ∉ ids n.
Proof.
  intros [_ Hlt] Hx Hin. rewrite Forall_forall in Hlt. specialize (Hlt _ Hin). lia.
Qed.

Lemma wf_get next n e : wf next n → e ∈ elements n → get (el_id e) n = Some e.
Proof. intros [Hnd _] He. by apply AnchorFacts.get_of_elem. Qed.

Lemma get_in_elements x d e : get x d = Some e → e ∈ elements d.
Proof.
  rewrite AnchorFacts.get_elements. intros [H _]%find_some. by apply list_elem_of_In.
Qed.

Lemma get_lt next n x e : wf next n → get x n = Some e → (x < next)%nat.
Proof.
  intros [_ Hlt] Hg. rewrite Forall_forall in Hlt. apply Hlt.
  rewrite <- (get_el_id _ _ _ Hg). apply list_elem_of_fmap_2. by apply (get_in_elements x).
Qed.

(** Appending a new leaf under a node that is there puts it in the tree. *)
Lemma get_appended next h e n :
  wf next n → el_id e = next → is_Some (get h n) →
  get next (append_under h (Node e []) n) = Some e.
Proof.
  intros Hwf He [he Hh]. rewrite <- He.
  apply (wf_get (S next)); [by apply wf_append_leaf|].
  rewrite (elements_append_under h (Node e []) n) by apply Hwf.
  apply elem_of_app. right. rewrite bool_decide_eq_true_2.
  - rewrite elements_node. apply elem_of_cons. by left.
  - rewrite <- (get_el_id _ _ _ Hh). apply list_elem_of_fmap_2. by apply (get_in_elements h).
Qed.

(** *** What a query returns *)

Lemma elem_of_query sel d x :
  x ∈ querySelectorAll sel d ↔
  ∃ en, en ∈ all_entries d ∧ el_id (fst en) = x ∧ matches sel (fst en) (snd en) = true.
Proof.
  unfold querySelectorAll. rewrite list_elem_of_fmap. split.
  - intros (en & -> & Hin). apply list_elem_of_In, filter_In in Hin as [Hin Hm].
    exists en. split_and!; [by apply list_elem_of_In|done|done].
  - intros (en & Hin & <- & Hm). exists en. split; [done|].
    apply list_elem_of_In, filter_In. split; [by apply list_elem_of_In|done].
Qed.

Lemma NoDup_map_filter {A B} (f : A → B) (P : A → bool) l :
  NoDup (map f l) → NoDup (map f (List.filter P l)).
Proof.
  induction l as [|x l IH]; simpl; [done|]. intros [Hx Hnd]%NoDup_cons.
  destruct (P x); [|by apply IH]. simpl. apply NoDup_cons. split; [|by apply IH].
  intros Hin. apply Hx. apply list_elem_of_fmap in Hin as (y & -> & Hy).
  apply list_elem_of_fmap_2. apply list_elem_of_In, filter_In in Hy as [Hy _].
  by apply list_elem_of_In.
Qed.

Lemma NoDup_query sel d : NoDup (ids d) → NoDup (querySelectorAll sel d).
Proof.
  unfold ids, elements, querySelectorAll. rewrite map_map.
  apply (NoDup_map_filter (fun en => el_id (fst en))).
Qed.

Lemma query_in_ids sel d x : x ∈ querySelectorAll sel d → x ∈ ids d.
Proof.
  intros (en & Hin & <- & _)%elem_of_query. unfold ids, elements.
  rewrite map_map. by apply (list_elem_of_fmap_2 (fun en => el_id (fst en))).
Qed.

Lemma query_lt sel next d :
  wf next d → Forall (fun x => (x < next)%nat) (querySelectorAll sel d).
Proof.
  intros [_ Hlt]. apply Forall_forall. intros x Hx%query_in_ids.
  rewrite Forall_forall in Hlt. by apply Hlt.
Qed.

Lemma elem_of_elements d e : e ∈ elements d ↔ ∃ anc, (e, anc) ∈ all_entries d.
Proof.
  unfold elements. rewrite list_elem_of_fmap. split.
  - intros ([e' anc] & -> & Hin). by exists anc.
  - intros [anc Hin]. by exists (e, anc).
Qed.

Lemma fold_fixed {A B} (f : A → B → A) (a : A) l :
  (∀ x, x ∈ l → f a x = a) → foldl f a l = a.
Proof.
  induction l as [|x l IH]; intros H; simpl; [done|].
  rewrite H by (apply elem_of_cons; by left). apply IH.
  intros y Hy. apply H. apply elem_of_cons. by right.
Qed.

End ShapeFacts.

(** ** Copy-link buttons *)

Module CopyFacts.

Import Dom Page DomFacts PageFacts ShapeFacts.

(** The completion marker of a heading. *)
Definition marked (e : element) : bool :=
  bool_decide (getAttribute "data-copylink" e = Some "done").
Definition mark : element → element := setAttribute "data-copylink" "done".

(** The button the pass makes for the heading [h], with the handle [b]. *)
Definition copy_button (b h : nid) : element :=
  with_listener (CopyLinkClick h)
    (with_style (set_style "margin-left" "10px")
       (with_textContent link_glyph
          (setAttribute "aria-label" "Copy section link"
             (set_className "copylink-btn"
                (setAttribute "type" "button" (createElement b "button")))))).

(** What the pass has done to the heading [h] between [q] and [q']. *)
Definition head_done (q q' : page) (h : nid) : Prop :=
  ∀ he, el h q = Some he →
    if marked he
    then el h q' = Some he ∧ child_ids h (tree q') = child_ids h (tree q)
    else el h q' = Some (mark he)
         ∧ ∃ b, (next_id q <= b < next_id q')%nat
                ∧ child_ids h (tree q') = (fun l => l ++ [b]) <$> child_ids h (tree q)
                ∧ el b q' = Some (copy_button b h).

Lemma subtree_update x f y n :
  keeps_id f → subtree y (update x f n) = update x f <$> subtree y n.
Proof.
  intros Hf. induction n as [e kids IH] using node_induction.
  change (update x f (Node e kids))
    with (Node (if Nat.eqb (el_id e) x then f e else e) (map (update x f) kids)).
  rewrite !subtree_node.
  assert (el_id (if Nat.eqb (el_id e) x then f e else e) = el_id e) as ->
    by (destruct (Nat.eqb _ _); [apply Hf|done]).
  destruct (Nat.eqb (el_id e) y); [done|].
  rewrite first_some_map, <- first_some_fmap. by apply first_some_ext_Forall.
Qed.

Lemma child_ids_update x f y n : keeps_id f → child_ids y (update x f n) = child_ids y n.
Proof.
  intros Hf. unfold child_ids. rewrite subtree_update by done.
  destruct (subtree y n) as [[e kids]|]; [|done]. simpl. f_equal.
  rewrite map_map. apply map_ext. intros [e' kids']. unfold nid_of. simpl.
  destruct (Nat.eqb _ _); [apply Hf|done].
Qed.

Lemma keeps_id_mark : keeps_id mark.
Proof. by intros e. Qed.

(** *** One heading *)

Lemma add_skip p h :
  match el h p with Some he => marked he = true | None => True end →
  V1.add_copylink p h = p.
Proof.
  unfold V1.add_copylink, marked. destruct (el h p) as [he|]; [|done]. by intros ->.
Qed.

Section Step.

Context (p : page) (h : nid) (he : element).
Hypothesis Hwf : wf (next_id p) (tree p).
Hypothesis Hh : el h p = Some he.
Hypothesis Hun : marked he = false.

Let b := next_id p.
Let p' := V1.add_copylink p h.

Lemma add_tree :
  tree p' = append_under h (Node (copy_button b h) []) (update h mark (tree p)).
Proof.
  unfold p', V1.add_copylink. rewrite Hh. fold (marked he). rewrite Hun.
  change (tree (set_tree ?d _)) with d. unfold appendChild.
  rewrite remove_fresh; [reflexivity|].
  change (tree (set_next_id _ (on_el h (setAttribute "data-copylink" "done") p)))
    with (update h mark (tree p)).
  change (nid_of (Node _ [])) with (next_id p).
  rewrite ids_update by apply keeps_id_mark. apply (wf_fresh (next_id p)); [done|lia].
Qed.

Lemma add_next_id : next_id p' = S b.
Proof. unfold p', V1.add_copylink. rewrite Hh. fold (marked he). by rewrite Hun. Qed.

Lemma add_platform : platform p' = platform p.
Proof. unfold p', V1.add_copylink. rewrite Hh. fold (marked he). by rewrite Hun. Qed.

Lemma add_wf : wf (next_id p') (tree p').
Proof.
  rewrite add_next_id, add_tree. apply wf_append_leaf; [|done].
  apply wf_update; [apply keeps_id_mark|done].
Qed.

Lemma add_el y : y ≠ b → el y p' = at_id h mark <$> el y p.
Proof.
  intros Hy. unfold el. rewrite add_tree, get_append_under.
  - apply get_update, keeps_id_mark.
  - rewrite ids_node. simpl. by intros ->%list_elem_of_singleton.
Qed.

Lemma add_el_button : el b p' = Some (copy_button b h).
Proof.
  unfold el. rewrite add_tree. apply get_appended; [|done|].
  - apply wf_update; [apply keeps_id_mark|done].
  - rewrite get_update by apply keeps_id_mark. fold (el h p). rewrite Hh. by eexists.
Qed.

Lemma add_child_ids y :
  y ≠ b →
  child_ids y (tree p')
  = (fun l => if Nat.eqb y h then l ++ [b] else l) <$> child_ids y (tree p).
Proof.
  intros Hy. rewrite add_tree, child_ids_append_under.
  - by rewrite child_ids_update by apply keeps_id_mark.
  - rewrite ids_node. simpl. by intros ->%list_elem_of_singleton.
Qed.

Lemma add_elements e' :
  e' ∈ elements (tree p') →
  tagName e' = "button"
  ∨ ∃ e, e ∈ elements (tree p) ∧ el_id e' = el_id e ∧ tagName e' = tagName e
         ∧ hasAttribute "id" e' = hasAttribute "id" e.
Proof.
  rewrite add_tree. intros [Hin|Hin]%elem_of_append_under.
  - right. rewrite elements_update in Hin.
    apply list_elem_of_fmap in Hin as (e & -> & He). exists e. split; [done|].
    unfold at_id. destruct (Nat.eqb _ _); [|done]. split_and!; try done.
    unfold hasAttribute, mark, setAttribute. simpl.
    by rewrite lookup_insert_ne.
  - left. rewrite elements_node in Hin. simpl in Hin.
    by apply list_elem_of_singleton in Hin as ->.
  - rewrite ids_update by apply keeps_id_mark. apply Hwf.
Qed.

End Step.

(** *** All headings *)

(** Where an element of the tree after comes from. *)
Definition from_before (q q' : page) : Prop :=
  ∀ e', e' ∈ elements (tree q') →
    tagName e' = "button"
    ∨ ∃ e, e ∈ elements (tree q) ∧ el_id e' = el_id e ∧ tagName e' = tagName e
           ∧ hasAttribute "id" e' = hasAttribute "id" e.

Lemma fold_add l q :
  wf (next_id q) (tree q) → NoDup l → Forall (fun h => (h < next_id q)%nat) l →
  let q' := foldl V1.add_copylink q l in
  wf (next_id q') (tree q')
  ∧ (next_id q <= next_id q')%nat
  ∧ platform q' = platform q
  ∧ (∀ y, (y < next_id q)%nat → y ∉ l →
          el y q' = el y q ∧ child_ids y (tree q') = child_ids y (tree q))
  ∧ (∀ h, h ∈ l → head_done q q' h)
  ∧ from_before q q'.
Proof.
  revert q. induction l as [|a l IH]; intros q Hwf Hnd Hlt.
  - simpl. split_and!; try done.
    + intros h Hh. by apply elem_of_nil in Hh.
    + intros e' He'. right. by exists e'.
  - apply NoDup_cons in Hnd as [Ha Hnd]. apply Forall_cons in Hlt as [Halt Hlt].
    change (foldl V1.add_copylink q (a :: l))
      with (foldl V1.add_copylink (V1.add_copylink q a) l).
    destruct (el a q) as [he|] eqn:Hel; [destruct (marked he) eqn:Hm|].
    + (* already marked *)
      rewrite (add_skip q a) by (by rewrite Hel).
      destruct (IH q Hwf Hnd Hlt) as (Hwf' & Hn & Hp & Hother & Hheads & Hfrom).
      split_and!; try done.
      * intros y Hy [Hya Hyl]%not_elem_of_cons. by apply Hother.
      * intros h [->|Hh]%elem_of_cons; [|by apply Hheads].
        intros he' Hhe'. rewrite Hel in Hhe'. injection Hhe' as <-. rewrite Hm.
        rewrite <- Hel. by apply Hother.
    + (* a new button *)
      pose proof (add_wf q a he Hwf Hel Hm) as Hwf1.
      pose proof (add_next_id q a he Hel Hm) as Hn1.
      assert (Forall (fun h => (h < next_id (V1.add_copylink q a))%nat) l) as Hlt1.
      { eapply Forall_impl; [exact Hlt|]. simpl. intros h Hh. rewrite Hn1. lia. }
      destruct (IH _ Hwf1 Hnd Hlt1) as (Hwf' & Hn & Hp & Hother & Hheads & Hfrom).
      split_and!; try done.
      * rewrite Hn1 in Hn. lia.
      * by rewrite Hp, (add_platform q a he Hel Hm).
      * intros y Hy [Hya Hyl]%not_elem_of_cons.
        destruct (Hother y) as [-> ->]; [rewrite Hn1; lia|done|].
        rewrite (add_el q a he Hwf Hel Hm) by (done || lia).
        rewrite (add_child_ids q a he Hwf Hel Hm) by (done || lia). split.
        -- destruct (el y q) as [e|] eqn:Hy'; [|done]. simpl. f_equal. unfold at_id.
           rewrite (el_el_id _ _ _ Hy'). by destruct (Nat.eqb_spec y a).
        -- destruct (Nat.eqb_spec y a); [done|]. by destruct (child_ids y (tree q)).
      * intros h [->|Hh]%elem_of_cons.
        -- intros he' Hhe'. rewrite Hel in Hhe'. injection Hhe' as <-. rewrite Hm.
           destruct (Hother a) as [-> ->]; [rewrite Hn1; lia|done|].
           rewrite (add_el q a he Hwf Hel Hm) by (done || lia). rewrite Hel. simpl.
           unfold at_id. rewrite (el_el_id _ _ _ Hel), Nat.eqb_refl. split; [done|].
           exists (next_id q). split_and!.
           ++ lia.
           ++ rewrite Hn1 in Hn. lia.
           ++ rewrite (add_child_ids q a he Hwf Hel Hm) by (done || lia). by rewrite Nat.eqb_refl.
           ++ destruct (Hother (next_id q)) as [-> _]; [rewrite Hn1; lia| |].
              ** intros Hin. rewrite Forall_forall in Hlt. specialize (Hlt _ Hin). lia.
              ** by apply (add_el_button q a he).
        -- assert (h ≠ a) as Hne by (by intros ->).
           assert ((h < next_id q)%nat) as Hhlt
             by (rewrite Forall_forall in Hlt; by apply Hlt).
           intros he' Hhe'. specialize (Hheads h Hh he').
           rewrite (add_el q a he Hwf Hel Hm) in Hheads by (done || lia).
           rewrite Hhe' in Hheads. simpl in Hheads. unfold at_id in Hheads.
           rewrite (el_el_id _ _ _ Hhe') in Hheads.
           destruct (Nat.eqb_spec h a); [done|]. specialize (Hheads eq_refl).
           rewrite (add_child_ids q a he Hwf Hel Hm) in Hheads by (done || lia).
           destruct (Nat.eqb_spec h a); [done|].
           destruct (marked he').
           ++ destruct Hheads as [-> ->]. by destruct (child_ids h (tree q)).
           ++ destruct Hheads as [-> (b & Hb & -> & Hbtn)]. split; [done|].
              exists b. split_and!; [rewrite Hn1 in Hb; lia|lia| |done].
              by destruct (child_ids h (tree q)).
      * intros e' He'. destruct (Hfrom e' He') as [?|(e1 & He1 & Hid & Htag & Hhas)];
          [by left|].
        destruct (add_elements q a he Hwf Hel Hm e1 He1)
          as [Hb|(e & He & Hid' & Htag' & Hhas')].
        -- left. congruence.
        -- right. exists e. split_and!; congruence.
    + (* no such element *)
      rewrite (add_skip q a) by (by rewrite Hel).
      destruct (IH q Hwf Hnd Hlt) as (Hwf' & Hn & Hp & Hother & Hheads & Hfrom).
      split_and!; try done.
      * intros y Hy [Hya Hyl]%not_elem_of_cons. by apply Hother.
      * intros h [->|Hh]%elem_of_cons; [|by apply Hheads].
        intros he' Hhe'. congruence.
Qed.

(** *** The pass *)

Definition heading (e : element) : bool :=
  bool_decide (tagName e = "h2") && hasAttribute "id" e
  || bool_decide (tagName e = "h3") && hasAttribute "id" e.

Lemma matches_heads e anc : matches V1.sel_heads e anc = heading e.
Proof.
  unfold matches, V1.sel_heads, matches_complex, matches_compound, heading. simpl.
  by rewrite !andb_true_r, orb_false_r.
Qed.

Lemma pass_fold p :
  has_clipboard (platform p) = true →
  V1.initCopyLinks p = foldl V1.add_copylink p (queryAll V1.sel_heads p).
Proof.
  intros Hc. unfold V1.initCopyLinks. rewrite Hc. simpl.
  case_bool_decide as Hnil; [by rewrite Hnil|done].
Qed.

Lemma pass_facts p :
  wf (next_id p) (tree p) → has_clipboard (platform p) = true →
  let p' := V1.initCopyLinks p in
  wf (next_id p') (tree p')
  ∧ platform p' = platform p
  ∧ (∀ h, h ∈ queryAll V1.sel_heads p → head_done p p' h)
  ∧ from_before p p'.
Proof.
  intros Hwf Hc p'. unfold p'. rewrite pass_fold by done.
  destruct (fold_add (queryAll V1.sel_heads p) p Hwf) as (H1 & _ & H2 & _ & H3 & H4).
  - apply NoDup_query, Hwf.
  - by apply query_lt.
  - done.
Qed.

Lemma copy_pass_idem p :
  wf (next_id p) (tree p) → V1.initCopyLinks (V1.initCopyLinks p) = V1.initCopyLinks p.
Proof.
  intros Hwf. destruct (has_clipboard (platform p)) eqn:Hc.
  - destruct (pass_facts p Hwf Hc) as (Hwf' & Hp & Hheads & Hfrom).
    rewrite (pass_fold (V1.initCopyLinks p)) by (by rewrite Hp).
    apply fold_fixed. intros h' Hh'. apply add_skip.
    apply elem_of_query in Hh' as ([e' anc'] & Hin & Hid & Hm). cbn [fst snd] in *.
    assert (e' ∈ elements (tree (V1.initCopyLinks p))) as He'
      by (apply elem_of_elements; by exists anc').
    unfold el. rewrite <- Hid, (wf_get _ _ _ Hwf' He').
    rewrite matches_heads in Hm.
    destruct (Hfrom e' He') as [Hb|(e & He & Hide & Htag & Hhas)].
    { unfold heading in Hm. rewrite Hb in Hm. done. }
    assert (el_id e ∈ queryAll V1.sel_heads p) as Hq.
    { apply elem_of_elements in He as [anc He]. apply elem_of_query.
      exists (e, anc). split_and!; [done|done|]. cbn [fst snd]. rewrite matches_heads.
      unfold heading in *. by rewrite <- Htag, <- Hhas. }
    specialize (Hheads _ Hq e (wf_get _ _ _ Hwf He)).
    unfold el in Hheads. rewrite <- Hide, (wf_get _ _ _ Hwf' He') in Hheads.
    destruct (marked e) eqn:Hme.
    + destruct Hheads as [[= ->] _]. done.
    + destruct Hheads as [[= ->] _]. unfold marked, mark, getAttribute, setAttribute.
      simpl. rewrite lookup_insert_eq. by apply bool_decide_eq_true_2.
  - unfold V1.initCopyLinks at 2. rewrite Hc. simpl. unfold V1.initCopyLinks. by rewrite Hc.
Qed.

Lemma heading_selected p h he :
  el h p = Some he → heading he = true → h ∈ queryAll V1.sel_heads p.
Proof.
  unfold el, get. destruct (entry_of h (tree p)) as [[e anc]|] eqn:Hen; [|done].
  intros [= ->] Hd. apply find_some in Hen as [Hin Hid]. apply Nat.eqb_eq in Hid.
  apply elem_of_query. exists (he, anc).
  split_and!; [by apply list_elem_of_In|done|]. cbn [fst snd]. by rewrite matches_heads.
Qed.

Lemma selected_heading p h he :
  wf (next_id p) (tree p) → h ∈ queryAll V1.sel_heads p → el h p = Some he →
  heading he = true.
Proof.
  intros Hwf ([e anc] & Hin & <- & Hm)%elem_of_query. cbn [fst snd] in *.
  rewrite matches_heads in Hm. unfold el. rewrite (wf_get _ _ e Hwf).
  - by intros [= <-].
  - apply elem_of_elements. by exists anc.
Qed.

(** The pass leaves alone every element that is no [h2[id]] or [h3[id]]: an
    [h1] or an [h4] with an identifier among them. *)
Lemma pass_frame p y e :
  wf (next_id p) (tree p) → el y p = Some e → heading e = false →
  el y (V1.initCopyLinks p) = Some e
  ∧ child_ids y (tree (V1.initCopyLinks p)) = child_ids y (tree p).
Proof.
  intros Hwf He Hh. destruct (has_clipboard (platform p)) eqn:Hc.
  - rewrite pass_fold by done.
    destruct (fold_add (queryAll V1.sel_heads p) p Hwf) as (_ & _ & _ & H & _).
    + apply NoDup_query, Hwf.
    + by apply query_lt.
    + destruct (H y) as [H1 H2].
      * by apply (get_lt _ (tree p) y e).
      * intros Hin. by rewrite (selected_heading p y e Hwf Hin He) in Hh.
      * by rewrite H1.
  - unfold V1.initCopyLinks. by rewrite Hc.
Qed.

End CopyFacts.

(** C7 (amended).  When the clipboard API is there, the copy-link pass
    leaves every [h2] and [h3] that has an identifier marked, appends to
    each one not marked before exactly one new button as its last child,
    and leaves the children of marked ones alone; every other element, the
    other headings with an identifier among them, is left as it is, with
    the children it had.  Without the clipboard API the pass does nothing.
    Running the pass again changes nothing.  In both versions. *)
Theorem copy_links_one_button (p : Page.page) :
  Dom.wf (Page.next_id p) (Page.tree p) →
  ∀ init, init = V1.initCopyLinks ∨ init = V2.initCopyLinks →
  (Page.has_clipboard (Page.platform p) = true →
   ∀ h he, Page.el h p = Some he →
     if CopyFacts.heading he
     then CopyFacts.head_done p (init p) h
     else Page.el h (init p) = Some he
          ∧ ShapeFacts.child_ids h (Page.tree (init p))
            = ShapeFacts.child_ids h (Page.tree p))
  ∧ (Page.has_clipboard (Page.platform p) = false → init p = p)
  ∧ init (init p) = init p.
Proof.
  intros Hwf init Hver.
  assert (init = V1.initCopyLinks) as ->
    by (destruct Hver as [->| ->]; [done|apply Same.initCopyLinks]).
  split_and!.
  - intros Hc h he Hhe. destruct (CopyFacts.heading he) eqn:Hh.
    + destruct (CopyFacts.pass_facts p Hwf Hc) as (_ & _ & H & _).
      apply H. by apply (CopyFacts.heading_selected p h he).
    + by apply CopyFacts.pass_frame.
  - intros Hc. unfold V1.initCopyLinks. by rewrite Hc.
  - by apply CopyFacts.copy_pass_idem.
Qed.

Lemma copy_links_one_button_witness :
  let p' := V2.initCopyLinks Sample.page0 in
  (Page.el 9 p' ≫= Dom.getAttribute "data-copylink") = Some "done"
  ∧ ∃ b, ShapeFacts.child_ids 9 (Page.tree p') = Some [b]
         ∧ Page.el b p' = Some (CopyFacts.copy_button b 9).
Proof.
  intros p'.
  destruct (copy_links_one_button Sample.page0) with (init := V2.initCopyLinks)
    as (Hheads & _ & _).
  - unfold Dom.wf. apply (bool_decide_unpack _). vm_compute. reflexivity.
  - by right.
  - set (he := Dom.elem (Sample.mk 9 "h2" [("id", "sec1")] [] 300 [])).
    assert (Page.el 9 Sample.page0 = Some he) as Hhe by (vm_compute; reflexivity).
    specialize (Hheads eq_refl 9%nat he Hhe).
    change (CopyFacts.heading he) with true in Hheads. cbn iota in Hheads.
    specialize (Hheads he Hhe).
    change (CopyFacts.marked he) with false in Hheads. cbn iota in Hheads.
    destruct Hheads as (Hel & b & _ & Hkids & Hbtn).
    fold p' in Hel, Hkids, Hbtn. split.
    + rewrite Hel. vm_compute. reflexivity.
    + exists b. split; [|exact Hbtn]. rewrite Hkids. vm_compute. reflexivity.
Defined.

(** Served over plain HTTP the page has no clipboard API: the heading
    [#sec1] has an identifier and no marker, and the pass gives it neither
    marker nor button.  And with the clipboard API there, an [h1] and an
    [h4] that have an identifier get neither marker nor button. *)
Lemma copy_links_counterexample :
  (let p := Sample.page_http in
   9%nat ∈ Page.queryAll V1.sel_heads p
   ∧ (Page.el 9 p ≫= Dom.getAttribute "id") = Some "sec1"
   ∧ (Page.el 9 p ≫= Dom.getAttribute "data-copylink") = None
   ∧ V1.initCopyLinks p = p
   ∧ V2.initCopyLinks p = p
   ∧ ShapeFacts.child_ids 9 (Page.tree (V1.initCopyLinks p)) = Some []
   ∧ (Page.el 9 (V1.initCopyLinks p) ≫= Dom.getAttribute "data-copylink") = None)
  ∧ (let p := Sample.page_notes in
     Page.has_clipboard (Page.platform p) = true
     ∧ (Dom.tagName <$> Page.el 3 p) = Some "h4"
     ∧ (Page.el 3 p ≫= Dom.getAttribute "id") = Some "notes"
     ∧ (Page.el 3 p ≫= Dom.getAttribute "data-copylink") = None
     ∧ V1.initCopyLinks p = p
     ∧ V2.initCopyLinks p = p
     ∧ ShapeFacts.child_ids 3 (Page.tree (V1.initCopyLinks p)) = Some []
     ∧ (Page.el 3 (V1.initCopyLinks p) ≫= Dom.getAttribute "data-copylink") = None).
Proof.
  split.
  - split_and!; try (vm_compute; reflexivity).
    apply (bool_decide_unpack _). vm_compute. reflexivity.
  - split_and!; vm_compute; reflexivity.
Qed.

(** ** Table wrapping *)

Module WrapFacts.

Import Dom Page DomFacts PageFacts ShapeFacts.

(** The handles below the root of [n]. *)
Definition proper_ids (n : node) : list nid := flat_map ids (children n).

(** Put each child with the handle [t] into a new parent [w], in its place. *)
Fixpoint wrap_at (t : nid) (w : element) (n : node) : node :=
  let 'Node e kids := n in
  Node e (map (fun k => if Nat.eqb (nid_of k) t then Node w [k] else wrap_at t w k) kids).

(** Put the node [r] in the place of each child with the handle [t]. *)
Fixpoint replace_child (t : nid) (r : node) (n : node) : node :=
  let 'Node e kids := n in
  Node e (map (fun k => if Nat.eqb (nid_of k) t then r else replace_child t r k) kids).

(** Every node with a child [t] has the handle [pid]. *)
Definition parent_ok (pid t : nid) (n : node) : Prop :=
  ∀ m, m ∈ subtrees n → t ∈ map nid_of (children m) → nid_of m = pid.

Lemma ids_proper n : ids n = nid_of n :: proper_ids n.
Proof. destruct n as [e kids]. apply ids_node. Qed.

Lemma proper_kid x k n : k ∈ children n → x ∈ ids k → x ∈ proper_ids n.
Proof. intros. by apply (ids_kid x k). Qed.

Lemma not_proper_kid x k n : x ∉ proper_ids n → k ∈ children n → x ∉ ids k.
Proof. intros Hx Hk Hin. apply Hx. by apply (proper_kid x k). Qed.

Lemma not_ids_proper x n : x ∉ ids n → x ∉ proper_ids n.
Proof. rewrite ids_proper. by intros [_ ?]%not_elem_of_cons. Qed.

Lemma NoDup_root_proper n : NoDup (ids n) → nid_of n ∉ proper_ids n.
Proof. rewrite ids_proper. by intros [? _]%NoDup_cons. Qed.

Lemma map_id_Forall {A} (f : A → A) l : Forall (fun x => f x = x) l → map f l = l.
Proof. induction 1 as [|x l Hx _ IH]; simpl; [done|]. by rewrite Hx, IH. Qed.

(** *** Where the handle [t] does not occur below the root, nothing happens *)

Section Noref.

Context (t : nid).

Lemma kids_noref (f : node → node) (n : node) :
  Forall (fun k => t ∉ proper_ids k → f k = k) (children n) →
  t ∉ proper_ids n → Forall (fun k => f k = k ∧ Nat.eqb (nid_of k) t = false) (children n).
Proof.
  intros IH Ht. rewrite Forall_forall in IH. apply Forall_forall. intros k Hk.
  pose proof (not_proper_kid t k n Ht Hk) as Hkt. split.
  - by apply IH; [|apply not_ids_proper].
  - apply Nat.eqb_neq. intros <-. apply Hkt, nid_in_ids.
Qed.

Lemma insert_before_noref new kids :
  Forall (fun k => Nat.eqb (nid_of k) t = false) kids → insert_before new t kids = kids.
Proof. induction 1 as [|k kids Hk _ IH]; simpl; [done|]. by rewrite Hk, IH. Qed.

Lemma insertBefore_noref p new n : t ∉ proper_ids n → insertBefore p new t n = n.
Proof.
  induction n as [e kids IH] using node_induction. intros Ht.
  pose proof (kids_noref (insertBefore p new t) (Node e kids) IH Ht) as Hk.
  simpl in Hk. simpl.
  assert (map (insertBefore p new t) kids = kids) as ->.
  { apply map_id_Forall. eapply Forall_impl; [exact Hk|]. by intros k [? _]. }
  rewrite insert_before_noref; [by destruct (Nat.eqb _ _)|].
  eapply Forall_impl; [exact Hk|]. by intros k [_ ?].
Qed.

Lemma remove_noref n : t ∉ proper_ids n → remove t n = n.
Proof.
  induction n as [e kids IH] using node_induction. intros Ht.
  pose proof (kids_noref (remove t) (Node e kids) IH Ht) as Hk.
  simpl in Hk. simpl. f_equal. clear IH Ht.
  induction Hk as [|k kids [Hk1 Hk2] _ IHk]; simpl; [done|].
  by rewrite Hk2, Hk1, IHk.
Qed.

Lemma wrap_at_noref w n : t ∉ proper_ids n → wrap_at t w n = n.
Proof.
  induction n as [e kids IH] using node_induction. intros Ht.
  pose proof (kids_noref (wrap_at t w) (Node e kids) IH Ht) as Hk.
  simpl in Hk. simpl. f_equal. apply map_id_Forall.
  eapply Forall_impl; [exact Hk|]. simpl. by intros k [-> ->].
Qed.

Lemma replace_child_noref r n : t ∉ proper_ids n → replace_child t r n = n.
Proof.
  induction n as [e kids IH] using node_induction. intros Ht.
  pose proof (kids_noref (replace_child t r) (Node e kids) IH Ht) as Hk.
  simpl in Hk. simpl. f_equal. apply map_id_Forall.
  eapply Forall_impl; [exact Hk|]. simpl. by intros k [-> ->].
Qed.

End Noref.

(** *** The two calls of the script make one wrap *)

Lemma nid_insertBefore p new t n : nid_of (insertBefore p new t n) = nid_of n.
Proof. by destruct n. Qed.

Lemma subtrees_kid m k n : k ∈ children n → m ∈ subtrees k → m ∈ subtrees n.
Proof.
  destruct n as [e kids]. simpl. intros Hk Hm. apply elem_of_cons. right.
  apply list_elem_of_In, in_flat_map. exists k. split; by apply list_elem_of_In.
Qed.

Lemma subtrees_root n : n ∈ subtrees n.
Proof. destruct n. simpl. apply elem_of_cons. by left. Qed.

Lemma parent_ok_kid pid t k n : parent_ok pid t n → k ∈ children n → parent_ok pid t k.
Proof. intros Hok Hk m Hm. apply Hok. by apply (subtrees_kid m k). Qed.

Section Compose.

Context (pid t : nid) (w : element) (T : node).
Hypothesis Hwt : el_id w ≠ t.

Let W := Node w [].
Let R := Node w [T].
Let G (k : node) : node := append_under (el_id w) T (remove t (insertBefore pid W t k)).
Let rm (k : node) : list node := if Nat.eqb (nid_of k) t then [] else [remove t k].
Let rep (k : node) : node := if Nat.eqb (nid_of k) t then R else replace_child t R k.

Lemma kids_plain ks :
  Forall (fun k => G k = replace_child t R k) ks →
  Forall (fun k => Nat.eqb (nid_of k) t = false) ks →
  map (append_under (el_id w) T) (flat_map rm (map (insertBefore pid W t) ks)) = map rep ks.
Proof.
  induction 1 as [|k ks Hk _ IH]; intros Hne; [done|].
  apply Forall_cons in Hne as [Hkt Hne]. simpl. unfold rm at 1, rep at 1.
  rewrite nid_insertBefore, Hkt. simpl. rewrite IH by done. f_equal. apply Hk.
Qed.

Lemma kids_rest ks :
  t ∉ flat_map ids ks → el_id w ∉ flat_map ids ks →
  map (append_under (el_id w) T) (flat_map rm (map (insertBefore pid W t) ks)) = ks
  ∧ map rep ks = ks.
Proof.
  induction ks as [|k ks IH]; simpl; [done|].
  intros [Htk Ht]%not_elem_of_app [Hwk Hw]%not_elem_of_app.
  destruct (IH Ht Hw) as [IH1 IH2]. unfold rm at 1, rep at 1.
  rewrite insertBefore_noref by (by apply not_ids_proper).
  assert (Nat.eqb (nid_of k) t = false) as ->.
  { apply Nat.eqb_neq. intros <-. apply Htk, nid_in_ids. }
  simpl. rewrite remove_noref by (by apply not_ids_proper).
  rewrite append_under_fresh by done. rewrite IH1.
  rewrite replace_child_noref by (by apply not_ids_proper). by rewrite IH2.
Qed.

Lemma kids_inserted ks :
  Forall (fun k => G k = replace_child t R k) ks →
  NoDup (flat_map ids ks) → el_id w ∉ flat_map ids ks →
  map (append_under (el_id w) T)
      (flat_map rm (insert_before W t (map (insertBefore pid W t) ks)))
  = map rep ks.
Proof.
  induction 1 as [|k ks Hk _ IH]; intros Hnd Hw; [done|].
  simpl in Hnd, Hw. apply NoDup_app in Hnd as (Hndk & Hdisj & Hnd).
  apply not_elem_of_app in Hw as [Hwk Hw]. simpl. rewrite nid_insertBefore.
  unfold rep at 1. destruct (Nat.eqb_spec (nid_of k) t) as [Hkt|Hkt].
  - assert (t ∉ flat_map ids ks) as Ht.
    { apply Hdisj. rewrite <- Hkt. apply nid_in_ids. }
    destruct (kids_rest ks Ht Hw) as [H1 H2]. simpl. unfold rm at 1 2.
    change (nid_of W) with (el_id w). rewrite nid_insertBefore.
    apply Nat.eqb_neq in Hwt as ->. apply Nat.eqb_eq in Hkt as ->.
    simpl. rewrite Nat.eqb_refl. simpl. fold rm. rewrite H1, H2. done.
  - simpl. unfold rm at 1. rewrite nid_insertBefore.
    apply Nat.eqb_neq in Hkt as ->. simpl. rewrite IH by done. f_equal. apply Hk.
Qed.

Lemma compose_wrap n :
  NoDup (ids n) → el_id w ∉ ids n → parent_ok pid t n → G n = replace_child t R n.
Proof.
  induction n as [e kids IH] using node_induction. intros Hnd Hw Hok.
  assert (Forall (fun k => G k = replace_child t R k) kids) as Hkids.
  { rewrite Forall_forall in IH. apply Forall_forall. intros k Hk. apply IH.
    - done.
    - pose proof (NoDup_kids e kids Hnd) as H. rewrite Forall_forall in H. by apply H.
    - intros Hin. apply Hw. rewrite ids_node. apply elem_of_cons. right.
      by apply (ids_kid _ k).
    - by apply (parent_ok_kid pid t k (Node e kids)). }
  rewrite ids_node in Hnd, Hw. apply NoDup_cons in Hnd as [_ Hnd].
  apply not_elem_of_cons in Hw as [Hwe Hw].
  unfold G. simpl. apply Nat.eqb_neq in Hwe. rewrite Nat.eqb_sym in Hwe.
  destruct (Nat.eqb_spec (el_id e) pid) as [Hp|Hp].
  - simpl. rewrite Hwe. f_equal. by apply kids_inserted.
  - simpl. rewrite Hwe. f_equal. apply kids_plain; [done|].
    apply Forall_forall. intros k Hk. apply Nat.eqb_neq. intros Hkt. apply Hp.
    apply (Hok (Node e kids)); [apply subtrees_root|].
    simpl. rewrite <- Hkt. by apply list_elem_of_fmap_2.
Qed.

End Compose.

Lemma first_some_insert_before {B} (f : node → option B) new t ks :
  f new = None → first_some f (insert_before new t ks) = first_some f ks.
Proof.
  intros Hnew. induction ks as [|k ks IH]; simpl; [done|].
  destruct (Nat.eqb _ _); simpl; [by rewrite Hnew|]. by rewrite IH.
Qed.

Lemma subtree_insertBefore pid w t n :
  NoDup (ids n) → el_id w ≠ t →
  subtree t (insertBefore pid (Node w []) t n) = subtree t n.
Proof.
  intros Hnd Hwt. induction n as [e kids IH] using node_induction.
  destruct (Nat.eqb_spec (el_id e) t) as [Het|Het].
  - rewrite insertBefore_noref; [done|].
    rewrite <- Het. apply (NoDup_root_proper (Node e kids) Hnd).
  - change (insertBefore pid (Node w []) t (Node e kids))
      with (Node e (if Nat.eqb (el_id e) pid
                    then insert_before (Node w []) t
                           (map (insertBefore pid (Node w []) t) kids)
                    else map (insertBefore pid (Node w []) t) kids)).
    rewrite !subtree_node. apply Nat.eqb_neq in Het as ->.
    assert (first_some (subtree t) (map (insertBefore pid (Node w []) t) kids)
            = first_some (subtree t) kids) as Hkids.
    { rewrite first_some_map. apply first_some_ext_Forall.
      pose proof (NoDup_kids e kids Hnd) as Hk.
      rewrite Forall_forall in IH, Hk. apply Forall_forall. intros k Hin.
      apply IH; [done|by apply Hk]. }
    destruct (Nat.eqb (el_id e) pid); [|done].
    rewrite first_some_insert_before; [done|].
    rewrite subtree_node. simpl. by apply Nat.eqb_neq in Hwt as ->.
Qed.

Lemma replace_wrap t w T n :
  (∀ k, k ∈ subtrees n → nid_of k = t → k = T) →
  replace_child t (Node w [T]) n = wrap_at t w n.
Proof.
  induction n as [e kids IH] using node_induction. intros Huniq. simpl. f_equal.
  apply MapFacts.map_ext_Forall. rewrite Forall_forall in IH. apply Forall_forall.
  intros k Hk. destruct (Nat.eqb_spec (nid_of k) t) as [Hkt|Hkt].
  - rewrite (Huniq k); [done| |done].
    apply (subtrees_kid k k (Node e kids)); [done|apply subtrees_root].
  - apply IH; [done|]. intros m Hm. apply Huniq. by apply (subtrees_kid m k (Node e kids)).
Qed.

Lemma find_NoDup {A} (f : A → nat) (l : list A) x :
  NoDup (map f l) → x ∈ l → List.find (fun y => Nat.eqb (f y) (f x)) l = Some x.
Proof.
  induction l as [|y l IH]; intros Hnd Hin; [by apply elem_of_nil in Hin|].
  simpl in *. apply NoDup_cons in Hnd as [Hnot Hnd].
  destruct (Nat.eqb_spec (f y) (f x)) as [Heq|Hne].
  - apply elem_of_cons in Hin as [->|Hin]; [done|].
    exfalso. apply Hnot. rewrite Heq. by apply list_elem_of_fmap_2.
  - apply elem_of_cons in Hin as [->|Hin]; [done|]. by apply IH.
Qed.

Lemma ids_subtrees n : ids n = map nid_of (subtrees n).
Proof. unfold ids. rewrite elements_subtrees, map_map. done. Qed.

Lemma subtree_of n m : NoDup (ids n) → m ∈ subtrees n → subtree (nid_of m) n = Some m.
Proof. intros Hnd Hm. apply find_NoDup; [by rewrite <- ids_subtrees|done]. Qed.

Lemma subtree_unique t n T k :
  NoDup (ids n) → subtree t n = Some T → k ∈ subtrees n → nid_of k = t → k = T.
Proof.
  intros Hnd HT Hk Hkt. rewrite <- Hkt, (subtree_of n k) in HT by done. congruence.
Qed.

Lemma entry_of_in d en :
  NoDup (ids d) → en ∈ all_entries d → entry_of (el_id (fst en)) d = Some en.
Proof.
  intros Hnd Hin. apply (find_NoDup (fun en => el_id (fst en))); [|done].
  unfold ids, elements in Hnd. by rewrite map_map in Hnd.
Qed.

Lemma child_entry n m k anc :
  m ∈ subtrees n → k ∈ children m →
  ∃ anc', (elem k, elem m :: anc') ∈ entries anc n.
Proof.
  revert anc. induction n as [e kids IH] using node_induction. intros anc Hm Hk.
  simpl in Hm. apply elem_of_cons in Hm as [->|Hm].
  - exists anc. simpl. apply elem_of_cons. right.
    apply list_elem_of_In, in_flat_map. exists k. split; [by apply list_elem_of_In|].
    destruct k as [ek kk]. simpl. by left.
  - apply list_elem_of_In, in_flat_map in Hm as (k' & Hk' & Hm).
    rewrite Forall_forall in IH.
    destruct (IH k' (proj2 (list_elem_of_In _ _) Hk') (e :: anc)) as [anc' Hin];
      [by apply list_elem_of_In|done|].
    exists anc'. simpl. apply elem_of_cons. right.
    apply list_elem_of_In, in_flat_map. exists k'. split; [done|by apply list_elem_of_In].
Qed.

Lemma parent_ok_of t d par :
  NoDup (ids d) → parentElement t d = Some par → parent_ok (el_id par) t d.
Proof.
  intros Hnd Hpar m Hm Ht. apply list_elem_of_fmap in Ht as (k & Hkt & Hk).
  destruct (child_entry d m k [] Hm Hk) as [anc' Hin].
  apply (entry_of_in d _ Hnd) in Hin. simpl in Hin.
  unfold parentElement in Hpar. change (el_id (elem k)) with (nid_of k) in Hin.
  rewrite Hkt, Hin in Hpar. simpl in Hpar. by injection Hpar as <-.
Qed.

(** *** One table *)

(** The table [t] is to be wrapped: it has a parent without the class
    [table-wrap] and is in no [pre] or [code]. *)
Definition needs_wrap (d : node) (t : nid) : bool :=
  match parentElement t d with
  | None => false
  | Some parent =>
      negb (classList_contains "table-wrap" parent)
      && match closest V1.sel_pre_code t d with Some _ => false | None => true end
  end.

(** The wrapper the pass makes, with the handle [w]. *)
Definition wrapper (w : nid) : element := set_className "table-wrap" (createElement w "div").

Lemma wrap_skip p t : needs_wrap (tree p) t = false → V1.wrap_table p t = p.
Proof.
  unfold needs_wrap, V1.wrap_table. destruct (parentElement t (tree p)) as [par|]; [|done].
  destruct (classList_contains "table-wrap" par); [done|]. simpl.
  by destruct (closest V1.sel_pre_code t (tree p)).
Qed.

Lemma subtree_is_Some t d : is_Some (entry_of t d) → is_Some (subtree t d).
Proof.
  intros [en Hen]. pose proof (get_subtree t d) as H. unfold get in H.
  rewrite Hen in H. simpl in H. destruct (subtree t d); [by eexists|done].
Qed.

Lemma entry_in_ids t d en : entry_of t d = Some en → t ∈ ids d.
Proof.
  intros H. unfold entry_of in H. apply find_some in H as [Hin Ht].
  apply Nat.eqb_eq in Ht as <-. unfold ids, elements. rewrite map_map.
  apply (list_elem_of_fmap_2 (fun en => el_id (fst en))). by apply list_elem_of_In.
Qed.

Lemma wrap_step p t :
  wf (next_id p) (tree p) → needs_wrap (tree p) t = true →
  V1.wrap_table p t
  = set_tree (wrap_at t (wrapper (next_id p)) (tree p)) (set_next_id (S (next_id p)) p).
Proof.
  intros Hwf Hneed. unfold needs_wrap in Hneed. unfold V1.wrap_table.
  destruct (parentElement t (tree p)) as [par|] eqn:Hpar; [|done].
  destruct (classList_contains "table-wrap" par); [done|].
  destruct (closest V1.sel_pre_code t (tree p)); [done|]. clear Hneed.
  assert (is_Some (entry_of t (tree p))) as Hentry.
  { unfold parentElement in Hpar. destruct (entry_of t (tree p)); [by eexists|done]. }
  assert ((t < next_id p)%nat) as Hlt.
  { destruct Hentry as [en Hen]. apply entry_in_ids in Hen.
    destruct Hwf as [_ Hall]. rewrite Forall_forall in Hall. by apply Hall. }
  destruct (subtree_is_Some t _ Hentry) as [T HT].
  change (tree (set_tree ?d _)) with d.
  change (tree (set_next_id _ p)) with (tree p).
  fold (wrapper (next_id p)).
  rewrite (subtree_insertBefore (el_id par) (wrapper (next_id p)) t (tree p));
    [|apply Hwf|simpl; lia].
  rewrite HT.
  change (appendChild (next_id p) T ?d)
    with (append_under (el_id (wrapper (next_id p))) T (remove (nid_of T) d)).
  rewrite (subtree_nid _ _ _ HT).
  rewrite (compose_wrap (el_id par) t (wrapper (next_id p)) T).
  - rewrite (replace_wrap t (wrapper (next_id p)) T); [reflexivity|].
    intros k Hk Hkt. by apply (subtree_unique t (tree p)); [apply Hwf|..].
  - simpl. lia.
  - apply Hwf.
  - simpl. apply (wf_fresh (next_id p)); [done|lia].
  - apply parent_ok_of; [apply Hwf|done].
Qed.

End WrapFacts.

(** *** The document order after a wrap *)

Module WrapOrder.

Import Dom Page DomFacts PageFacts ShapeFacts WrapFacts.

(** Put [w] above the nearest ancestor with the handle [t]. *)
Fixpoint ins_after (t : nid) (w : element) (a : list element) : list element :=
  match a with
  | [] => []
  | x :: a' => if Nat.eqb (el_id x) t then x :: w :: a' else x :: ins_after t w a'
  end.

(** What an entry of the document becomes when [t] is wrapped in [w]. *)
Definition shift (t : nid) (w : element) (en : element * list element) :
    list (element * list element) :=
  if Nat.eqb (el_id (fst en)) t then [(w, snd en); (fst en, w :: snd en)]
  else [(fst en, ins_after t w (snd en))].

Lemma ins_after_fresh t w a : t ∉ map el_id a → ins_after t w a = a.
Proof.
  induction a as [|x a IH]; simpl; [done|]. intros [Hx Ha]%not_elem_of_cons.
  destruct (Nat.eqb_spec (el_id x) t); [done|]. by rewrite IH.
Qed.

Lemma ins_after_at t w c1 x c2 :
  t ∉ map el_id c1 → el_id x = t →
  ins_after t w (c1 ++ x :: c2) = c1 ++ x :: w :: c2.
Proof.
  intros Hc1 Hx. induction c1 as [|y c1 IH]; simpl.
  - by rewrite Hx, Nat.eqb_refl.
  - simpl in Hc1. apply not_elem_of_cons in Hc1 as [Hy Hc1].
    destruct (Nat.eqb_spec (el_id y) t); [done|]. by rewrite IH.
Qed.

Lemma flat_map_flat_map {A B C} (f : A → list B) (g : B → list C) l :
  flat_map g (flat_map f l) = flat_map (fun x => flat_map g (f x)) l.
Proof. induction l as [|x l IH]; simpl; [done|]. by rewrite flat_map_app, IH. Qed.

(** Below the wrapped table every entry gets [w] among its ancestors. *)
Lemma entries_below t w c1 x c2 m :
  t ∉ ids m → t ∉ map el_id c1 → el_id x = t →
  flat_map (shift t w) (entries (c1 ++ x :: c2) m) = entries (c1 ++ x :: w :: c2) m.
Proof.
  revert c1. induction m as [e kids IH] using node_induction. intros c1 Hm Hc1 Hx.
  rewrite ids_node in Hm. apply not_elem_of_cons in Hm as [He Hm].
  simpl. unfold shift at 1. simpl.
  destruct (Nat.eqb_spec (el_id e) t) as [Het|_]; [congruence|]. simpl.
  rewrite ins_after_at by done. f_equal.
  rewrite flat_map_flat_map. apply flat_map_ext_Forall.
  rewrite Forall_forall in IH. apply Forall_forall. intros k Hk.
  apply (IH k Hk (e :: c1)).
  - intros Hin. apply Hm. by apply (ids_kid t k).
  - simpl. apply not_elem_of_cons. split; [congruence|done].
  - done.
Qed.

Lemma entries_wrap_at t w n anc :
  NoDup (ids n) → t ∉ map el_id anc → nid_of n ≠ t →
  entries anc (wrap_at t w n) = flat_map (shift t w) (entries anc n).
Proof.
  revert anc. induction n as [e kids IH] using node_induction.
  intros anc Hnd Hanc Hroot. unfold nid_of in Hroot. simpl in Hroot.
  pose proof (NoDup_kids e kids Hnd) as Hkids.
  simpl. unfold shift at 1. simpl.
  destruct (Nat.eqb_spec (el_id e) t) as [Het|_]; [congruence|]. simpl.
  rewrite ins_after_fresh by done. f_equal.
  rewrite flat_map_map, flat_map_flat_map. apply flat_map_ext_Forall.
  rewrite Forall_forall in IH, Hkids. apply Forall_forall. intros k Hk.
  destruct (Nat.eqb_spec (nid_of k) t) as [Hkt|Hkt].
  - destruct k as [ek kk]. unfold nid_of in Hkt. simpl in Hkt.
    simpl. unfold shift at 1. simpl. rewrite Hkt, Nat.eqb_refl. simpl.
    rewrite app_nil_r. do 2 f_equal.
    rewrite flat_map_flat_map. apply flat_map_ext_Forall, Forall_forall.
    intros k' Hk'. symmetry.
    apply (entries_below t w [] ek (e :: anc) k'); [|apply not_elem_of_nil|done].
    specialize (Hkids _ Hk). rewrite ids_node in Hkids.
    apply NoDup_cons in Hkids as [Hroot' _]. rewrite Hkt in Hroot'.
    intros Hin. apply Hroot'. by apply (ids_kid t k').
  - apply IH; [done|by apply Hkids| |done].
    simpl. apply not_elem_of_cons. split; [congruence|done].
Qed.

End WrapOrder.

(** *** What a wrap changes and what it keeps *)

Module WrapStep.

Import Dom Page DomFacts PageFacts ShapeFacts WrapFacts WrapOrder.

Definition is_pre_code (e : element) : bool :=
  bool_decide (tagName e = "pre") || bool_decide (tagName e = "code").
Definition is_table (e : element) : bool := bool_decide (tagName e = "table").

Lemma matches_pre_code e anc : matches V1.sel_pre_code e anc = is_pre_code e.
Proof.
  unfold matches, V1.sel_pre_code, matches_complex, matches_compound, is_pre_code.
  simpl. by rewrite !andb_true_r, orb_false_r.
Qed.

Lemma matches_table e anc : matches V1.sel_table e anc = is_table e.
Proof.
  unfold matches, V1.sel_table, matches_complex, matches_compound, is_table.
  simpl. by rewrite !andb_true_r, orb_false_r.
Qed.

Lemma closest_in_pre_code l :
  match closest_in V1.sel_pre_code l with Some _ => false | None => true end
  = negb (existsb is_pre_code l).
Proof.
  induction l as [|x l IH]; [done|]. cbn [closest_in existsb].
  rewrite matches_pre_code. by destruct (is_pre_code x).
Qed.

Lemma existsb_ins_after t w a :
  is_pre_code w = false → existsb is_pre_code (ins_after t w a) = existsb is_pre_code a.
Proof.
  intros Hw. induction a as [|x a IH]; simpl; [done|].
  destruct (Nat.eqb (el_id x) t); simpl; [by rewrite Hw|by rewrite IH].
Qed.

Lemma head_ins_after t w a : head (ins_after t w a) = head a.
Proof. destruct a as [|x a]; simpl; [done|]. by destruct (Nat.eqb _ _). Qed.

Lemma entry_of_None y d : y ∉ ids d → entry_of y d = None.
Proof.
  intros Hy. unfold entry_of. destruct (List.find _ _) as [en|] eqn:H; [|done].
  exfalso. apply Hy. by apply (entry_in_ids y d en).
Qed.

Lemma entry_of_root_parent t d en par :
  entry_of t d = Some en → head (snd en) = Some par → nid_of d ≠ t.
Proof.
  destruct d as [e kids]. unfold entry_of, all_entries, nid_of. simpl.
  destruct (Nat.eqb_spec (el_id e) t); [|done]. by intros [= <-].
Qed.

Lemma NoDup_flat_map_wrap t wid (l : list nid) :
  NoDup l → wid ∉ l →
  NoDup (flat_map (fun x => if Nat.eqb x t then [wid; x] else [x]) l).
Proof.
  induction l as [|x l IH]; simpl; [constructor|].
  intros [Hx Hnd]%NoDup_cons [Hwx Hw]%not_elem_of_cons.
  assert (∀ y, y ∈ flat_map (fun x => if Nat.eqb x t then [wid; x] else [x]) l →
               y = wid ∧ t ∈ l ∨ y ∈ l) as Hin.
  { intros y Hy. apply list_elem_of_In, in_flat_map in Hy as (z & Hz & Hy).
    apply list_elem_of_In in Hz. destruct (Nat.eqb_spec z t) as [->|_].
    - destruct Hy as [<-|[<-|[]]]; [by left|by right].
    - destruct Hy as [<-|[]]. by right. }
  destruct (Nat.eqb_spec x t) as [->|Hxt].
  - simpl. apply NoDup_cons. split.
    + intros [->|Hy]%elem_of_cons; [done|]. apply Hin in Hy as [[_ ?]|?]; done.
    + apply NoDup_cons. split; [|by apply IH].
      intros Hy%Hin. destruct Hy as [[-> _]|?]; done.
  - simpl. apply NoDup_cons. split; [|by apply IH].
    intros Hy%Hin. destruct Hy as [[-> _]|?]; done.
Qed.

Lemma nid_wrap_at t w n : nid_of (wrap_at t w n) = nid_of n.
Proof. by destruct n. Qed.

Lemma subtrees_wrap_at t w n m :
  NoDup (ids n) → m ∈ subtrees n → wrap_at t w m ∈ subtrees (wrap_at t w n).
Proof.
  induction n as [e kids IH] using node_induction. intros Hnd Hm.
  cbn [subtrees] in Hm. apply elem_of_cons in Hm as [->|Hm]; [apply subtrees_root|].
  apply list_elem_of_In, in_flat_map in Hm as (k & Hk%list_elem_of_In & Hm%list_elem_of_In).
  pose proof (NoDup_kids e kids Hnd) as Hks. rewrite Forall_forall in Hks, IH.
  specialize (IH k Hk (Hks k Hk) Hm).
  cbn [wrap_at subtrees]. apply elem_of_cons. right.
  apply list_elem_of_In, in_flat_map.
  exists (if Nat.eqb (nid_of k) t then Node w [k] else wrap_at t w k). split.
  - apply in_map_iff. exists k. split; [done|by apply list_elem_of_In].
  - apply list_elem_of_In. destruct (Nat.eqb_spec (nid_of k) t) as [Hkt|_]; [|done].
    rewrite (wrap_at_noref t w k) in IH.
    + apply (subtrees_kid _ k (Node w [k])); [by apply list_elem_of_singleton|done].
    + rewrite <- Hkt. by apply NoDup_root_proper, Hks.
Qed.

Lemma subtrees_wrapper t w n T :
  NoDup (ids n) → nid_of n ≠ t → T ∈ subtrees n → nid_of T = t →
  Node w [T] ∈ subtrees (wrap_at t w n).
Proof.
  induction n as [e kids IH] using node_induction. intros Hnd Hroot HT Hid.
  cbn [subtrees] in HT. apply elem_of_cons in HT as [->|HT]; [done|].
  apply list_elem_of_In, in_flat_map in HT as (k & Hk%list_elem_of_In & HT%list_elem_of_In).
  pose proof (NoDup_kids e kids Hnd) as Hks. rewrite Forall_forall in Hks, IH.
  cbn [wrap_at subtrees]. apply elem_of_cons. right.
  apply list_elem_of_In, in_flat_map.
  exists (if Nat.eqb (nid_of k) t then Node w [k] else wrap_at t w k). split.
  - apply in_map_iff. exists k. split; [done|by apply list_elem_of_In].
  - apply list_elem_of_In. destruct (Nat.eqb_spec (nid_of k) t) as [Hkt|Hkt].
    + assert (k = T) as ->; [|apply subtrees_root].
      pose proof (subtree_of k T (Hks k Hk) HT) as H1.
      pose proof (subtree_of k k (Hks k Hk) (subtrees_root k)) as H2.
      rewrite Hid in H1. rewrite Hkt in H2. congruence.
    + apply IH; [done|by apply Hks|done|done|done].
Qed.

Lemma elem_of_flat_map_wrap t wid (l : list nid) y :
  t ∈ l →
  y ∈ flat_map (fun x => if Nat.eqb x t then [wid; x] else [x]) l ↔ y = wid ∨ y ∈ l.
Proof.
  intros Ht. rewrite list_elem_of_In, in_flat_map. split.
  - intros (z & Hz%list_elem_of_In & Hy). destruct (Nat.eqb z t).
    + destruct Hy as [<-|[<-|[]]]; [by left|by right].
    + destruct Hy as [<-|[]]. by right.
  - intros [->|Hy].
    + exists t. split; [by apply list_elem_of_In|]. rewrite Nat.eqb_refl. by left.
    + exists y. split; [by apply list_elem_of_In|].
      destruct (Nat.eqb y t); [right|]; by left.
Qed.

Section Step.

Context (next : nid) (d : node) (t : nid) (te par : element) (anc : list element).
Hypothesis Hwf : wf next d.
Hypothesis Ht : entry_of t d = Some (te, par :: anc).

Let w := wrapper next.
Let d' := wrap_at t w d.

Lemma step_entries : all_entries d' = flat_map (shift t w) (all_entries d).
Proof.
  apply entries_wrap_at; [apply Hwf|apply not_elem_of_nil|].
  by apply (entry_of_root_parent t d _ par Ht).
Qed.

Lemma step_ids :
  ids d' = flat_map (fun x => if Nat.eqb x t then [next; x] else [x]) (ids d).
Proof.
  unfold ids, elements. rewrite step_entries, !map_map, map_flat_map, flat_map_map.
  apply flat_map_ext_Forall, Forall_forall. intros en _. unfold shift.
  by destruct (Nat.eqb _ _).
Qed.

Lemma step_t_lt : (t < next)%nat.
Proof.
  destruct Hwf as [_ Hall]. rewrite Forall_forall in Hall. apply Hall.
  by apply (entry_in_ids t d _ Ht).
Qed.

Lemma step_wf : wf (S next) d'.
Proof.
  split; rewrite step_ids.
  - apply NoDup_flat_map_wrap; [apply Hwf|]. apply (wf_fresh next); [done|lia].
  - destruct Hwf as [_ Hall]. apply Forall_forall. intros y Hy.
    apply list_elem_of_In, in_flat_map in Hy as (z & Hz & Hy).
    rewrite Forall_forall in Hall. specialize (Hall z (proj2 (list_elem_of_In _ _) Hz)).
    destruct (Nat.eqb z t); simpl in Hy; destruct Hy as [<-|Hy]; try lia;
      destruct Hy as [<-|[]]; lia.
Qed.

Lemma step_in en : en ∈ all_entries d → ∀ en', In en' (shift t w en) → en' ∈ all_entries d'.
Proof.
  intros Hen en' Hen'. rewrite step_entries. apply list_elem_of_In, in_flat_map.
  exists en. split; [by apply list_elem_of_In|done].
Qed.

Lemma entry_of_elem y en : entry_of y d = Some en → en ∈ all_entries d ∧ el_id (fst en) = y.
Proof.
  unfold entry_of. intros [Hin Hy]%find_some. split; [by apply list_elem_of_In|].
  by apply Nat.eqb_eq.
Qed.

Lemma step_other y e a :
  y ≠ t → entry_of y d = Some (e, a) → entry_of y d' = Some (e, ins_after t w a).
Proof.
  intros Hy He. destruct (entry_of_elem y _ He) as [Hin Hid]. simpl in Hid.
  rewrite <- Hid. apply (entry_of_in d' (e, ins_after t w a)); [apply step_wf|].
  apply (step_in _ Hin). unfold shift. simpl. rewrite Hid.
  apply Nat.eqb_neq in Hy as ->. by left.
Qed.

Lemma step_self : entry_of t d' = Some (te, w :: par :: anc).
Proof.
  destruct (entry_of_elem t _ Ht) as [Hin Hid]. simpl in Hid.
  rewrite <- Hid at 1. apply (entry_of_in d' (te, w :: par :: anc)); [apply step_wf|].
  apply (step_in _ Hin). unfold shift. simpl. rewrite Hid, Nat.eqb_refl. right. by left.
Qed.

Lemma step_wrapper : entry_of next d' = Some (w, par :: anc).
Proof.
  destruct (entry_of_elem t _ Ht) as [Hin Hid]. simpl in Hid.
  apply (entry_of_in d' (w, par :: anc)); [apply step_wf|].
  apply (step_in _ Hin). unfold shift. simpl. rewrite Hid, Nat.eqb_refl. by left.
Qed.

Lemma step_none y : entry_of y d = None → y ≠ next → entry_of y d' = None.
Proof.
  intros Hnone Hy. apply entry_of_None. rewrite step_ids. intros Hin.
  apply list_elem_of_In, in_flat_map in Hin as (z & Hz & Hin).
  assert (y = z) as ->.
  { destruct (Nat.eqb z t); simpl in Hin; destruct Hin as [<-|Hin]; try done;
      destruct Hin as [<-|[]]; done. }
  apply list_elem_of_In in Hz. unfold ids, elements in Hz. rewrite map_map in Hz.
  apply list_elem_of_fmap in Hz as (en & Hid & Hen).
  pose proof (entry_of_in d en (proj1 Hwf) Hen) as H. rewrite <- Hid in H. congruence.
Qed.

Lemma step_get y : y ≠ next → get y d' = get y d.
Proof.
  intros Hy. unfold get. destruct (entry_of y d) as [[e a]|] eqn:He.
  - destruct (decide (y = t)) as [->|Hyt].
    + rewrite Ht in He. injection He as <- <-. by rewrite step_self.
    + by rewrite (step_other y e a).
  - by rewrite step_none.
Qed.

Lemma step_get_wrapper : get next d' = Some w.
Proof. unfold get. by rewrite step_wrapper. Qed.

Lemma step_parent_other y : y ≠ t → y ≠ next → parentElement y d' = parentElement y d.
Proof.
  intros Hyt Hyn. unfold parentElement.
  destruct (entry_of y d) as [[e a]|] eqn:He.
  - rewrite (step_other y e a) by done. simpl. by rewrite head_ins_after.
  - by rewrite step_none.
Qed.

Lemma step_parent_self : parentElement t d' = Some w.
Proof. unfold parentElement. by rewrite step_self. Qed.

Lemma step_parent_wrapper : parentElement next d' = parentElement t d.
Proof. unfold parentElement. by rewrite step_wrapper, Ht. Qed.

Lemma step_needs_other y : y ≠ t → y ≠ next → needs_wrap d' y = needs_wrap d y.
Proof.
  intros Hyt Hyn. unfold needs_wrap, parentElement, closest.
  destruct (entry_of y d) as [[e a]|] eqn:He.
  - rewrite (step_other y e a) by done. cbn [mbind option_bind fst snd].
    rewrite head_ins_after. destruct (head a) as [pa|]; [|done]. f_equal.
    rewrite !closest_in_pre_code. cbn [existsb]. by rewrite existsb_ins_after.
  - by rewrite step_none.
Qed.

Lemma step_needs_self : needs_wrap d' t = false.
Proof. unfold needs_wrap. by rewrite step_parent_self. Qed.

Lemma step_tables : querySelectorAll V1.sel_table d' = querySelectorAll V1.sel_table d.
Proof.
  unfold querySelectorAll. rewrite step_entries.
  induction (all_entries d) as [|en l IH]; [done|]. cbn [flat_map].
  rewrite List.filter_app, List.map_app, IH. cbn [List.filter].
  rewrite matches_table. unfold shift.
  destruct (Nat.eqb (el_id (fst en)) t); cbn [List.filter fst snd];
    rewrite ?matches_table; change (is_table w) with false;
    by destruct (is_table (fst en)).
Qed.

Lemma step_mem y : y ∈ ids d' ↔ y = next ∨ y ∈ ids d.
Proof. rewrite step_ids. apply elem_of_flat_map_wrap. by apply (entry_in_ids t d _ Ht). Qed.

Lemma step_root : nid_of d ≠ t.
Proof. by apply (entry_of_root_parent t d _ par Ht). Qed.

Lemma step_subtree y m : subtree y d = Some m → subtree y d' = Some (wrap_at t w m).
Proof.
  intros Hm. pose proof (subtree_nid _ _ _ Hm) as Hid.
  unfold subtree in Hm. apply find_some in Hm as [Hm%list_elem_of_In _].
  rewrite <- Hid, <- (nid_wrap_at t w m). apply subtree_of; [apply step_wf|].
  apply subtrees_wrap_at; [apply Hwf|done].
Qed.

Lemma step_subtree_none y : y ≠ next → subtree y d = None → subtree y d' = None.
Proof.
  intros Hy Hnone. apply subtree_None. rewrite step_mem. intros [?|Hin]; [done|].
  rewrite ids_subtrees in Hin. apply list_elem_of_fmap in Hin as (m & -> & Hm).
  by rewrite (subtree_of d m) in Hnone by (apply Hwf || done).
Qed.

Lemma step_kids y :
  y ≠ next →
  child_ids y d' = map (fun c => if Nat.eqb c t then next else c) <$> child_ids y d.
Proof.
  intros Hy. unfold child_ids. destruct (subtree y d) as [m|] eqn:Hm.
  - rewrite (step_subtree y m Hm). cbn [fmap option_fmap option_map]. f_equal.
    destruct m as [e kids]. cbn [wrap_at children]. rewrite !map_map.
    apply map_ext. intros k. destruct (Nat.eqb (nid_of k) t); [done|apply nid_wrap_at].
  - by rewrite step_subtree_none.
Qed.

Lemma step_kids_wrapper : child_ids next d' = Some [t].
Proof.
  destruct (subtree_is_Some t d) as [T HT]; [by eexists|].
  pose proof (subtree_nid _ _ _ HT) as Hid.
  unfold subtree in HT. apply find_some in HT as [HT%list_elem_of_In _].
  unfold child_ids.
  change next with (nid_of (Node w [T])) at 1.
  rewrite (subtree_of d' (Node w [T])).
  - cbn [fmap option_fmap option_map children map]. by rewrite Hid.
  - apply step_wf.
  - apply subtrees_wrapper; [apply Hwf|apply step_root|done|done].
Qed.

End Step.

End WrapStep.

(** *** The whole pass *)

Module WrapPass.

Import Dom Page DomFacts PageFacts ShapeFacts WrapFacts WrapOrder WrapStep.

(** The tables of [l] that the pass wraps: those with a parent without the
    class [table-wrap] and with no [pre] or [code] around them. *)
Definition to_wrap (d : node) (l : list nid) : list nid := List.filter (needs_wrap d) l.

(** The child found after the pass where [c] was: the wrapper [n + i] in the
    place of the [i]-th wrapped table. *)
Fixpoint rename (W : list nid) (n : nid) (c : nid) : nid :=
  match W with
  | [] => c
  | t :: W' => if Nat.eqb c t then n else rename W' (S n) c
  end.

(** What the pass over the tables [W] makes of the page [q]. *)
Record effect (q q' : page) (W : list nid) : Prop := Effect {
  eff_wf : wf (next_id q') (tree q');
  eff_next : next_id q' = (next_id q + length W)%nat;
  eff_ids : ∀ y, y ∈ ids (tree q')
                 ↔ y ∈ ids (tree q) ∨ (next_id q <= y < next_id q + length W)%nat;
  eff_tables : queryAll V1.sel_table q' = queryAll V1.sel_table q;
  eff_get : ∀ y, (y < next_id q)%nat → get y (tree q') = get y (tree q);
  eff_parent : ∀ y, (y < next_id q)%nat → y ∉ W →
               parentElement y (tree q') = parentElement y (tree q);
  eff_needs : ∀ y, (y < next_id q)%nat → y ∉ W →
              needs_wrap (tree q') y = needs_wrap (tree q) y;
  eff_done : ∀ y, y ∈ W → needs_wrap (tree q') y = false;
  eff_wrap : ∀ (i : nat) t, W !! i = Some t →
             let w := (next_id q + i)%nat in
             get w (tree q') = Some (wrapper w)
             ∧ child_ids w (tree q') = Some [t]
             ∧ parentElement t (tree q') = Some (wrapper w)
             ∧ parentElement w (tree q') = parentElement t (tree q);
  eff_kids : ∀ y, (y < next_id q)%nat →
             child_ids y (tree q') = map (rename W (next_id q)) <$> child_ids y (tree q)
}.

Lemma rename_notin W n c : c ∉ W → rename W n c = c.
Proof.
  revert n. induction W as [|t W IH]; intros n Hc; [done|].
  apply not_elem_of_cons in Hc as [Hct Hc]. cbn [rename].
  apply Nat.eqb_neq in Hct as ->. by apply IH.
Qed.

Lemma needs_entry d t :
  needs_wrap d t = true → ∃ te par anc, entry_of t d = Some (te, par :: anc).
Proof.
  unfold needs_wrap, parentElement.
  destruct (entry_of t d) as [[te [|par anc]]|]; simpl; try done. eauto.
Qed.

Lemma to_wrap_subset d l y : y ∈ to_wrap d l → y ∈ l.
Proof. unfold to_wrap. rewrite !list_elem_of_In, filter_In. by intros [? _]. Qed.

Lemma to_wrap_needs d l y : y ∈ l → y ∉ to_wrap d l → needs_wrap d y = false.
Proof.
  unfold to_wrap. rewrite !list_elem_of_In, filter_In. intros Hy Hn.
  destruct (needs_wrap d y); [|done]. by destruct Hn.
Qed.

Lemma to_wrap_step next d t te par anc l :
  wf next d → entry_of t d = Some (te, par :: anc) →
  t ∉ l → Forall (fun x => (x < next)%nat) l →
  to_wrap (wrap_at t (wrapper next) d) l = to_wrap d l.
Proof.
  intros Hwf Ht Htl Hl. unfold to_wrap. apply filter_ext_in. intros y Hy%list_elem_of_In.
  rewrite Forall_forall in Hl. specialize (Hl y Hy).
  apply (step_needs_other next d t te par anc Hwf Ht); [|lia].
  intros ->. done.
Qed.

Lemma step_page q t :
  wf (next_id q) (tree q) → needs_wrap (tree q) t = true →
  tree (V1.wrap_table q t) = wrap_at t (wrapper (next_id q)) (tree q)
  ∧ next_id (V1.wrap_table q t) = S (next_id q).
Proof. intros Hwf Hn. rewrite (wrap_step q t Hwf Hn). split; reflexivity. Qed.

Lemma fold_wrap l :
  ∀ q, wf (next_id q) (tree q) → NoDup l → Forall (fun x => (x < next_id q)%nat) l →
       effect q (foldl V1.wrap_table q l) (to_wrap (tree q) l).
Proof.
  induction l as [|t l IH]; intros q Hwf Hnd Hlt.
  { cbn [foldl to_wrap List.filter]. constructor; try done.
    - intros y. cbn [length]. split; [by left|]. intros [?|?]; [done|lia].
    - by intros y ?%elem_of_nil.
    - intros y _. destruct (child_ids y (tree q)) as [ks|]; [|done].
      cbn [fmap option_fmap option_map]. f_equal. symmetry. apply map_id. }
  apply NoDup_cons in Hnd as [Htl Hnd]. apply Forall_cons in Hlt as [Ht Hlt].
  cbn [foldl]. unfold to_wrap. cbn [List.filter]. fold (to_wrap (tree q) l).
  destruct (needs_wrap (tree q) t) eqn:Hneeds.
  2:{ rewrite (wrap_skip q t Hneeds). by apply IH. }
  destruct (needs_entry _ _ Hneeds) as (te & par & anc & Hent).
  destruct (step_page q t Hwf Hneeds) as [Htree Hnext].
  set (n := next_id q) in *. set (d := tree q) in *.
  pose proof (step_wf n d t te par anc Hwf Hent) as Hwf1.
  assert (to_wrap (tree (V1.wrap_table q t)) l = to_wrap d l) as HW.
  { rewrite Htree. by apply (to_wrap_step n d t te par anc). }
  destruct (IH (V1.wrap_table q t)) as [I1 I2 I3 I4 I5 I6 I7 I8 I9 I10].
  { by rewrite Htree, Hnext. }
  { done. }
  { rewrite Hnext. eapply Forall_impl; [exact Hlt|]. intros x Hx. simpl in Hx. lia. }
  rewrite HW, Hnext in I2. rewrite HW, Hnext, Htree in I3. rewrite Hnext, Htree in I5.
  rewrite HW, Hnext, Htree in I6. rewrite HW, Hnext, Htree in I7. rewrite HW in I8.
  rewrite HW, Hnext, Htree in I9. rewrite HW, Hnext, Htree in I10.
  unfold queryAll in I4 at 2. rewrite Htree in I4. clear IH HW.
  set (q' := foldl V1.wrap_table (V1.wrap_table q t) l) in *.
  set (W := to_wrap d l) in *.
  assert (∀ y, y ∈ W → y ≠ t ∧ (y < n)%nat) as HWl.
  { intros y Hy%to_wrap_subset. rewrite Forall_forall in Hlt. split; [|by apply Hlt].
    by intros ->. }
  assert (n ∉ W) as HnW by (intros [_ ?]%HWl; lia).
  assert (t ∉ W) as HtW by (by intros [? _]%HWl).
  constructor.
  - done.
  - rewrite I2. cbn [length]. lia.
  - intros y. rewrite I3, (step_mem n d t te par anc Hwf Hent). cbn [length]. split.
    + intros [[->|?]|?]; [right; lia|by left|right; lia].
    + intros [?|?]; [left; by right|].
      destruct (decide (y = n)) as [->|?]; [left; by left|right; lia].
  - rewrite I4. unfold queryAll.
    apply (step_tables n d t te par anc Hwf Hent).
  - intros y Hy. rewrite I5 by lia.
    apply (step_get n d t te par anc Hwf Hent). lia.
  - intros y Hy [Hyt HyW]%not_elem_of_cons. rewrite I6 by (done || lia).
    apply (step_parent_other n d t te par anc Hwf Hent); [done|lia].
  - intros y Hy [Hyt HyW]%not_elem_of_cons. rewrite I7 by (done || lia).
    apply (step_needs_other n d t te par anc Hwf Hent); [done|lia].
  - intros y [->|Hy]%elem_of_cons; [|by apply I8].
    rewrite I7 by (done || lia).
    apply (step_needs_self n d t te par anc Hwf Hent).
  - intros [|i] t' Hi.
    + cbn in Hi. injection Hi as <-. change (next_id q) with n.
      replace (n + 0)%nat with n by lia. cbn zeta.
      split_and!.
      * rewrite I5 by lia. apply (step_get_wrapper n d t te par anc Hwf Hent).
      * rewrite I10 by lia. rewrite (step_kids_wrapper n d t te par anc Hwf Hent).
        cbn [fmap option_fmap option_map map]. by rewrite rename_notin.
      * rewrite I6 by (done || lia). apply (step_parent_self n d t te par anc Hwf Hent).
      * rewrite I6 by (done || lia).
        apply (step_parent_wrapper n d t te par anc Hwf Hent).
    + cbn in Hi. destruct (I9 i t' Hi) as (J1 & J2 & J3 & J4).
      change (next_id q) with n.
      replace (n + S i)%nat with (S n + i)%nat by lia. cbn zeta. split_and!; try done.
      rewrite J4. destruct (HWl t') as [? ?]; [by eapply list_elem_of_lookup_2|].
      apply (step_parent_other n d t te par anc Hwf Hent); [done|lia].
  - intros y Hy. change (tree q) with d. change (next_id q) with n.
    rewrite I10 by lia. rewrite (step_kids n d t te par anc Hwf Hent) by lia.
    destruct (child_ids y d) as [ks|]; [|done].
    cbn [fmap option_fmap option_map]. f_equal. rewrite map_map. apply map_ext.
    intros c. cbn [rename]. destruct (Nat.eqb c t); [|done]. by apply rename_notin.
Qed.

(** The tables in document order, and those of them the pass wraps. *)
Definition tables (p : page) : list nid := queryAll V1.sel_table p.
Definition wrapped (p : page) : list nid := to_wrap (tree p) (tables p).

Lemma pass_effect p :
  wf (next_id p) (tree p) → effect p (V1.initTableWrap p) (wrapped p).
Proof.
  intros Hwf. unfold V1.initTableWrap, wrapped, tables. apply fold_wrap; [done| |].
  - apply NoDup_query, Hwf.
  - by apply query_lt.
Qed.

Lemma pass_done p t :
  wf (next_id p) (tree p) → t ∈ tables p → needs_wrap (tree (V1.initTableWrap p)) t = false.
Proof.
  intros Hwf Ht. destruct (pass_effect p Hwf) as [_ _ _ _ _ _ I7 I8 _ _].
  destruct (decide (t ∈ wrapped p)) as [Hin|Hnot]; [by apply I8|].
  rewrite I7; [by apply (to_wrap_needs _ (tables p))| |done].
  pose proof (query_lt V1.sel_table _ _ Hwf) as Hlt. rewrite Forall_forall in Hlt.
  by apply Hlt.
Qed.

Lemma wrap_pass_idem p :
  wf (next_id p) (tree p) → V1.initTableWrap (V1.initTableWrap p) = V1.initTableWrap p.
Proof.
  intros Hwf. unfold V1.initTableWrap at 1. apply fold_fixed. intros t Ht.
  apply wrap_skip. apply pass_done; [done|].
  destruct (pass_effect p Hwf) as [_ _ _ I4 _ _ _ _ _ _]. unfold tables. by rewrite <- I4.
Qed.

Lemma needs_wrap_spec d t :
  needs_wrap d t = true
  ↔ ∃ par, parentElement t d = Some par
           ∧ classList_contains "table-wrap" par = false
           ∧ closest V1.sel_pre_code t d = None.
Proof.
  unfold needs_wrap. split.
  - destruct (parentElement t d) as [par|]; [|done].
    destruct (classList_contains "table-wrap" par) eqn:Hc; [done|].
    destruct (closest V1.sel_pre_code t d); [done|]. intros _. by exists par.
  - intros (par & -> & -> & ->). done.
Qed.

Lemma elem_of_wrapped p t :
  t ∈ wrapped p ↔ t ∈ tables p ∧ needs_wrap (tree p) t = true.
Proof. unfold wrapped, to_wrap. by rewrite !list_elem_of_In, filter_In. Qed.

End WrapPass.

(** C6.  The table-wrap pass, in both versions, on a document with unique
    handles.  The tables it wraps are those with a parent that has not the
    class [table-wrap] and with no [pre] or [code] around them.  The [i]-th
    of them (in document order) gets the new element [next_id p + i], a
    [div.table-wrap] with the table as its only child and with the parent
    the table had; among the children of every element of before, a wrapped
    table is found replaced by its wrapper and nothing else moves.  These
    wrappers are the only new elements, the other tables keep their parent,
    and a second run of the pass changes nothing. *)
Theorem table_wrap_idempotent (p : Page.page) :
  Dom.wf (Page.next_id p) (Page.tree p) →
  ∀ init, init = V1.initTableWrap ∨ init = V2.initTableWrap →
  let q := init p in
  let W := WrapPass.wrapped p in
  let n := Page.next_id p in
  (∀ t, t ∈ W
        ↔ t ∈ Page.queryAll V1.sel_table p
          ∧ ∃ par, Dom.parentElement t (Page.tree p) = Some par
                   ∧ Dom.classList_contains "table-wrap" par = false
                   ∧ Dom.closest V1.sel_pre_code t (Page.tree p) = None)
  ∧ (∀ (i : nat) t, W !! i = Some t →
       let w := (n + i)%nat in
       Page.el w q = Some (WrapFacts.wrapper w)
       ∧ ShapeFacts.child_ids w (Page.tree q) = Some [t]
       ∧ Dom.parentElement t (Page.tree q) = Some (WrapFacts.wrapper w)
       ∧ Dom.parentElement w (Page.tree q) = Dom.parentElement t (Page.tree p))
  ∧ (∀ y, (y < n)%nat →
       ShapeFacts.child_ids y (Page.tree q)
       = map (WrapPass.rename W n) <$> ShapeFacts.child_ids y (Page.tree p))
  ∧ (∀ y, y ∈ Dom.ids (Page.tree q)
          ↔ y ∈ Dom.ids (Page.tree p) ∨ (n <= y < n + length W)%nat)
  ∧ NoDup (Dom.ids (Page.tree q))
  ∧ (∀ t, t ∈ Page.queryAll V1.sel_table p → t ∉ W →
       Dom.parentElement t (Page.tree q) = Dom.parentElement t (Page.tree p))
  ∧ init q = q.
Proof.
  intros Hwf init Hver.
  assert (init = V1.initTableWrap) as ->
    by (destruct Hver as [->| ->]; [done|apply Same.initTableWrap]).
  intros q W n.
  destruct (WrapPass.pass_effect p Hwf) as [I1 I2 I3 I4 I5 I6 I7 I8 I9 I10].
  split_and!.
  - intros t. unfold W. rewrite WrapPass.elem_of_wrapped, WrapPass.needs_wrap_spec. done.
  - exact I9.
  - exact I10.
  - exact I3.
  - apply I1.
  - intros t Ht HtW. apply I6; [|done].
    pose proof (ShapeFacts.query_lt V1.sel_table _ _ Hwf) as Hlt.
    rewrite Forall_forall in Hlt. by apply Hlt.
  - by apply WrapPass.wrap_pass_idem.
Qed.

Lemma table_wrap_idempotent_witness :
  let q := V2.initTableWrap Sample.page0 in
  WrapPass.wrapped Sample.page0 = [10; 12]%nat
  ∧ Dom.parentElement 10 (Page.tree q) = Some (WrapFacts.wrapper 27)
  ∧ ShapeFacts.child_ids 27 (Page.tree q) = Some [10%nat]
  ∧ ShapeFacts.child_ids 8 (Page.tree q)
    = Some [9; 27; 13; 15; 17; 18; 19; 20; 21; 22]%nat
  ∧ Dom.parentElement 14 (Page.tree q) = Dom.parentElement 14 (Page.tree Sample.page0)
  ∧ V2.initTableWrap q = q.
Proof.
  intros q.
  destruct (table_wrap_idempotent Sample.page0) with (init := V2.initTableWrap)
    as (_ & Hwrap & Hkids & _ & _ & Hrest & Hidem).
  - unfold Dom.wf. apply (bool_decide_unpack _). vm_compute. reflexivity.
  - by right.
  - fold q in Hwrap, Hkids, Hrest, Hidem.
    destruct (Hwrap 0%nat 10%nat) as (_ & Hw & Hp & _); [vm_compute; reflexivity|].
    split_and!.
    + vm_compute. reflexivity.
    + exact Hp.
    + exact Hw.
    + rewrite (Hkids 8%nat) by (vm_compute; lia). vm_compute. reflexivity.
    + apply Hrest; apply (bool_decide_unpack _); vm_compute; reflexivity.
    + exact Hidem.
Defined.

(** ** The passes of [boot], in any order *)

Module Passes.

Import Dom Page.

Inductive version := First | Second.

Inductive pass :=
  | MobileMenu | Anchors | ActiveNav | TableWrap | CopyLinks | LazyIframes
  | ExternalLinks | AmazonMetaChip.

Definition run (v : version) (ps : pass) : page → page :=
  match v, ps with
  | First, MobileMenu => V1.initMobileMenu
  | First, Anchors => V1.initAnchors
  | First, ActiveNav => V1.initActiveNav
  | First, TableWrap => V1.initTableWrap
  | First, CopyLinks => V1.initCopyLinks
  | First, LazyIframes => V1.initLazyIframes
  | First, ExternalLinks => V1.initExternalLinks
  | First, AmazonMetaChip => V1.initAmazonMetaChip
  | Second, MobileMenu => V2.initMobileMenu
  | Second, Anchors => V2.initAnchors
  | Second, ActiveNav => V2.initActiveNav
  | Second, TableWrap => V2.initTableWrap
  | Second, CopyLinks => V2.initCopyLinks
  | Second, LazyIframes => V2.initLazyIframes
  | Second, ExternalLinks => V2.initExternalLinks
  | Second, AmazonMetaChip => V2.initAmazonMetaChip
  end.

Definition runs (v : version) (l : list pass) (p : page) : page :=
  foldl (fun q ps => run v ps q) p l.

(** The order of [boot]. *)
Definition boot_order : list pass :=
  [MobileMenu; Anchors; ActiveNav; TableWrap; CopyLinks; LazyIframes; ExternalLinks;
   AmazonMetaChip].

Lemma boot_runs_first p : V1.boot p = runs First boot_order p.
Proof. reflexivity. Qed.

Lemma boot_runs_second p : V2.boot p = runs Second boot_order p.
Proof. reflexivity. Qed.

End Passes.

Module FrameFacts.

Import Dom Page DomFacts PageFacts ShapeFacts Passes.

(** What the hardening pass reads of an element. *)
Definition same_link (e e' : element) : Prop :=
  tagName e' = tagName e
  ∧ getAttribute "target" e' = getAttribute "target" e
  ∧ getAttribute "rel" e' = getAttribute "rel" e.

Definition is_blank (e : element) : bool :=
  bool_decide (tagName e = "a") && bool_decide (getAttribute "target" e = Some "_blank").

(** Between [q] and [q'] the links are the same: no element is lost, none
    changes tag, [target] or [rel], and no new-tab link is made. *)
Record stable (q q' : page) : Prop := Stable {
  st_wf : wf (next_id q') (tree q');
  st_old : ∀ x e, el x q = Some e → ∃ e', el x q' = Some e' ∧ same_link e e';
  st_new : ∀ x e', el x q' = Some e' → is_blank e' = true →
           ∃ e, el x q = Some e ∧ same_link e e'
}.

(** Every new-tab link has a [rel] the pass would write again. *)
Definition hardened (q : page) : Prop :=
  ∀ x e, el x q = Some e → is_blank e = true → V1.harden e = e.

Lemma matches_blank e anc : matches V1.sel_blank e anc = is_blank e.
Proof.
  unfold matches, V1.sel_blank, matches_complex, matches_compound, is_blank. simpl.
  by rewrite !andb_true_r, orb_false_r.
Qed.

Lemma same_link_refl e : same_link e e.
Proof. by repeat split. Qed.

Lemma same_link_trans e1 e2 e3 : same_link e1 e2 → same_link e2 e3 → same_link e1 e3.
Proof. intros (?&?&?) (?&?&?). repeat split; congruence. Qed.

Lemma same_link_blank e e' : same_link e e' → is_blank e' = is_blank e.
Proof. intros (Ht & Ha & _). unfold is_blank. by rewrite Ht, Ha. Qed.

Lemma same_link_at_id h f e : (∀ e, same_link e (f e)) → same_link e (at_id h f e).
Proof. intros Hf. unfold at_id. destruct (Nat.eqb _ _); [apply Hf|apply same_link_refl]. Qed.

Lemma same_link_setAttribute a v e :
  a ≠ "target" → a ≠ "rel" → same_link e (setAttribute a v e).
Proof.
  intros H1 H2. unfold same_link, getAttribute, setAttribute. simpl.
  by rewrite !lookup_insert_ne.
Qed.

Lemma stable_refl q : wf (next_id q) (tree q) → stable q q.
Proof. intros Hwf. split; [done| |]; intros x e He; eauto using same_link_refl. Qed.

Lemma stable_trans q1 q2 q3 : stable q1 q2 → stable q2 q3 → stable q1 q3.
Proof.
  intros [W1 O1 N1] [W2 O2 N2]. split; [done| |].
  - intros x e He. destruct (O1 x e He) as (e2 & He2 & Hs2).
    destruct (O2 x e2 He2) as (e3 & He3 & Hs3). eauto using same_link_trans.
  - intros x e3 He3 Hb. destruct (N2 x e3 He3 Hb) as (e2 & He2 & Hs2).
    rewrite (same_link_blank _ _ Hs2) in Hb.
    destruct (N1 x e2 He2 Hb) as (e & He & Hs). eauto using same_link_trans.
Qed.

(** A change of the script's variables only. *)
Lemma stable_state q q' :
  wf (next_id q) (tree q) → tree q' = tree q → next_id q' = next_id q → stable q q'.
Proof.
  intros Hwf Ht Hn. split; unfold el; rewrite ?Ht, ?Hn; [done| |];
    intros x e He; eauto using same_link_refl.
Qed.

Lemma stable_on_el q h f :
  wf (next_id q) (tree q) → keeps_id f → (∀ e, same_link e (f e)) →
  stable q (on_el h f q).
Proof.
  intros Hwf Hid Hf. split.
  - change (wf (next_id q) (update h f (tree q))). by apply wf_update.
  - intros x e He. rewrite el_on_el, He by done. eexists. split; [done|].
    by apply same_link_at_id.
  - intros x e' He' _. rewrite el_on_el in He' by done.
    destruct (el x q) as [e|]; [|done]. injection He' as <-. exists e. split; [done|].
    by apply same_link_at_id.
Qed.

Lemma stable_fold {A} (f : page → A → page) l :
  (∀ q a, wf (next_id q) (tree q) → stable q (f q a)) →
  ∀ q, wf (next_id q) (tree q) → stable q (foldl f q l).
Proof.
  intros Hf. induction l as [|a l IH]; intros q Hwf; [by apply stable_refl|].
  cbn [foldl]. pose proof (Hf q a Hwf) as Hs.
  apply (stable_trans q (f q a)); [done|]. apply IH, Hs.
Qed.

(** Appending a new element that is not a new-tab link. *)
Lemma stable_leaf q q' h c :
  wf (next_id q) (tree q) → el_id c = next_id q → is_blank c = false →
  tree q' = appendChild h (Node c []) (tree q) → next_id q' = S (next_id q) →
  stable q q'.
Proof.
  intros Hwf Hc Hb Ht Hn.
  assert (tree q' = append_under h (Node c []) (tree q)) as Ht'.
  { rewrite Ht. unfold appendChild. rewrite remove_fresh; [done|].
    unfold nid_of. simpl. rewrite Hc. by apply (wf_fresh (next_id q)). }
  assert (∀ x, x ≠ next_id q → el x q' = el x q) as Hother.
  { intros x Hx. unfold el. rewrite Ht'. apply get_append_under.
    rewrite ids_node. simpl. rewrite Hc. by intros ?%list_elem_of_singleton. }
  split.
  - rewrite Ht', Hn. by apply wf_append_leaf.
  - intros x e He. exists e. split; [|apply same_link_refl]. rewrite Hother; [done|].
    pose proof (get_lt _ _ _ _ Hwf He). lia.
  - intros x e' He' Hb'. exists e'. split; [|apply same_link_refl].
    destruct (decide (x = next_id q)) as [->|Hx]; [|by rewrite <- Hother].
    exfalso. unfold el in He'. rewrite Ht' in He'.
    pose proof (get_el_id _ _ _ He') as Hid. apply get_in_elements in He'.
    apply elem_of_append_under in He' as [Hin|Hin]; [| |apply Hwf].
    + apply (wf_fresh (next_id q) (tree q) (next_id q) Hwf); [lia|].
      rewrite <- Hid. by apply list_elem_of_fmap_2.
    + rewrite elements_node in Hin. simpl in Hin.
      apply list_elem_of_singleton in Hin as ->. congruence.
Qed.

(** *** Each pass but the hardening *)

Lemma stable_initMobileMenu q :
  wf (next_id q) (tree q) → stable q (V1.initMobileMenu q).
Proof.
  intros Hwf. unfold V1.initMobileMenu.
  destruct (V1.or_el (query (V1.sel_id "navToggle") q) _) as [btn|];
    [|by apply stable_refl].
  destruct (V1.or_el (query (V1.sel_id "mobile-nav") q) _) as [drawer|];
    [|by apply stable_refl].
  destruct (V1.or_el (query (V1.sel_id "navScrim") q) _) as [scrim|];
    [|by apply stable_refl].
  destruct (el drawer q) as [d|]; [|by apply stable_state].
  destruct (hasAttribute "tabindex" d); [by apply stable_state|].
  apply (stable_trans q (on_el drawer (setAttribute "tabindex" "-1") q)).
  - apply stable_on_el; [done|auto with dom|]. intros e. by apply same_link_setAttribute.
  - apply stable_state; [|done|done].
    change (wf (next_id q) (update drawer (setAttribute "tabindex" "-1") (tree q))).
    apply wf_update; [auto with dom|done].
Qed.

Lemma same_menu_wiring : V2.initMobileMenu = V1.initMobileMenu.
Proof. Same.unfold_versions. reflexivity. Qed.

Lemma stable_initActiveNav q :
  wf (next_id q) (tree q) → stable q (V1.initActiveNav q).
Proof.
  intros Hwf. unfold V1.initActiveNav.
  destruct (_ || _); [by apply stable_refl|].
  case_bool_decide; [by apply stable_refl|]. by apply stable_state.
Qed.

Lemma stable_initTableWrap q :
  wf (next_id q) (tree q) → stable q (V1.initTableWrap q).
Proof.
  intros Hwf.
  destruct (WrapPass.pass_effect q Hwf) as [I1 I2 I3 _ I5 _ _ _ I9 _].
  split; [done| |].
  - intros x e He. exists e. split; [|apply same_link_refl]. unfold el.
    rewrite I5; [done|]. by apply (get_lt _ _ _ _ Hwf He).
  - intros x e' He' Hb. exists e'. split; [|apply same_link_refl].
    assert (x ∈ ids (tree (V1.initTableWrap q))) as Hx.
    { rewrite <- (get_el_id _ _ _ He'). apply list_elem_of_fmap_2.
      by apply (get_in_elements x). }
    apply I3 in Hx as [Hx|Hx].
    + unfold el. rewrite <- I5; [done|].
      destruct Hwf as [_ Hlt]. rewrite Forall_forall in Hlt. by apply Hlt.
    + exfalso. destruct (lookup_lt_is_Some_2 (WrapPass.wrapped q) (x - next_id q))
        as [t Ht]; [lia|].
      destruct (I9 _ _ Ht) as (Hw & _). cbn zeta in Hw.
      replace (next_id q + (x - next_id q))%nat with x in Hw by lia.
      unfold el in He'. rewrite Hw in He'. injection He' as <-. done.
Qed.

Lemma stable_add_copylink q h :
  wf (next_id q) (tree q) → stable q (V1.add_copylink q h).
Proof.
  intros Hwf. destruct (el h q) as [he|] eqn:Hh.
  2:{ rewrite CopyFacts.add_skip; [by apply stable_refl|by rewrite Hh]. }
  destruct (CopyFacts.marked he) eqn:Hm.
  { rewrite CopyFacts.add_skip; [by apply stable_refl|by rewrite Hh]. }
  pose proof (CopyFacts.add_wf q h he Hwf Hh Hm) as W.
  pose proof (CopyFacts.add_el q h he Hwf Hh Hm) as E.
  pose proof (CopyFacts.add_el_button q h he Hwf Hh Hm) as B.
  assert (∀ e, same_link e (at_id h CopyFacts.mark e)) as Hs.
  { intros e. apply same_link_at_id. intros e0. by apply same_link_setAttribute. }
  split; [done| |].
  - intros x e He. rewrite E, He; [by eexists|].
    pose proof (get_lt _ _ _ _ Hwf He). lia.
  - intros x e' He' Hb. destruct (decide (x = next_id q)) as [->|Hx].
    + rewrite B in He'. injection He' as <-. done.
    + rewrite E in He' by done. destruct (el x q) as [e|]; [|done].
      injection He' as <-. by exists e.
Qed.

Lemma stable_initCopyLinks q :
  wf (next_id q) (tree q) → stable q (V1.initCopyLinks q).
Proof.
  intros Hwf. unfold V1.initCopyLinks.
  destruct (negb _); [by apply stable_refl|].
  case_bool_decide; [by apply stable_refl|].
  apply stable_fold; [|done]. intros. by apply stable_add_copylink.
Qed.

Lemma stable_load q x : wf (next_id q) (tree q) → stable q (V1.load q x).
Proof.
  intros Hwf. unfold V1.load. destruct (el x q) as [f|]; [|by apply stable_refl].
  case_bool_decide; [by apply stable_refl|].
  pose proof (stable_on_el q x
    (setAttribute "src" (default "undefined" (getAttribute "data-src" f))) Hwf) as S1.
  specialize (S1 ltac:(auto with dom) ltac:(intros e; by apply same_link_setAttribute)).
  apply (stable_trans _ _ _ S1).
  apply stable_on_el; [apply S1|auto with dom|].
  intros e. by apply same_link_setAttribute.
Qed.

Lemma stable_initLazyIframes q :
  wf (next_id q) (tree q) → stable q (V1.initLazyIframes q).
Proof.
  intros Hwf. unfold V1.initLazyIframes.
  case_bool_decide; [by apply stable_refl|].
  destruct (negb _); [|by apply stable_state].
  apply stable_fold; [|done]. intros. by apply stable_load.
Qed.

Lemma stable_add_chip q btn : wf (next_id q) (tree q) → stable q (V1.add_chip q btn).
Proof.
  intros Hwf. unfold V1.add_chip.
  destruct (querySelector_in _ _ _); [by apply stable_refl|].
  eapply (stable_leaf q _ btn); [done| | |reflexivity|reflexivity]; done.
Qed.

Lemma stable_initAmazonMetaChip q :
  wf (next_id q) (tree q) → stable q (V1.initAmazonMetaChip q).
Proof.
  intros Hwf. unfold V1.initAmazonMetaChip.
  apply stable_fold; [|done]. intros. by apply stable_add_chip.
Qed.

(** *** The hardening pass itself *)

Lemma harden_fixed e :
  getAttribute "rel" e = Some (V1.hardened_rel (getAttribute "rel" e)) → V1.harden e = e.
Proof.
  intros H. unfold V1.harden. destruct e as [a1 a2 a3 a4 a5 a6 a7 a8 a9 a10 a11].
  unfold getAttribute in *. simpl in *. unfold setAttribute, with_attrs. simpl.
  f_equal. by apply insert_id.
Qed.

Lemma harden_same e e' : same_link e e' → V1.harden e = e → V1.harden e' = e'.
Proof.
  intros (_ & _ & Hrel) He. apply harden_fixed. rewrite Hrel.
  rewrite <- He at 1. apply LinkFacts.rel_harden.
Qed.

Lemma hardened_stable q q' : hardened q → stable q q' → hardened q'.
Proof.
  intros Hq [_ _ N] x e' He' Hb. destruct (N x e' He' Hb) as (e & He & Hs).
  apply (harden_same e); [done|]. apply (Hq x); [done|].
  by rewrite <- (same_link_blank _ _ Hs).
Qed.

Lemma blank_query q x e : el x q = Some e → is_blank e = true → x ∈ queryAll V1.sel_blank q.
Proof.
  unfold el, get, queryAll. destruct (entry_of x (tree q)) as [[e0 anc]|] eqn:Hen; [|done].
  intros [= ->] Hb. apply elem_of_query. exists (e, anc).
  unfold entry_of in Hen. apply find_some in Hen as [Hin Hid].
  split_and!; [by apply list_elem_of_In|by apply Nat.eqb_eq|by rewrite matches_blank].
Qed.

Lemma query_blank q x :
  wf (next_id q) (tree q) → x ∈ queryAll V1.sel_blank q →
  ∃ e, el x q = Some e ∧ is_blank e = true.
Proof.
  intros Hwf (en & Hin & Hid & Hm)%elem_of_query. exists (fst en).
  rewrite matches_blank in Hm. split; [|done]. unfold el, get.
  rewrite <- Hid. rewrite (WrapFacts.entry_of_in _ en); [done|apply Hwf|done].
Qed.

Lemma hardened_pass p : hardened (V1.initExternalLinks p).
Proof.
  intros x e' He' Hb. unfold V1.initExternalLinks in He'.
  rewrite NavFacts.el_fold_on_el in He'
    by (apply LinkFacts.keeps_id_harden || apply LinkFacts.harden_idem).
  destruct (el x p) as [e|] eqn:He; [|done]. injection He' as <-.
  case_bool_decide as Hx; [apply LinkFacts.harden_idem|].
  exfalso. apply Hx. by apply (blank_query p x e).
Qed.

Lemma tmap_fixed g d : (∀ e, e ∈ elements d → g e = e) → MapFacts.tmap g d = d.
Proof.
  induction d as [e kids IH] using node_induction. intros Hg.
  cbn [MapFacts.tmap]. rewrite Hg by (rewrite elements_node; apply elem_of_cons; by left).
  f_equal. rewrite <- (map_id kids) at 2. apply MapFacts.map_ext_Forall.
  rewrite Forall_forall in IH. apply Forall_forall. intros k Hk. apply IH; [done|].
  intros e' He'. apply Hg. rewrite elements_node. apply elem_of_cons. right.
  apply list_elem_of_In, in_flat_map. exists k. split; by apply list_elem_of_In.
Qed.

Lemma set_tree_same p : set_tree (tree p) p = p.
Proof. by destruct p. Qed.

Lemma pass_fixed q :
  wf (next_id q) (tree q) → hardened q → V1.initExternalLinks q = q.
Proof.
  intros Hwf Hq. rewrite LinkFacts.pass_tree. rewrite tmap_fixed; [apply set_tree_same|].
  intros e He. unfold MapFacts.on_ids. case_bool_decide as Hin; [|done].
  destruct (query_blank q _ Hwf Hin) as (e0 & He0 & Hb).
  assert (e0 = e) as ->.
  { pose proof (wf_get _ _ _ Hwf He) as Hg. unfold el in He0. congruence. }
  by apply (Hq (el_id e)).
Qed.

(** *** Any pass, any number of them *)

Lemma run_second ps : run Second ps = run First ps.
Proof.
  destruct ps; cbn [run].
  - apply same_menu_wiring.
  - Same.unfold_versions. reflexivity.
  - apply Same.initActiveNav.
  - apply Same.initTableWrap.
  - apply Same.initCopyLinks.
  - apply Same.initLazyIframes.
  - apply Same.initExternalLinks.
  - apply Same.initAmazonMetaChip.
Qed.

Lemma stable_run v ps q :
  wf (next_id q) (tree q) → hardened q → stable q (run v ps q).
Proof.
  intros Hwf Hq. assert (run v ps = run First ps) as ->
    by (destruct v; [done|apply run_second]).
  destruct ps; cbn [run].
  - by apply stable_initMobileMenu.
  - by apply stable_refl.
  - by apply stable_initActiveNav.
  - by apply stable_initTableWrap.
  - by apply stable_initCopyLinks.
  - by apply stable_initLazyIframes.
  - rewrite pass_fixed by done. by apply stable_refl.
  - by apply stable_initAmazonMetaChip.
Qed.

Lemma stable_runs v l :
  ∀ q, wf (next_id q) (tree q) → hardened q → stable q (runs v l q).
Proof.
  induction l as [|ps l IH]; intros q Hwf Hq; [by apply stable_refl|].
  unfold runs. cbn [foldl]. fold (runs v l (run v ps q)).
  pose proof (stable_run v ps q Hwf Hq) as Hs.
  apply (stable_trans _ _ _ Hs). apply IH; [apply Hs|by apply (hardened_stable q)].
Qed.

Lemma run_first v ps : run v ps = run First ps.
Proof. destruct v; [done|apply run_second]. Qed.

Lemma wf_pass p :
  wf (next_id p) (tree p) →
  wf (next_id (V1.initExternalLinks p)) (tree (V1.initExternalLinks p)).
Proof.
  intros Hwf. unfold V1.initExternalLinks. rewrite MapFacts.fold_on_el.
  change (wf (next_id p)
             (foldl (fun d a => update a V1.harden d) (tree p) (queryAll V1.sel_blank p))).
  generalize (queryAll V1.sel_blank p). intros l. revert Hwf. generalize (tree p).
  induction l as [|a l IH]; intros d Hwf; [done|]. cbn [foldl].
  apply IH. apply wf_update; [apply LinkFacts.keeps_id_harden|done].
Qed.

(** What is in [rel] after the pass stays there, whatever runs next. *)
Lemma rel_kept v l p x e :
  wf (next_id p) (tree p) → el x p = Some e → is_blank e = true →
  (el x (runs v l (run v ExternalLinks p)) ≫= getAttribute "rel")
  = Some (V1.hardened_rel (getAttribute "rel" e)).
Proof.
  intros Hwf He Hb. rewrite (run_first v ExternalLinks). cbn [run].
  pose proof (LinkFacts.el_pass p x e (blank_query p x e He Hb) He) as H1.
  destruct (stable_runs v l (V1.initExternalLinks p) (wf_pass p Hwf) (hardened_pass p))
    as [_ O _].
  destruct (O x _ H1) as (e' & -> & _ & _ & Hrel). cbn [mbind option_bind].
  rewrite Hrel. apply LinkFacts.rel_harden.
Qed.

End FrameFacts.

(** C1 (amended).  For every link [a[target="_blank"]] of a document with
    unique handles, in both versions: after the hardening pass its [rel] is
    the value [hardened_rel] makes of the old one; the tokens of that value
    include [noopener] and [noreferrer] and the lower-case form of every
    token the attribute had; and whatever passes of [boot] run afterwards,
    the hardening pass among them, in any order and any number of times,
    [rel] keeps that very value. *)
Theorem external_links_hardened (p : Page.page) (v : Passes.version) (x : Dom.nid) :
  Dom.wf (Page.next_id p) (Page.tree p) →
  x ∈ Page.queryAll V1.sel_blank p →
  ∃ e, Page.el x p = Some e
       ∧ let rel := V1.hardened_rel (Dom.getAttribute "rel" e) in
         (Page.el x (Passes.run v Passes.ExternalLinks p) ≫= Dom.getAttribute "rel")
         = Some rel
         ∧ "noopener" ∈ JS.tokens rel
         ∧ "noreferrer" ∈ JS.tokens rel
         ∧ (∀ t, t ∈ JS.tokens (default "" (Dom.getAttribute "rel" e)) →
                 JS.toLowerCase t ∈ JS.tokens rel)
         ∧ (∀ l, (Page.el x (Passes.runs v l (Passes.run v Passes.ExternalLinks p))
                  ≫= Dom.getAttribute "rel") = Some rel).
Proof.
  intros Hwf Hx. destruct (FrameFacts.query_blank p x Hwf Hx) as (e & He & Hb).
  exists e. split; [done|]. cbn zeta. rewrite LinkFacts.tokens_hardened_rel.
  split_and!.
  - apply (FrameFacts.rel_kept v [] p x e Hwf He Hb).
  - apply LinkFacts.rel_set_need. apply elem_of_cons. by left.
  - apply LinkFacts.rel_set_need. apply elem_of_cons. right. apply elem_of_cons. by left.
  - intros t. apply LinkFacts.rel_set_old.
  - intros l. by apply FrameFacts.rel_kept.
Qed.

Lemma external_links_hardened_witness :
  (Page.el 18 (Passes.runs Passes.Second
                 [Passes.TableWrap; Passes.ExternalLinks; Passes.CopyLinks;
                  Passes.ExternalLinks]
                 (V2.initExternalLinks Sample.page0))
   ≫= Dom.getAttribute "rel")
  = Some "nofollow ugc noopener noreferrer".
Proof.
  destruct (external_links_hardened Sample.page0 Passes.Second 18%nat) as (e & He & H).
  - unfold Dom.wf. apply (bool_decide_unpack _). vm_compute. reflexivity.
  - apply (bool_decide_unpack _). vm_compute. reflexivity.
  - cbn zeta in H. destruct H as (_ & _ & _ & _ & H).
    change (V2.initExternalLinks Sample.page0)
      with (Passes.run Passes.Second Passes.ExternalLinks Sample.page0).
    rewrite H. vm_compute in He. injection He as <-. vm_compute. reflexivity.
Defined.

(** The link 18 of the sample page has [rel="NoFollow  UGC"]: the token
    [NoFollow] is there before the pass and not after it, in either
    version; its lower-case form is. *)
Lemma external_links_counterexample :
  let p := Sample.page0 in
  18%nat ∈ Page.queryAll V1.sel_blank p
  ∧ (Page.el 18 p ≫= Dom.getAttribute "rel") = Some "NoFollow  UGC"
  ∧ "NoFollow" ∈ JS.tokens "NoFollow  UGC"
  ∧ (Page.el 18 (V1.initExternalLinks p) ≫= Dom.getAttribute "rel")
    = Some "nofollow ugc noopener noreferrer"
  ∧ (Page.el 18 (V2.initExternalLinks p) ≫= Dom.getAttribute "rel")
    = Some "nofollow ugc noopener noreferrer"
  ∧ "NoFollow" ∉ JS.tokens "nofollow ugc noopener noreferrer".
Proof.
  split_and!; try (vm_compute; reflexivity);
    apply (bool_decide_unpack _); vm_compute; reflexivity.
Qed.

(** ** The duplicate-trigger guard of the second version *)

Module GuardFacts.

Import Dom Page DomFacts PageFacts.

Definition is_reset (ta : Z * timer_action) : bool :=
  match snd ta with ResetIgnoreClick => true | RestoreLabel _ => false end.

(** No callback resetting [ignoreClick] is pending. *)
Definition no_guard_pending (p : page) : Prop :=
  Forall (fun ta => snd ta ≠ ResetIgnoreClick) (timers p).

(** The attribute that holds the state of the drawer. *)
Definition drawer_state (m : menu_vars) (p : page) : option string :=
  el (drawer m) p ≫= getAttribute "data-open".

Lemma isOpen_state m p : V2.isOpen m p = bool_decide (drawer_state m p = Some "true").
Proof. reflexivity. Qed.

(** *** [setOpen] and [toggle] leave timers, clock and guard alone *)

Lemma timers_focus x p : timers (focus x p) = timers p.
Proof. unfold focus. destruct (el x p) as [e|]; [|done]. by destruct (focusable e). Qed.

Lemma now_focus x p : now (focus x p) = now p.
Proof. unfold focus. destruct (el x p) as [e|]; [|done]. by destruct (focusable e). Qed.

Lemma timers_safeFocus t p : timers (V1.safeFocus t p) = timers p.
Proof. destruct t as [[|x]|]; [done| |done]. apply timers_focus. Qed.

Lemma now_safeFocus t p : now (V1.safeFocus t p) = now p.
Proof. destruct t as [[|x]|]; [done| |done]. apply now_focus. Qed.

Lemma menu_safeFocus t p : menu (V1.safeFocus t p) = menu p.
Proof. destruct t as [[|x]|]; [done| |done]. apply menu_focus. Qed.

Lemma timers_setOpen o p : timers (V1.setOpen o p) = timers p.
Proof.
  unfold V1.setOpen. destruct (menu p) as [m|]; [|done].
  destruct o; by rewrite timers_safeFocus.
Qed.

Lemma now_setOpen o p : now (V1.setOpen o p) = now p.
Proof.
  unfold V1.setOpen. destruct (menu p) as [m|]; [|done].
  destruct o; by rewrite now_safeFocus.
Qed.

Lemma guard_setOpen o p : V2.get_ignoreClick (V1.setOpen o p) = V2.get_ignoreClick p.
Proof.
  unfold V2.get_ignoreClick, V1.setOpen. destruct (menu p) as [m|] eqn:Hm; [|by rewrite Hm].
  destruct o; rewrite menu_safeFocus.
  - reflexivity.
  - transitivity (match menu p with Some m0 => ignoreClick m0 | None => false end);
      [reflexivity|by rewrite Hm].
Qed.

Lemma toggle_setOpen p :
  V2.toggle p = match menu p with
                | Some m => V1.setOpen (negb (V2.isOpen m p)) p
                | None => p
                end.
Proof. unfold V2.toggle. rewrite Same.setOpen. by destruct (menu p). Qed.

Lemma timers_toggle p : timers (V2.toggle p) = timers p.
Proof. rewrite toggle_setOpen. destruct (menu p); [apply timers_setOpen|done]. Qed.

Lemma now_toggle p : now (V2.toggle p) = now p.
Proof. rewrite toggle_setOpen. destruct (menu p); [apply now_setOpen|done]. Qed.

Lemma guard_toggle p : V2.get_ignoreClick (V2.toggle p) = V2.get_ignoreClick p.
Proof. rewrite toggle_setOpen. destruct (menu p) eqn:Hm; [apply guard_setOpen|done]. Qed.

(** *** The state of the drawer *)

Lemma state_setOpen o m p :
  menu p = Some m → is_Some (el (drawer m) p) →
  drawer_state m (V1.setOpen o p) = Some (if o then "true" else "false").
Proof.
  intros Hm [d Hd]. unfold drawer_state. rewrite (MenuFacts.el_setOpen o m) by done.
  rewrite (MenuFacts.written_attr _ _ _ _ _ d) by done.
  rewrite Nat.eqb_refl, orb_true_r. simpl. by destruct (Nat.eqb _ _).
Qed.

Lemma isOpen_setOpen o m p :
  menu p = Some m → is_Some (el (drawer m) p) → V2.isOpen m (V1.setOpen o p) = o.
Proof.
  intros Hm Hd. rewrite isOpen_state, (state_setOpen o m p Hm Hd). by destruct o.
Qed.

Lemma state_fire a m p : drawer_state m (fire a p) = drawer_state m p.
Proof.
  destruct a as [|b]; [reflexivity|]. unfold drawer_state, fire.
  rewrite el_on_el by (by intros e). destruct (el (drawer m) p) as [e|]; [|done].
  simpl. unfold at_id. by destruct (Nat.eqb _ _).
Qed.

Lemma state_fires m l p :
  drawer_state m (foldl (fun q (ta : Z * timer_action) => fire (snd ta) q) p l)
  = drawer_state m p.
Proof.
  revert p. induction l as [|a l IH]; intros p; [done|]. cbn [foldl].
  by rewrite IH, state_fire.
Qed.

Lemma state_advance t m p : drawer_state m (advance t p) = drawer_state m p.
Proof.
  unfold advance.
  transitivity (drawer_state m
    (foldl (fun q (ta : Z * timer_action) => fire (snd ta) q)
       (set_timers (List.filter (fun ta => negb (fst ta <=? t)) (timers p)) p)
       (JS.sort (fun a b => inject_Z (fst a - fst b))
          (List.filter (fun ta => fst ta <=? t) (timers p)))));
    [reflexivity|].
  by rewrite state_fires.
Qed.

(** *** The guard while time passes *)

Lemma guard_fire_reset p : V2.get_ignoreClick (fire ResetIgnoreClick p) = false.
Proof.
  unfold V2.get_ignoreClick, fire.
  transitivity (match set_ignoreClick false <$> menu p with
                | Some m => ignoreClick m
                | None => false
                end); [reflexivity|].
  by destruct (menu p).
Qed.

Lemma guard_fire_label b p :
  V2.get_ignoreClick (fire (RestoreLabel b) p) = V2.get_ignoreClick p.
Proof. reflexivity. Qed.

Lemma guard_fires l p :
  V2.get_ignoreClick (foldl (fun q (ta : Z * timer_action) => fire (snd ta) q) p l)
  = if existsb is_reset l then false else V2.get_ignoreClick p.
Proof.
  revert p. induction l as [|[d a] l IH]; intros p; [done|]. cbn [foldl existsb].
  rewrite IH. unfold is_reset at 2. cbn [snd]. destruct a as [|b]; cbn [orb].
  - rewrite guard_fire_reset. by destruct (existsb is_reset l).
  - by rewrite guard_fire_label.
Qed.

Lemma existsb_sort_insert {A} (P : A → bool) cmp x l :
  existsb P (JS.sort_insert cmp x l) = P x || existsb P l.
Proof.
  induction l as [|y l IH]; [done|]. cbn [JS.sort_insert].
  destruct (Qle_bool _ _); [done|]. cbn [existsb]. rewrite IH.
  by destruct (P x), (P y).
Qed.

Lemma existsb_sort {A} (P : A → bool) cmp l : existsb P (JS.sort cmp l) = existsb P l.
Proof.
  induction l as [|x l IH]; [done|]. cbn [JS.sort existsb].
  by rewrite existsb_sort_insert, IH.
Qed.

Lemma guard_advance t p :
  V2.get_ignoreClick (advance t p)
  = if existsb is_reset (List.filter (fun ta => fst ta <=? t) (timers p)) then false
    else V2.get_ignoreClick p.
Proof.
  transitivity (V2.get_ignoreClick
    (foldl (fun q (ta : Z * timer_action) => fire (snd ta) q)
       (set_timers (List.filter (fun ta => negb (fst ta <=? t)) (timers p)) p)
       (JS.sort (fun a b => inject_Z (fst a - fst b))
          (List.filter (fun ta => fst ta <=? t) (timers p)))));
    [reflexivity|].
  by rewrite guard_fires, existsb_sort.
Qed.

Lemma no_reset_due t l :
  Forall (fun ta : Z * timer_action => snd ta ≠ ResetIgnoreClick) l →
  existsb is_reset (List.filter (fun ta => fst ta <=? t) l) = false.
Proof.
  induction 1 as [|[d a] l Ha _ IH]; [done|]. cbn [List.filter fst].
  destruct (d <=? t); [|done]. cbn [existsb]. rewrite IH.
  unfold is_reset. simpl in *. by destruct a.
Qed.

(** *** After a touch *)

(** The page a touch leaves, [act] being what the touch does to the drawer. *)
Definition touched (act : page → page) (p : page) : page :=
  setTimeout ResetIgnoreClick 450 (act (V2.put_ignoreClick true p)).

Lemma touched_btn e p : snd (V2.btn_onTouchend e p) = touched V2.toggle p.
Proof. reflexivity. Qed.

Lemma touched_scrim e p : snd (V2.scrim_onTouchend e p) = touched (V1.setOpen false) p.
Proof. unfold V2.scrim_onTouchend, V2.onClose. rewrite Same.setOpen. reflexivity. Qed.

Section Touch.

Context (act : page → page) (p : page) (m : menu_vars).
Hypothesis Hm : menu p = Some m.
Hypothesis act_timers : ∀ q, timers (act q) = timers q.
Hypothesis act_now : ∀ q, now (act q) = now q.
Hypothesis act_guard : ∀ q, V2.get_ignoreClick (act q) = V2.get_ignoreClick q.

Lemma touched_timers :
  timers (touched act p) = timers p ++ [(now p + 450, ResetIgnoreClick)].
Proof.
  unfold touched, setTimeout.
  transitivity (timers (act (V2.put_ignoreClick true p))
                ++ [(now (act (V2.put_ignoreClick true p)) + 450, ResetIgnoreClick)]);
    [reflexivity|].
  rewrite act_timers, act_now. reflexivity.
Qed.

Lemma touched_guard : V2.get_ignoreClick (touched act p) = true.
Proof.
  transitivity (V2.get_ignoreClick (act (V2.put_ignoreClick true p))); [reflexivity|].
  rewrite act_guard. unfold V2.get_ignoreClick, V2.put_ignoreClick.
  transitivity (match set_ignoreClick true <$> menu p with
                | Some m0 => ignoreClick m0
                | None => false
                end); [reflexivity|].
  by rewrite Hm.
Qed.

Lemma guard_in_window t :
  no_guard_pending p → t < now p + 450 →
  V2.get_ignoreClick (advance t (touched act p)) = true.
Proof.
  intros Hp Ht. rewrite guard_advance, touched_timers, List.filter_app, existsb_app.
  rewrite (no_reset_due t _ Hp). cbn [List.filter fst].
  destruct (Z.leb_spec (now p + 450) t); [lia|]. apply touched_guard.
Qed.

Lemma guard_after_window t :
  now p + 450 <= t → V2.get_ignoreClick (advance t (touched act p)) = false.
Proof.
  intros Ht. rewrite guard_advance, touched_timers, List.filter_app, existsb_app.
  cbn [List.filter fst]. destruct (Z.leb_spec (now p + 450) t); [|lia].
  cbn [existsb is_reset snd]. by rewrite orb_true_r.
Qed.

End Touch.


Lemma menu_put v p m :
  menu p = Some m → menu (V2.put_ignoreClick v p) = Some (set_ignoreClick v m).
Proof.
  intros Hm. transitivity (set_ignoreClick v <$> menu p); [reflexivity|]. by rewrite Hm.
Qed.

Lemma touched_state_toggle p m :
  menu p = Some m → is_Some (el (drawer m) p) →
  V2.isOpen m (touched V2.toggle p) = negb (V2.isOpen m p).
Proof.
  intros Hm Hd. pose proof (menu_put true p m Hm) as Hm'.
  rewrite isOpen_state.
  transitivity (bool_decide (drawer_state (set_ignoreClick true m)
                               (V2.toggle (V2.put_ignoreClick true p)) = Some "true"));
    [reflexivity|].
  rewrite toggle_setOpen, Hm'. rewrite state_setOpen by done.
  change (V2.isOpen (set_ignoreClick true m) (V2.put_ignoreClick true p))
    with (V2.isOpen m p).
  destruct (V2.isOpen m p); by case_bool_decide.
Qed.

Lemma touched_state_close p m :
  menu p = Some m → is_Some (el (drawer m) p) →
  V2.isOpen m (touched (V1.setOpen false) p) = false.
Proof.
  intros Hm Hd. pose proof (menu_put true p m Hm) as Hm'.
  rewrite isOpen_state.
  transitivity (bool_decide (drawer_state (set_ignoreClick true m)
                               (V1.setOpen false (V2.put_ignoreClick true p)) = Some "true"));
    [reflexivity|].
  rewrite state_setOpen by done. by case_bool_decide.
Qed.

Lemma isOpen_advance t m p : V2.isOpen m (advance t p) = V2.isOpen m p.
Proof. by rewrite !isOpen_state, state_advance. Qed.

End GuardFacts.

(** C9 (amended).  Second version, menu wired, drawer in the document.  A
    touch on the toggle button toggles the drawer and a touch on the scrim
    closes it.  When no reset of the guard was pending at the touch, then
    until 450 ms after it the click listeners of the toggle button and of
    the scrim do nothing at all, so the drawer stays as the touch left it:
    touch and synthesized click together act once.  From 450 ms on these
    listeners toggle and close again. *)
Theorem touch_guard_suppresses_click (p : Page.page) (m : Page.menu_vars)
    (touch : Page.event → Page.page → Page.event * Page.page) (o : bool)
    (ev : Page.event) :
  Page.menu p = Some m →
  is_Some (Page.el (Page.drawer m) p) →
  (touch = V2.btn_onTouchend ∧ o = negb (V2.isOpen m p))
  ∨ (touch = V2.scrim_onTouchend ∧ o = false) →
  let p1 := snd (touch ev p) in
  V2.isOpen m p1 = o
  ∧ (∀ t click ev',
       GuardFacts.no_guard_pending p → t < Page.now p + 450 →
       click = V2.btn_onClick ∨ click = V2.scrim_onClick →
       click ev' (Page.advance t p1) = (ev', Page.advance t p1)
       ∧ V2.isOpen m (Page.advance t p1) = o)
  ∧ (∀ t ev', Page.now p + 450 <= t →
       V2.btn_onClick ev' (Page.advance t p1) = V2.onToggle ev' (Page.advance t p1)
       ∧ V2.scrim_onClick ev' (Page.advance t p1) = V2.onClose ev' (Page.advance t p1)).
Proof.
  intros Hm Hd Htouch.
  assert (∃ act, (∀ e, snd (touch e p) = GuardFacts.touched act p)
                 ∧ (∀ q, Page.timers (act q) = Page.timers q)
                 ∧ (∀ q, Page.now (act q) = Page.now q)
                 ∧ (∀ q, V2.get_ignoreClick (act q) = V2.get_ignoreClick q)
                 ∧ V2.isOpen m (GuardFacts.touched act p) = o)
    as (act & Hact & A1 & A2 & A3 & Hstate).
  { destruct Htouch as [[-> ->]|[-> ->]].
    - exists V2.toggle. split_and!.
      + intros e. apply GuardFacts.touched_btn.
      + apply GuardFacts.timers_toggle.
      + apply GuardFacts.now_toggle.
      + apply GuardFacts.guard_toggle.
      + by apply GuardFacts.touched_state_toggle.
    - exists (V1.setOpen false). split_and!.
      + intros e. apply GuardFacts.touched_scrim.
      + apply GuardFacts.timers_setOpen.
      + apply GuardFacts.now_setOpen.
      + apply GuardFacts.guard_setOpen.
      + by apply GuardFacts.touched_state_close. }
  cbn zeta. rewrite Hact. split_and!.
  - done.
  - intros t click ev' Hp Ht Hclick.
    pose proof (GuardFacts.guard_in_window act p m Hm A1 A2 A3 t Hp Ht) as Hg.
    split; [|by rewrite GuardFacts.isOpen_advance].
    destruct Hclick as [->| ->]; unfold V2.btn_onClick, V2.scrim_onClick; by rewrite Hg.
  - intros t ev' Ht.
    pose proof (GuardFacts.guard_after_window act p A1 A2 t Ht) as Hg.
    unfold V2.btn_onClick, V2.scrim_onClick. by rewrite Hg.
Qed.

Lemma touch_guard_suppresses_click_witness :
  let p := Page.advance 1000 (V2.boot Sample.page0) in
  let p1 := snd (V2.btn_onTouchend (Page.click_on 3) p) in
  V2.isOpen (Page.Menu 3 4 7 None false) p1 = true
  ∧ V2.btn_onClick (Page.click_on 3) (Page.advance 1100 p1)
    = (Page.click_on 3, Page.advance 1100 p1)
  ∧ V2.isOpen (Page.Menu 3 4 7 None false) (Page.advance 1100 p1) = true
  ∧ V2.btn_onClick (Page.click_on 3) (Page.advance 1450 p1)
    = V2.onToggle (Page.click_on 3) (Page.advance 1450 p1).
Proof.
  intros p p1.
  pose proof (touch_guard_suppresses_click p (Page.Menu 3 4 7 None false)
                V2.btn_onTouchend true (Page.click_on 3)) as H.
  assert (Page.menu p = Some (Page.Menu 3 4 7 None false)) as Hm
    by (vm_compute; reflexivity).
  assert (is_Some (Page.el 4 p)) as Hd by (eexists; vm_compute; reflexivity).
  assert (true = negb (V2.isOpen (Page.Menu 3 4 7 None false) p)) as Ho
    by (vm_compute; reflexivity).
  specialize (H Hm Hd (or_introl (conj eq_refl Ho))). cbn zeta in H.
  destruct H as (H1 & H2 & H3).
  assert (Page.timers p = []) as Ht by (vm_compute; reflexivity).
  assert (GuardFacts.no_guard_pending p) as Hp
    by (unfold GuardFacts.no_guard_pending; rewrite Ht; constructor).
  assert (1100 < Page.now p + 450) as Hlt by (vm_compute; reflexivity).
  destruct (H2 1100 V2.btn_onClick (Page.click_on 3) Hp Hlt (or_introl eq_refl))
    as [H4 H5].
  assert (Page.now p + 450 <= 1450) as Hle by (vm_compute; discriminate).
  destruct (H3 1450 (Page.click_on 3) Hle) as [H6 _].
  split_and!; [exact H1|exact H4|exact H5|exact H6].
Defined.

(** After [boot] on the sample page a touch on the toggle button at 1000 ms
    opens the drawer.  The click on the drawer's link 5 at 1100 ms arrives
    with the guard set, and closes the drawer. *)
Lemma touch_guard_counterexample :
  let m := Page.Menu 3 4 7 None false in
  let p0 := V2.boot Sample.page0 in
  let p1 := V2.step 1000 (Page.TouchEnd 3) p0 in
  let p2 := V2.step 1100 (Page.Click 5) p1 in
  Page.menu p0 = Some m
  ∧ p1 = snd (V2.btn_onTouchend (Page.click_on 3) (Page.advance 1000 p0))
  ∧ V2.isOpen m p1 = true
  ∧ V2.get_ignoreClick (Page.advance 1100 p1) = true
  ∧ V2.isOpen m (Page.advance 1100 p1) = true
  ∧ V2.isOpen m p2 = false.
Proof. split_and!; vm_compute; reflexivity. Qed.

(** ** The two versions side by side *)

(** C10.  Outside the wiring of the mobile menu the second version does what
    the first does, on every page and every input: the click listener and
    the set-up of anchor scrolling, the set-up and the observer callback of
    the active-link highlighting, the table wrapping, the copy-link pass and
    the click listener of its buttons, the set-up, the loader and the
    observer callback of the lazy iframes, the external-link hardening, the
    Amazon chip, both halves of the scroll lock and the header offset. *)
Theorem versions_agree_outside_menu :
  (∀ e p, V2.anchors_onClick e p = V1.anchors_onClick e p)
  ∧ (∀ p, V2.initAnchors p = V1.initAnchors p)
  ∧ (∀ p, V2.initActiveNav p = V1.initActiveNav p)
  ∧ (∀ es p, V2.nav_onIntersect es p = V1.nav_onIntersect es p)
  ∧ (∀ p, V2.initTableWrap p = V1.initTableWrap p)
  ∧ (∀ p, V2.initCopyLinks p = V1.initCopyLinks p)
  ∧ (∀ b h p, V2.copylink_onClick b h p = V1.copylink_onClick b h p)
  ∧ (∀ p, V2.initLazyIframes p = V1.initLazyIframes p)
  ∧ (∀ p x, V2.load p x = V1.load p x)
  ∧ (∀ es p, V2.lazy_onIntersect es p = V1.lazy_onIntersect es p)
  ∧ (∀ p, V2.initExternalLinks p = V1.initExternalLinks p)
  ∧ (∀ p, V2.initAmazonMetaChip p = V1.initAmazonMetaChip p)
  ∧ (∀ p, V2.scrollLock.lock p = V1.scrollLock.lock p)
  ∧ (∀ p, V2.scrollLock.unlock p = V1.scrollLock.unlock p)
  ∧ (∀ p, V2.headerOffset p = V1.headerOffset p).
Proof.
  split_and!; intros.
  - by rewrite Same.anchors_onClick.
  - Same.unfold_versions. reflexivity.
  - by rewrite Same.initActiveNav.
  - by rewrite Same.nav_onIntersect.
  - by rewrite Same.initTableWrap.
  - by rewrite Same.initCopyLinks.
  - Same.unfold_versions. reflexivity.
  - by rewrite Same.initLazyIframes.
  - by rewrite Same.load.
  - by rewrite Same.lazy_onIntersect.
  - by rewrite Same.initExternalLinks.
  - by rewrite Same.initAmazonMetaChip.
  - by rewrite Same.lock.
  - by rewrite Same.unlock.
  - by rewrite Same.headerOffset.
Qed.

(** * Further properties of the script *)

(** ** The drawer: opening, closing, keyboard and resize *)

Module DrawerFacts.

Import Dom Page DomFacts PageFacts.

Lemma scroll_y_safeFocus t p : scroll_y (V1.safeFocus t p) = scroll_y p.
Proof. destruct t as [[|x]|]; [done| |done]. apply scroll_y_focus. Qed.

Lemma body_style_safeFocus t p : body_style (V1.safeFocus t p) = body_style p.
Proof. destruct t as [[|x]|]; [done| |done]. apply body_style_focus. Qed.

Lemma lock_y_focus x p : lock_y (focus x p) = lock_y p.
Proof. unfold focus. destruct (el x p) as [e|]; [|done]. by destruct (focusable e). Qed.

Lemma lock_y_safeFocus t p : lock_y (V1.safeFocus t p) = lock_y p.
Proof. destruct t as [[|x]|]; [done| |done]. apply lock_y_focus. Qed.

Lemma focus_active x f p :
  el x p = Some f → focusable f = true → focus x p = set_activeElement (El x) p.
Proof. intros Hf Hfo. unfold focus. by rewrite Hf, Hfo. Qed.

(** [setOpen], one branch at a time. *)
Lemma setOpen_false_eq m p :
  menu p = Some m →
  V1.setOpen false p
  = V1.safeFocus (match lastFocus m with Some f => Some f | None => Some (El (btn m)) end)
      (V1.scrollLock.unlock (MenuFacts.written m "false" p)).
Proof. intros Hm. unfold V1.setOpen. rewrite Hm. reflexivity. Qed.

Lemma setOpen_true_eq m p :
  menu p = Some m →
  V1.setOpen true p
  = V1.safeFocus (Some (El (drawer m)))
      (V1.scrollLock.lock
         (set_menu (Some (set_lastFocus (Some (activeElement p)) m))
            (MenuFacts.written m "true" p))).
Proof. intros Hm. unfold V1.setOpen. rewrite Hm. reflexivity. Qed.

Lemma menu_close m p : menu p = Some m → menu (V1.setOpen false p) = Some m.
Proof.
  intros Hm. rewrite (setOpen_false_eq m p Hm), GuardFacts.menu_safeFocus.
  transitivity (menu p); [reflexivity|done].
Qed.

Lemma menu_open m p :
  menu p = Some m →
  menu (V1.setOpen true p) = Some (set_lastFocus (Some (activeElement p)) m).
Proof.
  intros Hm. rewrite (setOpen_true_eq m p Hm), GuardFacts.menu_safeFocus. reflexivity.
Qed.

Lemma scroll_y_close m p : menu p = Some m → scroll_y (V1.setOpen false p) = lock_y p.
Proof.
  intros Hm. rewrite (setOpen_false_eq m p Hm), scroll_y_safeFocus.
  rewrite LockFacts.scroll_y_unlock. reflexivity.
Qed.

Lemma lock_y_close m p : menu p = Some m → lock_y (V1.setOpen false p) = 0.
Proof. intros Hm. rewrite (setOpen_false_eq m p Hm), lock_y_safeFocus. reflexivity. Qed.

Lemma body_style_close m p :
  menu p = Some m →
  body_style (V1.setOpen false p)
  = delete "width" (delete "right" (delete "left" (delete "top"
      (delete "position" (body_style p))))).
Proof.
  intros Hm. rewrite (setOpen_false_eq m p Hm), body_style_safeFocus.
  rewrite LockFacts.body_style_unlock. reflexivity.
Qed.

Lemma lock_y_open m p : menu p = Some m → lock_y (V1.setOpen true p) = scroll_y p.
Proof.
  intros Hm. rewrite (setOpen_true_eq m p Hm), lock_y_safeFocus.
  rewrite LockFacts.lock_y_lock. reflexivity.
Qed.

(** The three writes leave alone what [focus()] looks at. *)
Definition state_writes (m : menu_vars) (v : string) (e : element) : element :=
  at_id (btn m) (setAttribute "aria-expanded" v)
    (at_id (scrim m) (setAttribute "data-open" v)
       (at_id (drawer m) (setAttribute "data-open" v) e)).

Lemma el_written m v p y : el y (MenuFacts.written m v p) = state_writes m v <$> el y p.
Proof.
  unfold MenuFacts.written. rewrite !el_on_el by auto with dom.
  by destruct (el y p).
Qed.

Lemma focusable_setAttribute a v e :
  a ≠ "tabindex" → a ≠ "href" → a ≠ "disabled" →
  focusable (setAttribute a v e) = focusable e.
Proof.
  intros H1 H2 H3.
  unfold focusable, tabindex_valid, hasAttribute, getAttribute, setAttribute. simpl.
  by rewrite !lookup_insert_ne.
Qed.

Lemma focusable_at_id x a v e :
  a ≠ "tabindex" → a ≠ "href" → a ≠ "disabled" →
  focusable (at_id x (setAttribute a v) e) = focusable e.
Proof.
  intros. unfold at_id. destruct (Nat.eqb _ _); [by apply focusable_setAttribute|done].
Qed.

Lemma focusable_state_writes m v e : focusable (state_writes m v e) = focusable e.
Proof. unfold state_writes. by rewrite !focusable_at_id. Qed.

Lemma el_close m p y :
  menu p = Some m → el y (V1.setOpen false p) = state_writes m "false" <$> el y p.
Proof. intros Hm. by rewrite (MenuFacts.el_setOpen false m), el_written. Qed.

Lemma el_open m p y :
  menu p = Some m → el y (V1.setOpen true p) = state_writes m "true" <$> el y p.
Proof. intros Hm. by rewrite (MenuFacts.el_setOpen true m), el_written. Qed.

(** Closing gives the focus back. *)
Lemma active_close m p x f :
  menu p = Some m → lastFocus m = Some (El x) → el x p = Some f → focusable f = true →
  activeElement (V1.setOpen false p) = El x.
Proof.
  intros Hm Hl Hf Hfo. rewrite (setOpen_false_eq m p Hm), Hl.
  unfold V1.safeFocus. rewrite (focus_active x (state_writes m "false" f)).
  - reflexivity.
  - transitivity (el x (MenuFacts.written m "false" p)); [reflexivity|].
    by rewrite el_written, Hf.
  - by rewrite focusable_state_writes.
Qed.

(** Opening moves the focus into the drawer. *)
Lemma active_open m p d :
  menu p = Some m → el (drawer m) p = Some d → focusable d = true →
  activeElement (V1.setOpen true p) = El (drawer m).
Proof.
  intros Hm Hd Hfo. rewrite (setOpen_true_eq m p Hm).
  unfold V1.safeFocus. rewrite (focus_active (drawer m) (state_writes m "true" d)).
  - reflexivity.
  - transitivity (el (drawer m) (MenuFacts.written m "true" p)); [reflexivity|].
    by rewrite el_written, Hd.
  - by rewrite focusable_state_writes.
Qed.

Lemma isOpen_after o m p :
  menu p = Some m → is_Some (el (drawer m) p) → V1.isOpen m (V1.setOpen o p) = o.
Proof. apply GuardFacts.isOpen_setOpen. Qed.

Lemma isOpen_close m p :
  menu p = Some m → is_Some (el (drawer m) p) → V1.isOpen m (V1.setOpen false p) = false.
Proof. intros Hm Hd. by apply (GuardFacts.isOpen_setOpen false m p). Qed.

(** *** The keyboard *)

Lemma escape_closed m e p :
  menu p = Some m → V1.isOpen m p = false → V1.escape_onKeydown e p = (e, p).
Proof. intros Hm Ho. unfold V1.escape_onKeydown. by rewrite Hm, Ho, andb_false_r. Qed.

Lemma trap_closed m e p :
  menu p = Some m → V1.isOpen m p = false → V1.trap_onKeydown e p = (e, p).
Proof. intros Hm Ho. unfold V1.trap_onKeydown. by rewrite Hm, Ho. Qed.

Lemma keydown_two k shift p :
  V1.dispatch_keydown k shift p
  = V1.trap_onKeydown (fst (V1.escape_onKeydown (key_down k shift) p))
      (snd (V1.escape_onKeydown (key_down k shift) p)).
Proof. reflexivity. Qed.

Lemma same_keydown : V2.dispatch_keydown = V1.dispatch_keydown.
Proof. unfold V2.dispatch_keydown, V1.dispatch_keydown. Same.unfold_versions. reflexivity. Qed.

Lemma same_resize : V2.onResize = V1.onResize.
Proof. Same.unfold_versions. reflexivity. Qed.

Lemma same_trap : V2.trap_onKeydown = V1.trap_onKeydown.
Proof. Same.unfold_versions. reflexivity. Qed.

Lemma same_drawer_click : V2.drawer_onClick = V1.drawer_onClick.
Proof. Same.unfold_versions. reflexivity. Qed.

End DrawerFacts.

(** X1.  Opening the drawer and closing it again, in both versions: the
    drawer is closed, the window is back at the scroll position it had, the
    body has none of the five declarations of the lock, the lock holds no
    position, and the focus is back on the element that had it, when that
    element can take the focus. *)
Theorem drawer_open_close_round_trip (p : Page.page) (m : Page.menu_vars) :
  Page.menu p = Some m →
  is_Some (Page.el (Page.drawer m) p) →
  ∀ setOpen, setOpen = V1.setOpen ∨ setOpen = V2.setOpen →
  let q := setOpen false (setOpen true p) in
  V1.isOpen m q = false
  ∧ Page.scroll_y q = Page.scroll_y p
  ∧ Forall (fun prop => Page.body_style q !! prop = None) LockFacts.lock_props
  ∧ Page.lock_y q = 0
  ∧ (∀ x f, Page.activeElement p = Page.El x → Page.el x p = Some f →
            Page.focusable f = true → Page.activeElement q = Page.El x).
Proof.
  intros Hm [d Hd] setOpen Hver.
  assert (setOpen = V1.setOpen) as ->
    by (destruct Hver as [->| ->]; [done|apply Same.setOpen]).
  intros q. pose proof (DrawerFacts.menu_open m p Hm) as Hm1.
  set (m1 := Page.set_lastFocus (Some (Page.activeElement p)) m) in *.
  set (p1 := V1.setOpen true p) in *.
  assert (∀ y, Page.el y p1 = DrawerFacts.state_writes m "true" <$> Page.el y p) as Hel
    by (intros y; by apply DrawerFacts.el_open).
  split_and!.
  - apply (DrawerFacts.isOpen_close m1 p1 Hm1).
    change (Page.drawer m1) with (Page.drawer m). rewrite Hel, Hd. by eexists.
  - unfold q. rewrite (DrawerFacts.scroll_y_close m1 p1 Hm1).
    apply (DrawerFacts.lock_y_open m p Hm).
  - unfold q. rewrite (DrawerFacts.body_style_close m1 p1 Hm1).
    unfold LockFacts.lock_props. repeat constructor; by simplify_map_eq.
  - by apply (DrawerFacts.lock_y_close m1 p1).
  - intros x f Hact Hf Hfo.
    apply (DrawerFacts.active_close m1 p1 x (DrawerFacts.state_writes m "true" f) Hm1).
    + unfold m1. by rewrite Hact.
    + by rewrite Hel, Hf.
    + by rewrite DrawerFacts.focusable_state_writes.
Qed.

Lemma drawer_open_close_round_trip_witness :
  let p := Page.set_activeElement (Page.El 3) (V2.initMobileMenu Sample.page0) in
  let q := V2.setOpen false (V2.setOpen true p) in
  Page.scroll_y q = 120 ∧ Page.activeElement q = Page.El 3
  ∧ V1.isOpen (Page.Menu 3 4 7 None false) q = false.
Proof.
  intros p q.
  pose proof (drawer_open_close_round_trip p (Page.Menu 3 4 7 None false)) as H.
  assert (Page.menu p = Some (Page.Menu 3 4 7 None false)) as Hm
    by (vm_compute; reflexivity).
  assert (is_Some (Page.el 4 p)) as Hd by (eexists; vm_compute; reflexivity).
  specialize (H Hm Hd V2.setOpen (or_intror eq_refl)). cbn zeta in H.
  destruct H as (H1 & H2 & _ & _ & H5).
  split_and!.
  - exact H2.
  - eapply (H5 3%nat); [reflexivity|vm_compute; reflexivity|vm_compute; reflexivity].
  - exact H1.
Defined.

(** X16.  The toggle, in both versions, with the menu wired and the drawer in
    the document: it closes an open drawer and opens a closed one, a drawer
    without [data-open] or with any value other than ["true"] counting as
    closed; two toggles in a row leave the drawer as it was. *)
Theorem toggle_flips_drawer (p : Page.page) (m : Page.menu_vars) :
  Page.menu p = Some m →
  is_Some (Page.el (Page.drawer m) p) →
  ∀ toggle, toggle = V1.toggle ∨ toggle = V2.toggle →
  V1.isOpen m (toggle p) = negb (V1.isOpen m p)
  ∧ V1.isOpen m (toggle (toggle p)) = V1.isOpen m p
  ∧ ((Page.el (Page.drawer m) p ≫= Dom.getAttribute "data-open") ≠ Some "true" →
     (Page.el (Page.drawer m) (toggle p) ≫= Dom.getAttribute "data-open") = Some "true").
Proof.
  intros Hm Hd toggle Hver.
  assert (toggle = V1.toggle) as ->.
  { destruct Hver as [->| ->]; [done|]. Same.unfold_versions. reflexivity. }
  assert (∀ q m', Page.menu q = Some m' → V1.toggle q = V1.setOpen (negb (V1.isOpen m' q)) q)
    as Htoggle by (intros q m' Hq; unfold V1.toggle; by rewrite Hq).
  assert (V1.isOpen m (V1.toggle p) = negb (V1.isOpen m p)) as H1.
  { rewrite (Htoggle p m Hm). by apply (DrawerFacts.isOpen_after _ m p). }
  split_and!.
  - exact H1.
  - rewrite (Htoggle p m Hm). destruct (V1.isOpen m p) eqn:Ho; cbn [negb].
    + pose proof (DrawerFacts.menu_close m p Hm) as Hm1.
      rewrite (Htoggle _ m Hm1).
      rewrite (DrawerFacts.isOpen_after _ m _ Hm1).
      * by rewrite (DrawerFacts.isOpen_close m p Hm Hd).
      * rewrite (DrawerFacts.el_close m p _ Hm). destruct Hd as [d ->]. by eexists.
    + pose proof (DrawerFacts.menu_open m p Hm) as Hm1.
      rewrite (Htoggle _ _ Hm1).
      change (V1.isOpen m ?q)
        with (V1.isOpen (Page.set_lastFocus (Some (Page.activeElement p)) m) q).
      rewrite (DrawerFacts.isOpen_after _ _ _ Hm1).
      * change (V1.isOpen (Page.set_lastFocus (Some (Page.activeElement p)) m) ?q)
          with (V1.isOpen m q).
        by rewrite (DrawerFacts.isOpen_after true m p Hm Hd).
      * change (Page.drawer (Page.set_lastFocus (Some (Page.activeElement p)) m))
          with (Page.drawer m).
        rewrite (DrawerFacts.el_open m p _ Hm). destruct Hd as [d ->]. by eexists.
  - intros Hclosed. rewrite (Htoggle p m Hm).
    assert (V1.isOpen m p = false) as -> by (by apply bool_decide_eq_false_2).
    apply (GuardFacts.state_setOpen true m p Hm Hd).
Qed.

Lemma toggle_flips_drawer_witness :
  let p := V2.initMobileMenu Sample.page0 in
  (Page.el 4 (V2.toggle p) ≫= Dom.getAttribute "data-open") = Some "true".
Proof.
  intros p.
  pose proof (toggle_flips_drawer p (Page.Menu 3 4 7 None false)) as H.
  assert (Page.menu p = Some (Page.Menu 3 4 7 None false)) as Hm
    by (vm_compute; reflexivity).
  assert (is_Some (Page.el 4 p)) as Hd by (eexists; vm_compute; reflexivity).
  destruct (H Hm Hd V2.toggle (or_intror eq_refl)) as (_ & _ & H3).
  apply H3. vm_compute. discriminate.
Defined.

(** X2.  While the drawer is closed, or when the menu is not wired at all, no
    key and no resize does anything: the page stays as it is and the event
    is not touched, in both versions.  In particular neither of them calls
    the scroll lock. *)
Theorem closed_drawer_ignores_keys_and_resize (p : Page.page) :
  (∀ m, Page.menu p = Some m → V1.isOpen m p = false) →
  ∀ keydown resize,
    (keydown = V1.dispatch_keydown ∧ resize = V1.onResize)
    ∨ (keydown = V2.dispatch_keydown ∧ resize = V2.onResize) →
  (∀ k shift, keydown k shift p = (Page.key_down k shift, p))
  ∧ (∀ w, resize w p = p).
Proof.
  intros Hclosed keydown resize Hver.
  assert (keydown = V1.dispatch_keydown ∧ resize = V1.onResize) as [-> ->].
  { destruct Hver as [[-> ->]|[-> ->]]; [done|].
    by rewrite DrawerFacts.same_keydown, DrawerFacts.same_resize. }
  destruct (Page.menu p) as [m|] eqn:Hm.
  - specialize (Hclosed m eq_refl). split.
    + intros k shift. rewrite DrawerFacts.keydown_two.
      rewrite (DrawerFacts.escape_closed m) by done. cbn [fst snd].
      by apply (DrawerFacts.trap_closed m).
    + intros w. unfold V1.onResize. by rewrite Hm, Hclosed, andb_false_r.
  - split.
    + intros k shift. rewrite DrawerFacts.keydown_two.
      unfold V1.escape_onKeydown. rewrite Hm. cbn [fst snd].
      unfold V1.trap_onKeydown. by rewrite Hm.
    + intros w. unfold V1.onResize. by rewrite Hm.
Qed.

Lemma closed_drawer_ignores_keys_and_resize_witness :
  let p := V2.boot Sample.page0 in
  V2.dispatch_keydown "Escape" false p = (Page.key_down "Escape" false, p)
  ∧ V2.onResize 1024 p = p.
Proof.
  intros p.
  pose proof (closed_drawer_ignores_keys_and_resize p) as H.
  assert (∀ m, Page.menu p = Some m → V1.isOpen m p = false) as Hc.
  { intros m Hm. assert (Page.menu p = Some (Page.Menu 3 4 7 None false)) as Hm'
      by (vm_compute; reflexivity).
    rewrite Hm' in Hm. injection Hm as <-. vm_compute. reflexivity. }
  destruct (H Hc V2.dispatch_keydown V2.onResize (or_intror (conj eq_refl eq_refl)))
    as [H1 H2].
  split; [apply H1|apply H2].
Defined.

(** X3.  While the drawer is open, Escape closes it, and so does a resize to
    a width above 760; a resize to 760 or less does nothing.  Closing leaves
    the drawer closed and the window at the position the lock recorded.  The
    Escape key event is not prevented, and the focus trap, which runs after
    the Escape listener, sees a closed drawer and does nothing.  In both
    versions. *)
Theorem escape_and_widening_close_drawer (p : Page.page) (m : Page.menu_vars) :
  Page.menu p = Some m →
  is_Some (Page.el (Page.drawer m) p) →
  V1.isOpen m p = true →
  ∀ keydown resize,
    (keydown = V1.dispatch_keydown ∧ resize = V1.onResize)
    ∨ (keydown = V2.dispatch_keydown ∧ resize = V2.onResize) →
  let closed := V1.setOpen false p in
  (∀ shift, keydown "Escape" shift p = (Page.key_down "Escape" shift, closed))
  ∧ (∀ w, 760 < w → resize w p = closed)
  ∧ (∀ w, w <= 760 → resize w p = p)
  ∧ V1.isOpen m closed = false
  ∧ Page.scroll_y closed = Page.lock_y p.
Proof.
  intros Hm Hd Ho keydown resize Hver.
  assert (keydown = V1.dispatch_keydown ∧ resize = V1.onResize) as [-> ->].
  { destruct Hver as [[-> ->]|[-> ->]]; [done|].
    by rewrite DrawerFacts.same_keydown, DrawerFacts.same_resize. }
  intros closed.
  pose proof (DrawerFacts.isOpen_close m p Hm Hd) as Hc.
  split_and!.
  - intros shift. rewrite DrawerFacts.keydown_two.
    assert (V1.escape_onKeydown (Page.key_down "Escape" shift) p
            = (Page.key_down "Escape" shift, closed)) as ->.
    { unfold V1.escape_onKeydown. rewrite Hm, Ho. reflexivity. }
    cbn [fst snd]. apply (DrawerFacts.trap_closed m); [|done].
    by apply (DrawerFacts.menu_close m).
  - intros w Hw. unfold V1.onResize. rewrite Hm, Ho.
    by destruct (Z.ltb_spec 760 w); [|lia].
  - intros w Hw. unfold V1.onResize. rewrite Hm.
    by destruct (Z.ltb_spec 760 w); [lia|].
  - done.
  - by apply (DrawerFacts.scroll_y_close m).
Qed.

Lemma escape_and_widening_close_drawer_witness :
  let m := Page.Menu 3 4 7 None false in
  let p := V1.setOpen true (V1.initMobileMenu Sample.page0) in
  snd (V1.dispatch_keydown "Escape" false p) = V1.setOpen false p
  ∧ Page.scroll_y (V1.setOpen false p) = 120.
Proof.
  intros m p.
  pose proof (escape_and_widening_close_drawer p
                (Page.set_lastFocus (Some Page.Body) m)) as H.
  assert (Page.menu p = Some (Page.set_lastFocus (Some Page.Body) m)) as Hm
    by (vm_compute; reflexivity).
  assert (is_Some (Page.el 4 p)) as Hd by (eexists; vm_compute; reflexivity).
  assert (V1.isOpen (Page.set_lastFocus (Some Page.Body) m) p = true) as Ho
    by (vm_compute; reflexivity).
  specialize (H Hm Hd Ho V1.dispatch_keydown V1.onResize
                (or_introl (conj eq_refl eq_refl))).
  cbn zeta in H. destruct H as (H1 & _ & _ & _ & H5).
  split.
  - by rewrite H1.
  - rewrite H5. vm_compute. reflexivity.
Defined.

(** ** What takes the focus *)

Module FocusRules.

Import Dom Page DomFacts PageFacts.

(** An element after "give it [tabindex="-1"] unless it has a [tabindex]". *)
Definition with_tabindex (t : element) : element :=
  if hasAttribute "tabindex" t then t else setAttribute "tabindex" "-1" t.

Example parses_minus_one : parses_integer "-1" = true.
Proof. reflexivity. Qed.
Example parses_padded : parses_integer "  +12px" = true.
Proof. reflexivity. Qed.
Example parses_empty : parses_integer "" = false.
Proof. reflexivity. Qed.
Example parses_letters : parses_integer "abc" = false.
Proof. reflexivity. Qed.
Example parses_sign_only : parses_integer "-" = false.
Proof. reflexivity. Qed.

Lemma hidden_not_focusable f : displayed f = false → focusable f = false.
Proof. unfold focusable. by intros ->. Qed.

Lemma focus_refused x f p : el x p = Some f → focusable f = false → focus x p = p.
Proof. intros Hf Hfo. unfold focus. by rewrite Hf, Hfo. Qed.

Lemma tabindex_valid_set v e :
  tabindex_valid (setAttribute "tabindex" v e) = parses_integer v.
Proof.
  unfold tabindex_valid, getAttribute, setAttribute. cbn [attrs with_attrs].
  by rewrite lookup_insert_eq.
Qed.

(** The [tabindex] the script adds makes a displayed element focusable; one
    that had a [tabindex] stays as it was. *)
Lemma focusable_with_tabindex t :
  displayed t = true → hasAttribute "tabindex" t = false ∨ focusable t = true →
  focusable (with_tabindex t) = true.
Proof.
  intros Hd H. unfold with_tabindex. destruct (hasAttribute "tabindex" t) eqn:Ht.
  - by destruct H.
  - unfold focusable. rewrite tabindex_valid_set.
    cbn [displayed setAttribute with_attrs]. by rewrite Hd.
Qed.

Lemma hidden_with_tabindex t : displayed t = false → focusable (with_tabindex t) = false.
Proof.
  intros Hd. apply hidden_not_focusable. unfold with_tabindex.
  by destruct (hasAttribute "tabindex" t).
Qed.

Lemma data_open_with_tabindex t :
  getAttribute "data-open" (with_tabindex t) = getAttribute "data-open" t.
Proof.
  unfold with_tabindex. destruct (hasAttribute "tabindex" t); [done|].
  unfold getAttribute, setAttribute. cbn [attrs with_attrs]. by rewrite lookup_insert_ne.
Qed.

Lemma el_safeFocus t p y : el y (V1.safeFocus t p) = el y p.
Proof. unfold el. by rewrite MenuFacts.tree_safeFocus. Qed.

(** What the anchor listener leaves of the elements, after its scroll call. *)
Lemma el_after_scroll id target p y :
  el y (AnchorFacts.after_scroll id target p) = at_id target with_tabindex <$> el y p.
Proof.
  unfold AnchorFacts.after_scroll. rewrite el_safeFocus.
  set (p1 := match pushState ("#" +:+ id) p with Some p' => p' | None => p end).
  assert (tree p1 = tree p) as Htree
    by (unfold p1, pushState; by destruct (pushState_throws (platform p))).
  assert (∀ z, el z p1 = el z p) as Hel by (intros z; unfold el; by rewrite Htree).
  rewrite Hel. destruct (el target p) as [t|] eqn:Ht.
  - destruct (hasAttribute "tabindex" t) eqn:Hta.
    + rewrite Hel. destruct (el y p) as [e|] eqn:He; [|done].
      cbn [fmap option_fmap option_map]. f_equal. unfold at_id.
      rewrite (el_el_id _ _ _ He). destruct (Nat.eqb_spec y target) as [->|]; [|done].
      assert (e = t) as -> by congruence. unfold with_tabindex. by rewrite Hta.
    + rewrite el_on_el, Hel by auto with dom.
      destruct (el y p) as [e|] eqn:He; [|done].
      cbn [fmap option_fmap option_map]. f_equal. unfold at_id.
      rewrite (el_el_id _ _ _ He). destruct (Nat.eqb_spec y target) as [->|]; [|done].
      assert (e = t) as -> by congruence. unfold with_tabindex. by rewrite Hta.
  - rewrite Hel. destruct (el y p) as [e|] eqn:He; [|done].
    cbn [fmap option_fmap option_map]. f_equal. unfold at_id.
    rewrite (el_el_id _ _ _ He). destruct (Nat.eqb_spec y target) as [->|]; [|done].
    congruence.
Qed.

Lemma lock_y_after_scroll id target p :
  lock_y (AnchorFacts.after_scroll id target p) = lock_y p.
Proof.
  unfold AnchorFacts.after_scroll. rewrite DrawerFacts.lock_y_safeFocus.
  unfold pushState. destruct (pushState_throws (platform p)).
  - destruct (el target p) as [t|]; [|done]. by destruct (hasAttribute "tabindex" t).
  - destruct (el target _) as [t|]; [|done]. by destruct (hasAttribute "tabindex" t).
Qed.

Lemma history_after_scroll id target p :
  history_length (AnchorFacts.after_scroll id target p)
  = if pushState_throws (platform p) then history_length p else S (history_length p).
Proof.
  unfold AnchorFacts.after_scroll.
  set (p1 := match pushState ("#" +:+ id) p with Some p' => p' | None => p end).
  assert (history_length p1
          = if pushState_throws (platform p) then history_length p
            else S (history_length p)) as Hh
    by (unfold p1, pushState; by destruct (pushState_throws (platform p))).
  set (p2 := match el target p1 with
             | Some t => if hasAttribute "tabindex" t then p1
                         else on_el target (setAttribute "tabindex" "-1") p1
             | None => p1
             end).
  assert (history_length p2 = history_length p1) as Hh2.
  { unfold p2. destruct (el target p1) as [t|]; [|done].
    by destruct (hasAttribute "tabindex" t). }
  rewrite <- Hh, <- Hh2. destruct (el target p2) as [t|] eqn:Ht.
  - unfold V1.safeFocus, focus. rewrite Ht. by destruct (focusable t).
  - unfold V1.safeFocus, focus. by rewrite Ht.
Qed.

(** The focus after the listener: on the target when that can take it, where
    it was otherwise. *)
Lemma active_after_scroll id target p t :
  el target p = Some t →
  activeElement (AnchorFacts.after_scroll id target p)
  = if focusable (with_tabindex t) then El target else activeElement p.
Proof.
  intros Ht. pose proof (el_after_scroll id target p target) as Hel.
  rewrite Ht in Hel. cbn [fmap option_fmap option_map] in Hel. unfold at_id in Hel.
  rewrite (el_el_id _ _ _ Ht), Nat.eqb_refl in Hel.
  unfold AnchorFacts.after_scroll in *. rewrite el_safeFocus in Hel.
  set (p1 := match pushState ("#" +:+ id) p with Some p' => p' | None => p end) in *.
  set (p2 := match el target p1 with
             | Some t => if hasAttribute "tabindex" t then p1
                         else on_el target (setAttribute "tabindex" "-1") p1
             | None => p1
             end) in *.
  assert (activeElement p2 = activeElement p) as Ha.
  { unfold p2. destruct (el target p1) as [t'|].
    - destruct (hasAttribute "tabindex" t');
        unfold p1, pushState; by destruct (pushState_throws (platform p)).
    - unfold p1, pushState; by destruct (pushState_throws (platform p)). }
  unfold V1.safeFocus, focus. rewrite Hel.
  destruct (focusable (with_tabindex t)); [reflexivity|exact Ha].
Qed.

(** The anchor listener keeps the lock and the state of the drawer. *)
Lemma anchors_keep e p :
  lock_y (snd (V1.anchors_onClick e p)) = lock_y p
  ∧ (∀ m, V1.isOpen m (snd (V1.anchors_onClick e p)) = V1.isOpen m p)
  ∧ (defaultPrevented e = false →
     defaultPrevented (fst (V1.anchors_onClick e p)) = false →
     V1.anchors_onClick e p = (e, p)).
Proof.
  unfold V1.anchors_onClick.
  destruct (closest V1.sel_hash_link (Page.target e) (tree p)) as [a|]; [|done].
  destruct (getAttribute "href" a) as [href|]; [|done].
  destruct (negb (JS.truthy href) || bool_decide (href = "#")); [done|].
  destruct (getElementById (JS.slice1 href) (tree p)) as [target|]; [|done].
  cbn [fst snd].
  match goal with
  | |- context [V1.safeFocus (Some (El target)) ?q] =>
      change (V1.safeFocus (Some (El target)) q)
        with (AnchorFacts.after_scroll (JS.slice1 href) target
                (scrollTo_opts
                   (Z.max 0 (match el target p with Some t => rect_top t | None => 0 end
                             + window_pageYOffset p - V1.headerOffset p))
                   (if V1.prefersReducedMotion p then Auto else Smooth) p))
  end.
  split_and!.
  - by rewrite lock_y_after_scroll.
  - intros m. unfold V1.isOpen. rewrite el_after_scroll.
    change (el (drawer m) (scrollTo_opts ?y ?b p)) with (el (drawer m) p).
    destruct (el (drawer m) p) as [d|]; [|done].
    cbn [fmap option_fmap option_map mbind option_bind]. unfold at_id.
    destruct (Nat.eqb _ _); [|done]. by rewrite data_open_with_tabindex.
  - intros _ H. by destruct e.
Qed.

End FocusRules.

(** ** A click on a link of the drawer *)

Module ClickPath.

Import Dom Page DomFacts PageFacts.

(** The script has put no listener of its own on the element [y]. *)
Definition no_listener (p : page) (y : nid) : bool :=
  match el y p with
  | Some e => match listeners e with [] => true | _ :: _ => false end
  | None => true
  end.

(** [y] is none of the three elements of the menu and carries no listener. *)
Definition quiet (m : menu_vars) (p : page) (y : nid) : bool :=
  negb (Nat.eqb y (drawer m)) && negb (Nat.eqb y (btn m)) && negb (Nat.eqb y (scrim m))
  && no_listener p y.

(** The drawer is neither the toggle nor the scrim and carries no listener
    but its own. *)
Definition drawer_apart (m : menu_vars) (p : page) : bool :=
  negb (Nat.eqb (drawer m) (btn m)) && negb (Nat.eqb (drawer m) (scrim m))
  && no_listener p (drawer m).

Section Bubble.

Context (at_node : nid → page → list (event → page → event * page)).

Lemma bubble_stopped path e p :
  propagationStopped e = true → bubble at_node path e p = (e, p).
Proof. intros H. destruct path; [done|]. simpl. by rewrite H. Qed.

Lemma bubble_quiet path e p :
  (∀ y, y ∈ path → at_node y p = []) → bubble at_node path e p = (e, p).
Proof.
  induction path as [|y path IH]; intros H; [done|]. simpl.
  destruct (propagationStopped e); [done|].
  rewrite (H y) by (apply elem_of_cons; by left). cbn [run_listeners foldl fst snd].
  apply IH. intros z Hz. apply H, elem_of_cons. by right.
Qed.

Lemma bubble_app l1 l2 e p :
  bubble at_node (l1 ++ l2) e p
  = bubble at_node l2 (fst (bubble at_node l1 e p)) (snd (bubble at_node l1 e p)).
Proof.
  revert e p. induction l1 as [|y l1 IH]; intros e p; [done|].
  cbn [app bubble]. destruct (propagationStopped e) eqn:Hs.
  - cbn [fst snd]. by rewrite bubble_stopped.
  - apply IH.
Qed.

End Bubble.

Lemma copylink_none p y : no_listener p y = true → V1.copylink_listeners y p = [].
Proof.
  unfold no_listener, V1.copylink_listeners. destruct (el y p) as [e|]; [|done].
  by destruct (listeners e).
Qed.

Lemma listeners_quiet m p y :
  menu p = Some m → quiet m p y = true → V1.click_listeners y p = [].
Proof.
  intros Hm. unfold quiet. rewrite !andb_true_iff, !negb_true_iff.
  intros [[[H1 H2] H3] H4]. unfold V1.click_listeners.
  by rewrite Hm, H1, H2, H3, (copylink_none p y H4).
Qed.

Lemma listeners_drawer m p :
  menu p = Some m → drawer_apart m p = true →
  V1.click_listeners (drawer m) p = [V1.drawer_onClick].
Proof.
  intros Hm. unfold drawer_apart. rewrite !andb_true_iff, !negb_true_iff.
  intros [[H1 H2] H3]. unfold V1.click_listeners.
  by rewrite Hm, Nat.eqb_refl, H1, H2, (copylink_none p _ H3).
Qed.

Lemma listeners_state_writes m v e :
  listeners (DrawerFacts.state_writes m v e) = listeners e.
Proof.
  unfold DrawerFacts.state_writes, at_id.
  by repeat (destruct (Nat.eqb _ _); cbn [listeners setAttribute with_attrs]).
Qed.

Lemma quiet_after_close m p y :
  menu p = Some m → quiet m p y = true → quiet m (V1.setOpen false p) y = true.
Proof.
  intros Hm. unfold quiet, no_listener. rewrite (DrawerFacts.el_close m p y Hm).
  destruct (el y p) as [e|]; [|done]. cbn [fmap option_fmap option_map].
  by rewrite listeners_state_writes.
Qed.

(** The elements' listeners do not differ between the versions away from
    the toggle and the scrim. *)
Lemma same_listeners_quiet m p y :
  menu p = Some m → quiet m p y = true → V2.click_listeners y p = [].
Proof.
  intros Hm. unfold quiet. rewrite !andb_true_iff, !negb_true_iff.
  intros [[[H1 H2] H3] H4]. unfold V2.click_listeners.
  rewrite Hm, H1, H2, H3. apply (copylink_none p y H4).
Qed.

Lemma same_listeners_drawer m p :
  menu p = Some m → drawer_apart m p = true →
  V2.click_listeners (drawer m) p = [V1.drawer_onClick].
Proof.
  intros Hm. unfold drawer_apart. rewrite !andb_true_iff, !negb_true_iff.
  intros [[H1 H2] H3]. unfold V2.click_listeners.
  rewrite Hm, Nat.eqb_refl, H1, H2, DrawerFacts.same_drawer_click.
  cbn [app]. f_equal. apply (copylink_none p _ H3).
Qed.

(** An event that climbs through the drawer and meets no other listener:
    only the drawer's listener runs. *)
Lemma bubble_through_drawer at_node m p pre post e :
  menu p = Some m →
  forallb (quiet m p) (pre ++ post) = true →
  (∀ q y, menu q = Some m → quiet m q y = true → at_node y q = []) →
  at_node (drawer m) p = [V1.drawer_onClick] →
  propagationStopped e = false →
  bubble at_node (pre ++ drawer m :: post) e p = V1.drawer_onClick e p.
Proof.
  intros Hm Hq Hquiet Hd Hs. rewrite forallb_app, andb_true_iff in Hq.
  destruct Hq as [Hpre Hpost]. rewrite forallb_forall in Hpre, Hpost.
  rewrite bubble_app, (bubble_quiet at_node pre).
  2:{ intros y Hy. apply (Hquiet p y Hm), Hpre. by apply list_elem_of_In. }
  cbn [fst snd bubble]. rewrite Hs, Hd. cbn [run_listeners foldl fst snd].
  unfold V1.drawer_onClick.
  destruct (closest V1.sel_a (target e) (tree p)) as [a|]; cbn [fst snd].
  - apply bubble_quiet. intros y Hy.
    apply (Hquiet _ y (DrawerFacts.menu_close m p Hm)).
    apply quiet_after_close; [done|]. apply Hpost. by apply list_elem_of_In.
  - apply bubble_quiet. intros y Hy. apply (Hquiet p y Hm), Hpost.
    by apply list_elem_of_In.
Qed.

Lemma closest_in_link chain :
  closest_in V1.sel_a chain = None → closest_in V1.sel_hash_link chain = None.
Proof.
  induction chain as [|c chain IH]; [done|]. cbn [closest_in].
  destruct (matches V1.sel_a c chain) eqn:Ha; [done|]. intros H.
  assert (matches V1.sel_hash_link c chain = false) as ->; [|by apply IH].
  revert Ha. unfold matches, V1.sel_a, V1.sel_hash_link, matches_complex, matches_compound.
  cbn [existsb forallb under subject matches_simple].
  rewrite !orb_false_r, !andb_true_r. by intros ->.
Qed.

Lemma no_link_no_hash_link x d :
  closest V1.sel_a x d = None → closest V1.sel_hash_link x d = None.
Proof.
  unfold closest. destruct (entry_of x d) as [en|]; [|done]. apply closest_in_link.
Qed.

(** The whole click, in the first version and in the second. *)
Lemma dispatch_through_drawer m p x pre post :
  menu p = Some m →
  path_of x p = pre ++ drawer m :: post →
  forallb (quiet m p) (pre ++ post) = true →
  drawer_apart m p = true →
  V1.dispatch_click x p
  = V1.anchors_onClick (click_on x) (snd (V1.drawer_onClick (click_on x) p))
  ∧ V2.dispatch_click x p = V1.dispatch_click x p.
Proof.
  intros Hm Hpath Hq Hd.
  assert (bubble V1.click_listeners (path_of x p) (click_on x) p
          = V1.drawer_onClick (click_on x) p) as H1.
  { rewrite Hpath. apply (bubble_through_drawer _ m); try done.
    - intros q y. apply listeners_quiet.
    - by apply listeners_drawer. }
  assert (bubble V2.click_listeners (path_of x p) (click_on x) p
          = V1.drawer_onClick (click_on x) p) as H2.
  { rewrite Hpath. apply (bubble_through_drawer _ m); try done.
    - intros q y. apply same_listeners_quiet.
    - by apply same_listeners_drawer. }
  assert (fst (V1.drawer_onClick (click_on x) p) = click_on x) as He.
  { unfold V1.drawer_onClick. by destruct (closest _ _ _). }
  unfold V1.dispatch_click, V2.dispatch_click. cbn zeta.
  rewrite H1, H2, He, Same.anchors_onClick. done.
Qed.

End ClickPath.

(** X4.  A whole click on a link of the drawer, in both versions, when the
    click climbs through the drawer and meets no other listener of the
    script on its way (neither the toggle nor the scrim nor a copy-link
    button).  The drawer's listener runs first and closes the drawer,
    whether it was open or not; the document's anchor listener runs next,
    on the page so closed.  After both the drawer is closed and the lock
    holds no position.  When the anchor listener does not take the click
    (the default action is not prevented: the link is no hash link, or its
    fragment is empty or names no element), the page is the one the closing
    left, with the window at the position the lock held: the top of the
    page when none was recorded.  A click that is inside no link changes
    nothing. *)
Theorem drawer_link_click_closes (p : Page.page) (m : Page.menu_vars) (x : Dom.nid)
    (pre post : list Dom.nid) :
  Page.menu p = Some m →
  is_Some (Page.el (Page.drawer m) p) →
  Page.path_of x p = pre ++ Page.drawer m :: post →
  forallb (ClickPath.quiet m p) (pre ++ post) = true →
  ClickPath.drawer_apart m p = true →
  ∀ dispatch, dispatch = V1.dispatch_click ∨ dispatch = V2.dispatch_click →
  (is_Some (Dom.closest V1.sel_a x (Page.tree p)) →
   let q := snd (dispatch x p) in
   V1.isOpen m q = false
   ∧ Page.lock_y q = 0
   ∧ (Page.defaultPrevented (fst (dispatch x p)) = false →
      q = V1.setOpen false p
      ∧ Page.scroll_y q = Page.lock_y p
      ∧ (Page.lock_y p = 0 → Page.scroll_y q = 0)))
  ∧ (Dom.closest V1.sel_a x (Page.tree p) = None →
     dispatch x p = (Page.click_on x, p)).
Proof.
  intros Hm Hd Hpath Hq Hap dispatch Hver.
  destruct (ClickPath.dispatch_through_drawer m p x pre post Hm Hpath Hq Hap) as [H1 H2].
  assert (dispatch x p
          = V1.anchors_onClick (Page.click_on x)
              (snd (V1.drawer_onClick (Page.click_on x) p))) as Hdis
    by (destruct Hver as [->| ->]; [done|by rewrite H2]).
  split.
  - intros [a Ha]. cbn zeta. rewrite Hdis. unfold V1.drawer_onClick.
    change (Page.target (Page.click_on x)) with x. rewrite Ha. cbn [snd].
    destruct (FocusRules.anchors_keep (Page.click_on x) (V1.setOpen false p))
      as (Hlock & Hopen & Hsame).
    split_and!.
    + rewrite Hopen. by apply DrawerFacts.isOpen_close.
    + rewrite Hlock. by apply (DrawerFacts.lock_y_close m).
    + intros Hdp. rewrite (Hsame eq_refl Hdp). cbn [snd].
      pose proof (DrawerFacts.scroll_y_close m p Hm) as Hs.
      split_and!; [done|done|]. intros H0. by rewrite Hs.
  - intros Hno. rewrite Hdis. unfold V1.drawer_onClick.
    change (Page.target (Page.click_on x)) with x. rewrite Hno. cbn [snd].
    unfold V1.anchors_onClick. change (Page.target (Page.click_on x)) with x.
    by rewrite (ClickPath.no_link_no_hash_link x _ Hno).
Qed.

Lemma drawer_link_click_closes_witness :
  let p := V2.boot Sample.page0 in
  let m := Page.Menu 3 4 7 None false in
  Page.scroll_y p = 120
  ∧ V1.isOpen m (snd (V2.dispatch_click 5 p)) = false
  ∧ Page.lock_y (snd (V2.dispatch_click 5 p)) = 0
  ∧ Page.scroll_y (snd (V2.dispatch_click 26 p)) = 0.
Proof.
  intros p m.
  assert (Page.menu p = Some m) as Hm by (vm_compute; reflexivity).
  assert (is_Some (Page.el (Page.drawer m) p)) as Hd
    by (eexists; vm_compute; reflexivity).
  assert (ClickPath.drawer_apart m p = true) as Hap by (vm_compute; reflexivity).
  assert (Page.path_of 5 p = [5%nat] ++ Page.drawer m :: [1%nat; 0%nat]) as Hp5
    by (vm_compute; reflexivity).
  assert (forallb (ClickPath.quiet m p) ([5%nat] ++ [1%nat; 0%nat]) = true) as Hq5
    by (vm_compute; reflexivity).
  assert (Page.path_of 26 p = [26%nat] ++ Page.drawer m :: [1%nat; 0%nat]) as Hp26
    by (vm_compute; reflexivity).
  assert (forallb (ClickPath.quiet m p) ([26%nat] ++ [1%nat; 0%nat]) = true) as Hq26
    by (vm_compute; reflexivity).
  assert (is_Some (Dom.closest V1.sel_a 5 (Page.tree p))) as Ha5
    by (eexists; vm_compute; reflexivity).
  assert (is_Some (Dom.closest V1.sel_a 26 (Page.tree p))) as Ha26
    by (eexists; vm_compute; reflexivity).
  assert (Page.defaultPrevented (fst (V2.dispatch_click 26 p)) = false) as Hdp
    by (vm_compute; reflexivity).
  assert (Page.lock_y p = 0) as H0 by (vm_compute; reflexivity).
  destruct (drawer_link_click_closes p m 5%nat [5%nat] [1%nat; 0%nat] Hm Hd Hp5 Hq5 Hap
              V2.dispatch_click (or_intror eq_refl)) as [H5 _].
  destruct (H5 Ha5) as (Hopen & Hlock & _).
  destruct (drawer_link_click_closes p m 26%nat [26%nat] [1%nat; 0%nat] Hm Hd Hp26 Hq26
              Hap V2.dispatch_click (or_intror eq_refl)) as [H26 _].
  destruct (H26 Ha26) as (_ & _ & Hrest).
  destruct (Hrest Hdp) as (_ & _ & Htop).
  split_and!; [vm_compute; reflexivity|exact Hopen|exact Hlock|exact (Htop H0)].
Defined.

(** ** The focus trap *)

Module TrapFacts.

Import Dom Page DomFacts PageFacts ShapeFacts.

(** The elements the trap cycles through. *)
Definition cycle (m : menu_vars) (p : page) : list nid :=
  List.filter (fun x => match el x p with Some f => rendered f | None => false end)
              (querySelectorAll_in V1.sel_focusables (drawer m) (tree p)).

(** What the selector of the trap lets through. *)
Definition listed (e : element) : bool :=
  bool_decide (tagName e = "a") && hasAttribute "href" e
  || bool_decide (tagName e = "button") && negb (hasAttribute "disabled" e)
  || hasAttribute "tabindex" e && negb (bool_decide (getAttribute "tabindex" e = Some "-1")).

Lemma matches_focusables e anc : matches V1.sel_focusables e anc = listed e.
Proof.
  unfold matches, V1.sel_focusables, matches_complex, matches_compound, listed.
  cbn [existsb forallb under subject matches_simple].
  by rewrite !andb_true_r, orb_false_r, orb_assoc.
Qed.

(** A listed element that is displayed takes the focus, unless it is listed
    for a [tabindex] that is no integer. *)
Lemma listed_focusable e :
  listed e = true → displayed e = true →
  hasAttribute "tabindex" e = false ∨ tabindex_valid e = true →
  focusable e = true.
Proof.
  unfold listed, focusable. intros H -> Ht. cbn [andb].
  apply orb_true_iff in H as [H|H]; [apply orb_true_iff in H as [H|H]|].
  - rewrite H. by rewrite orb_true_r.
  - apply andb_true_iff in H as [Htag Hd]. apply bool_decide_eq_true in Htag.
    rewrite Hd, Htag. rewrite andb_true_r. apply orb_true_iff. right.
    apply bool_decide_eq_true. apply elem_of_cons. by left.
  - apply andb_true_iff in H as [Hta _]. destruct Ht as [Ht|Ht]; [congruence|].
    by rewrite Ht.
Qed.

Lemma query_in_elem sel root d x :
  NoDup (ids d) → x ∈ querySelectorAll_in sel root d →
  ∃ e anc, get x d = Some e ∧ matches sel e anc = true
           ∧ root ∈ map el_id anc ∧ entry_of x d = Some (e, anc).
Proof.
  intros Hnd. unfold querySelectorAll_in.
  intros ([e anc] & -> & Hin)%list_elem_of_fmap.
  apply list_elem_of_In, filter_In in Hin as [Hin [Hm Hr]%andb_true_iff].
  apply list_elem_of_In in Hin. cbn [fst snd] in *.
  pose proof (WrapFacts.entry_of_in d (e, anc) Hnd Hin) as Hen. cbn [fst] in Hen.
  exists e, anc. split_and!; [by unfold get; rewrite Hen|done| |done].
  apply existsb_exists in Hr as (a & Ha & Hid). apply Nat.eqb_eq in Hid.
  rewrite <- Hid. apply list_elem_of_fmap_2. by apply list_elem_of_In.
Qed.

Lemma cycle_listed m p x :
  NoDup (ids (tree p)) → x ∈ cycle m p →
  ∃ f, el x p = Some f ∧ listed f = true ∧ rendered f = true.
Proof.
  intros Hnd. unfold cycle. intros [Hin Hr]%list_elem_of_In%filter_In.
  apply list_elem_of_In in Hin.
  destruct (query_in_elem _ _ _ _ Hnd Hin) as (f & anc & Hf & Hm & _ & _).
  exists f. fold (el x p) in Hf. rewrite Hf in Hr.
  split_and!; [done|by rewrite <- (matches_focusables f anc)|done].
Qed.

Lemma trap_eq m e p :
  menu p = Some m → V1.isOpen m p = true → key e = "Tab" →
  V1.trap_onKeydown e p
  = match head (cycle m p), last (cycle m p) with
    | Some first, Some lst =>
        if shiftKey e && bool_decide (activeElement p = El first)
        then (preventDefault e, V1.safeFocus (Some (El lst)) p)
        else if negb (shiftKey e) && bool_decide (activeElement p = El lst)
        then (preventDefault e, V1.safeFocus (Some (El first)) p)
        else (e, p)
    | _, _ => (e, p)
    end.
Proof.
  intros Hm Ho Hk. unfold V1.trap_onKeydown. rewrite Hm, Ho, Hk.
  rewrite bool_decide_eq_true_2 by done. reflexivity.
Qed.

Lemma trap_other_key m e p :
  menu p = Some m → key e ≠ "Tab" → V1.trap_onKeydown e p = (e, p).
Proof.
  intros Hm Hk. unfold V1.trap_onKeydown. rewrite Hm.
  rewrite (bool_decide_eq_false_2 (key e = "Tab")) by done. by rewrite orb_true_r.
Qed.

(** [safeFocus] on an element of the page. *)
Lemma safeFocus_moves x f p :
  el x p = Some f → focusable f = true →
  V1.safeFocus (Some (El x)) p = set_activeElement (El x) p.
Proof. intros Hf Hfo. by apply DrawerFacts.focus_active with (f := f). Qed.

Lemma safeFocus_stays x f p :
  el x p = Some f → displayed f = false → V1.safeFocus (Some (El x)) p = p.
Proof.
  intros Hf Hd. apply (FocusRules.focus_refused x f); [done|].
  by apply FocusRules.hidden_not_focusable.
Qed.

End TrapFacts.



(** ** Wiring of the menu *)

(** X6.  [initMobileMenu], in both versions.  The toggle, the drawer and the
    scrim are each looked up by identifier first and by class second.  When
    one of them is missing nothing is wired and the page is untouched.
    Otherwise the three are wired, the drawer has a [tabindex] (its own, or
    [-1]) and no other element changes.  Opening the drawer then moves the
    focus into it when the drawer is displayed and either had no [tabindex]
    or could take the focus already. *)
Theorem menu_wiring_needs_all_three (p : Page.page) :
  ∀ init, init = V1.initMobileMenu ∨ init = V2.initMobileMenu →
  let btn := V1.or_el (Page.query (V1.sel_id "navToggle") p)
                      (Page.query (V1.sel_class "nav-toggle") p) in
  let drawer := V1.or_el (Page.query (V1.sel_id "mobile-nav") p)
                         (Page.query (V1.sel_class "mobile-nav") p) in
  let scrim := V1.or_el (Page.query (V1.sel_id "navScrim") p)
                        (Page.query (V1.sel_class "nav-scrim") p) in
  (btn = None ∨ drawer = None ∨ scrim = None → init p = p)
  ∧ (∀ b d s, btn = Some b → drawer = Some d → scrim = Some s →
       Page.menu (init p) = Some (Page.Menu b d s None false)
       ∧ (∀ y, y ≠ d → Page.el y (init p) = Page.el y p)
       ∧ (∃ de, Page.el d p = Some de
                ∧ Page.el d (init p)
                  = Some (if Dom.hasAttribute "tabindex" de then de
                          else Dom.setAttribute "tabindex" "-1" de)
                ∧ (Dom.displayed de = true →
                   Dom.hasAttribute "tabindex" de = false ∨ Page.focusable de = true →
                   Page.activeElement (V1.setOpen true (init p)) = Page.El d))).
Proof.
  intros init Hver.
  assert (init = V1.initMobileMenu) as ->
    by (destruct Hver as [->| ->]; [done|apply FrameFacts.same_menu_wiring]).
  intros btn drawer scrim. split.
  - unfold V1.initMobileMenu. fold btn drawer scrim.
    intros [->|[->| ->]]; [done|by destruct btn|by destruct btn, drawer].
  - intros b d s Hb Hd Hs.
    assert (is_Some (Page.el d p)) as [de Hde].
    { unfold drawer, V1.or_el, Page.query, Dom.querySelector in Hd.
      destruct (Dom.querySelectorAll (V1.sel_id "mobile-nav") (Page.tree p))
        as [|x l] eqn:Hq.
      - destruct (Dom.querySelectorAll (V1.sel_class "mobile-nav") (Page.tree p))
          as [|x l] eqn:Hq'; [done|]. injection Hd as ->.
        apply (NavFacts.query_exists (V1.sel_class "mobile-nav")). rewrite Hq'.
        apply elem_of_cons. by left.
      - injection Hd as ->.
        apply (NavFacts.query_exists (V1.sel_id "mobile-nav")). rewrite Hq.
        apply elem_of_cons. by left. }
    set (p1 := if Dom.hasAttribute "tabindex" de then p
               else Page.on_el d (Dom.setAttribute "tabindex" "-1") p).
    set (mv := Page.Menu b d s None false).
    assert (V1.initMobileMenu p = Page.set_menu (Some mv) p1) as Hinit.
    { unfold V1.initMobileMenu. fold btn drawer scrim. rewrite Hb, Hd, Hs, Hde.
      reflexivity. }
    assert (∀ y, Page.el y (V1.initMobileMenu p) = Page.el y p1) as Hel
      by (intros y; rewrite Hinit; reflexivity).
    assert (Page.el d p1 = Some (FocusRules.with_tabindex de)) as Hd1.
    { unfold p1, FocusRules.with_tabindex.
      destruct (Dom.hasAttribute "tabindex" de); [done|].
      rewrite PageFacts.el_on_el, Hde by apply DomFacts.keeps_id_setAttribute.
      cbn [fmap option_fmap option_map].
      unfold DomFacts.at_id. by rewrite (PageFacts.el_el_id _ _ _ Hde), Nat.eqb_refl. }
    assert (Page.menu (V1.initMobileMenu p) = Some mv) as Hmenu
      by (rewrite Hinit; reflexivity).
    split_and!.
    + exact Hmenu.
    + intros y Hy. rewrite Hel. unfold p1.
      destruct (Dom.hasAttribute "tabindex" de); [done|].
      rewrite PageFacts.el_on_el by apply DomFacts.keeps_id_setAttribute.
      destruct (Page.el y p) as [e|] eqn:He; [|done]. cbn [fmap option_fmap option_map].
      unfold DomFacts.at_id. rewrite (PageFacts.el_el_id _ _ _ He).
      by apply Nat.eqb_neq in Hy as ->.
    + exists de. split_and!; [done|by rewrite Hel|].
      intros Hdis Hta.
      apply (DrawerFacts.active_open mv _ (FocusRules.with_tabindex de) Hmenu).
      * by rewrite Hel.
      * by apply FocusRules.focusable_with_tabindex.
Qed.

Lemma menu_wiring_needs_all_three_witness :
  Page.menu (V2.initMobileMenu Sample.page0) = Some (Page.Menu 3 4 7 None false)
  ∧ Page.activeElement (V1.setOpen true (V2.initMobileMenu Sample.page0)) = Page.El 4.
Proof.
  destruct (menu_wiring_needs_all_three Sample.page0 V2.initMobileMenu
              (or_intror eq_refl)) as [_ H].
  destruct (H 3%nat 4%nat 7%nat) as (H1 & _ & de & Hde & _ & H4);
    [vm_compute; reflexivity..|].
  split; [exact H1|]. apply H4.
  - assert (Page.el 4 Sample.page0
            = Some (Dom.elem (Sample.mk 4 "nav" [("id", "mobile-nav")] ["mobile-nav"] 0 [])))
      as Hde' by (vm_compute; reflexivity).
    rewrite Hde' in Hde. injection Hde as <-. reflexivity.
  - left.
    assert (Page.el 4 Sample.page0
            = Some (Dom.elem (Sample.mk 4 "nav" [("id", "mobile-nav")] ["mobile-nav"] 0 [])))
      as Hde' by (vm_compute; reflexivity).
    rewrite Hde' in Hde. injection Hde as <-. vm_compute. reflexivity.
Defined.



(** ** Copy-link buttons: the click *)

Module CopyClick.

Import Dom Page DomFacts PageFacts.

(** What the button [b] shows. *)
Definition label (b : nid) (p : page) : option string := textContent <$> el b p.

Definition is_label (b : nid) (ta : Z * timer_action) : bool :=
  match snd ta with RestoreLabel b' => Nat.eqb b' b | ResetIgnoreClick => false end.

(** No callback restoring the label of [b] is pending. *)
Definition no_restore_pending (b : nid) (p : page) : Prop :=
  Forall (fun ta => is_label b ta = false) (timers p).

Lemma label_on_el b x s p :
  label b (on_el x (with_textContent s) p)
  = if Nat.eqb b x then (fun _ => s) <$> label b p else label b p.
Proof.
  unfold label. rewrite el_on_el by auto with dom.
  destruct (el b p) as [e|] eqn:He; [|by destruct (Nat.eqb b x)].
  cbn [fmap option_fmap option_map]. unfold at_id. rewrite (el_el_id _ _ _ He).
  by destruct (Nat.eqb b x).
Qed.

Lemma label_fire b a p :
  label b (fire a p)
  = if is_label b (0, a) then (fun _ => link_glyph) <$> label b p else label b p.
Proof.
  destruct a as [|b']; [reflexivity|]. unfold fire, is_label. cbn [snd].
  rewrite label_on_el. by rewrite (Nat.eqb_sym b b').
Qed.

Lemma label_fires b l p :
  label b (foldl (fun q (ta : Z * timer_action) => fire (snd ta) q) p l)
  = if existsb (is_label b) l then (fun _ => link_glyph) <$> label b p else label b p.
Proof.
  revert p. induction l as [|[d a] l IH]; intros p; [done|]. cbn [foldl existsb snd].
  rewrite IH, label_fire. change (is_label b (d, a)) with (is_label b (0, a)).
  destruct (is_label b (0, a)), (existsb (is_label b) l); cbn [orb]; try done.
  by destruct (label b p).
Qed.

Lemma label_advance t b p :
  label b (advance t p)
  = if existsb (is_label b) (List.filter (fun ta => fst ta <=? t) (timers p))
    then (fun _ => link_glyph) <$> label b p else label b p.
Proof.
  transitivity (label b
    (foldl (fun q (ta : Z * timer_action) => fire (snd ta) q)
       (set_timers (List.filter (fun ta => negb (fst ta <=? t)) (timers p)) p)
       (JS.sort (fun a b => inject_Z (fst a - fst b))
          (List.filter (fun ta => fst ta <=? t) (timers p)))));
    [reflexivity|].
  by rewrite label_fires, GuardFacts.existsb_sort.
Qed.

Lemma none_due b t l :
  Forall (fun ta => is_label b ta = false) l →
  existsb (is_label b) (List.filter (fun ta => fst ta <=? t) l) = false.
Proof.
  induction 1 as [|ta l Ha _ IH]; [done|]. cbn [List.filter].
  destruct (fst ta <=? t); [|done]. cbn [existsb]. by rewrite Ha, IH.
Qed.

(** The URL the click copies. *)
Definition link_to (h : nid) (p : page) : string :=
  origin (platform p) +:+ pathname (platform p) +:+ "#"
  +:+ match el h p with Some he => id_of he | None => "" end.

Lemma click_eq b h p :
  V1.copylink_onClick b h p
  = setTimeout (RestoreLabel b) 900
      (on_el b (with_textContent (if clipboard_rejects (platform p) then fail_glyph
                                  else ok_glyph))
         (if clipboard_rejects (platform p) then p else set_clipboard (link_to h p) p)).
Proof. unfold V1.copylink_onClick. by destruct (clipboard_rejects (platform p)). Qed.

Lemma click_timers b h p :
  timers (V1.copylink_onClick b h p) = timers p ++ [(now p + 900, RestoreLabel b)].
Proof. rewrite click_eq. by destruct (clipboard_rejects (platform p)). Qed.

Lemma click_el b h p y :
  el y (V1.copylink_onClick b h p)
  = at_id b (with_textContent (if clipboard_rejects (platform p) then fail_glyph
                               else ok_glyph)) <$> el y p.
Proof.
  rewrite click_eq.
  transitivity (el y (on_el b (with_textContent
                                 (if clipboard_rejects (platform p) then fail_glyph
                                  else ok_glyph)) p)).
  - by destruct (clipboard_rejects (platform p)).
  - by rewrite el_on_el by auto with dom.
Qed.

Lemma click_clipboard b h p :
  clipboard (V1.copylink_onClick b h p)
  = if clipboard_rejects (platform p) then clipboard p else link_to h p.
Proof. rewrite click_eq. by destruct (clipboard_rejects (platform p)). Qed.

Lemma same_click : V2.copylink_onClick = V1.copylink_onClick.
Proof. Same.unfold_versions. reflexivity. Qed.

End CopyClick.

(** X8.  A click on the copy-link button [b] of the heading [h], in both
    versions.  When the clipboard takes the text, the clipboard holds origin,
    path, [#] and the heading's identifier, and the button shows the check
    mark; when the clipboard refuses, it keeps what it had and the button
    shows the cross.  Nothing else in the document changes.  From 900 ms
    after the click the button shows the link glyph again; until then, when
    no earlier click on it is still waiting for its own 900 ms, it keeps
    showing the mark. *)
Theorem copylink_click_feedback (p : Page.page) (b h : Dom.nid) (be : Dom.element) :
  Page.el b p = Some be →
  ∀ onClick, onClick = V1.copylink_onClick ∨ onClick = V2.copylink_onClick →
  let q := onClick b h p in
  let rejects := Page.clipboard_rejects (Page.platform p) in
  CopyClick.label b q = Some (if rejects then Page.fail_glyph else Page.ok_glyph)
  ∧ Page.clipboard q = (if rejects then Page.clipboard p else CopyClick.link_to h p)
  ∧ (∀ y, y ≠ b → Page.el y q = Page.el y p)
  ∧ (∀ t, Page.now p + 900 <= t →
          CopyClick.label b (Page.advance t q) = Some Page.link_glyph)
  ∧ (∀ t, t < Page.now p + 900 → CopyClick.no_restore_pending b p →
          CopyClick.label b (Page.advance t q) = CopyClick.label b q).
Proof.
  intros Hb onClick Hver.
  assert (onClick = V1.copylink_onClick) as ->
    by (destruct Hver as [->| ->]; [done|apply CopyClick.same_click]).
  intros q rejects.
  assert (CopyClick.label b q
          = Some (if rejects then Page.fail_glyph else Page.ok_glyph)) as Hlabel.
  { unfold CopyClick.label, q. rewrite CopyClick.click_el, Hb.
    cbn [fmap option_fmap option_map]. unfold DomFacts.at_id.
    rewrite (PageFacts.el_el_id _ _ _ Hb), Nat.eqb_refl. reflexivity. }
  split_and!.
  - exact Hlabel.
  - apply CopyClick.click_clipboard.
  - intros y Hy. unfold q. rewrite CopyClick.click_el.
    destruct (Page.el y p) as [e|] eqn:He; [|done]. cbn [fmap option_fmap option_map].
    unfold DomFacts.at_id. rewrite (PageFacts.el_el_id _ _ _ He).
    by apply Nat.eqb_neq in Hy as ->.
  - intros t Ht. rewrite CopyClick.label_advance. unfold q at 1.
    rewrite CopyClick.click_timers, List.filter_app, existsb_app.
    cbn [List.filter fst]. destruct (Z.leb_spec (Page.now p + 900) t); [|lia].
    cbn [existsb]. unfold CopyClick.is_label at 2. cbn [snd].
    rewrite Nat.eqb_refl, orb_true_r. by rewrite Hlabel.
  - intros t Ht Hp. rewrite CopyClick.label_advance. unfold q at 1.
    rewrite CopyClick.click_timers, List.filter_app, existsb_app.
    rewrite (CopyClick.none_due b t _ Hp).
    cbn [List.filter fst]. by destruct (Z.leb_spec (Page.now p + 900) t); [lia|].
Qed.

Lemma copylink_click_feedback_witness :
  let p := V2.boot Sample.page0 in
  let q := V2.copylink_onClick 29 9 p in
  Page.clipboard q = "https://massagechaircanada.github.io/#sec1"
  ∧ CopyClick.label 29 q = Some Page.ok_glyph
  ∧ CopyClick.label 29 (Page.advance 899 q) = Some Page.ok_glyph
  ∧ CopyClick.label 29 (Page.advance 900 q) = Some Page.link_glyph.
Proof.
  intros p q.
  assert (∃ be, Page.el 29 p = Some be) as [be Hb]
    by (eexists; vm_compute; reflexivity).
  destruct (copylink_click_feedback p 29%nat 9%nat be Hb V2.copylink_onClick
              (or_intror eq_refl)) as (H1 & H2 & _ & H4 & H5).
  assert (Page.clipboard_rejects (Page.platform p) = false) as Hr
    by (vm_compute; reflexivity).
  rewrite Hr in H1, H2.
  assert (Page.now p = 0) as Hnow by (vm_compute; reflexivity).
  assert (Page.timers p = []) as Ht by (vm_compute; reflexivity).
  split_and!.
  - fold q in H2. rewrite H2. vm_compute. reflexivity.
  - exact H1.
  - fold q in H5, H1. rewrite H5; [exact H1|rewrite Hnow; lia|].
    unfold CopyClick.no_restore_pending. rewrite Ht. constructor.
  - apply H4. rewrite Hnow. lia.
Defined.

(** ** The value written to [rel] *)

(** X9.  The value the hardening writes, whatever the attribute held and
    also when it was missing, in both versions: its tokens are pairwise
    different, are separated by exactly one space with none before or after,
    and are [noopener], [noreferrer] and the lower-case forms of the old
    tokens, nothing else.  With no old token the value is
    [noopener noreferrer].  Hardening the value again gives the same
    value. *)
Theorem hardened_rel_is_canonical (old : option string) :
  ∀ hardened_rel, hardened_rel = V1.hardened_rel ∨ hardened_rel = V2.hardened_rel →
  let v := hardened_rel old in
  NoDup (JS.tokens v)
  ∧ JS.join " " (JS.tokens v) = v
  ∧ (∀ t, t ∈ JS.tokens v
          ↔ t ∈ ["noopener"; "noreferrer"]
            ∨ ∃ t0, t0 ∈ JS.tokens (default "" old) ∧ t = JS.toLowerCase t0)
  ∧ (JS.tokens (default "" old) = [] → v = "noopener noreferrer")
  ∧ hardened_rel (Some v) = v.
Proof.
  intros hardened_rel Hver.
  assert (hardened_rel = V1.hardened_rel) as ->
    by (destruct Hver as [->| ->]; [done|apply Same.hardened_rel]).
  intros v. unfold v. rewrite LinkFacts.tokens_hardened_rel. split_and!.
  - apply LinkFacts.rel_set_NoDup.
  - symmetry. apply LinkFacts.hardened_rel_join.
  - intros t. unfold LinkFacts.rel_set.
    rewrite JSFacts.elem_of_fold_add, JSFacts.elem_of_set_of.
    rewrite JSFacts.or_str_empty, JSFacts.tokens_toLowerCase, list_elem_of_fmap.
    unfold V1.need. split.
    + intros [(t0 & -> & H0)|H]; [right; by exists t0|by left].
    + intros [H|(t0 & H0 & ->)]; [by right|left; by exists t0].
  - intros Hnil. rewrite LinkFacts.hardened_rel_join. unfold LinkFacts.rel_set.
    by rewrite JSFacts.or_str_empty, JSFacts.tokens_toLowerCase, Hnil.
  - apply LinkFacts.hardened_rel_idem.
Qed.

Lemma hardened_rel_is_canonical_witness :
  NoDup (JS.tokens (V2.hardened_rel (Some "NoFollow  UGC")))
  ∧ V2.hardened_rel (Some (V2.hardened_rel (Some "NoFollow  UGC")))
    = V2.hardened_rel (Some "NoFollow  UGC").
Proof.
  destruct (hardened_rel_is_canonical (Some "NoFollow  UGC") V2.hardened_rel
              (or_intror eq_refl)) as (H1 & _ & _ & _ & H5).
  split; [exact H1|exact H5].
Defined.

(** ** Clicks in the two versions *)

(** X10.  As long as no touch has set the guard, the click listeners of the
    toggle button and of the scrim in the second version do to the page what
    those of the first version do; they differ in the event only, which the
    second version marks as handled (default prevented, propagation
    stopped) and the first leaves alone. *)
Theorem v2_click_refines_v1_when_unguarded (p : Page.page) (e : Page.event) :
  V2.get_ignoreClick p = false →
  snd (V2.btn_onClick e p) = snd (V1.btn_onClick e p)
  ∧ snd (V2.scrim_onClick e p) = snd (V1.scrim_onClick e p)
  ∧ fst (V2.btn_onClick e p) = Page.stopPropagation (Page.preventDefault e)
  ∧ fst (V2.scrim_onClick e p) = Page.stopPropagation (Page.preventDefault e)
  ∧ fst (V1.btn_onClick e p) = e
  ∧ fst (V1.scrim_onClick e p) = e.
Proof.
  intros Hg. unfold V2.btn_onClick, V2.scrim_onClick. rewrite Hg.
  assert (V2.toggle = V1.toggle) as Ht by (Same.unfold_versions; reflexivity).
  unfold V2.onToggle, V2.onClose. rewrite Ht, Same.setOpen. by split_and!.
Qed.

Lemma v2_click_refines_v1_when_unguarded_witness :
  let p := V2.initMobileMenu Sample.page0 in
  snd (V2.btn_onClick (Page.click_on 3) p) = snd (V1.btn_onClick (Page.click_on 3) p).
Proof.
  intros p.
  destruct (v2_click_refines_v1_when_unguarded p (Page.click_on 3)) as (H & _).
  - vm_compute. reflexivity.
  - exact H.
Defined.

(** ** The active-link observer: set-up and ties *)

Module TieFacts.

Import Dom Page.

Lemma head_sort_first l1 v l2 :
  Forall (fun x => (intersectionRatio x < intersectionRatio v)%Q) l1 →
  Forall (fun x => (intersectionRatio x <= intersectionRatio v)%Q) l2 →
  head (JS.sort V1.by_ratio (l1 ++ v :: l2)) = Some v.
Proof.
  intros H1 H2. induction H1 as [|x l1 Hx _ IH].
  - cbn [app JS.sort]. destruct (JS.sort V1.by_ratio l2) as [|y r] eqn:Hs; [done|].
    destruct (NavFacts.head_sort_by_ratio l2 y) as [Hy _]; [by rewrite Hs|].
    rewrite Forall_forall in H2. specialize (H2 y Hy).
    apply NavFacts.by_ratio_le in H2. cbn [JS.sort_insert]. by rewrite H2.
  - cbn [app JS.sort]. destruct (JS.sort V1.by_ratio (l1 ++ v :: l2)) as [|y r]; [done|].
    injection IH as ->. cbn [JS.sort_insert].
    destruct (Qle_bool (V1.by_ratio x v) 0) eqn:Hc; [|done].
    apply NavFacts.by_ratio_le in Hc. exfalso. by apply (Qlt_not_le _ _ Hx).
Qed.

End TieFacts.

(** X11.  Which entry of a batch the observer callback follows, in both
    versions: among the intersecting entries the one with the greatest
    ratio, and the first of them in the batch when several share that
    ratio.  The callback takes the active class off every navigation link
    and puts it on the links listed under the identifier of that entry's
    target. *)
Theorem nav_ties_go_to_the_first (q : Page.page) (n : Page.nav_vars)
    (es l1 l2 : list Page.entry) (v : Page.entry) :
  Page.nav q = Some n →
  List.filter Page.isIntersecting es = l1 ++ v :: l2 →
  Forall (fun x => (Page.intersectionRatio x < Page.intersectionRatio v)%Q) l1 →
  Forall (fun x => (Page.intersectionRatio x <= Page.intersectionRatio v)%Q) l2 →
  ∀ onIntersect, onIntersect = V1.nav_onIntersect ∨ onIntersect = V2.nav_onIntersect →
  onIntersect es q
  = NavFacts.activate
      (default [] (Page.mapIdToLinks n !! NavFacts.target_id v q)) (V1.clear n q).
Proof.
  intros Hn Hvis H1 H2 onIntersect Hver.
  assert (onIntersect = V1.nav_onIntersect) as ->
    by (destruct Hver as [->| ->]; [done|apply Same.nav_onIntersect]).
  apply NavFacts.batch_some; [done|]. unfold NavFacts.most_visible. rewrite Hvis.
  by apply TieFacts.head_sort_first.
Qed.

Lemma nav_ties_go_to_the_first_witness :
  let q := V1.initActiveNav Sample.page0 in
  let es := [Page.Entry 9 true (1 # 2); Page.Entry 22 false 1; Page.Entry 17 true (1 # 2)] in
  NavFacts.is_active 5 (V1.nav_onIntersect es q) = true
  ∧ NavFacts.is_active 6 (V1.nav_onIntersect es q) = false.
Proof.
  intros q es.
  assert (∃ n, Page.nav q = Some n) as [n Hn] by (eexists; vm_compute; reflexivity).
  pose proof (nav_ties_go_to_the_first q n es [] [Page.Entry 17 true (1 # 2)]
                (Page.Entry 9 true (1 # 2)) Hn eq_refl) as H.
  assert (Forall (fun x => (Page.intersectionRatio x
                            < Page.intersectionRatio (Page.Entry 9 true (1 # 2)))%Q) [])
    as H1 by constructor.
  assert (Forall (fun x => (Page.intersectionRatio x
                            <= Page.intersectionRatio (Page.Entry 9 true (1 # 2)))%Q)
            [Page.Entry 17 true (1 # 2)]) as H2.
  { constructor; [|constructor]. cbn. apply Qle_refl. }
  rewrite (H H1 H2 V1.nav_onIntersect (or_introl eq_refl)).
  vm_compute in Hn. injection Hn as <-.
  split; vm_compute; reflexivity.
Defined.

(** X12.  The set-up of the active-link observer, in both versions.  It never
    changes the document.  Without navigation links, without
    [IntersectionObserver], or when no link names an element of the
    document, it does nothing at all.  Otherwise the observed elements are
    those the links name, each once, and the map lists under every
    identifier the navigation links with that fragment, each once and in
    document order. *)
Theorem active_nav_setup (p : Page.page) :
  ∀ init, init = V1.initActiveNav ∨ init = V2.initActiveNav →
  let links := Page.queryAll V1.sel_nav_links p in
  let targets :=
    omap (fun a => Dom.getElementById (V1.href_id a p) (Page.tree p)) links in
  Page.tree (init p) = Page.tree p
  ∧ (links = [] ∨ Page.has_IntersectionObserver (Page.platform p) = false
     ∨ targets = [] → init p = p)
  ∧ (links ≠ [] → Page.has_IntersectionObserver (Page.platform p) = true →
     targets ≠ [] →
     ∃ n, Page.nav (init p) = Some n
          ∧ Page.navLinks n = links
          ∧ NoDup (Page.observed n)
          ∧ (∀ t, t ∈ Page.observed n ↔ t ∈ targets)
          ∧ (∀ i, default [] (Page.mapIdToLinks n !! i)
                  = List.filter (fun a => bool_decide (V1.href_id a p = i)) links)).
Proof.
  intros init Hver.
  assert (init = V1.initActiveNav) as ->
    by (destruct Hver as [->| ->]; [done|apply Same.initActiveNav]).
  intros links targets. unfold V1.initActiveNav. fold links. fold targets.
  split_and!.
  - destruct (_ || _); [done|]. by destruct (bool_decide _).
  - intros [->|[->| ->]]; [done|by rewrite orb_true_r|].
    by destruct (_ || _).
  - intros Hl Hio Ht. rewrite Hio, (bool_decide_eq_false_2 (links = [])) by done.
    cbn [orb negb]. rewrite (bool_decide_eq_false_2 (targets = [])) by done.
    eexists. split; [reflexivity|]. cbn [Page.navLinks Page.observed Page.mapIdToLinks].
    split_and!.
    + done.
    + apply NoDup_remove_dups.
    + intros t. apply elem_of_remove_dups.
    + intros i.
      change (default [] (foldl (NavFacts.group_step p) ∅ links !! i)
              = List.filter (fun a => bool_decide (V1.href_id a p = i)) links).
      by rewrite NavFacts.group_lookup, lookup_empty.
Qed.

Lemma active_nav_setup_witness :
  Page.tree (V2.initActiveNav Sample.page0) = Page.tree Sample.page0.
Proof.
  destruct (active_nav_setup Sample.page0 V2.initActiveNav (or_intror eq_refl))
    as (H1 & _ & _).
  exact H1.
Defined.

(** ** What the table wrapping leaves alone *)

(** X13.  The table-wrap pass, in both versions, on a document with unique
    handles: every element of the document is afterwards what it was (tag,
    attributes, classes, text), every element that is new is a [div] with
    the class [table-wrap] and nothing else, and the tables are the same,
    in the same order. *)
Theorem table_wrap_touches_no_element (p : Page.page) :
  Dom.wf (Page.next_id p) (Page.tree p) →
  ∀ init, init = V1.initTableWrap ∨ init = V2.initTableWrap →
  (∀ y e, Page.el y p = Some e → Page.el y (init p) = Some e)
  ∧ (∀ y e, Page.el y (init p) = Some e →
            Page.el y p = Some e
            ∨ (Page.el y p = None
               ∧ e = Dom.set_className "table-wrap" (Dom.createElement y "div")))
  ∧ Page.queryAll V1.sel_table (init p) = Page.queryAll V1.sel_table p.
Proof.
  intros Hwf init Hver.
  assert (init = V1.initTableWrap) as ->
    by (destruct Hver as [->| ->]; [done|apply Same.initTableWrap]).
  destruct (WrapPass.pass_effect p Hwf) as [I1 I2 I3 I4 I5 _ _ _ I9 _].
  split_and!.
  - intros y e He. unfold Page.el. rewrite I5; [done|].
    by apply (ShapeFacts.get_lt _ _ _ _ Hwf He).
  - intros y e He.
    assert (y ∈ Dom.ids (Page.tree (V1.initTableWrap p))) as Hy.
    { rewrite <- (DomFacts.get_el_id _ _ _ He). apply list_elem_of_fmap_2.
      by apply (ShapeFacts.get_in_elements y). }
    apply I3 in Hy as [Hy|Hy].
    + left. unfold Page.el in *. rewrite <- I5; [done|].
      destruct Hwf as [_ Hlt]. rewrite Forall_forall in Hlt. by apply Hlt.
    + right. split.
      * destruct (Page.el y p) as [e0|] eqn:H0; [|done].
        pose proof (ShapeFacts.get_lt _ _ _ _ Hwf H0). lia.
      * destruct (lookup_lt_is_Some_2 (WrapPass.wrapped p) (y - Page.next_id p))
          as [t Ht]; [lia|].
        destruct (I9 _ _ Ht) as (Hw & _). cbn zeta in Hw.
        replace (Page.next_id p + (y - Page.next_id p))%nat with y in Hw by lia.
        unfold Page.el in He. rewrite Hw in He. by injection He as <-.
  - exact I4.
Qed.

Lemma table_wrap_touches_no_element_witness :
  Page.el 10 (V2.initTableWrap Sample.page0) = Page.el 10 Sample.page0
  ∧ Page.queryAll V1.sel_table (V2.initTableWrap Sample.page0) = [10; 12; 14; 16]%nat.
Proof.
  destruct (table_wrap_touches_no_element Sample.page0) with (init := V2.initTableWrap)
    as (H1 & _ & H3).
  - unfold Dom.wf. apply (bool_decide_unpack _). vm_compute. reflexivity.
  - by right.
  - split.
    + assert (∃ e, Page.el 10 Sample.page0 = Some e) as [e He]
        by (eexists; vm_compute; reflexivity).
      by rewrite (H1 _ _ He).
    + rewrite H3. vm_compute. reflexivity.
Defined.

(** ** The whole of [boot] *)

Module BootFacts.

Import Dom Page DomFacts PageFacts ShapeFacts Passes FrameFacts.

(** The passes [boot] runs before the hardening. *)
Definition before_hardening : list pass :=
  [MobileMenu; Anchors; ActiveNav; TableWrap; CopyLinks; LazyIframes].

Lemma stable_other v ps q :
  ps ≠ ExternalLinks → wf (next_id q) (tree q) → stable q (run v ps q).
Proof.
  intros Hps Hwf. rewrite (run_first v ps). destruct ps; cbn [run]; try done.
  - by apply stable_initMobileMenu.
  - by apply stable_refl.
  - by apply stable_initActiveNav.
  - by apply stable_initTableWrap.
  - by apply stable_initCopyLinks.
  - by apply stable_initLazyIframes.
  - by apply stable_initAmazonMetaChip.
Qed.

Lemma stable_others v l :
  ExternalLinks ∉ l → ∀ q, wf (next_id q) (tree q) → stable q (runs v l q).
Proof.
  induction l as [|ps l IH]; intros Hl q Hwf; [by apply stable_refl|].
  apply not_elem_of_cons in Hl as [Hps Hl].
  unfold runs. cbn [foldl]. fold (runs v l (run v ps q)).
  pose proof (stable_other v ps q (not_eq_sym Hps) Hwf) as Hs.
  apply (stable_trans _ _ _ Hs). apply IH; [done|apply Hs].
Qed.

Lemma boot_split v p :
  runs v boot_order p
  = runs v [AmazonMetaChip] (run v ExternalLinks (runs v before_hardening p)).
Proof. reflexivity. Qed.

End BootFacts.

(** X14.  After [boot], in both versions, on a document with unique handles:
    every link [a[target="_blank"]] of the document as served has the [rel]
    the hardening makes of the served value, with [noopener] and
    [noreferrer] among its tokens; the passes that run before the hardening
    have not changed [rel], and the chip pass that runs after it does not
    change it either. *)
Theorem boot_hardens_every_new_tab_link (p : Page.page) (x : Dom.nid) (e : Dom.element) :
  Dom.wf (Page.next_id p) (Page.tree p) →
  x ∈ Page.queryAll V1.sel_blank p →
  Page.el x p = Some e →
  ∀ boot, boot = V1.boot ∨ boot = V2.boot →
  let rel := V1.hardened_rel (Dom.getAttribute "rel" e) in
  (Page.el x (boot p) ≫= Dom.getAttribute "rel") = Some rel
  ∧ "noopener" ∈ JS.tokens rel
  ∧ "noreferrer" ∈ JS.tokens rel.
Proof.
  intros Hwf Hx He boot Hver. cbn zeta.
  assert (∃ v, boot p = Passes.runs v Passes.boot_order p) as [v ->].
  { destruct Hver as [->| ->]; [by exists Passes.First|by exists Passes.Second]. }
  destruct (FrameFacts.query_blank p x Hwf Hx) as (e0 & He0 & Hb).
  rewrite He in He0. injection He0 as <-.
  assert (Passes.ExternalLinks ∉ BootFacts.before_hardening) as Hno.
  { unfold BootFacts.before_hardening. intros H.
    repeat (apply elem_of_cons in H as [H|H]; [done|]). by apply elem_of_nil in H. }
  destruct (BootFacts.stable_others v _ Hno p Hwf) as [W O _].
  destruct (O x e He) as (e1 & He1 & Hs).
  rewrite BootFacts.boot_split.
  rewrite (FrameFacts.rel_kept v [Passes.AmazonMetaChip] _ x e1 W He1).
  - destruct Hs as (_ & _ & ->). rewrite LinkFacts.tokens_hardened_rel.
    split_and!; [done| |]; apply LinkFacts.rel_set_need.
    + apply elem_of_cons. by left.
    + apply elem_of_cons. right. apply elem_of_cons. by left.
  - by rewrite (FrameFacts.same_link_blank _ _ Hs).
Qed.

Lemma boot_hardens_every_new_tab_link_witness :
  (Page.el 19 (V2.boot Sample.page0) ≫= Dom.getAttribute "rel")
  = Some "noopener noreferrer".
Proof.
  assert (∃ e, Page.el 19 Sample.page0 = Some e ∧ Dom.getAttribute "rel" e = None)
    as (e & He & Hrel) by (eexists; split; vm_compute; reflexivity).
  destruct (boot_hardens_every_new_tab_link Sample.page0 19%nat e) with (boot := V2.boot)
    as (H & _).
  - unfold Dom.wf. apply (bool_decide_unpack _). vm_compute. reflexivity.
  - apply (bool_decide_unpack _). vm_compute. reflexivity.
  - exact He.
  - by right.
  - rewrite H, Hrel. vm_compute. reflexivity.
Defined.

(** ** The Amazon chip *)

Module ChipFacts.

Import Dom Page DomFacts PageFacts ShapeFacts.

(** The chip the pass makes, with the handle [c]. *)
Definition chip (c : nid) : element :=
  with_textContent "Amazon.ca" (set_className "btn-meta" (createElement c "span")).

(** [btn.querySelector(".btn-meta")] finds something. *)
Definition has_chip (d : node) (b : nid) : bool :=
  match querySelector_in (V1.sel_class "btn-meta") b d with Some _ => true | None => false end.

(** The handles of the ancestors of [b]. *)
Definition anc_ids (b : nid) (d : node) : list nid :=
  match entry_of b d with Some en => map el_id (snd en) | None => [] end.

Lemma matches_meta e anc :
  matches (V1.sel_class "btn-meta") e anc = classList_contains "btn-meta" e.
Proof.
  unfold matches, V1.sel_class, matches_complex, matches_compound. simpl.
  by rewrite !andb_true_r, orb_false_r.
Qed.

Lemma has_chip_spec d b :
  has_chip d b = true
  ↔ ∃ e a, (e, a) ∈ all_entries d ∧ classList_contains "btn-meta" e = true
           ∧ b ∈ map el_id a.
Proof.
  unfold has_chip, querySelector_in, querySelectorAll_in.
  set (P := fun en : element * list element =>
              matches (V1.sel_class "btn-meta") (fst en) (snd en)
              && existsb (fun a => Nat.eqb (el_id a) b) (snd en)).
  assert (∀ en, P en = true ↔ classList_contains "btn-meta" (fst en) = true
                           ∧ b ∈ map el_id (snd en)) as HP.
  { intros [e a]. unfold P. cbn [fst snd]. rewrite andb_true_iff, matches_meta.
    rewrite existsb_exists, list_elem_of_fmap. split.
    - intros [Hc (x & Hx & Hid)]. split; [done|]. exists x. apply Nat.eqb_eq in Hid.
      split; [done|by apply list_elem_of_In].
    - intros [Hc (x & -> & Hx)]. split; [done|]. exists x.
      split; [by apply list_elem_of_In|apply Nat.eqb_refl]. }
  destruct (List.filter P (all_entries d)) as [|en l] eqn:Hf; cbn [map hd_error].
  - split; [done|]. intros (e & a & Hin & Hc & Hb).
    assert (In (e, a) (List.filter P (all_entries d))) as H.
    { apply filter_In. split; [by apply list_elem_of_In|]. by apply HP. }
    by rewrite Hf in H.
  - split; [|done]. intros _.
    assert (In en (List.filter P (all_entries d))) as H by (rewrite Hf; by left).
    apply filter_In in H as [Hin HPen]. apply HP in HPen as [Hc Hb].
    destruct en as [e a]. exists e, a. split_and!; [by apply list_elem_of_In|done|done].
Qed.

(** *** Entries after appending a leaf *)

Lemma entries_append_leaf h ce n anc en :
  en ∈ entries anc (append_under h (Node ce []) n)
  ↔ en ∈ entries anc n
    ∨ ∃ e a, (e, a) ∈ entries anc n ∧ el_id e = h ∧ en = (ce, e :: a).
Proof.
  revert anc. induction n as [e kids IH] using node_induction. intros anc.
  change (append_under h (Node ce []) (Node e kids))
    with (Node e (if Nat.eqb (el_id e) h
                  then map (append_under h (Node ce [])) kids ++ [Node ce []]
                  else map (append_under h (Node ce [])) kids)).
  cbn [entries].
  assert (en ∈ flat_map (entries (e :: anc)) (map (append_under h (Node ce [])) kids)
          ↔ en ∈ flat_map (entries (e :: anc)) kids
            ∨ ∃ e' a, (e', a) ∈ flat_map (entries (e :: anc)) kids
                      ∧ el_id e' = h ∧ en = (ce, e' :: a)) as Hkids.
  { rewrite flat_map_map. rewrite !list_elem_of_In, in_flat_map. split.
    - intros (k & Hk & Hin). apply list_elem_of_In in Hin, Hk.
      rewrite Forall_forall in IH. apply (IH k Hk) in Hin as [Hin|(e' & a & Hin & Hh & ->)].
      + left. apply in_flat_map. exists k. split; by apply list_elem_of_In.
      + right. exists e', a. split_and!; [|done|done].
        apply list_elem_of_In, in_flat_map. exists k. split; by apply list_elem_of_In.
    - intros [Hin|(e' & a & Hin & Hh & ->)].
      + apply in_flat_map in Hin as (k & Hk & Hin). exists k. split; [done|].
        apply list_elem_of_In. rewrite Forall_forall in IH.
        apply (IH k (proj2 (list_elem_of_In _ _) Hk)). left. by apply list_elem_of_In.
      + apply list_elem_of_In, in_flat_map in Hin as (k & Hk & Hin). exists k.
        split; [done|]. apply list_elem_of_In. rewrite Forall_forall in IH.
        apply (IH k (proj2 (list_elem_of_In _ _) Hk)). right. exists e', a.
        split_and!; [by apply list_elem_of_In|done|done]. }
  destruct (Nat.eqb_spec (el_id e) h) as [Heq|Hne].
  - rewrite flat_map_app. cbn [flat_map entries app].
    rewrite (elem_of_cons _ en (e, anc)), elem_of_app, Hkids, list_elem_of_singleton.
    split.
    + intros [->|[[Hin|(e' & a & Hin & Hh & ->)]| ->]].
      * left. apply elem_of_cons. by left.
      * left. apply elem_of_cons. by right.
      * right. exists e', a. split_and!; [apply elem_of_cons; by right|done|done].
      * right. exists e, anc. split_and!; [apply elem_of_cons; by left|done|done].
    + intros [[->|Hin]%elem_of_cons|(e' & a & [[= -> ->]|Hin]%elem_of_cons & Hh & ->)].
      * by left.
      * right. left. by left.
      * right. by right.
      * right. left. right. by exists e', a.
  - rewrite (elem_of_cons _ en (e, anc)), Hkids. split.
    + intros [->|[Hin|(e' & a & Hin & Hh & ->)]].
      * left. apply elem_of_cons. by left.
      * left. apply elem_of_cons. by right.
      * right. exists e', a. split_and!; [apply elem_of_cons; by right|done|done].
    + intros [[->|Hin]%elem_of_cons|(e' & a & [[= -> ->]|Hin]%elem_of_cons & Hh & ->)].
      * by left.
      * right. by left.
      * done.
      * right. right. by exists e', a.
Qed.

(** *** Document order: ancestors come first *)

Lemma flat_map_split {A B} (f : A → list B) l l1 y l2 :
  flat_map f l = l1 ++ y :: l2 →
  ∃ ks1 k ks2 m1 m2, l = ks1 ++ k :: ks2 ∧ f k = m1 ++ y :: m2
                     ∧ l1 = flat_map f ks1 ++ m1 ∧ l2 = m2 ++ flat_map f ks2.
Proof.
  revert l1. induction l as [|k l IH]; intros l1 H; cbn [flat_map] in H.
  - by destruct l1.
  - apply app_eq_inv in H as [(m & Hfk & Hrest)|(m & Hl1 & Hrest)].
    + destruct m as [|y' m].
      * rewrite app_nil_l in Hrest. rewrite app_nil_r in Hfk.
        destruct (IH [] ) as (ks1 & k' & ks2 & m1 & m2 & -> & Hk' & H1 & ->);
          [by rewrite Hrest|].
        symmetry in H1. apply app_eq_nil in H1 as [H1 ->].
        exists (k :: ks1), k', ks2, [], m2. split_and!; try done.
        cbn [flat_map]. by rewrite H1, app_nil_r, app_nil_r, Hfk.
      * injection Hrest as -> ->.
        exists [], k, l, l1, m. by split_and!.
    + destruct (IH m Hrest) as (ks1 & k' & ks2 & m1 & m2 & -> & Hk' & -> & ->).
      exists (k :: ks1), k', ks2, m1, m2. split_and!; try done.
      cbn [flat_map]. by rewrite Hl1, List.app_assoc.
Qed.

Lemma anc_before n :
  ∀ anc l1 e a l2, entries anc n = l1 ++ (e, a) :: l2 →
  ∀ x, x ∈ a → x ∈ anc ∨ x ∈ map fst l1.
Proof.
  induction n as [e0 kids IH] using node_induction. intros anc l1 e a l2 H x Hx.
  cbn [entries] in H. destruct l1 as [|en1 l1].
  - injection H as <- <- _. by left.
  - injection H as <- H.
    apply flat_map_split in H as (ks1 & k & ks2 & m1 & m2 & -> & Hk & -> & ->).
    rewrite Forall_forall in IH.
    assert (k ∈ ks1 ++ k :: ks2) as Hin
      by (apply elem_of_app; right; apply elem_of_cons; by left).
    destruct (IH k Hin _ _ _ _ _ Hk x Hx) as [[->|Hanc]%elem_of_cons|Hm1].
    + right. cbn [map fst]. apply elem_of_cons. by left.
    + by left.
    + right. cbn [map]. apply elem_of_cons. right. rewrite map_app.
      apply elem_of_app. by right.
Qed.

Lemma map_filter_split {A B} (g : A → B) (P : A → bool) E l1 b l2 :
  map g (List.filter P E) = l1 ++ b :: l2 →
  ∃ E1 en E2, E = E1 ++ en :: E2 ∧ g en = b ∧ l2 = map g (List.filter P E2).
Proof.
  revert l1. induction E as [|x E IH]; intros l1 H; [by destruct l1|].
  cbn [List.filter] in H. destruct (P x).
  - cbn [map] in H. destruct l1 as [|y l1].
    + injection H as Hx Hl. exists [], x, E. by split_and!.
    + injection H as _ H. destruct (IH l1 H) as (E1 & en & E2 & -> & Hg & Hl).
      exists (x :: E1), en, E2. by split_and!.
  - destruct (IH l1 H) as (E1 & en & E2 & -> & Hg & Hl).
    exists (x :: E1), en, E2. by split_and!.
Qed.

(** No later member of [l] is an ancestor of an earlier one. *)
Definition ordered (l : list nid) (d : node) : Prop :=
  ∀ l1 b l2, l = l1 ++ b :: l2 → ∀ r, r ∈ l2 → r ∉ anc_ids b d.

Lemma ordered_query sel d : NoDup (ids d) → ordered (querySelectorAll sel d) d.
Proof.
  intros Hnd l1 b l2 Hl r Hr Hanc. unfold querySelectorAll in Hl.
  apply map_filter_split in Hl as (E1 & en & E2 & HE & Hb & ->).
  apply list_elem_of_fmap in Hr as (en2 & -> & Hin2).
  apply list_elem_of_In, filter_In in Hin2 as [Hin2%list_elem_of_In _].
  assert (en ∈ all_entries d) as Hen
    by (rewrite HE; apply elem_of_app; right; apply elem_of_cons; by left).
  pose proof (WrapFacts.entry_of_in d en Hnd Hen) as Hent. rewrite Hb in Hent.
  unfold anc_ids in Hanc. rewrite Hent in Hanc.
  apply list_elem_of_fmap in Hanc as (x & Hx & Hxin).
  destruct en as [e a]. cbn [snd] in Hxin.
  destruct (anc_before d [] E1 e a E2 HE x Hxin) as [Hnil|Hx1];
    [by apply elem_of_nil in Hnil|].
  unfold ids, elements in Hnd. rewrite HE, !map_app in Hnd.
  apply NoDup_app in Hnd as (_ & Hdis & _).
  apply (Hdis (el_id x)); [by apply list_elem_of_fmap_2|].
  cbn [map]. apply elem_of_cons. right. rewrite <- Hx.
  apply list_elem_of_fmap_2. by apply list_elem_of_fmap_2.
Qed.

Lemma ordered_tail b l d :
  ordered (b :: l) d → ordered l d ∧ ∀ r, r ∈ l → r ∉ anc_ids b d.
Proof.
  intros Ho. split.
  - intros l1 b' l2 -> r Hr. by apply (Ho (b :: l1) b' l2).
  - intros r Hr. by apply (Ho [] b l).
Qed.

Lemma chip_skip q b : has_chip (tree q) b = true → V1.add_chip q b = q.
Proof.
  unfold has_chip, V1.add_chip.
  by destruct (querySelector_in (V1.sel_class "btn-meta") b (tree q)).
Qed.

(** *** One button without a chip *)

Section Step.

Context (q : page) (b : nid) (be : element) (ab : list element).
Hypothesis Hwf : wf (next_id q) (tree q).
Hypothesis Hb : entry_of b (tree q) = Some (be, ab).
Hypothesis Hno : has_chip (tree q) b = false.

Let c := next_id q.
Let d' := append_under b (Node (chip c) []) (tree q).

Lemma chip_eq : tree (V1.add_chip q b) = d' ∧ next_id (V1.add_chip q b) = S c.
Proof.
  unfold V1.add_chip. unfold has_chip in Hno.
  destruct (querySelector_in (V1.sel_class "btn-meta") b (tree q)); [done|].
  split; [|reflexivity].
  transitivity (appendChild b (Node (chip c) []) (tree q)); [reflexivity|].
  unfold appendChild. rewrite remove_fresh; [done|].
  apply (wf_fresh (next_id q)); [done|]. unfold nid_of. cbn. unfold c. lia.
Qed.

Lemma chip_wf : wf (S c) d'.
Proof. by apply wf_append_leaf. Qed.

Lemma chip_entries en :
  en ∈ all_entries d' ↔ en ∈ all_entries (tree q) ∨ en = (chip c, be :: ab).
Proof.
  unfold d', all_entries. rewrite entries_append_leaf. split.
  - intros [?|(e & a & Hin & Hid & ->)]; [by left|right].
    pose proof (WrapFacts.entry_of_in (tree q) (e, a) (proj1 Hwf) Hin) as H.
    cbn [fst] in H. rewrite Hid, Hb in H. by injection H as <- <-.
  - intros [?| ->]; [by left|right]. exists be, ab.
    destruct (WrapStep.entry_of_elem (tree q) b (be, ab) Hb) as [Hin Hid].
    by split_and!.
Qed.

Lemma chip_entry y : y ≠ c → entry_of y d' = entry_of y (tree q).
Proof.
  intros Hy. destruct (entry_of y (tree q)) as [en|] eqn:Hen.
  - destruct (WrapStep.entry_of_elem (tree q) y en Hen) as [Hin Hid].
    rewrite <- Hid. apply WrapFacts.entry_of_in; [apply chip_wf|].
    apply chip_entries. by left.
  - destruct (entry_of y d') as [en|] eqn:Hen'; [|done]. exfalso.
    destruct (WrapStep.entry_of_elem d' y en Hen') as [Hin Hid].
    apply chip_entries in Hin as [Hin| ->].
    + pose proof (WrapFacts.entry_of_in (tree q) en (proj1 Hwf) Hin) as H.
      rewrite Hid in H. congruence.
    + cbn in Hid. done.
Qed.

Lemma chip_anc y : y ≠ c → anc_ids y d' = anc_ids y (tree q).
Proof. intros Hy. unfold anc_ids. by rewrite chip_entry. Qed.

Lemma chip_get y : y ≠ c → get y d' = get y (tree q).
Proof. intros Hy. unfold get. by rewrite chip_entry. Qed.

Lemma chip_get_new : get c d' = Some (chip c).
Proof.
  apply (get_appended c b (chip c) (tree q) Hwf eq_refl).
  unfold get. rewrite Hb. by eexists.
Qed.

Lemma chip_has_chip r :
  has_chip d' r = true
  ↔ has_chip (tree q) r = true ∨ r = b ∨ r ∈ anc_ids b (tree q).
Proof.
  rewrite !has_chip_spec. unfold anc_ids. rewrite Hb. cbn [snd]. split.
  - intros (e & a & [Hin|[= -> ->]]%chip_entries & Hc & Hr).
    + left. by exists e, a.
    + right. cbn [map] in Hr. apply elem_of_cons in Hr as [->|Hr]; [left|by right].
      apply (WrapStep.entry_of_elem (tree q) b (be, ab) Hb).
  - intros [(e & a & Hin & Hc & Hr)|Hr].
    + exists e, a. split_and!; [apply chip_entries; by left|done|done].
    + exists (chip c), (be :: ab). split_and!; [apply chip_entries; by right|done|].
      cbn [map]. apply elem_of_cons. destruct Hr as [->|Hr]; [left|by right].
      symmetry. apply (WrapStep.entry_of_elem (tree q) b (be, ab) Hb).
Qed.

Lemma chip_kids y :
  y ≠ c →
  child_ids y d'
  = (fun l => if Nat.eqb y b then l ++ [c] else l) <$> child_ids y (tree q).
Proof.
  intros Hy. unfold d'. rewrite child_ids_append_under; [done|].
  rewrite ids_node. cbn. by intros ?%list_elem_of_singleton.
Qed.

Lemma chip_amazon x :
  x ∈ querySelectorAll V1.sel_amazon d' → x ∈ querySelectorAll V1.sel_amazon (tree q).
Proof.
  rewrite !elem_of_query. intros (en & [Hin| ->]%chip_entries & Hid & Hm).
  - by exists en.
  - done.
Qed.

End Step.

(** *** All the buttons *)

Record chip_effect (q q' : page) (l : list nid) : Prop := ChipEffect {
  ce_wf : wf (next_id q') (tree q');
  ce_next : (next_id q <= next_id q')%nat;
  ce_old : ∀ y, (y < next_id q)%nat → el y q' = el y q;
  ce_new : ∀ y e, el y q' = Some e → (next_id q <= y)%nat → e = chip y;
  ce_kids : ∀ y, (y < next_id q)%nat → y ∉ l →
            child_ids y (tree q') = child_ids y (tree q);
  ce_had : ∀ r, r ∈ l → has_chip (tree q) r = true →
           child_ids r (tree q') = child_ids r (tree q);
  ce_got : ∀ r, r ∈ l → has_chip (tree q) r = false →
           ∃ c, (next_id q <= c < next_id q')%nat
                ∧ child_ids r (tree q') = (fun ks => ks ++ [c]) <$> child_ids r (tree q)
                ∧ el c q' = Some (chip c);
  ce_all : ∀ r, r ∈ l → has_chip (tree q') r = true;
  ce_mono : ∀ y, has_chip (tree q) y = true → has_chip (tree q') y = true;
  ce_amazon : ∀ x, x ∈ queryAll V1.sel_amazon q' → x ∈ queryAll V1.sel_amazon q
}.

Lemma entry_lt next d y en : wf next d → entry_of y d = Some en → (y < next)%nat.
Proof.
  intros Hwf Hen. apply (get_lt next d y (fst en) Hwf). unfold get. by rewrite Hen.
Qed.

Lemma fold_chip l :
  ∀ q, wf (next_id q) (tree q) → NoDup l →
       Forall (fun b => is_Some (entry_of b (tree q))) l →
       ordered l (tree q) →
       chip_effect q (foldl V1.add_chip q l) l.
Proof.
  induction l as [|b l IH]; intros q Hwf Hnd Hex Hord.
  { cbn [foldl]. constructor; try done; try (by intros r ?%elem_of_nil).
    intros y e He Hy. pose proof (get_lt _ _ _ _ Hwf He). lia. }
  apply NoDup_cons in Hnd as [Hbl Hnd]. apply Forall_cons in Hex as [[[be ab] Hb] Hex].
  apply ordered_tail in Hord as [Hord Hanc].
  pose proof (entry_lt _ _ _ _ Hwf Hb) as Hblt.
  cbn [foldl]. destruct (has_chip (tree q) b) eqn:Hchip.
  { rewrite (chip_skip q b Hchip).
    destruct (IH q Hwf Hnd Hex Hord) as [I1 I2 I3 I4 I5 I6 I7 I8 I9 I10].
    constructor; try done.
    - intros y Hy [_ Hyl]%not_elem_of_cons. by apply I5.
    - intros r [->|Hr]%elem_of_cons Hc; [by apply I5|by apply I6].
    - intros r [->|Hr]%elem_of_cons Hc; [congruence|by apply I7].
    - intros r [->|Hr]%elem_of_cons; [by apply I9|by apply I8]. }
  destruct (chip_eq q b Hwf Hchip) as [Htree Hnext].
  set (c := next_id q) in *.
  set (d1 := append_under b (Node (chip c) []) (tree q)) in *.
  set (q1 := V1.add_chip q b) in *.
  pose proof (chip_wf q b Hwf) as Hwf1. fold c d1 in Hwf1.
  assert (∀ y, y ≠ c → entry_of y d1 = entry_of y (tree q)) as Hentry
    by (intros y Hy; by apply (chip_entry q b be ab)).
  assert (∀ y, y ≠ c → el y q1 = el y q) as Hel1.
  { intros y Hy. unfold el. rewrite Htree. by apply (chip_get q b be ab). }
  assert (el c q1 = Some (chip c)) as Helc.
  { unfold el. rewrite Htree. by apply (chip_get_new q b be ab). }
  assert (∀ r, r ∈ l → r ≠ c ∧ r ≠ b) as Hl.
  { intros r Hr. split; [|by intros ->]. rewrite Forall_forall in Hex.
    destruct (Hex r Hr) as [en Hen]. pose proof (entry_lt _ _ _ _ Hwf Hen). unfold c. lia. }
  destruct (IH q1) as [I1 I2 I3 I4 I5 I6 I7 I8 I9 I10].
  { by rewrite Htree, Hnext. }
  { done. }
  { rewrite Htree. apply Forall_forall. intros r Hr. rewrite Hentry by (by apply Hl).
    rewrite Forall_forall in Hex. by apply Hex. }
  { rewrite Htree. intros l1 b' l2 -> r Hr.
    rewrite (chip_anc q b be ab) by (done || apply Hl; apply elem_of_app; right;
                                    apply elem_of_cons; by left).
    by apply (Hord l1 b' l2). }
  rewrite Hnext in I2, I3, I4, I5, I7. rewrite Htree in I5, I6, I7, I9.
  unfold queryAll in I10 at 2. rewrite Htree in I10.
  assert (∀ r, r ∈ l → has_chip d1 r = has_chip (tree q) r) as Hsame.
  { intros r Hr. apply eq_true_iff_eq. unfold d1, c.
    rewrite (chip_has_chip q b be ab Hwf Hb). split; [|by left].
    intros [?|[->|Hin]]; [done|by destruct Hbl|by destruct (Hanc r Hr)]. }
  constructor.
  - done.
  - lia.
  - intros y Hy. rewrite I3 by lia. apply Hel1. unfold c. lia.
  - intros y e He Hy. destruct (decide (y = c)) as [->|Hyc].
    + rewrite I3, Helc in He by lia. by injection He as <-.
    + apply (I4 y e He). unfold c in *. lia.
  - intros y Hy [Hyb Hyl]%not_elem_of_cons. rewrite I5 by (done || lia).
    unfold d1, c. rewrite (chip_kids q b) by (unfold c in *; lia).
    apply Nat.eqb_neq in Hyb as ->. by destruct (child_ids y (tree q)).
  - intros r [->|Hr]%elem_of_cons Hc; [congruence|].
    rewrite I6 by (done || by rewrite Hsame). destruct (Hl r Hr) as [Hrc Hrb].
    unfold d1, c. rewrite (chip_kids q b) by done.
    apply Nat.eqb_neq in Hrb as ->. by destruct (child_ids r (tree q)).
  - intros r [->|Hr]%elem_of_cons Hc.
    + exists c. split; [unfold c; lia|split].
      * rewrite I5 by (done || lia). unfold d1, c.
        rewrite (chip_kids q b) by (unfold c in *; lia). by rewrite Nat.eqb_refl.
      * by rewrite I3 by lia.
    + destruct (I7 r Hr) as (c' & Hc' & Hkids & Helc'); [by rewrite Hsame|].
      destruct (Hl r Hr) as [Hrc Hrb]. exists c'.
      split; [unfold c in *; lia|split; [|done]].
      rewrite Hkids. unfold d1, c. rewrite (chip_kids q b) by done.
      apply Nat.eqb_neq in Hrb as ->. by destruct (child_ids r (tree q)).
  - intros r [->|Hr]%elem_of_cons; [|by apply I8].
    apply I9. unfold d1, c. apply (chip_has_chip q b be ab Hwf Hb). right. by left.
  - intros y Hy. apply I9. unfold d1, c. apply (chip_has_chip q b be ab Hwf Hb). by left.
  - intros x Hx. apply I10 in Hx. unfold queryAll. by apply (chip_amazon q b be ab Hwf Hb).
Qed.

Lemma chip_pass_effect p :
  wf (next_id p) (tree p) →
  chip_effect p (V1.initAmazonMetaChip p) (queryAll V1.sel_amazon p).
Proof.
  intros Hwf. unfold V1.initAmazonMetaChip. apply fold_chip; [done| | |].
  - apply NoDup_query, Hwf.
  - apply Forall_forall. intros b Hb.
    destruct (NavFacts.query_exists _ _ _ Hb) as [e He]. unfold get in He.
    destruct (entry_of b (tree p)); [by eexists|done].
  - apply ordered_query, Hwf.
Qed.

Lemma chip_pass_idem p :
  wf (next_id p) (tree p) →
  V1.initAmazonMetaChip (V1.initAmazonMetaChip p) = V1.initAmazonMetaChip p.
Proof.
  intros Hwf. destruct (chip_pass_effect p Hwf) as [_ _ _ _ _ _ _ I8 _ I10].
  unfold V1.initAmazonMetaChip at 1. apply fold_fixed. intros b Hb.
  apply chip_skip. by apply I8, I10.
Qed.

End ChipFacts.

(** X15.  The chip pass, in both versions, on a document with unique handles.
    A button [.btn.btn--amazon] with a [.btn-meta] somewhere inside keeps its
    children.  Every other such button gets exactly one new element as its
    last child, a [span] with the class [btn-meta] and the text [Amazon.ca];
    this also when the button is inside another such button.  Afterwards
    every such button has a [.btn-meta]; the elements of the document are
    what they were, the new ones are chips, and a second run changes
    nothing. *)
Theorem amazon_chip_once_per_button (p : Page.page) :
  Dom.wf (Page.next_id p) (Page.tree p) →
  ∀ init, init = V1.initAmazonMetaChip ∨ init = V2.initAmazonMetaChip →
  let q := init p in
  (∀ b, b ∈ Page.queryAll V1.sel_amazon p →
     ChipFacts.has_chip (Page.tree q) b = true
     ∧ (ChipFacts.has_chip (Page.tree p) b = true →
        ShapeFacts.child_ids b (Page.tree q) = ShapeFacts.child_ids b (Page.tree p))
     ∧ (ChipFacts.has_chip (Page.tree p) b = false →
        ∃ c, Page.el c p = None
             ∧ ShapeFacts.child_ids b (Page.tree q)
               = (fun ks => ks ++ [c]) <$> ShapeFacts.child_ids b (Page.tree p)
             ∧ Page.el c q = Some (ChipFacts.chip c)))
  ∧ (∀ y e, Page.el y p = Some e → Page.el y q = Some e)
  ∧ (∀ y e, Page.el y q = Some e → Page.el y p = Some e ∨ e = ChipFacts.chip y)
  ∧ init q = q.
Proof.
  intros Hwf init Hver.
  assert (init = V1.initAmazonMetaChip) as ->
    by (destruct Hver as [->| ->]; [done|apply Same.initAmazonMetaChip]).
  intros q. destruct (ChipFacts.chip_pass_effect p Hwf) as [I1 I2 I3 I4 I5 I6 I7 I8 I9 I10].
  split_and!.
  - intros b Hb. split_and!.
    + by apply I8.
    + by apply I6.
    + intros Hno. destruct (I7 b Hb Hno) as (c & Hc & Hkids & Hel).
      exists c. split; [|by split].
      destruct (Page.el c p) as [e|] eqn:He; [|done].
      pose proof (ShapeFacts.get_lt _ _ _ _ Hwf He). lia.
  - intros y e He. unfold q. rewrite I3; [done|].
    by apply (ShapeFacts.get_lt _ _ _ _ Hwf He).
  - intros y e He. destruct (decide (y < Page.next_id p)%nat) as [Hy|Hy].
    + left. by rewrite <- (I3 y Hy).
    + right. apply (I4 y e He). lia.
  - by apply ChipFacts.chip_pass_idem.
Qed.

Lemma amazon_chip_once_per_button_witness :
  let q := V2.initAmazonMetaChip Sample.page0 in
  ShapeFacts.child_ids 21 (Page.tree q) = Some [27%nat]
  ∧ Page.el 27 q = Some (ChipFacts.chip 27)
  ∧ V2.initAmazonMetaChip q = q.
Proof.
  intros q.
  destruct (amazon_chip_once_per_button Sample.page0) with (init := V2.initAmazonMetaChip)
    as (H1 & _ & _ & H4).
  - unfold Dom.wf. apply (bool_decide_unpack _). vm_compute. reflexivity.
  - by right.
  - destruct (H1 21%nat) as (_ & _ & H3);
      [apply (bool_decide_unpack _); vm_compute; reflexivity|].
    destruct H3 as (c & Hc & Hkids & Hel); [vm_compute; reflexivity|].
    fold q in Hkids, Hel, H4.
    assert (ShapeFacts.child_ids 21 (Page.tree q) = Some [27%nat]) as Hk
      by (vm_compute; reflexivity).
    rewrite Hk in Hkids.
    assert (ShapeFacts.child_ids 21 (Page.tree Sample.page0) = Some []) as Hk0
      by (vm_compute; reflexivity).
    rewrite Hk0 in Hkids. injection Hkids as <-.
    split_and!; [exact Hk|exact Hel|exact H4].
Defined.
